(** * Pack: a shallow embedding of pgBackRest's [common/type/pack.c]

    The development follows the C file top to bottom: machine integers,
    the type table, the reader ([PackRead]) and the writer ([PackWrite]).
    Exceptions ([THROW]) and debug assertions ([ASSERT]) are results of an
    error monad; the mutable [this] object is threaded as state.

    Scope of the model: the buffer-backed constructors [pckReadNewBuf] and
    [pckWriteNewBuf] ([this->read == NULL], [this->write == NULL]), with
    [size_t] taken to be 64 bits wide. *)

From Stdlib Require Import String Ascii DecimalString ZArith List Lia Bool.
Import ListNotations.
Open Scope Z_scope.

(** ** Machine integers: C's unsigned conversions, wrap-around written out *)

Definition u8 (x : Z) : Z := x mod 256.
Definition u32 (x : Z) : Z := x mod 4294967296.
Definition u64 (x : Z) : Z := x mod 18446744073709551616.

(** [printf]'s [%u] *)
Definition fmtUInt (x : Z) : string :=
  NilZero.string_of_uint (N.to_uint (Z.to_N x)).

(** ** Errors and the state-and-exception monad *)

Inductive PackError : Type :=
| FormatError (message : string)      (* THROW(FormatError, ...) *)
| AssertError (condition : string)    (* a failed ASSERT() *)
| Undefined (what : string)           (* behaviour C leaves undefined *)
| OutOfFuel.                          (* loop bound of the model exhausted *)

Inductive Result (A : Type) : Type :=
| Ok (a : A)
| Throw (e : PackError).

Arguments Ok {A} a.
Arguments Throw {A} e.

Definition Act (S A : Type) : Type := S -> Result (A * S).

Definition ret {S A : Type} (a : A) : Act S A := fun s => Ok (a, s).

Definition bind {S A B : Type} (m : Act S A) (k : A -> Act S B) : Act S B :=
  fun s =>
    match m s with
    | Ok (a, s') => k a s'
    | Throw e => Throw e
    end.

Definition throw {S A : Type} (e : PackError) : Act S A := fun _ => Throw e.

(** A result that does not depend on the state *)
Definition lift {S A : Type} (r : Result A) : Act S A :=
  fun s =>
    match r with
    | Ok a => Ok (a, s)
    | Throw e => Throw e
    end.

Definition gets {S A : Type} (f : S -> A) : Act S A := fun s => Ok (f s, s).

Definition modify {S : Type} (f : S -> S) : Act S unit := fun s => Ok (tt, f s).

Definition when {S : Type} (c : bool) (m : Act S unit) : Act S unit :=
  if c then m else ret tt.

Definition assert {S : Type} (c : bool) (condition : string) : Act S unit :=
  if c then ret tt else throw (AssertError condition).

Declare Scope act_scope.
Delimit Scope act_scope with act.
Notation "x <- m ;; k" := (bind m (fun x => k))
  (at level 61, m at next level, right associativity) : act_scope.
Notation "m ;; k" := (bind m (fun _ => k))
  (at level 61, right associativity) : act_scope.
Open Scope act_scope.

(** ** Constants *)

Definition PACK_UINT64_SIZE_MAX : nat := 10.

(** ** Type data *)

(** Modelled from the spec: the enum [PackType] is declared in [pack.h],
    which is not among the files of this development.  Its members are those that
    [packTypeData] lists; the table is indexed by the type, so a member's
    ordinal is its position in the table (the spec's 0xA4 example puts U32
    at ordinal 10). *)
Inductive PackType : Type :=
| pckTypeUnknown
| pckTypeArray
| pckTypeBin
| pckTypeBool
| pckTypeI32
| pckTypeI64
| pckTypeObj
| pckTypePtr
| pckTypeStr
| pckTypeTime
| pckTypeU32
| pckTypeU64.

Definition packTypeOrd (t : PackType) : Z :=
  match t with
  | pckTypeUnknown => 0
  | pckTypeArray => 1
  | pckTypeBin => 2
  | pckTypeBool => 3
  | pckTypeI32 => 4
  | pckTypeI64 => 5
  | pckTypeObj => 6
  | pckTypePtr => 7
  | pckTypeStr => 8
  | pckTypeTime => 9
  | pckTypeU32 => 10
  | pckTypeU64 => 11
  end.

Definition PackType_eqb (a b : PackType) : bool := packTypeOrd a =? packTypeOrd b.

Record PackTypeData : Type := mkPackTypeData {
  ptdType : PackType;
  valueSingleBit : bool;
  valueMultiBit : bool;
  size : bool;
  name : string
}.

Definition packTypeData : list PackTypeData :=
  [ mkPackTypeData pckTypeUnknown false false false "unknown";
    mkPackTypeData pckTypeArray false false false "array";
    mkPackTypeData pckTypeBin true false true "bin";
    mkPackTypeData pckTypeBool true false false "bool";
    mkPackTypeData pckTypeI32 false true false "i32";
    mkPackTypeData pckTypeI64 false true false "i64";
    mkPackTypeData pckTypeObj false false false "obj";
    mkPackTypeData pckTypePtr false true false "ptr";
    mkPackTypeData pckTypeStr true false true "str";
    mkPackTypeData pckTypeTime false true false "time";
    mkPackTypeData pckTypeU32 false true false "u32";
    mkPackTypeData pckTypeU64 false true false "u64" ].

(** [packTypeData[idx]]; an index past the end of the array is undefined in C *)
Definition packTypeDataAt {S : Type} (idx : Z) : Act S PackTypeData :=
  match nth_error packTypeData (Z.to_nat idx) with
  | Some td => ret td
  | None => throw (Undefined "packTypeData index out of bounds")
  end.

(** ** Object type *)

Record PackTagStack : Type := mkPackTagStack {
  type : PackType;
  idLast : Z;
  nullTotal : Z
}.

(** The tag stack is a list whose head is the last element of the C list:
    [lstAdd] conses, [lstRemoveLast] drops the head and [tagStackTop], which
    the code keeps equal to [lstGetLast(tagStack)], is the head. *)
Record PackRead : Type := mkPackRead {
  bufferPtr : list Z;          (* Pointer to buffer *)
  bufferPos : Z;               (* Position in the buffer *)
  bufferMax : Z;               (* Maximum position of buffer *)
  tagNextId : Z;               (* Next tag id *)
  tagNextType : Z;             (* Next tag type *)
  tagNextValue : Z;            (* Next tag value *)
  tagStack : list PackTagStack (* Stack of object/array tags *)
}.

Record PackWrite : Type := mkPackWrite {
  wBuffer : list Z;             (* Buffer to contain write data *)
  wTagStack : list PackTagStack (* Stack of object/array tags *)
}.

Definition Rd (A : Type) : Type := Act PackRead A.
Definition Wr (A : Type) : Type := Act PackWrite A.

(** Field updates of [PackRead] *)
Definition setBufferPos (v : Z) (this : PackRead) : PackRead :=
  mkPackRead (bufferPtr this) v (bufferMax this) (tagNextId this)
    (tagNextType this) (tagNextValue this) (tagStack this).
Definition setTagNextId (v : Z) (this : PackRead) : PackRead :=
  mkPackRead (bufferPtr this) (bufferPos this) (bufferMax this) v
    (tagNextType this) (tagNextValue this) (tagStack this).
Definition setTagNextType (v : Z) (this : PackRead) : PackRead :=
  mkPackRead (bufferPtr this) (bufferPos this) (bufferMax this) (tagNextId this)
    v (tagNextValue this) (tagStack this).
Definition setTagNextValue (v : Z) (this : PackRead) : PackRead :=
  mkPackRead (bufferPtr this) (bufferPos this) (bufferMax this) (tagNextId this)
    (tagNextType this) v (tagStack this).
Definition setTagStack (v : list PackTagStack) (this : PackRead) : PackRead :=
  mkPackRead (bufferPtr this) (bufferPos this) (bufferMax this) (tagNextId this)
    (tagNextType this) (tagNextValue this) v.

Definition setIdLast (v : Z) (top : PackTagStack) : PackTagStack :=
  mkPackTagStack (type top) v (nullTotal top).
Definition setNullTotal (v : Z) (top : PackTagStack) : PackTagStack :=
  mkPackTagStack (type top) (idLast top) v.

(** [this->tagStackTop->field]: a null top is dereferenced in C *)
Definition topOf {S A : Type} (stack : S -> list PackTagStack)
    (f : PackTagStack -> A) : Act S A :=
  fun this =>
    match stack this with
    | top :: _ => Ok (f top, this)
    | [] => Throw (Undefined "tagStackTop is NULL")
    end.

(** [this->tagStackTop->field = ...] *)
Definition updTop (f : PackTagStack -> PackTagStack)
    (stack : list PackTagStack) : list PackTagStack :=
  match stack with
  | top :: rest => f top :: rest
  | [] => []
  end.

(** *** Reader constructors *)

Definition pckReadNewInternal : PackRead :=
  mkPackRead [] 0 0 0 0 0 [mkPackTagStack pckTypeObj 0 0].

Definition pckReadNewBuf (buffer : list Z) : PackRead :=
  mkPackRead buffer 0 (Z.of_nat (length buffer)) 0 0 0
    [mkPackTagStack pckTypeObj 0 0].

(** *** pckReadBuffer, for [this->read == NULL] *)

Definition pckReadBuffer (sz : Z) : Rd Z := fun this =>
  let remaining := u64 (bufferMax this - bufferPos this) in
  if remaining <? sz then
    if remaining <? 1 then Throw (FormatError "unexpected EOF")
    else Ok (if remaining <? sz then remaining else sz, this)
  else Ok (sz, this).

(** [this->bufferPtr[this->bufferPos]] *)
Definition bufferByte : Rd Z :=
  gets (fun this => nth (Z.to_nat (bufferPos this)) (bufferPtr this) 0).

(** [this->bufferPos += n] *)
Definition bufferPosAdd (n : Z) : Rd unit :=
  modify (fun this => setBufferPos (u64 (bufferPos this + n)) this).

(** *** Unpack an unsigned 64-bit integer from base-128 varint encoding *)

(** The [for] loop; [count] is the number of iterations left before
    [bufferIdx] reaches [PACK_UINT64_SIZE_MAX].  Returns [result] and the
    last [byte] read. *)
Fixpoint pckReadUInt64Loop (count : nat) (bufferIdx result byte : Z)
    : Rd (Z * Z) :=
  match count with
  | O => ret (result, byte)
  | S count' =>
      _ <- pckReadBuffer 1 ;;
      byte <- bufferByte ;;
      let result :=
        Z.lor result (u64 (Z.shiftl (Z.land byte 0x7f) (7 * bufferIdx))) in
      if byte <? 0x80 then ret (result, byte)
      else
        bufferPosAdd 1 ;;
        pckReadUInt64Loop count' (bufferIdx + 1) result byte
  end.

Definition pckReadUInt64Internal : Rd Z :=
  rb <- pckReadUInt64Loop PACK_UINT64_SIZE_MAX 0 0 0 ;;
  if 0x80 <=? snd rb then
    throw (FormatError "unterminated base-128 integer")
  else
    bufferPosAdd 1 ;;
    ret (fst rb).

(** *** pckReadTagNext *)

Definition orTagNextId (v : Z) : Rd unit :=
  modify (fun this => setTagNextId (Z.lor (tagNextId this) v) this).

(** [if (tag & flag) this->tagNextId |= (unsigned int)pckReadUInt64Internal(this) << shift] *)
Definition readIdDelta (tag flag shift : Z) : Rd unit :=
  if negb (Z.land tag flag =? 0) then
    v <- pckReadUInt64Internal ;;
    orTagNextId (u32 (Z.shiftl (u32 v) shift))
  else ret tt.

Definition pckReadTagNext : Rd bool :=
  _ <- pckReadBuffer 1 ;;
  tag <- bufferByte ;;
  bufferPosAdd 1 ;;
  if tag =? 0 then
    modify (setTagNextId 0xFFFFFFFF) ;;
    ret false
  else
    modify (setTagNextType (Z.shiftr tag 4)) ;;
    td <- packTypeDataAt (Z.shiftr tag 4) ;;
    (if valueMultiBit td then
       if negb (Z.land tag 0x8 =? 0) then
         modify (setTagNextId (Z.land tag 0x3)) ;;
         readIdDelta tag 0x4 2 ;;
         v <- pckReadUInt64Internal ;;
         modify (setTagNextValue v)
       else
         modify (setTagNextId (Z.land tag 0x1)) ;;
         readIdDelta tag 0x2 1 ;;
         modify (setTagNextValue (Z.land (Z.shiftr tag 2) 0x1))
     else if valueSingleBit td then
       modify (setTagNextId (Z.land tag 0x3)) ;;
       readIdDelta tag 0x4 2 ;;
       modify (setTagNextValue (Z.land (Z.shiftr tag 3) 0x1))
     else
       modify (setTagNextId (Z.land tag 0x7)) ;;
       readIdDelta tag 0x8 3 ;;
       modify (setTagNextValue 0)) ;;
    last <- topOf tagStack idLast ;;
    modify (fun this => setTagNextId (u32 (tagNextId this + u32 (last + 1))) this) ;;
    ret true.

(** *** pckReadTag *)

(** [this->tagStackTop->idLast = v] *)
Definition setTopIdLast (v : Z) : Rd unit := fun this =>
  match tagStack this with
  | top :: rest => Ok (tt, setTagStack (setIdLast v top :: rest) this)
  | [] => Throw (Undefined "tagStackTop is NULL")
  end.

(** The [while (sizeExpected != 0)] loop that reads the data of a skipped
    field.  With the whole input resident, [pckReadBuffer] either returns
    all of [sizeExpected] or what is left, after which it throws: two
    iterations are the most the loop can make. *)
Fixpoint pckReadSkip (fuel : nat) (sizeExpected : Z) : Rd unit :=
  if sizeExpected =? 0 then ret tt
  else
    match fuel with
    | O => throw OutOfFuel
    | S fuel' =>
        sizeRead <- pckReadBuffer sizeExpected ;;
        bufferPosAdd sizeRead ;;
        pckReadSkip fuel' (u64 (sizeExpected - sizeRead))
    end.

(** [if (this->tagNextId == 0) pckReadTagNext(this)] *)
Definition loadTag : Rd unit :=
  nextId <- gets tagNextId ;;
  when (nextId =? 0) (_ <- pckReadTagNext ;; ret tt).

(** The [do ... while (1)] loop.  Every iteration that does not leave the
    loop clears the lookahead, so every iteration after the first parses a
    tag and takes at least one byte from the buffer. *)
Fixpoint pckReadTagLoop (fuel : nat) (id : Z) (type : PackType) (peek : bool)
    : Rd unit :=
  match fuel with
  | O => throw OutOfFuel
  | S fuel' =>
      loadTag ;;
      nextId <- gets tagNextId ;;
      if id <? nextId then
        if negb peek then
          throw (FormatError ("field " ++ fmtUInt id ++ " does not exist"))
        else ret tt
      else if id =? nextId then
        if negb peek then
          nextType <- gets tagNextType ;;
          if negb (nextType =? packTypeOrd type) then
            tdNext <- packTypeDataAt nextType ;;
            tdType <- packTypeDataAt (packTypeOrd type) ;;
            throw (FormatError
                     ("field " ++ fmtUInt nextId ++ " is type '" ++ name tdNext
                      ++ "' but expected '" ++ name tdType ++ "'"))
          else
            setTopIdLast nextId ;;
            modify (setTagNextId 0)
        else ret tt
      else
        (* Read data for the field being skipped *)
        td <- packTypeDataAt (packTypeOrd type) ;;
        nextValue <- gets tagNextValue ;;
        when (size td && negb (nextValue =? 0))
          (sizeExpected <- pckReadUInt64Internal ;;
           pckReadSkip 2 sizeExpected) ;;
        setTopIdLast nextId ;;
        modify (setTagNextId 0) ;;
        pckReadTagLoop fuel' id type peek
  end.

Definition pckReadTagFuel (this : PackRead) : nat :=
  S (S (Z.to_nat (u64 (bufferMax this - bufferPos this)))).

(** Returns the updated [*id] and the function's result *)
Definition pckReadTag (id : Z) (type : PackType) (peek : bool) : Rd (Z * Z) :=
  assert (peek && PackType_eqb type pckTypeUnknown
          || negb peek && negb (PackType_eqb type pckTypeUnknown))
    "(peek && type == pckTypeUnknown) || (!peek && type != pckTypeUnknown)" ;;
  last <- topOf tagStack idLast ;;
  id <- (if id =? 0 then ret (u32 (last + 1))
         else if id <=? last then
           throw (FormatError ("field " ++ fmtUInt id ++ " was already read"))
         else ret id) ;;
  fuel <- gets pckReadTagFuel ;;
  pckReadTagLoop fuel id type peek ;;
  result <- gets tagNextValue ;;
  ret (id, result).

Definition pckReadNext : Rd bool := pckReadTagNext.

Definition pckReadId : Rd Z := gets tagNextId.

Definition pckReadType : Rd Z := gets tagNextType.

Definition pckReadNullInternal (id : Z) : Rd (Z * bool) :=
  r <- pckReadTag id pckTypeUnknown true ;;
  nextId <- gets tagNextId ;;
  ret (fst r, fst r <? nextId).

Definition pckReadNull (id : Z) : Rd bool :=
  r <- pckReadNullInternal id ;;
  ret (snd r).

(** Returns the updated [*id] and the function's result *)
Definition pckReadDefaultNull (defaultNull : bool) (id : Z) : Rd (Z * bool) :=
  if defaultNull then
    r <- pckReadNullInternal id ;;
    if snd r then
      setTopIdLast (fst r) ;;
      ret (fst r, true)
    else ret (fst r, false)
  else ret (id, false).

(** [this->tagStackTop = lstAdd(this->tagStack, &(PackTagStack){.type = type})] *)
Definition readPush (t : PackType) : Rd unit :=
  modify (fun this => setTagStack (mkPackTagStack t 0 0 :: tagStack this) this).

Definition pckReadArrayBegin (id : Z) : Rd unit :=
  _ <- pckReadTag id pckTypeArray false ;;
  readPush pckTypeArray.

(** The common part of [pckReadArrayEnd] and [pckReadObjEnd] after the
    frame check *)
Definition readContainerEnd : Rd unit :=
  (* Make sure we are at the end of the container *)
  _ <- pckReadTag (0xFFFFFFFF - 1) pckTypeUnknown true ;;
  (* Pop the container off the stack *)
  modify (fun this => setTagStack (tl (tagStack this)) this) ;;
  (* Reset tagNextId to keep reading *)
  modify (setTagNextId 0).

Definition stackTopIs (t : PackType) (stack : list PackTagStack) : bool :=
  match stack with
  | top :: _ => PackType_eqb (type top) t
  | [] => false
  end.

Definition pckReadArrayEnd : Rd unit :=
  stack <- gets tagStack ;;
  if (Z.of_nat (length stack) =? 1) || negb (stackTopIs pckTypeArray stack) then
    throw (FormatError "not in array")
  else readContainerEnd.

Definition pckReadObjBegin (id : Z) : Rd unit :=
  _ <- pckReadTag id pckTypeObj false ;;
  readPush pckTypeObj.

Definition pckReadObjEnd : Rd unit :=
  stack <- gets tagStack ;;
  if (Z.of_nat (length stack) =? 1) || negb (stackTopIs pckTypeObj stack) then
    throw (FormatError "not in object")
  else readContainerEnd.

(** [bufCatC(result, this->bufferPtr, this->bufferPos, size)] and
    [strCatZN(result, this->bufferPtr + this->bufferPos, size)]: the [size]
    bytes at the buffer position *)
Definition bufferBytes (sz : Z) : Rd (list Z) :=
  gets (fun this =>
          firstn (Z.to_nat sz) (skipn (Z.to_nat (bufferPos this)) (bufferPtr this))).

(** The loops of [pckReadBin] and [pckReadStr] that collect the payload;
    like [pckReadSkip] they make at most two iterations. *)
Fixpoint pckReadData (fuel : nat) (sizeExpected : Z) (result : list Z)
    : Rd (list Z) :=
  if Z.of_nat (length result) =? sizeExpected then ret result
  else
    match fuel with
    | O => throw OutOfFuel
    | S fuel' =>
        sizeRead <- pckReadBuffer (u64 (sizeExpected - Z.of_nat (length result))) ;;
        bytes <- bufferBytes sizeRead ;;
        bufferPosAdd sizeRead ;;
        pckReadData fuel' sizeExpected (result ++ bytes)
    end.

(** A [Buffer *] or [String *] is [None] when it is NULL, else its bytes.
    [bufNew] and [strNew] are taken to succeed: running out of memory for
    the size read is not modelled. *)
Definition pckReadBin (id : Z) (defaultNull : bool) : Rd (option (list Z)) :=
  dn <- pckReadDefaultNull defaultNull id ;;
  if snd dn then ret None
  else
    r <- pckReadTag (fst dn) pckTypeBin false ;;
    if negb (snd r =? 0) then
      sizeExpected <- pckReadUInt64Internal ;;
      result <- pckReadData 2 sizeExpected [] ;;
      ret (Some result)
    else ret (Some []).

Definition pckReadBool (id : Z) (defaultNull defaultValue : bool) : Rd bool :=
  dn <- pckReadDefaultNull defaultNull id ;;
  if snd dn then ret defaultValue
  else
    r <- pckReadTag (fst dn) pckTypeBool false ;;
    ret (negb (snd r =? 0)).

(** *** Zig-zag conversions *)

(** C's conversions to [int32_t] and [int64_t] (two's complement) *)
Definition s32 (x : Z) : Z := (x + 2147483648) mod 4294967296 - 2147483648.
Definition s64 (x : Z) : Z :=
  (x + 9223372036854775808) mod 18446744073709551616 - 9223372036854775808.

(** Modelled from the spec: [cvtInt32ToZigZag] is defined in
    [common/type/convert.h], which is not among the files of this development.
    Signed integers are mapped to unsigned ones by
    [(n << 1) ^ (n >> (W - 1))], [W] the signed width; [>>] on a signed
    operand is the arithmetic shift. *)
Definition cvtInt32ToZigZag (value : Z) : Z :=
  u32 (Z.lxor (Z.shiftl value 1) (Z.shiftr value 31)).

(** Modelled from the spec: [cvtInt64ToZigZag] of [common/type/convert.h],
    the same mapping at width 64. *)
Definition cvtInt64ToZigZag (value : Z) : Z :=
  u64 (Z.lxor (Z.shiftl value 1) (Z.shiftr value 63)).

(** Modelled from the spec: [cvtInt32FromZigZag] of [common/type/convert.h],
    the inverse of the zig-zag mapping: [(v >> 1) ^ -(v & 1)]. *)
Definition cvtInt32FromZigZag (value : Z) : Z :=
  s32 (Z.lxor (Z.shiftr value 1) (- Z.land value 1)).

(** Modelled from the spec: [cvtInt64FromZigZag] of [common/type/convert.h],
    the inverse mapping at width 64. *)
Definition cvtInt64FromZigZag (value : Z) : Z :=
  s64 (Z.lxor (Z.shiftr value 1) (- Z.land value 1)).

(** *** The remaining typed reads *)

Definition pckReadI32 (id : Z) (defaultNull : bool) (defaultValue : Z) : Rd Z :=
  dn <- pckReadDefaultNull defaultNull id ;;
  if snd dn then ret defaultValue
  else
    r <- pckReadTag (fst dn) pckTypeI32 false ;;
    ret (cvtInt32FromZigZag (u32 (snd r))).

Definition pckReadI64 (id : Z) (defaultNull : bool) (defaultValue : Z) : Rd Z :=
  dn <- pckReadDefaultNull defaultNull id ;;
  if snd dn then ret defaultValue
  else
    r <- pckReadTag (fst dn) pckTypeI64 false ;;
    ret (cvtInt64FromZigZag (snd r)).

(** A pointer is its bit pattern, [0] for NULL *)
Definition pckReadPtr (id : Z) (defaultNull : bool) : Rd Z :=
  dn <- pckReadDefaultNull defaultNull id ;;
  if snd dn then ret 0
  else
    r <- pckReadTag (fst dn) pckTypePtr false ;;
    ret (snd r).

Definition pckReadStr (id : Z) (defaultNull : bool)
    (defaultValue : option (list Z)) : Rd (option (list Z)) :=
  dn <- pckReadDefaultNull defaultNull id ;;
  if snd dn then ret defaultValue
  else
    r <- pckReadTag (fst dn) pckTypeStr false ;;
    if negb (snd r =? 0) then
      sizeExpected <- pckReadUInt64Internal ;;
      result <- pckReadData 2 sizeExpected [] ;;
      ret (Some result)
    else ret (Some []).

Definition pckReadTime (id : Z) (defaultNull : bool) (defaultValue : Z) : Rd Z :=
  dn <- pckReadDefaultNull defaultNull id ;;
  if snd dn then ret defaultValue
  else
    r <- pckReadTag (fst dn) pckTypeTime false ;;
    ret (cvtInt64FromZigZag (snd r)).

Definition pckReadU32 (id : Z) (defaultNull : bool) (defaultValue : Z) : Rd Z :=
  dn <- pckReadDefaultNull defaultNull id ;;
  if snd dn then ret defaultValue
  else
    r <- pckReadTag (fst dn) pckTypeU32 false ;;
    ret (u32 (snd r)).

Definition pckReadU64 (id : Z) (defaultNull : bool) (defaultValue : Z) : Rd Z :=
  dn <- pckReadDefaultNull defaultNull id ;;
  if snd dn then ret defaultValue
  else
    r <- pckReadTag (fst dn) pckTypeU64 false ;;
    ret (snd r).

(** ** Writer *)

Definition pckWriteNewInternal : PackWrite :=
  mkPackWrite [] [mkPackTagStack pckTypeObj 0 0].

(** The writer appends to what the caller's buffer already holds *)
Definition pckWriteNewBuf (buffer : list Z) : PackWrite :=
  mkPackWrite buffer [mkPackTagStack pckTypeObj 0 0].

Definition setWBuffer (v : list Z) (this : PackWrite) : PackWrite :=
  mkPackWrite v (wTagStack this).
Definition setWTagStack (v : list PackTagStack) (this : PackWrite) : PackWrite :=
  mkPackWrite (wBuffer this) v.

(** [this->tagStackTop->field = ...] *)
Definition wUpdTop (f : PackTagStack -> PackTagStack) : Wr unit := fun this =>
  match wTagStack this with
  | top :: rest => Ok (tt, setWTagStack (f top :: rest) this)
  | [] => Throw (Undefined "tagStackTop is NULL")
  end.

(** *** pckWriteBuffer, for [this->write == NULL]: the buffer is grown when
    it is too small and the bytes are appended *)
Definition pckWriteBuffer (bytes : list Z) : Wr unit :=
  modify (fun this => setWBuffer (wBuffer this ++ bytes) this).

(** *** Pack an unsigned 64-bit integer to base-128 varint encoding *)

(** The [while] loop and the store of the last byte into the local
    [buffer[PACK_UINT64_SIZE_MAX]]; [slots] counts the elements of [buffer]
    not yet written, and a store past the last one is [None]. *)
Fixpoint pckWriteUInt64Loop (slots : nat) (value : Z) : option (list Z) :=
  match slots with
  | O => None
  | S slots' =>
      if 0x80 <=? value then
        option_map (cons (Z.lor (u8 value) 0x80))
          (pckWriteUInt64Loop slots' (Z.shiftr value 7))
      else Some [u8 value]
  end.

Definition pckWriteUInt64Internal (value : Z) : Wr unit :=
  match pckWriteUInt64Loop PACK_UINT64_SIZE_MAX value with
  | Some bytes => pckWriteBuffer bytes
  | None => throw (Undefined "buffer index out of bounds")
  end.

(** *** pckWriteTag *)

(** The three branches that pack the value and the ID delta into the tag;
    returns the new [tag], [tagId] and [value], or the assertion that failed *)
Definition pckWriteTagBits (td : PackTypeData) (tag tagId value : Z)
    : Result (Z * Z * Z) :=
  if valueMultiBit td then
    if value <? 2 then
      let tag := Z.lor tag (Z.shiftl (Z.land value 0x1) 2) in
      let value := Z.shiftr value 1 in
      let tag := Z.lor tag (Z.land tagId 0x1) in
      let tagId := Z.shiftr tagId 1 in
      let tag := if 0 <? tagId then Z.lor tag 0x2 else tag in
      Ok (tag, tagId, value)
    else
      let tag := Z.lor tag 0x8 in
      let tag := Z.lor tag (Z.land tagId 0x3) in
      let tagId := Z.shiftr tagId 2 in
      let tag := if 0 <? tagId then Z.lor tag 0x4 else tag in
      Ok (tag, tagId, value)
  else if valueSingleBit td then
    let tag := Z.lor tag (Z.shiftl (Z.land value 0x1) 3) in
    let value := Z.shiftr value 1 in
    let tag := Z.lor tag (Z.land tagId 0x3) in
    let tagId := Z.shiftr tagId 2 in
    let tag := if 0 <? tagId then Z.lor tag 0x4 else tag in
    Ok (tag, tagId, value)
  else
    if value =? 0 then
      let tag := Z.lor tag (Z.land tagId 0x7) in
      let tagId := Z.shiftr tagId 3 in
      let tag := if 0 <? tagId then Z.lor tag 0x8 else tag in
      Ok (tag, tagId, value)
    else Throw (AssertError "value == 0").

Definition pckWriteTag (type : PackType) (id value : Z) : Wr unit :=
  last <- topOf wTagStack idLast ;;
  nulls <- topOf wTagStack nullTotal ;;
  id <- (if id =? 0 then ret (u32 (last + nulls + 1))
         else
           assert (last <? id) "id > this->tagStackTop->idLast" ;;
           ret id) ;;
  wUpdTop (setNullTotal 0) ;;
  let tag := Z.shiftl (packTypeOrd type) 4 in
  let tagId := u32 (id - last - 1) in
  td <- packTypeDataAt (packTypeOrd type) ;;
  bits <- lift (pckWriteTagBits td tag tagId value) ;;
  let '(tag, tagId, value) := bits in
  pckWriteBuffer [u8 tag] ;;
  when (0 <? tagId) (pckWriteUInt64Internal tagId) ;;
  when (0 <? value) (pckWriteUInt64Internal value) ;;
  wUpdTop (setIdLast id).

Definition pckWriteDefaultNull (defaultNull defaultEqual : bool) : Wr bool :=
  if defaultNull && defaultEqual then
    wUpdTop (fun top => setNullTotal (u32 (nullTotal top + 1)) top) ;;
    ret true
  else ret false.

Definition pckWriteNull : Wr unit :=
  wUpdTop (fun top => setNullTotal (u32 (nullTotal top + 1)) top).

(** [this->tagStackTop = lstAdd(this->tagStack, &(PackTagStack){.type = type})] *)
Definition writePush (t : PackType) : Wr unit :=
  modify (fun this => setWTagStack (mkPackTagStack t 0 0 :: wTagStack this) this).

(** [lstRemoveLast(this->tagStack); this->tagStackTop = lstGetLast(this->tagStack)] *)
Definition writePop : Wr unit :=
  modify (fun this => setWTagStack (tl (wTagStack this)) this).

Definition pckWriteArrayBegin (id : Z) : Wr unit :=
  pckWriteTag pckTypeArray id 0 ;;
  writePush pckTypeArray.

Definition pckWriteArrayEnd : Wr unit :=
  stack <- gets wTagStack ;;
  assert (negb (Z.of_nat (length stack) =? 1)) "lstSize(this->tagStack) != 1" ;;
  assert (stackTopIs pckTypeArray stack)
    "((PackTagStack *)lstGetLast(this->tagStack))->type == pckTypeArray" ;;
  pckWriteUInt64Internal 0 ;;
  writePop.

Definition isSome {A : Type} (o : option A) : bool :=
  match o with Some _ => true | None => false end.

Definition pckWriteBin (value : option (list Z)) (id : Z) (defaultNull : bool)
    : Wr unit :=
  elided <- pckWriteDefaultNull defaultNull (negb (isSome value)) ;;
  if negb elided then
    match value with
    | None => throw (AssertError "value != NULL")
    | Some bytes =>
        let used := Z.of_nat (length bytes) in
        pckWriteTag pckTypeBin id (if 0 <? used then 1 else 0) ;;
        when (0 <? used)
          (pckWriteUInt64Internal used ;;
           pckWriteBuffer bytes)
    end
  else ret tt.

Definition pckWriteBool (value : bool) (id : Z) (defaultNull defaultValue : bool)
    : Wr unit :=
  elided <- pckWriteDefaultNull defaultNull (Bool.eqb value defaultValue) ;;
  if negb elided then pckWriteTag pckTypeBool id (if value then 1 else 0)
  else ret tt.

Definition pckWriteI32 (value id : Z) (defaultNull : bool) (defaultValue : Z)
    : Wr unit :=
  elided <- pckWriteDefaultNull defaultNull (value =? defaultValue) ;;
  if negb elided then pckWriteTag pckTypeI32 id (cvtInt32ToZigZag value)
  else ret tt.

Definition pckWriteI64 (value id : Z) (defaultNull : bool) (defaultValue : Z)
    : Wr unit :=
  elided <- pckWriteDefaultNull defaultNull (value =? defaultValue) ;;
  if negb elided then pckWriteTag pckTypeI64 id (cvtInt64ToZigZag value)
  else ret tt.

Definition pckWriteObjBegin (id : Z) : Wr unit :=
  pckWriteTag pckTypeObj id 0 ;;
  writePush pckTypeObj.

Definition pckWriteObjEnd : Wr unit :=
  stack <- gets wTagStack ;;
  assert (negb (Z.of_nat (length stack) =? 1)) "lstSize(this->tagStack) != 1" ;;
  assert (stackTopIs pckTypeObj stack)
    "((PackTagStack *)lstGetLast(this->tagStack))->type == pckTypeObj" ;;
  pckWriteUInt64Internal 0 ;;
  writePop.

Definition pckWritePtr (value id : Z) (defaultNull : bool) : Wr unit :=
  elided <- pckWriteDefaultNull defaultNull (value =? 0) ;;
  if negb elided then pckWriteTag pckTypePtr id value
  else ret tt.

(** Modelled from the spec: [strEq] is defined in [common/type/string.c],
    which is not among the files of this development.  A value equals the declared
    default when, for reference types, null equals null and, for strings,
    the two are structurally equal. *)
Definition strEq (a b : option (list Z)) : bool :=
  match a, b with
  | Some x, Some y => if list_eq_dec Z.eq_dec x y then true else false
  | None, None => true
  | _, _ => false
  end.

Definition pckWriteStr (value : option (list Z)) (id : Z) (defaultNull : bool)
    (defaultValue : option (list Z)) : Wr unit :=
  elided <- pckWriteDefaultNull defaultNull (strEq value defaultValue) ;;
  if negb elided then
    match value with
    | None => throw (AssertError "value != NULL")
    | Some bytes =>
        let used := Z.of_nat (length bytes) in
        pckWriteTag pckTypeStr id (if 0 <? used then 1 else 0) ;;
        when (0 <? used)
          (pckWriteUInt64Internal used ;;
           pckWriteBuffer bytes)
    end
  else ret tt.

Definition pckWriteTime (value id : Z) (defaultNull : bool) (defaultValue : Z)
    : Wr unit :=
  elided <- pckWriteDefaultNull defaultNull (value =? defaultValue) ;;
  if negb elided then pckWriteTag pckTypeTime id (cvtInt64ToZigZag value)
  else ret tt.

Definition pckWriteU32 (value id : Z) (defaultNull : bool) (defaultValue : Z)
    : Wr unit :=
  elided <- pckWriteDefaultNull defaultNull (value =? defaultValue) ;;
  if negb elided then pckWriteTag pckTypeU32 id value
  else ret tt.

Definition pckWriteU64 (value id : Z) (defaultNull : bool) (defaultValue : Z)
    : Wr unit :=
  elided <- pckWriteDefaultNull defaultNull (value =? defaultValue) ;;
  if negb elided then pckWriteTag pckTypeU64 id value
  else ret tt.

(** [pckWriteEnd] sets [tagStackTop] to NULL, after which the writer is not
    used again; with no sink the buffer is trimmed to the bytes written,
    which are the function's result here.  The tag stack is left as it is
    in the state returned: a call made on the writer after [pckWriteEnd],
    which in the code goes through the NULL pointer, is outside the
    model. *)
Definition pckWriteEnd : Wr (list Z) :=
  stack <- gets wTagStack ;;
  assert (Z.of_nat (length stack) =? 1) "lstSize(this->tagStack) == 1" ;;
  pckWriteUInt64Internal 0 ;;
  gets wBuffer.

(** ** pckReadEnd *)

(** The [while] loop of [pckReadEnd].  [lstRemoveLast] takes a frame off
    [this->tagStack] in each pass, but [this->tagStackTop] is not set again
    before the end of the loop: every pass reads [idLast], and when it
    passes a field writes it, in the frame that was on top when
    [pckReadEnd] was called.  The top frame of the model is the head of
    [tagStack], so the list is left as it is while the passes are counted,
    one for each frame of the list. *)
Fixpoint pckReadEndLoop (size : nat) : Rd unit :=
  match size with
  | O => ret tt
  | S size' =>
      (* Make sure we are at the end of the container *)
      _ <- pckReadTag (0xFFFFFFFF - 1) pckTypeUnknown true ;;
      (* Remove from stack *)
      pckReadEndLoop size'
  end.

(** After the loop the list is empty and [this->tagStackTop = NULL] *)
Definition pckReadEnd : Rd unit :=
  stack <- gets tagStack ;;
  pckReadEndLoop (length stack) ;;
  modify (setTagStack []).

(** ** The writer with a sink *)

(** Modelled from the spec: the buffer functions of [common/type/buffer.c]
    and [ioWrite] of [common/io/write.c] are not among the files of this
    development.  A buffer has a size and holds the bytes used;
    [bufRemains] is what is left of the size, [bufCat] appends the bytes
    used of another buffer, [bufUsedZero] empties the buffer.  [ioWrite]
    hands the bytes used of a buffer to the sink, the consumer interface
    [write(&[u8])]. *)
Record PackWriteIo : Type := mkPackWriteIo {
  ioWritten : list (list Z);    (* the calls [this->write] received, in order *)
  ioBuffer : list Z;            (* the bytes used of [this->buffer] *)
  ioBufferSize : Z              (* its size, [ioBufferSize()] in [pckWriteNew] *)
}.

Definition bufUsed (bytes : list Z) : Z := Z.of_nat (length bytes).

Definition bufRemains (this : PackWriteIo) : Z :=
  ioBufferSize this - bufUsed (ioBuffer this).

Definition bufCat (bytes : list Z) (this : PackWriteIo) : PackWriteIo :=
  mkPackWriteIo (ioWritten this) (ioBuffer this ++ bytes) (ioBufferSize this).

Definition bufUsedZero (this : PackWriteIo) : PackWriteIo :=
  mkPackWriteIo (ioWritten this) [] (ioBufferSize this).

Definition ioWrite (bytes : list Z) (this : PackWriteIo) : PackWriteIo :=
  mkPackWriteIo (ioWritten this ++ [bytes]) (ioBuffer this) (ioBufferSize this).

(** [pckWriteBuffer] for [this->write != NULL] *)
Definition pckWriteBufferIo (buffer : list Z) (this : PackWriteIo) : PackWriteIo :=
  if bufUsed buffer <=? bufRemains this then bufCat buffer this
  else
    let this :=
      if 0 <? bufUsed (ioBuffer this) then
        bufUsedZero (ioWrite (ioBuffer this) this)
      else this in
    if bufUsed buffer <=? bufRemains this then bufCat buffer this
    else ioWrite buffer this.

(** The calls of [pckWriteBuffer] that a sequence of writes makes *)
Definition pckWriteBuffersIo (buffers : list (list Z)) (this : PackWriteIo)
    : PackWriteIo :=
  fold_left (fun this buffer => pckWriteBufferIo buffer this) buffers this.

(** The end of [pckWriteEnd] for [this->write != NULL]: the terminator is
    written and the internal buffer is flushed *)
Definition pckWriteEndIo (this : PackWriteIo) : PackWriteIo :=
  let this := pckWriteBufferIo [0] this in
  if 0 <? bufUsed (ioBuffer this) then ioWrite (ioBuffer this) this else this.

(** ** The reader with a source *)

(** Modelled from the spec: [ioReadSmall] of [common/io/read.c] and the
    buffer functions of [common/type/buffer.c] are not among the files of
    this development.  [bufUsedZero] empties the buffer and [bufLimitSet]
    bounds what it takes; the source, the producer interface
    [read(into)], fills the buffer to exactly the limit unless the end of
    the stream is reached. *)
Record PackReadIo : Type := mkPackReadIo {
  ioRead : list Z;       (* the bytes [this->read] has still to deliver *)
  ioBufferPtr : list Z;  (* the bytes used of [this->buffer] *)
  ioBufferPos : Z;       (* Position in the buffer *)
  ioBufferMax : Z;       (* Maximum position of buffer *)
  ioSizeAlloc : Z        (* [bufSizeAlloc(this->buffer)] *)
}.

(** [pckReadBuffer] for [this->read != NULL] *)
Definition pckReadBufferIo (sz : Z) : Act PackReadIo Z := fun this =>
  let remaining := u64 (ioBufferMax this - ioBufferPos this) in
  if remaining <? sz then
    (* Nothing can be remaining since each read fetches exactly the number
       of bytes required *)
    if negb (remaining =? 0) then Throw (AssertError "remaining == 0")
    else
      (* Limit the buffer for the next read *)
      let limit := if sz <? ioSizeAlloc this then sz else ioSizeAlloc this in
      (* Read bytes *)
      let bytes := firstn (Z.to_nat limit) (ioRead this) in
      let this :=
        mkPackReadIo (skipn (Z.to_nat limit) (ioRead this)) bytes 0
          (Z.of_nat (length bytes)) (ioSizeAlloc this) in
      let remaining := u64 (ioBufferMax this - ioBufferPos this) in
      if remaining <? 1 then Throw (FormatError "unexpected EOF")
      else Ok (if remaining <? sz then remaining else sz, this)
  else Ok (sz, this).

(** The loop of [pckReadBin] that collects the payload, with a source: a
    pass adds at least one byte, so the size expected bounds the passes *)
Fixpoint pckReadDataIo (fuel : nat) (sizeExpected : Z) (result : list Z)
    : Act PackReadIo (list Z) :=
  if Z.of_nat (length result) <? sizeExpected then
    match fuel with
    | O => throw OutOfFuel
    | S fuel' =>
        sz <- pckReadBufferIo (u64 (sizeExpected - Z.of_nat (length result))) ;;
        bytes <- gets (fun this =>
                         firstn (Z.to_nat sz)
                           (skipn (Z.to_nat (ioBufferPos this)) (ioBufferPtr this))) ;;
        modify (fun this =>
                  mkPackReadIo (ioRead this) (ioBufferPtr this)
                    (u64 (ioBufferPos this + sz)) (ioBufferMax this)
                    (ioSizeAlloc this)) ;;
        pckReadDataIo fuel' sizeExpected (result ++ bytes)
    end
  else ret result.

(** ** Names of the types *)

(** [ASSERT(type < sizeof(packTypeData) / sizeof(PackTypeData))] and
    [packTypeData[type].name] *)
Definition pckTypeToStr (type : PackType) : Result string :=
  if packTypeOrd type <? Z.of_nat (length packTypeData) then
    match nth_error packTypeData (Z.to_nat (packTypeOrd type)) with
    | Some td => Ok (name td)
    | None => Throw (Undefined "packTypeData index out of bounds")
    end
  else Throw (AssertError "type < sizeof(packTypeData) / sizeof(PackTypeData)").

(** * Notions used to state the properties *)

(** ** Reader positions *)

(** A reader made by [pckReadNewBuf] keeps its position within a buffer
    whose size a [size_t] holds. *)
Definition wfRead (this : PackRead) : Prop :=
  0 <= bufferPos this <= bufferMax this /\
  bufferMax this = Z.of_nat (length (bufferPtr this)) /\
  bufferMax this < 18446744073709551616.

(** The bytes not read yet *)
Definition unread (this : PackRead) : list Z :=
  skipn (Z.to_nat (bufferPos this)) (bufferPtr this).

(** The reader [n] bytes further on *)
Definition advance (n : Z) (this : PackRead) : PackRead :=
  setBufferPos (bufferPos this + n) this.

(** The frame on top of a tag stack *)
Definition topIdLast (stack : list PackTagStack) : Z :=
  match stack with
  | top :: _ => idLast top
  | [] => 0
  end.

(** The ID a read is made at: [*id] after [pckReadTag] has replaced 0 by
    the ID that follows the last one *)
Definition requestedId (stack : list PackTagStack) (id : Z) : Z :=
  if id =? 0 then u32 (topIdLast stack + 1) else id.

(** The condition [pckReadTag] asserts on its [type] and [peek] arguments *)
Definition validCall (type : PackType) (peek : bool) : bool :=
  peek && PackType_eqb type pckTypeUnknown
  || negb peek && negb (PackType_eqb type pckTypeUnknown).

(** Parsing moves the position and the lookahead only: the tag stack and
    the buffer are those of the reader before *)
Definition sameInput (s s' : PackRead) : Prop :=
  tagStack s' = tagStack s /\ bufferPtr s' = bufferPtr s /\
  bufferMax s' = bufferMax s.

Definition keepsInput {A : Type} (m : Rd A) : Prop :=
  forall s a s', m s = Ok (a, s') -> sameInput s s'.

(** ** Typed calls *)

(** What a typed read returns *)
Inductive Value : Type :=
| VBin (v : option (list Z))
| VBool (v : bool)
| VI32 (v : Z)
| VI64 (v : Z)
| VPtr (v : Z)
| VStr (v : option (list Z))
| VTime (v : Z)
| VU32 (v : Z)
| VU64 (v : Z).

(** A typed field as the caller passes it to [pckWriteX] and [pckReadX]:
    its type, the value to write and the [defaultValue] parameter of the
    types that have one.  The [id] and [defaultNull] parameters are given
    separately. *)
Inductive Field : Type :=
| FBin (value : option (list Z))
| FBool (value defaultValue : bool)
| FI32 (value defaultValue : Z)
| FI64 (value defaultValue : Z)
| FPtr (value : Z)
| FStr (value defaultValue : option (list Z))
| FTime (value defaultValue : Z)
| FU32 (value defaultValue : Z)
| FU64 (value defaultValue : Z).

Definition fieldType (f : Field) : PackType :=
  match f with
  | FBin _ => pckTypeBin
  | FBool _ _ => pckTypeBool
  | FI32 _ _ => pckTypeI32
  | FI64 _ _ => pckTypeI64
  | FPtr _ => pckTypePtr
  | FStr _ _ => pckTypeStr
  | FTime _ _ => pckTypeTime
  | FU32 _ _ => pckTypeU32
  | FU64 _ _ => pckTypeU64
  end.

(** The value written *)
Definition fieldValue (f : Field) : Value :=
  match f with
  | FBin v => VBin v
  | FBool v _ => VBool v
  | FI32 v _ => VI32 v
  | FI64 v _ => VI64 v
  | FPtr v => VPtr v
  | FStr v _ => VStr v
  | FTime v _ => VTime v
  | FU32 v _ => VU32 v
  | FU64 v _ => VU64 v
  end.

(** What a read returns for an absent field when [defaultNull] is set:
    [defaultValue], and NULL for the types without that parameter *)
Definition fieldDefault (f : Field) : Value :=
  match f with
  | FBin _ => VBin None
  | FBool _ d => VBool d
  | FI32 _ d => VI32 d
  | FI64 _ d => VI64 d
  | FPtr _ => VPtr 0
  | FStr _ d => VStr d
  | FTime _ d => VTime d
  | FU32 _ d => VU32 d
  | FU64 _ d => VU64 d
  end.

(** The call [pckWriteX(this, value, .id = id, .defaultNull = defaultNull,
    .defaultValue = defaultValue)] *)
Definition fieldWrite (f : Field) (id : Z) (defaultNull : bool) : Wr unit :=
  match f with
  | FBin v => pckWriteBin v id defaultNull
  | FBool v d => pckWriteBool v id defaultNull d
  | FI32 v d => pckWriteI32 v id defaultNull d
  | FI64 v d => pckWriteI64 v id defaultNull d
  | FPtr v => pckWritePtr v id defaultNull
  | FStr v d => pckWriteStr v id defaultNull d
  | FTime v d => pckWriteTime v id defaultNull d
  | FU32 v d => pckWriteU32 v id defaultNull d
  | FU64 v d => pckWriteU64 v id defaultNull d
  end.

(** The call [pckReadX(this, .id = id, .defaultNull = defaultNull,
    .defaultValue = defaultValue)] *)
Definition fieldRead (f : Field) (id : Z) (defaultNull : bool) : Rd Value :=
  match f with
  | FBin _ => v <- pckReadBin id defaultNull ;; ret (VBin v)
  | FBool _ d => v <- pckReadBool id defaultNull d ;; ret (VBool v)
  | FI32 _ d => v <- pckReadI32 id defaultNull d ;; ret (VI32 v)
  | FI64 _ d => v <- pckReadI64 id defaultNull d ;; ret (VI64 v)
  | FPtr _ => v <- pckReadPtr id defaultNull ;; ret (VPtr v)
  | FStr _ d => v <- pckReadStr id defaultNull d ;; ret (VStr v)
  | FTime _ d => v <- pckReadTime id defaultNull d ;; ret (VTime v)
  | FU32 _ d => v <- pckReadU32 id defaultNull d ;; ret (VU32 v)
  | FU64 _ d => v <- pckReadU64 id defaultNull d ;; ret (VU64 v)
  end.

(** [this->tagStackTop->idLast = v] on a reader state *)
Definition withIdLast (v : Z) (this : PackRead) : PackRead :=
  setTagStack (updTop (setIdLast v) (tagStack this)) this.

(** The reader once the tag in the lookahead of [this1] is matched, or
    skipped, at [id]: [idLast] is the tag's ID and the lookahead is empty *)
Definition matched (this1 : PackRead) (id : Z) : PackRead :=
  setTagNextId 0 (withIdLast id this1).

(** ** Sequences of calls *)

(** Whether the value passed equals the declared default: the
    [defaultEqual] argument the typed write gives [pckWriteDefaultNull] *)
Definition fieldIsDefault (f : Field) : bool :=
  match f with
  | FBin v => negb (isSome v)
  | FBool v d => Bool.eqb v d
  | FI32 v d => v =? d
  | FI64 v d => v =? d
  | FPtr v => v =? 0
  | FStr v d => strEq v d
  | FTime v d => v =? d
  | FU32 v d => v =? d
  | FU64 v d => v =? d
  end.

(** One call of the writer's API, or of the reader's with the same
    arguments *)
Inductive Op : Type :=
| OpField (f : Field) (id : Z) (defaultNull : bool)
| OpNull
| OpArrayBegin (id : Z)
| OpArrayEnd
| OpObjBegin (id : Z)
| OpObjEnd.

(** A write that emits nothing *)
Definition opElided (op : Op) : bool :=
  match op with
  | OpField f _ defaultNull => defaultNull && fieldIsDefault f
  | OpNull => true
  | _ => false
  end.

Definition opWrite (op : Op) : Wr unit :=
  match op with
  | OpField f id defaultNull => fieldWrite f id defaultNull
  | OpNull => pckWriteNull
  | OpArrayBegin id => pckWriteArrayBegin id
  | OpArrayEnd => pckWriteArrayEnd
  | OpObjBegin id => pckWriteObjBegin id
  | OpObjEnd => pckWriteObjEnd
  end.

Fixpoint opsWrite (ops : list Op) : Wr unit :=
  match ops with
  | [] => ret tt
  | op :: ops' => opWrite op ;; opsWrite ops'
  end.

(** The result of an action without the final state *)
Definition resultOf {S A : Type} (r : Result (A * S)) : Result A :=
  match r with
  | Ok (a, _) => Ok a
  | Throw e => Throw e
  end.

(** The bytes of the pack that a sequence of calls, finished by
    [pckWriteEnd], writes into a new writer *)
Definition pckWriteAll (ops : list Op) : Result (list Z) :=
  resultOf ((opsWrite ops ;; pckWriteEnd) pckWriteNewInternal).

(** Whether the next tag written to the current frame, if there is one, is
    given its ID explicitly.  [depth] counts the containers opened, and not
    yet closed, since; elided writes emit no tag, and closing the frame
    ends the search. *)
Fixpoint nextIdExplicit (depth : nat) (ops : list Op) : bool :=
  match ops with
  | [] => true
  | OpField f id defaultNull :: ops' =>
      if defaultNull && fieldIsDefault f then nextIdExplicit depth ops'
      else
        match depth with
        | O => negb (id =? 0)
        | S _ => nextIdExplicit depth ops'
        end
  | OpNull :: ops' => nextIdExplicit depth ops'
  | OpArrayBegin id :: ops' | OpObjBegin id :: ops' =>
      match depth with
      | O => negb (id =? 0)
      | S _ => nextIdExplicit (S depth) ops'
      end
  | OpArrayEnd :: ops' | OpObjEnd :: ops' =>
      match depth with
      | O => true
      | S depth' => nextIdExplicit depth' ops'
      end
  end.

(** Two tag stacks that differ at most in the [nullTotal] of the frame
    [depth] frames below the top *)
Fixpoint stackSim (depth : nat) (s s' : list PackTagStack) : Prop :=
  match depth, s, s' with
  | O, t :: r, t' :: r' => type t = type t' /\ idLast t = idLast t' /\ r = r'
  | S d, t :: r, t' :: r' => t = t' /\ stackSim d r r'
  | _, _, _ => False
  end.

(** The relation that holds once the top frame is closed *)
Definition simAfterPop (depth : nat) : option nat :=
  match depth with
  | O => None
  | S d => Some d
  end.

(** Two writers that are equal ([None]) or differ at most in the
    [nullTotal] of one frame *)
Definition writeSim (i : option nat) (w w' : PackWrite) : Prop :=
  match i with
  | None => w = w'
  | Some d => wBuffer w = wBuffer w' /\ stackSim d (wTagStack w) (wTagStack w')
  end.

Definition resultSim {A : Type} (i : option nat)
    (r r' : Result (A * PackWrite)) : Prop :=
  match r, r' with
  | Ok (a, w), Ok (a', w') => a = a' /\ writeSim i w w'
  | Throw e, Throw e' => e = e'
  | _, _ => False
  end.

(** An action that takes writers related at [i] to equal results and
    writers related at [j], or to the same exception *)
Definition actSim {A : Type} (i j : option nat) (m : Wr A) : Prop :=
  forall w w', writeSim i w w' -> resultSim j (m w) (m w').

(** ** The bytes of a tag *)

(** The bytes [pckWriteUInt64Internal] appends *)
Definition varint (x : Z) : list Z :=
  match pckWriteUInt64Loop PACK_UINT64_SIZE_MAX x with
  | Some bytes => bytes
  | None => []
  end.

(** The bytes of [if (x > 0) pckWriteUInt64Internal(this, x)] *)
Definition varintIf (x : Z) : list Z := if 0 <? x then varint x else [].

(** The bytes [pckWriteTag] appends for a tag of type [t] whose ID is
    [tagId + 1] above the frame's last *)
Definition tagBytes (t : PackType) (tagId value : Z) : list Z :=
  match nth_error packTypeData (Z.to_nat (packTypeOrd t)) with
  | Some td =>
      match pckWriteTagBits td (Z.shiftl (packTypeOrd t) 4) tagId value with
      | Ok (tag, tagId', value') =>
          [u8 tag] ++ varintIf tagId' ++ varintIf value'
      | Throw _ => []
      end
  | None => []
  end.

(** The values the API passes to [pckWriteTag] for a type: 0 for a
    container, one bit for the single-bit types, 64 bits for the others *)
Definition tagValueOk (t : PackType) (value : Z) : bool :=
  match t with
  | pckTypeUnknown | pckTypeArray | pckTypeObj => value =? 0
  | pckTypeBin | pckTypeBool | pckTypeStr => (value =? 0) || (value =? 1)
  | _ => (0 <=? value) && (value <? 18446744073709551616)
  end.

(** The lookahead after the tag of type [t], ID [id] and value [value] has
    been parsed from [n] bytes *)
Definition withTag (n id : Z) (t : PackType) (value : Z) (this : PackRead)
    : PackRead :=
  mkPackRead (bufferPtr this) (bufferPos this + n) (bufferMax this)
    id (packTypeOrd t) value (tagStack this).

(** ** Packs of well-formed calls *)

Definition ID_MAX : Z := 0xFFFFFFFE.

(** The [value] a typed write passes to [pckWriteTag] *)
Definition fieldTagValue (f : Field) : Z :=
  match f with
  | FBin v | FStr v _ =>
      match v with
      | Some bytes => if 0 <? Z.of_nat (length bytes) then 1 else 0
      | None => 0
      end
  | FBool v _ => if v then 1 else 0
  | FI32 v _ => cvtInt32ToZigZag v
  | FI64 v _ | FTime v _ => cvtInt64ToZigZag v
  | FPtr v | FU32 v _ | FU64 v _ => v
  end.

(** What a typed write appends after the tag: the size and the bytes of a
    blob or string that is not empty *)
Definition fieldPayload (f : Field) : list Z :=
  match f with
  | FBin (Some bytes) | FStr (Some bytes) _ =>
      if 0 <? Z.of_nat (length bytes)
      then varint (Z.of_nat (length bytes)) ++ bytes
      else []
  | _ => []
  end.

(** The value is one that its C type holds, and a NULL blob or string is
    passed only where the write elides it (anything else fails the
    writer's assertion [value != NULL]) *)
Definition fieldOk (f : Field) (defaultNull : bool) : Prop :=
  match f with
  | FBin v | FStr v _ =>
      match v with
      | Some bytes => Z.of_nat (length bytes) < 18446744073709551616
      | None => defaultNull && fieldIsDefault f = true
      end
  | FBool _ _ => True
  | FI32 v _ => -2147483648 <= v < 2147483648
  | FI64 v _ | FTime v _ => -9223372036854775808 <= v < 9223372036854775808
  | FPtr v | FU64 v _ => 0 <= v < 18446744073709551616
  | FU32 v _ => 0 <= v < 4294967296
  end.

(** The frame pushed by [pckWriteArrayBegin], [pckWriteObjBegin] and their
    reading counterparts *)
Definition newFrame (t : PackType) : PackTagStack := mkPackTagStack t 0 0.

(** The writer's tag stack after a tag was written at [id] *)
Definition afterTag (id : Z) (stack : list PackTagStack) : list PackTagStack :=
  updTop (fun top => mkPackTagStack (type top) id 0) stack.

(** The writer's tag stack after an elided write *)
Definition afterNull (stack : list PackTagStack) : list PackTagStack :=
  updTop (fun top => setNullTotal (u32 (nullTotal top + 1)) top) stack.

(** A sequence of calls made on a writer whose tag stack is [stack], the
    last ID used in the top frame being [last]: every ID is explicit,
    greater than the one before it in its frame and less than [ID_MAX];
    every value fits its type; containers are closed in the order they were
    opened and all are closed at the end.  [pckWriteNull] has no typed read
    to match and is left out. *)
Fixpoint opsOk (stack : list PackTagStack) (last : Z) (ops : list Op) : Prop :=
  match ops with
  | [] => length stack = 1%nat
  | OpField f id defaultNull :: ops' =>
      last < id < ID_MAX /\ fieldOk f defaultNull /\
      opsOk (if defaultNull && fieldIsDefault f then afterNull stack
             else afterTag id stack) id ops'
  | OpNull :: _ => False
  | OpArrayBegin id :: ops' =>
      last < id < ID_MAX /\
      opsOk (newFrame pckTypeArray :: afterTag id stack) 0 ops'
  | OpObjBegin id :: ops' =>
      last < id < ID_MAX /\
      opsOk (newFrame pckTypeObj :: afterTag id stack) 0 ops'
  | OpArrayEnd :: ops' =>
      stackTopIs pckTypeArray stack = true /\ (2 <= length stack)%nat /\
      opsOk (tl stack) (topIdLast (tl stack)) ops'
  | OpObjEnd :: ops' =>
      stackTopIs pckTypeObj stack = true /\ (2 <= length stack)%nat /\
      opsOk (tl stack) (topIdLast (tl stack)) ops'
  end.

(** The bytes such a sequence appends *)
Fixpoint opsBytes (stack : list PackTagStack) (ops : list Op) : list Z :=
  match ops with
  | [] => []
  | OpField f id defaultNull :: ops' =>
      if defaultNull && fieldIsDefault f then opsBytes (afterNull stack) ops'
      else
        tagBytes (fieldType f) (u32 (id - topIdLast stack - 1)) (fieldTagValue f)
        ++ fieldPayload f ++ opsBytes (afterTag id stack) ops'
  | OpNull :: ops' => opsBytes (afterNull stack) ops'
  | OpArrayBegin id :: ops' =>
      tagBytes pckTypeArray (u32 (id - topIdLast stack - 1)) 0
      ++ opsBytes (newFrame pckTypeArray :: afterTag id stack) ops'
  | OpObjBegin id :: ops' =>
      tagBytes pckTypeObj (u32 (id - topIdLast stack - 1)) 0
      ++ opsBytes (newFrame pckTypeObj :: afterTag id stack) ops'
  | OpArrayEnd :: ops' | OpObjEnd :: ops' => 0 :: opsBytes (tl stack) ops'
  end.

(** The reads that match a sequence of writes: same types, IDs and
    defaults, values returned in order *)
Definition opRead (op : Op) : Rd (list Value) :=
  match op with
  | OpField f id defaultNull =>
      v <- fieldRead f id defaultNull ;; ret [v]
  | OpNull => ret []
  | OpArrayBegin id => pckReadArrayBegin id ;; ret []
  | OpArrayEnd => pckReadArrayEnd ;; ret []
  | OpObjBegin id => pckReadObjBegin id ;; ret []
  | OpObjEnd => pckReadObjEnd ;; ret []
  end.

Fixpoint opsRead (ops : list Op) : Rd (list Value) :=
  match ops with
  | [] => ret []
  | op :: ops' =>
      vs <- opRead op ;;
      vs' <- opsRead ops' ;;
      ret (vs ++ vs')
  end.

(** The values written, in order *)
Fixpoint opsValues (ops : list Op) : list Value :=
  match ops with
  | [] => []
  | OpField f _ _ :: ops' => fieldValue f :: opsValues ops'
  | _ :: ops' => opsValues ops'
  end.

(** Every frame of a tag stack has a last ID that was given to a field *)
Definition stackOk (stack : list PackTagStack) : Prop :=
  stack <> [] /\ Forall (fun frame => 0 <= idLast frame < ID_MAX) stack.

(** Tag stacks of a reader and a writer that are at the same place: the
    same container types and last IDs *)
Definition sameFrames (s s' : list PackTagStack) : Prop :=
  Forall2 (fun a b => type a = type b /\ idLast a = idLast b) s s'.

(** A reader with no lookahead, at the start of [bytes], whose tag stack is
    that of the writer about to write them *)
Definition readerAt (this : PackRead) (stack : list PackTagStack)
    (bytes : list Z) : Prop :=
  wfRead this /\ tagNextId this = 0 /\ unread this = bytes /\
  sameFrames (tagStack this) stack.

(** A reader that has read what the writer has written.  [start] is the
    reader at the start of the bytes still to come; [this] is that reader,
    or, once a read has found its field absent, [start] with the next tag
    parsed into the lookahead and [last], the ID of the absent field, as the
    last ID of the top frame. *)
Definition readerInv (start this : PackRead) (stack : list PackTagStack)
    (last : Z) (bytes : list Z) : Prop :=
  readerAt start stack bytes /\
  (this = start /\ last = topIdLast stack
   \/ exists this1,
        loadTag start = Ok (tt, this1) /\ tagNextId this1 <> 0 /\
        this = withIdLast last this1).

(** What holds between two calls: the reader has read what the writer has
    written and is ready for the calls that follow *)
Definition stepsTo (stack : list PackTagStack) (last : Z) (this : PackRead)
    (bytes : list Z) : Prop :=
  stackOk stack /\ topIdLast stack <= last < ID_MAX /\
  exists start, readerInv start this stack last bytes.

(** The values a call returns when it is read back *)
Definition opValues (op : Op) : list Value :=
  match op with
  | OpField f _ _ => [fieldValue f]
  | _ => []
  end.

(** Fields left unread in a container, the last ID used being [last]:
    typed fields only, no container among them, that carry no data after
    their tag, at ascending IDs below [ID_MAX] *)
Fixpoint remOk (last : Z) (ops : list Op) : Prop :=
  match ops with
  | [] => True
  | OpField f id defaultNull :: ops' =>
      last < id < ID_MAX /\ fieldOk f defaultNull /\ fieldPayload f = [] /\
      remOk id ops'
  | _ => False
  end.

(** ** Progress of the reader *)

(** An action that, on a well-formed reader, does not exhaust a loop bound
    of the model and leaves a well-formed reader at the same or a later
    position of the same buffer: at one state, and at all *)
Definition progressAt {A : Type} (m : Rd A) (s : PackRead) : Prop :=
  match m s with
  | Ok (_, s') =>
      wfRead s' /\ bufferPos s <= bufferPos s' /\ bufferMax s' = bufferMax s
  | Throw e => e <> OutOfFuel
  end.

Definition progresses {A : Type} (m : Rd A) : Prop :=
  forall s, wfRead s -> progressAt m s.

(** The same for an action that takes at least one byte *)
Definition consumes {A : Type} (m : Rd A) : Prop :=
  forall s, wfRead s ->
    match m s with
    | Ok (_, s') =>
        wfRead s' /\ bufferPos s < bufferPos s' /\ bufferMax s' = bufferMax s
    | Throw e => e <> OutOfFuel
    end.

(** ** Entries of the type table *)

(** [packTypeData[type]] for a member of the enum *)
Definition typeData (t : PackType) : PackTypeData :=
  nth (Z.to_nat (packTypeOrd t)) packTypeData
    (mkPackTypeData pckTypeUnknown false false false EmptyString).

(** [strZ(packTypeData[type].name)] *)
Definition typeName (t : PackType) : string := name (typeData t).

(** The message of the error a read throws when the field at the ID asked
    for has another type *)
Definition typeMismatch (id : Z) (found expected : PackType) : PackError :=
  FormatError ("field " ++ fmtUInt id ++ " is type '" ++ typeName found
               ++ "' but expected '" ++ typeName expected ++ "'").

(** A blob or string passed as NULL *)
Definition fieldIsNull (f : Field) : bool :=
  match f with
  | FBin None | FStr None _ => true
  | _ => false
  end.

(** ** The value of a base-128 integer *)

(** The number whose base-128 digits, lowest first, are the low seven bits
    of the bytes *)
Fixpoint base128 (bytes : list Z) : Z :=
  match bytes with
  | [] => 0
  | b :: rest => b mod 128 + 128 * base128 rest
  end.

(** ** Reading some of the fields *)

(** The iterations that the loop of [pckReadTag] can make from a state: one
    for each byte left, one more for the tag in the lookahead, and the
    last *)
Definition fuelFor (this : PackRead) : nat :=
  (Z.to_nat (bufferMax this - bufferPos this)
   + (if (tagNextId this =? 0)%Z then 1 else 2))%nat.

(** A call whose bytes a read for a later ID passes without harm: a typed
    write that was elided, or that put nothing after its tag *)
Definition opPassable (op : Op) : Prop :=
  match op with
  | OpField f _ defaultNull =>
      defaultNull && fieldIsDefault f = true \/ fieldPayload f = []
  | _ => False
  end.

(** A typed call at an ID below [id] *)
Definition opBelow (id : Z) (op : Op) : Prop :=
  match op with
  | OpField _ i _ => i < id
  | _ => False
  end.

(** The reads that may be made with fields before them left unread: those
    that look for their tag with a type that has no size, which are the
    typed reads of the types without size, every typed read with
    [defaultNull] (the peek comes first), and the container calls *)
Definition opSkips (op : Op) : bool :=
  match op with
  | OpField f _ defaultNull =>
      defaultNull || negb (size (typeData (fieldType f)))
  | OpNull => false
  | _ => true
  end.

(** The ID a read looks for *)
Definition opTarget (op : Op) : Z :=
  match op with
  | OpField _ id _ | OpArrayBegin id | OpObjBegin id => id
  | _ => ID_MAX
  end.

(** A plan of reads: each read with the calls left unread before it.  The
    calls written are those of the plan in order, then [tail], which is
    not read. *)
Definition planWritten (plan : list (list Op * Op)) (tail : list Op) : list Op :=
  flat_map (fun s => fst s ++ [snd s]) plan ++ tail.

Definition planRead (plan : list (list Op * Op)) : list Op := map snd plan.

Definition planOk (plan : list (list Op * Op)) : Prop :=
  Forall (fun s => Forall opPassable (fst s)
                   /\ (fst s = [] \/ opSkips (snd s) = true)) plan.

(** The ID [pckWriteTag] gives to a tag written with [id = 0]:
    [this->tagStackTop->idLast + this->tagStackTop->nullTotal + 1] *)
Definition implicitId (stack : list PackTagStack) : Z :=
  match stack with
  | top :: _ => u32 (idLast top + nullTotal top + 1)
  | [] => 0
  end.

(** The writer's tag stack after a call *)
Definition opStack (stack : list PackTagStack) (op : Op) : list PackTagStack :=
  match op with
  | OpField f id defaultNull =>
      if defaultNull && fieldIsDefault f then afterNull stack
      else afterTag id stack
  | OpNull => afterNull stack
  | OpArrayBegin id => newFrame pckTypeArray :: afterTag id stack
  | OpObjBegin id => newFrame pckTypeObj :: afterTag id stack
  | OpArrayEnd | OpObjEnd => tl stack
  end.

(** The last ID used in the top frame after a call *)
Definition opLast (stack : list PackTagStack) (last : Z) (op : Op) : Z :=
  match op with
  | OpField _ id _ => id
  | OpNull => last
  | OpArrayBegin _ | OpObjBegin _ => 0
  | OpArrayEnd | OpObjEnd => topIdLast (tl stack)
  end.

(** A call with the ID it stands for: an ID of 0 is replaced by the one the
    writer, whose tag stack is [stack], gives the tag *)
Definition opExplicit (stack : list PackTagStack) (op : Op) : Op :=
  match op with
  | OpField f id defaultNull =>
      OpField f (if id =? 0 then implicitId stack else id) defaultNull
  | OpArrayBegin id => OpArrayBegin (if id =? 0 then implicitId stack else id)
  | OpObjBegin id => OpObjBegin (if id =? 0 then implicitId stack else id)
  | _ => op
  end.

(** A sequence of calls with every ID explicit *)
Fixpoint explicit (stack : list PackTagStack) (ops : list Op) : list Op :=
  match ops with
  | [] => []
  | op :: ops' =>
      opExplicit stack op :: explicit (opStack stack (opExplicit stack op)) ops'
  end.

(** The elided writes counted in the top frame lie at or below the last ID
    used, and none is counted in the frames below *)
Definition nullsOk (stack : list PackTagStack) (last : Z) : Prop :=
  match stack with
  | top :: r =>
      0 <= nullTotal top /\ idLast top + nullTotal top <= last /\
      Forall (fun frame => nullTotal frame = 0) r
  | [] => True
  end.

(** The writer's tag stack and the last ID used in the top frame after a
    sequence of calls *)
Fixpoint opsStack (stack : list PackTagStack) (ops : list Op)
    : list PackTagStack :=
  match ops with
  | [] => stack
  | op :: ops' => opsStack (opStack stack op) ops'
  end.

Fixpoint opsLast (stack : list PackTagStack) (last : Z) (ops : list Op) : Z :=
  match ops with
  | [] => last
  | op :: ops' => opsLast (opStack stack op) (opLast stack last op) ops'
  end.

(** An action of the writer that only appends to the buffer and does not
    look at it: on any other buffer it gives the same result and tag stack
    and appends the same bytes *)
Definition appends {A : Type} (m : Wr A) : Prop :=
  forall b stack,
    match m (mkPackWrite b stack) with
    | Ok (a, w') =>
        exists out,
          wBuffer w' = b ++ out /\
          forall b0,
            m (mkPackWrite b0 stack)
            = Ok (a, mkPackWrite (b0 ++ out) (wTagStack w'))
    | Throw e => forall b0, m (mkPackWrite b0 stack) = Throw e
    end.

(** * Basic facts: enumeration, bits, the monad, the read buffer *)

Lemma forall_below (f : Z -> bool) (n : nat) :
  forallb f (map Z.of_nat (seq 0 n)) = true ->
  forall b, 0 <= b < Z.of_nat n -> f b = true.
Proof.
  intros H b Hb. rewrite forallb_forall in H. apply H.
  apply in_map_iff. exists (Z.to_nat b). split; [lia|].
  apply in_seq. lia.
Qed.

Lemma u64_small x : 0 <= x < 18446744073709551616 -> u64 x = x.
Proof. intros H. unfold u64. apply Z.mod_small. exact H. Qed.

Lemma u32_small x : 0 <= x < 4294967296 -> u32 x = x.
Proof. intros H. unfold u32. apply Z.mod_small. exact H. Qed.

Lemma u8_small x : 0 <= x < 256 -> u8 x = x.
Proof. intros H. unfold u8. apply Z.mod_small. exact H. Qed.

Lemma u8_range x : 0 <= u8 x < 256.
Proof. unfold u8. apply Z.mod_pos_bound. lia. Qed.

Lemma u32_range x : 0 <= u32 x < 4294967296.
Proof. unfold u32. apply Z.mod_pos_bound. lia. Qed.

Lemma u64_range x : 0 <= u64 x < 18446744073709551616.
Proof. unfold u64. apply Z.mod_pos_bound. lia. Qed.

Lemma u64_lor a b : u64 (Z.lor a b) = Z.lor (u64 a) (u64 b).
Proof.
  unfold u64. change 18446744073709551616 with (2 ^ 64).
  rewrite <- !Z.land_ones by lia. apply Z.land_lor_distr_l.
Qed.

Lemma land_0x7f v : Z.land v 0x7f = v mod 128.
Proof. change 0x7f with (Z.ones 7). rewrite Z.land_ones by lia. reflexivity. Qed.

Lemma mod_256_128 v : (v mod 256) mod 128 = v mod 128.
Proof.
  apply Z.mod_mod_divide. exists 2. reflexivity.
Qed.

Lemma split7 v k : 0 <= k ->
  Z.lor (Z.shiftl (Z.land v 0x7f) k) (Z.shiftl (Z.shiftr v 7) (k + 7))
  = Z.shiftl v k.
Proof.
  intros Hk. apply Z.bits_inj'. intros n Hn.
  rewrite Z.lor_spec, !Z.shiftl_spec by lia.
  destruct (Z.ltb_spec n k).
  - rewrite !Z.testbit_neg_r by lia. reflexivity.
  - change 0x7f with (Z.ones 7). rewrite Z.land_spec.
    destruct (Z.ltb_spec (n - k) 7).
    + rewrite Z.ones_spec_low by lia.
      rewrite (Z.testbit_neg_r _ (n - (k + 7))) by lia.
      rewrite andb_true_r, orb_false_r. reflexivity.
    + rewrite Z.ones_spec_high by lia. rewrite andb_false_r. simpl.
      rewrite Z.shiftr_spec by lia. f_equal. lia.
Qed.

Lemma byte_cont_low b : 0 <= b < 256 ->
  Z.land (Z.lor b 0x80) 0x7f = b mod 128 /\ 0x80 <= Z.lor b 0x80 < 256.
Proof.
  intros Hb.
  pose proof (forall_below
    (fun b => (Z.land (Z.lor b 0x80) 0x7f =? b mod 128)
              && (0x80 <=? Z.lor b 0x80) && (Z.lor b 0x80 <? 256)) 256
    eq_refl b Hb) as H.
  cbv beta in H. rewrite !andb_true_iff in H. destruct H as [[H1 H2] H3].
  split; lia.
Qed.

Lemma last_cons_default {A : Type} (l : list A) : forall a d,
  last (a :: l) d = last l a.
Proof.
  induction l as [|x l IH]; intros a d; [reflexivity|].
  change (last (a :: x :: l) d) with (last (x :: l) d).
  rewrite !IH. reflexivity.
Qed.

Lemma Forall_last {A : Type} (P : A -> Prop) (l : list A) (d : A) :
  Forall P l -> l <> [] -> P (last l d).
Proof.
  induction 1 as [|x l Hx Hl IH]; intros Hne; [congruence|].
  destruct l as [|y l]; [exact Hx|].
  change (last (x :: y :: l) d) with (last (y :: l) d).
  apply IH. discriminate.
Qed.

(** ** The monad *)

Lemma bind_Ok {S A B : Type} (m : Act S A) (k : A -> Act S B) s a s' :
  m s = Ok (a, s') -> bind m k s = k a s'.
Proof. intros H. unfold bind. rewrite H. reflexivity. Qed.

Lemma bind_Throw {S A B : Type} (m : Act S A) (k : A -> Act S B) s e :
  m s = Throw e -> bind m k s = Throw e.
Proof. intros H. unfold bind. rewrite H. reflexivity. Qed.

Lemma bind_inv {S A B : Type} (m : Act S A) (k : A -> Act S B) s b s2 :
  bind m k s = Ok (b, s2) ->
  exists a s1, m s = Ok (a, s1) /\ k a s1 = Ok (b, s2).
Proof.
  unfold bind. destruct (m s) as [[a s1]|e]; [|discriminate].
  intros H. exists a, s1. split; [reflexivity|exact H].
Qed.

(** ** The read buffer *)

Lemma setBufferPos_same this : setBufferPos (bufferPos this) this = this.
Proof. destruct this. reflexivity. Qed.

Lemma advance_0 this : advance 0 this = this.
Proof. unfold advance. rewrite Z.add_0_r. apply setBufferPos_same. Qed.

Lemma advance_advance a b this :
  advance a (advance b this) = advance (b + a) this.
Proof. unfold advance, setBufferPos. simpl. f_equal. lia. Qed.

Lemma unread_length this :
  wfRead this ->
  Z.of_nat (length (unread this)) = bufferMax this - bufferPos this.
Proof.
  intros (Hpos & Hmax & _). unfold unread. rewrite length_skipn. lia.
Qed.

Lemma wfRead_remaining this :
  wfRead this ->
  u64 (bufferMax this - bufferPos this) = Z.of_nat (length (unread this)).
Proof.
  intros H. rewrite (unread_length _ H). destruct H as (Hpos & Hmax & Hlt).
  apply u64_small. lia.
Qed.

Lemma advance_wf n this :
  wfRead this -> 0 <= n <= Z.of_nat (length (unread this)) ->
  wfRead (advance n this).
Proof.
  intros H Hn. rewrite (unread_length _ H) in Hn.
  destruct H as (Hpos & Hmax & Hlt). unfold wfRead, advance. simpl. lia.
Qed.

Lemma advance_unread n this :
  0 <= bufferPos this -> 0 <= n ->
  unread (advance n this) = skipn (Z.to_nat n) (unread this).
Proof.
  intros Hp Hn. unfold unread, advance. simpl.
  rewrite skipn_skipn. f_equal. lia.
Qed.

Lemma advance_unread_app bytes rest this :
  wfRead this -> unread this = bytes ++ rest ->
  wfRead (advance (Z.of_nat (length bytes)) this) /\
  unread (advance (Z.of_nat (length bytes)) this) = rest.
Proof.
  intros H Hu. split.
  - apply advance_wf; [exact H|]. rewrite Hu, length_app. lia.
  - rewrite advance_unread; [|apply H|lia]. rewrite Hu, Nat2Z.id.
    rewrite skipn_app, skipn_all, Nat.sub_diag. reflexivity.
Qed.

Lemma pckReadBuffer_all sz this :
  wfRead this -> sz <= Z.of_nat (length (unread this)) ->
  pckReadBuffer sz this = Ok (sz, this).
Proof.
  intros H Hsz. unfold pckReadBuffer. rewrite (wfRead_remaining _ H).
  destruct (Z.ltb_spec (Z.of_nat (length (unread this))) sz); [lia|reflexivity].
Qed.

Lemma pckReadBuffer_short sz this :
  wfRead this -> 1 <= Z.of_nat (length (unread this)) < sz ->
  pckReadBuffer sz this = Ok (Z.of_nat (length (unread this)), this).
Proof.
  intros H Hsz. unfold pckReadBuffer. rewrite (wfRead_remaining _ H).
  destruct (Z.ltb_spec (Z.of_nat (length (unread this))) sz); [|lia].
  destruct (Z.ltb_spec (Z.of_nat (length (unread this))) 1); [lia|reflexivity].
Qed.

Lemma pckReadBuffer_eof sz this :
  wfRead this -> unread this = [] -> 1 <= sz ->
  pckReadBuffer sz this = Throw (FormatError "unexpected EOF").
Proof.
  intros H Hu Hsz. unfold pckReadBuffer. rewrite (wfRead_remaining _ H), Hu.
  simpl. destruct (Z.ltb_spec 0 sz); [reflexivity|lia].
Qed.

Lemma bufferByte_head b rest this :
  unread this = b :: rest -> bufferByte this = Ok (b, this).
Proof.
  intros Hu. unfold bufferByte, gets. do 2 f_equal.
  unfold unread in Hu.
  rewrite <- (firstn_skipn (Z.to_nat (bufferPos this)) (bufferPtr this)) at 1.
  assert (Hl : length (firstn (Z.to_nat (bufferPos this)) (bufferPtr this))
               = Z.to_nat (bufferPos this)).
  { apply firstn_length_le.
    destruct (Nat.le_gt_cases (Z.to_nat (bufferPos this)) (length (bufferPtr this)))
      as [Hle|Hgt]; [exact Hle|].
    rewrite skipn_all2 in Hu by lia. discriminate. }
  rewrite app_nth2 by lia. rewrite Hl, Nat.sub_diag, Hu. reflexivity.
Qed.

Lemma bufferPosAdd_advance n this :
  wfRead this -> 0 <= n <= Z.of_nat (length (unread this)) ->
  bufferPosAdd n this = Ok (tt, advance n this).
Proof.
  intros H Hn. rewrite (unread_length _ H) in Hn.
  destruct H as (Hpos & Hmax & Hlt).
  unfold bufferPosAdd, modify, advance. rewrite u64_small by lia. reflexivity.
Qed.

(** Taking the byte at the position: the three steps every parse begins with *)
Lemma take_byte {A : Type} (k : Z -> Rd A) b rest this :
  wfRead this -> unread this = b :: rest ->
  (_ <- pckReadBuffer 1 ;; byte <- bufferByte ;; bufferPosAdd 1 ;; k byte) this
  = k b (advance 1 this).
Proof.
  intros H Hu.
  rewrite (bind_Ok _ _ _ _ _ (pckReadBuffer_all 1 this H ltac:(rewrite Hu; simpl; lia))).
  rewrite (bind_Ok _ _ _ _ _ (bufferByte_head b rest this Hu)).
  rewrite (bind_Ok _ _ _ _ _ (bufferPosAdd_advance 1 this H ltac:(rewrite Hu; simpl; lia))).
  reflexivity.
Qed.

Lemma advance_1_cons b rest this :
  wfRead this -> unread this = b :: rest ->
  wfRead (advance 1 this) /\ unread (advance 1 this) = rest.
Proof.
  intros H Hu. apply (advance_unread_app [b] rest this H Hu).
Qed.

(** * Base-128 integers *)

Section Varint.

Lemma pckWriteUInt64Loop_length slots : forall value bytes,
  pckWriteUInt64Loop slots value = Some bytes ->
  (1 <= length bytes <= slots)%nat.
Proof.
  induction slots as [|slots IH]; intros value bytes H; simpl in H.
  - discriminate.
  - destruct (0x80 <=? value).
    + destruct (pckWriteUInt64Loop slots (Z.shiftr value 7)) as [bs|] eqn:E;
        [|discriminate].
      injection H as <-. specialize (IH _ _ E). simpl. lia.
    + injection H as <-. simpl. lia.
Qed.

(** The loop has room for every value of [7 * slots] bits *)
Lemma pckWriteUInt64Loop_total slots : forall value,
  0 <= value < 2 ^ (7 * Z.of_nat slots) -> (1 <= slots)%nat ->
  exists bytes, pckWriteUInt64Loop slots value = Some bytes.
Proof.
  induction slots as [|slots IH]; intros value Hv Hs; [lia|].
  simpl. destruct (Z.leb_spec 0x80 value) as [Hge|Hlt].
  - assert (Hsh : 0 <= Z.shiftr value 7 < 2 ^ (7 * Z.of_nat slots)).
    { rewrite Z.shiftr_div_pow2 by lia. split.
      - apply Z.div_pos; lia.
      - apply Z.div_lt_upper_bound; [lia|].
        rewrite <- Z.pow_add_r by lia.
        replace (7 + 7 * Z.of_nat slots) with (7 * Z.of_nat (S slots)) by lia.
        lia. }
    assert (Hpos : 1 <= Z.shiftr value 7).
    { rewrite Z.shiftr_div_pow2 by lia. apply Z.div_le_lower_bound; lia. }
    destruct slots as [|slots'].
    + simpl in Hsh. lia.
    + destruct (IH _ Hsh ltac:(lia)) as [bs Hbs]. rewrite Hbs.
      eexists. reflexivity.
  - eexists. reflexivity.
Qed.

(** Shape of the bytes: continuation bits and seven value bits per byte *)
Lemma pckWriteUInt64Loop_bytes slots : forall value bytes,
  0 <= value ->
  pckWriteUInt64Loop slots value = Some bytes ->
  forall i b, nth_error bytes i = Some b ->
    Z.land b 0x7f = Z.land (Z.shiftr value (7 * Z.of_nat i)) 0x7f /\
    (if (S i <? length bytes)%nat then 0x80 <= b < 256 else 0 <= b < 0x80).
Proof.
  induction slots as [|slots IH]; intros value bytes Hv H i b Hi; simpl in H.
  - discriminate.
  - destruct (Z.leb_spec 0x80 value) as [Hge|Hlt].
    + destruct (pckWriteUInt64Loop slots (Z.shiftr value 7)) as [bs|] eqn:E;
        [|discriminate].
      injection H as <-.
      pose proof (pckWriteUInt64Loop_length _ _ _ E) as Hlen.
      destruct i as [|i]; simpl in Hi.
      * injection Hi as <-.
        pose proof (u8_range value) as Hb.
        destruct (byte_cont_low _ Hb) as [H1 H2].
        split.
        -- rewrite H1. simpl. rewrite Z.shiftr_0_r, land_0x7f.
           apply mod_256_128.
        -- simpl. destruct (Nat.ltb_spec 1 (S (length bs))); [exact H2|lia].
      * assert (Hsh : 0 <= Z.shiftr value 7) by (apply Z.shiftr_nonneg; lia).
        destruct (IH _ _ Hsh E i b Hi) as [H1 H2]. split.
        -- rewrite H1, Z.shiftr_shiftr by lia. do 2 f_equal. lia.
        -- simpl length.
           change (S (S i) <? S (length bs))%nat with (S i <? length bs)%nat.
           exact H2.
    + injection H as <-.
      destruct i as [|i]; simpl in Hi.
      * injection Hi as <-. rewrite u8_small by lia. simpl.
        rewrite Z.shiftr_0_r. split; [reflexivity|lia].
      * destruct i; discriminate.
Qed.

(** The reader's loop on the writer's bytes *)
Lemma pckReadUInt64Loop_written count : forall value bytes bufferIdx result byte0 this rest,
  0 <= value -> 0 <= bufferIdx ->
  pckWriteUInt64Loop count value = Some bytes ->
  wfRead this -> unread this = bytes ++ rest ->
  pckReadUInt64Loop count bufferIdx result byte0 this
  = Ok ((Z.lor result (u64 (Z.shiftl value (7 * bufferIdx))), last bytes 0),
        advance (Z.of_nat (length bytes) - 1) this)
  /\ last bytes 0 < 0x80.
Proof.
  induction count as [|count IH];
    intros value bytes bufferIdx result byte0 this rest Hv Hidx Hw Hwf Hu;
    simpl in Hw; [discriminate|].
  destruct (Z.leb_spec 0x80 value) as [Hge|Hlt].
  - destruct (pckWriteUInt64Loop count (Z.shiftr value 7)) as [bs|] eqn:E;
      [|discriminate].
    injection Hw as <-. simpl app in Hu.
    pose proof (pckWriteUInt64Loop_length _ _ _ E) as Hlen.
    pose proof (u8_range value) as Hb.
    destruct (byte_cont_low _ Hb) as [Hlow Hhigh].
    destruct (advance_1_cons _ _ _ Hwf Hu) as [Hwf1 Hu1].
    assert (Hsh : 0 <= Z.shiftr value 7) by (apply Z.shiftr_nonneg; lia).
    destruct (IH (Z.shiftr value 7) bs (bufferIdx + 1)
                (Z.lor result (u64 (Z.shiftl (Z.land (Z.lor (u8 value) 0x80) 0x7f)
                                       (7 * bufferIdx))))
                (Z.lor (u8 value) 0x80) (advance 1 this) rest
                Hsh ltac:(lia) E Hwf1 Hu1) as [Hrun Hlast].
    assert (Hl : last (Z.lor (u8 value) 0x80 :: bs) 0 = last bs 0).
    { destruct bs; [simpl in Hlen; lia|reflexivity]. }
    rewrite Hl. split; [|exact Hlast].
    cbn [pckReadUInt64Loop].
    rewrite (bind_Ok _ _ _ _ _
               (pckReadBuffer_all 1 this Hwf ltac:(rewrite Hu; simpl; lia))).
    rewrite (bind_Ok _ _ _ _ _ (bufferByte_head _ _ _ Hu)).
    destruct (Z.ltb_spec (Z.lor (u8 value) 0x80) 0x80); [lia|].
    rewrite (bind_Ok _ _ _ _ _
               (bufferPosAdd_advance 1 this Hwf ltac:(rewrite Hu; simpl; lia))).
    rewrite Hrun, advance_advance. do 3 f_equal.
    + rewrite <- Z.lor_assoc, <- u64_lor. do 2 f_equal.
      rewrite Hlow.
      replace (u8 value mod 128) with (Z.land value 0x7f).
      * replace (7 * (bufferIdx + 1)) with (7 * bufferIdx + 7) by lia.
        apply split7. lia.
      * rewrite land_0x7f. symmetry. apply mod_256_128.
    + simpl length. lia.
  - injection Hw as <-. rewrite u8_small in * by lia. simpl app in Hu.
    split; [|simpl; lia].
    cbn [pckReadUInt64Loop].
    rewrite (bind_Ok _ _ _ _ _
               (pckReadBuffer_all 1 this Hwf ltac:(rewrite Hu; simpl; lia))).
    rewrite (bind_Ok _ _ _ _ _ (bufferByte_head _ _ _ Hu)).
    destruct (Z.ltb_spec value 0x80); [|lia].
    simpl length. simpl Z.sub. rewrite advance_0. unfold ret. simpl last.
    rewrite land_0x7f, Z.mod_small by lia. reflexivity.
Qed.

(** [pckReadUInt64Internal] reads back what [pckWriteUInt64Loop] produced *)
Lemma pckReadUInt64Internal_written value bytes this rest :
  0 <= value < 18446744073709551616 ->
  pckWriteUInt64Loop PACK_UINT64_SIZE_MAX value = Some bytes ->
  wfRead this -> unread this = bytes ++ rest ->
  pckReadUInt64Internal this
  = Ok (value, advance (Z.of_nat (length bytes)) this).
Proof.
  intros Hv Hw Hwf Hu.
  destruct (pckReadUInt64Loop_written _ value bytes 0 0 0 this rest
              ltac:(lia) ltac:(lia) Hw Hwf Hu) as [Hrun Hlast].
  pose proof (pckWriteUInt64Loop_length _ _ _ Hw) as Hlen.
  unfold pckReadUInt64Internal.
  rewrite (bind_Ok _ _ _ _ _ Hrun). cbn [fst snd].
  destruct (Z.leb_spec 0x80 (last bytes 0)); [lia|].
  assert (Hwf' : wfRead (advance (Z.of_nat (length bytes) - 1) this)).
  { apply advance_wf; [exact Hwf|]. rewrite Hu, length_app. lia. }
  assert (Hu' : (1 <= length (unread (advance (Z.of_nat (length bytes) - 1) this)))%nat).
  { rewrite advance_unread; [|apply Hwf|lia]. rewrite Hu, length_skipn, length_app. lia. }
  rewrite (bind_Ok _ _ _ _ _ (bufferPosAdd_advance 1 _ Hwf' ltac:(lia))).
  rewrite advance_advance. unfold ret. do 3 f_equal.
  - change (7 * 0) with 0. rewrite Z.shiftl_0_r, Z.lor_0_l.
    apply u64_small. exact Hv.
  - lia.
Qed.

Lemma pckWriteUInt64Internal_bytes value bytes this :
  pckWriteUInt64Loop PACK_UINT64_SIZE_MAX value = Some bytes ->
  pckWriteUInt64Internal value this
  = Ok (tt, setWBuffer (wBuffer this ++ bytes) this).
Proof. intros H. unfold pckWriteUInt64Internal. rewrite H. reflexivity. Qed.

End Varint.

(** C2. For every unsigned 64-bit integer [value], [pckWriteUInt64Internal]
    appends a little-endian base-128 integer of at most 10 bytes: byte [i]
    carries the seven bits of [value] from bit [7 * i] on, every byte but
    the last has its high bit set, the last has it clear; and
    [pckReadUInt64Internal], reading those bytes, returns exactly [value]
    and stops right after them. *)
Theorem pckUInt64_roundtrip (value : Z) :
  0 <= value < 18446744073709551616 ->
  exists bytes,
    (forall this, pckWriteUInt64Internal value this
                  = Ok (tt, setWBuffer (wBuffer this ++ bytes) this)) /\
    (1 <= length bytes <= 10)%nat /\
    (forall i b, nth_error bytes i = Some b ->
       Z.land b 0x7f = Z.land (Z.shiftr value (7 * Z.of_nat i)) 0x7f /\
       (if (S i <? length bytes)%nat then 0x80 <= b < 256 else 0 <= b < 0x80)) /\
    (forall this rest, wfRead this -> unread this = bytes ++ rest ->
       pckReadUInt64Internal this
       = Ok (value, advance (Z.of_nat (length bytes)) this)).
Proof.
  intros Hv.
  destruct (pckWriteUInt64Loop_total PACK_UINT64_SIZE_MAX value) as [bytes Hb].
  { change (2 ^ (7 * Z.of_nat PACK_UINT64_SIZE_MAX))
      with 1180591620717411303424. lia. }
  { unfold PACK_UINT64_SIZE_MAX. lia. }
  exists bytes. split; [|split; [|split]].
  - intros this. apply pckWriteUInt64Internal_bytes. exact Hb.
  - apply (pckWriteUInt64Loop_length _ _ _ Hb).
  - apply (pckWriteUInt64Loop_bytes _ value bytes (proj1 Hv) Hb).
  - intros this rest Hwf Hu.
    apply (pckReadUInt64Internal_written value bytes this rest Hv Hb Hwf Hu).
Qed.

Lemma pckUInt64_roundtrip_witness :
  exists bytes,
    (forall this, pckWriteUInt64Internal 300 this
                  = Ok (tt, setWBuffer (wBuffer this ++ bytes) this)) /\
    (1 <= length bytes <= 10)%nat /\
    (forall i b, nth_error bytes i = Some b ->
       Z.land b 0x7f = Z.land (Z.shiftr 300 (7 * Z.of_nat i)) 0x7f /\
       (if (S i <? length bytes)%nat then 0x80 <= b < 256 else 0 <= b < 0x80)) /\
    (forall this rest, wfRead this -> unread this = bytes ++ rest ->
       pckReadUInt64Internal this
       = Ok (300, advance (Z.of_nat (length bytes)) this)).
Proof. apply (pckUInt64_roundtrip 300). lia. Defined.

(** The reader's loop on bytes that all have the continuation bit set *)
Lemma pckReadUInt64Loop_continued bytes : forall count bufferIdx result byte0 this rest,
  wfRead this -> unread this = bytes ++ rest ->
  Forall (fun b => 0x80 <= b) bytes -> length bytes = count ->
  exists result',
    pckReadUInt64Loop count bufferIdx result byte0 this
    = Ok ((result', last bytes byte0), advance (Z.of_nat count) this).
Proof.
  induction bytes as [|b bytes IH];
    intros count bufferIdx result byte0 this rest Hwf Hu Hall Hlen;
    subst count.
  - exists result. simpl. rewrite advance_0. reflexivity.
  - inversion Hall as [|? ? Hb Hall']; subst.
    destruct (advance_1_cons _ _ _ Hwf Hu) as [Hwf1 Hu1].
    edestruct (IH (length bytes) (bufferIdx + 1)
                 (Z.lor result (u64 (Z.shiftl (Z.land b 0x7f) (7 * bufferIdx))))
                 b (advance 1 this) rest Hwf1 Hu1 Hall' eq_refl) as [result' Hrun].
    exists result'. cbn [pckReadUInt64Loop length].
    rewrite (bind_Ok _ _ _ _ _
               (pckReadBuffer_all 1 this Hwf ltac:(rewrite Hu; simpl; lia))).
    rewrite (bind_Ok _ _ _ _ _ (bufferByte_head _ _ _ Hu)).
    destruct (Z.ltb_spec b 0x80); [lia|].
    rewrite (bind_Ok _ _ _ _ _
               (bufferPosAdd_advance 1 this Hwf ltac:(rewrite Hu; simpl; lia))).
    rewrite Hrun, advance_advance. do 3 f_equal.
    + symmetry. apply last_cons_default.
    + lia.
Qed.

(** The reader's loop when the input ends on a byte with the continuation
    bit set *)
Lemma pckReadUInt64Loop_eof bytes : forall count bufferIdx result byte0 this,
  wfRead this -> unread this = bytes ->
  Forall (fun b => 0x80 <= b) bytes -> (length bytes < count)%nat ->
  pckReadUInt64Loop count bufferIdx result byte0 this
  = Throw (FormatError "unexpected EOF").
Proof.
  induction bytes as [|b bytes IH];
    intros count bufferIdx result byte0 this Hwf Hu Hall Hlen;
    (destruct count as [|count]; [simpl in Hlen; lia|]); cbn [pckReadUInt64Loop].
  - apply bind_Throw. apply pckReadBuffer_eof; [exact Hwf|exact Hu|lia].
  - inversion Hall as [|? ? Hb Hall']; subst.
    destruct (advance_1_cons _ _ _ Hwf Hu) as [Hwf1 Hu1].
    rewrite (bind_Ok _ _ _ _ _
               (pckReadBuffer_all 1 this Hwf ltac:(rewrite Hu; simpl; lia))).
    rewrite (bind_Ok _ _ _ _ _ (bufferByte_head _ _ _ Hu)).
    destruct (Z.ltb_spec b 0x80); [lia|].
    rewrite (bind_Ok _ _ _ _ _
               (bufferPosAdd_advance 1 this Hwf ltac:(rewrite Hu; simpl; lia))).
    apply IH; [exact Hwf1|exact Hu1|exact Hall'|simpl in Hlen; lia].
Qed.

(** C8. Decoding a base-128 integer fails with a format error, whose
    message in the code is "unterminated base-128 integer", when the tenth
    byte read still has its continuation bit set; and it fails with the
    format error "unexpected EOF" when the input ends before a byte with the
    continuation bit clear is found. *)
Theorem pckReadUInt64Internal_errors (this : PackRead) (bytes rest : list Z) :
  wfRead this ->
  Forall (fun b => 0x80 <= b) bytes ->
  (length bytes = 10%nat -> unread this = bytes ++ rest ->
   pckReadUInt64Internal this
   = Throw (FormatError "unterminated base-128 integer")) /\
  ((length bytes < 10)%nat -> unread this = bytes ->
   pckReadUInt64Internal this = Throw (FormatError "unexpected EOF")).
Proof.
  intros Hwf Hall. split.
  - intros Hlen Hu.
    destruct (pckReadUInt64Loop_continued bytes PACK_UINT64_SIZE_MAX 0 0 0
                this rest Hwf Hu Hall Hlen) as [result' Hrun].
    unfold pckReadUInt64Internal. rewrite (bind_Ok _ _ _ _ _ Hrun).
    cbn [snd].
    assert (Hlast : 0x80 <= last bytes 0).
    { apply (Forall_last (fun b => 0x80 <= b)); [exact Hall|].
      destruct bytes; discriminate. }
    destruct (Z.leb_spec 0x80 (last bytes 0)); [reflexivity|lia].
  - intros Hlen Hu. unfold pckReadUInt64Internal. apply bind_Throw.
    apply (pckReadUInt64Loop_eof bytes); assumption.
Qed.

Lemma pckReadUInt64Internal_errors_witness :
  (wfRead (pckReadNewBuf (repeat 0xFF 10 ++ [0x01])) /\
   Forall (fun b => 0x80 <= b) (repeat 0xFF 10) /\
   pckReadUInt64Internal (pckReadNewBuf (repeat 0xFF 10 ++ [0x01]))
   = Throw (FormatError "unterminated base-128 integer")) /\
  (wfRead (pckReadNewBuf [0xFF; 0x80]) /\
   Forall (fun b => 0x80 <= b) [0xFF; 0x80] /\
   pckReadUInt64Internal (pckReadNewBuf [0xFF; 0x80])
   = Throw (FormatError "unexpected EOF")).
Proof.
  assert (Hwf : wfRead (pckReadNewBuf (repeat 0xFF 10 ++ [0x01]))).
  { unfold wfRead. simpl. lia. }
  assert (Hall : Forall (fun b => 0x80 <= b) (repeat 0xFF 10)).
  { simpl. repeat constructor; lia. }
  assert (Hwf' : wfRead (pckReadNewBuf [0xFF; 0x80])).
  { unfold wfRead. simpl. lia. }
  assert (Hall' : Forall (fun b => 0x80 <= b) [0xFF; 0x80]).
  { repeat constructor; lia. }
  split; (split; [assumption|split; [assumption|]]).
  - apply (proj1 (pckReadUInt64Internal_errors _ (repeat 0xFF 10) [0x01] Hwf Hall));
      reflexivity.
  - apply (proj2 (pckReadUInt64Internal_errors _ [0xFF; 0x80] [] Hwf' Hall'));
      [simpl; lia|reflexivity].
Defined.

(** * Worked examples *)

(** C9. Writing U32 value 1 at id 1 into an empty frame emits the single
    tag byte 0xA4: the ordinal of U32 in the high nibble, the value bit at
    position 2, and the more-value flag (bit 3), the more-ID-delta flag
    (bit 1) and the low bit of the ID delta (bit 0) all clear.  A reader
    reading that byte with [pckReadU32] at id 1 returns 1. *)
Theorem pckWriteU32_one_at_one :
  (forall buffer top rest defaultValue,
     idLast top = 0 ->
     pckWriteU32 1 1 false defaultValue (mkPackWrite buffer (top :: rest))
     = Ok (tt, mkPackWrite (buffer ++ [0xA4])
                 (mkPackTagStack (type top) 1 0 :: rest))) /\
  Z.shiftr 0xA4 4 = packTypeOrd pckTypeU32 /\
  Z.testbit 0xA4 3 = false /\
  Z.testbit 0xA4 2 = true /\
  Z.testbit 0xA4 1 = false /\
  Z.testbit 0xA4 0 = false /\
  (forall defaultValue,
     pckReadU32 1 false defaultValue (pckReadNewBuf [0xA4])
     = Ok (1, mkPackRead [0xA4] 1 1 0 (packTypeOrd pckTypeU32) 1
                [mkPackTagStack pckTypeObj 1 0])) /\
  (forall defaultValue,
     (pckWriteU32 1 1 false defaultValue ;; pckWriteEnd) pckWriteNewInternal
     = Ok ([0xA4; 0x00], mkPackWrite [0xA4; 0x00] [mkPackTagStack pckTypeObj 1 0])).
Proof.
  repeat split.
  intros buffer [t l n] rest defaultValue Hl. simpl in Hl. subst l.
  reflexivity.
Qed.

(** C3.  A read that passes a string or blob whose value bit is 1 on its
    way to a field of a type without a size does not read the length and
    the payload of the field it skips, where the specification has them
    consumed.  The writer emits a string "a" at id 1 and the U32 7 at id 2;
    reading the U32 at id 2 skips the tag of the string only: the length
    byte 0x01 is parsed as the next tag and field 2 is reported missing.
    The payload is skipped when the type asked for is itself size-prefixed,
    as when a blob is read at id 2. *)
Theorem pckReadTag_skip_ignores_payload :
  (pckWriteStr (Some [0x61]) 1 false None ;;
   pckWriteU32 7 2 false 0 ;;
   pckWriteEnd) pckWriteNewInternal
  = Ok ([0x88; 0x01; 0x61; 0xA8; 0x07; 0x00],
        mkPackWrite [0x88; 0x01; 0x61; 0xA8; 0x07; 0x00]
          [mkPackTagStack pckTypeObj 2 0]) /\
  pckReadU32 2 false 0 (pckReadNewBuf [0x88; 0x01; 0x61; 0xA8; 0x07; 0x00])
  = Throw (FormatError "field 2 does not exist") /\
  (pckWriteStr (Some [0x61]) 1 false None ;;
   pckWriteBin (Some [0x05]) 2 false ;;
   pckWriteEnd) pckWriteNewInternal
  = Ok ([0x88; 0x01; 0x61; 0x28; 0x01; 0x05; 0x00],
        mkPackWrite [0x88; 0x01; 0x61; 0x28; 0x01; 0x05; 0x00]
          [mkPackTagStack pckTypeObj 2 0]) /\
  pckReadBin 2 false (pckReadNewBuf [0x88; 0x01; 0x61; 0x28; 0x01; 0x05; 0x00])
  = Ok (Some [0x05],
        mkPackRead [0x88; 0x01; 0x61; 0x28; 0x01; 0x05; 0x00] 6 7 0
          (packTypeOrd pckTypeBin) 1 [mkPackTagStack pckTypeObj 2 0]).
Proof. repeat split. Qed.

(** The test on the type asked for works the other way too: a read of a
    string that passes a U32 whose value is not 0 takes the bytes after the
    U32 for a size and a payload, and runs out of input.  Reading the U32
    first, the string is returned. *)
Lemma pckReadTag_skip_reads_size_after_integer :
  (pckWriteU32 7 1 false 0 ;;
   pckWriteStr (Some [0x61]) 2 false None ;;
   pckWriteEnd) pckWriteNewInternal
  = Ok ([0xA8; 0x07; 0x88; 0x01; 0x61; 0x00],
        mkPackWrite [0xA8; 0x07; 0x88; 0x01; 0x61; 0x00]
          [mkPackTagStack pckTypeObj 2 0]) /\
  pckReadStr 2 false None (pckReadNewBuf [0xA8; 0x07; 0x88; 0x01; 0x61; 0x00])
  = Throw (FormatError "unexpected EOF") /\
  resultOf ((pckReadU32 1 false 0 ;; pckReadStr 2 false None)
              (pckReadNewBuf [0xA8; 0x07; 0x88; 0x01; 0x61; 0x00]))
  = Ok (Some [0x61]).
Proof. repeat split. Qed.

(** * The reader: frame conditions, absent fields, peeking *)

(** ** What parsing leaves alone *)

Lemma sameInput_refl s : sameInput s s.
Proof. repeat split. Qed.

Lemma sameInput_trans s1 s2 s3 :
  sameInput s1 s2 -> sameInput s2 s3 -> sameInput s1 s3.
Proof.
  intros (A1 & A2 & A3) (B1 & B2 & B3). repeat split; congruence.
Qed.

Lemma keeps_ret {A : Type} (a : A) : keepsInput (ret a).
Proof. intros s a' s' H. injection H as _ <-. apply sameInput_refl. Qed.

Lemma keeps_throw {A : Type} e : keepsInput (@throw PackRead A e).
Proof. intros s a s' H. discriminate. Qed.

Lemma keeps_gets {A : Type} (f : PackRead -> A) : keepsInput (gets f).
Proof. intros s a s' H. injection H as _ <-. apply sameInput_refl. Qed.

Lemma keeps_bind {A B : Type} (m : Rd A) (k : A -> Rd B) :
  keepsInput m -> (forall a, keepsInput (k a)) -> keepsInput (bind m k).
Proof.
  intros Hm Hk s b s' H. apply bind_inv in H as (a & s1 & H1 & H2).
  eapply sameInput_trans; [eapply Hm; eassumption|eapply Hk; eassumption].
Qed.

Lemma keeps_modify (f : PackRead -> PackRead) :
  (forall s, sameInput s (f s)) -> keepsInput (modify f).
Proof. intros Hf s a s' H. inversion H; subst. apply Hf. Qed.

Lemma keeps_if {A : Type} (c : bool) (m1 m2 : Rd A) :
  keepsInput m1 -> keepsInput m2 -> keepsInput (if c then m1 else m2).
Proof. destruct c; auto. Qed.

Lemma keeps_when (c : bool) (m : Rd unit) :
  keepsInput m -> keepsInput (when c m).
Proof. intros H. unfold when. apply keeps_if; [exact H|apply keeps_ret]. Qed.

Lemma keeps_pckReadBuffer sz : keepsInput (pckReadBuffer sz).
Proof.
  intros s a s' H. unfold pckReadBuffer in H.
  repeat match type of H with
         | (if ?c then _ else _) = _ => destruct c
         end; try discriminate; injection H as _ <-; apply sameInput_refl.
Qed.

Lemma keeps_packTypeDataAt idx : keepsInput (packTypeDataAt idx).
Proof.
  unfold packTypeDataAt. destruct (nth_error packTypeData (Z.to_nat idx));
    [apply keeps_ret|apply keeps_throw].
Qed.

Lemma keeps_topOf {A : Type} (f : PackTagStack -> A) :
  keepsInput (topOf tagStack f).
Proof.
  intros s a s' H. unfold topOf in H. destruct (tagStack s); [discriminate|].
  injection H as _ <-. apply sameInput_refl.
Qed.

Create HintDb keeps.
#[local] Hint Resolve keeps_ret keeps_throw keeps_gets keeps_pckReadBuffer
  keeps_packTypeDataAt keeps_topOf : keeps.

Ltac keeps_step :=
  first [ apply keeps_bind; [|intros ?]
        | apply keeps_if
        | apply keeps_when
        | apply keeps_modify; intros ?; repeat split
        | solve [auto with keeps] ].

Lemma keeps_bufferPosAdd n : keepsInput (bufferPosAdd n).
Proof. unfold bufferPosAdd. repeat keeps_step. Qed.

Lemma keeps_bufferByte : keepsInput bufferByte.
Proof. unfold bufferByte. repeat keeps_step. Qed.

#[local] Hint Resolve keeps_bufferPosAdd keeps_bufferByte : keeps.

Lemma keeps_pckReadUInt64Loop count : forall bufferIdx result byte,
  keepsInput (pckReadUInt64Loop count bufferIdx result byte).
Proof.
  induction count as [|count IH]; intros bufferIdx result byte; simpl;
    repeat keeps_step.
Qed.

Lemma keeps_pckReadUInt64Internal : keepsInput pckReadUInt64Internal.
Proof.
  unfold pckReadUInt64Internal.
  apply keeps_bind; [apply keeps_pckReadUInt64Loop|intros ?].
  repeat keeps_step.
Qed.

#[local] Hint Resolve keeps_pckReadUInt64Internal : keeps.

Lemma keeps_readIdDelta tag flag shift : keepsInput (readIdDelta tag flag shift).
Proof. unfold readIdDelta, orTagNextId. repeat keeps_step. Qed.

#[local] Hint Resolve keeps_readIdDelta : keeps.

Lemma keeps_pckReadTagNext : keepsInput pckReadTagNext.
Proof. unfold pckReadTagNext. repeat keeps_step. Qed.

#[local] Hint Resolve keeps_pckReadTagNext : keeps.

Lemma keeps_loadTag : keepsInput loadTag.
Proof. unfold loadTag. repeat keeps_step. Qed.

(** ** [pckReadTag] at an absent, a present and a consumed ID *)

Section ReadTag.

Variables (this this1 : PackRead) (top : PackTagStack) (rest : list PackTagStack).
Variables (id : Z) (type : PackType) (peek : bool).

Hypothesis Hcall : validCall type peek = true.
Hypothesis Hstack : tagStack this = top :: rest.

Lemma pckReadTag_already :
  id <> 0 -> id <= idLast top ->
  pckReadTag id type peek this
  = Throw (FormatError ("field " ++ fmtUInt id ++ " was already read")).
Proof.
  intros Hid Hle. unfold pckReadTag.
  fold (validCall type peek). rewrite Hcall. unfold assert.
  unfold bind at 1. unfold ret at 1.
  unfold bind at 1. unfold topOf at 1. rewrite Hstack.
  apply bind_Throw.
  destruct (Z.eqb_spec id 0); [contradiction|].
  destruct (Z.leb_spec id (idLast top)); [reflexivity|lia].
Qed.

Hypothesis Hid : id = 0 \/ idLast top < id.
Hypothesis Hload : loadTag this = Ok (tt, this1).

Lemma pckReadTag_start (k : Z -> Rd (Z * Z)) :
  (assert (validCall type peek)
     "(peek && type == pckTypeUnknown) || (!peek && type != pckTypeUnknown)" ;;
   last <- topOf tagStack idLast ;;
   id' <- (if id =? 0 then ret (u32 (last + 1))
           else if id <=? last then
             throw (FormatError ("field " ++ fmtUInt id ++ " was already read"))
           else ret id) ;;
   k id') this
  = k (requestedId (tagStack this) id) this.
Proof.
  rewrite Hcall. unfold assert.
  unfold bind at 1. unfold ret at 1.
  unfold bind at 1. unfold topOf at 1. rewrite Hstack.
  unfold requestedId, topIdLast.
  destruct (Z.eqb_spec id 0); [reflexivity|].
  destruct (Z.leb_spec id (idLast top)); [lia|reflexivity].
Qed.

Lemma pckReadTag_absent :
  requestedId (tagStack this) id < tagNextId this1 ->
  pckReadTag id type peek this
  = if peek then
      Ok ((requestedId (tagStack this) id, tagNextValue this1), this1)
    else
      Throw (FormatError ("field " ++ fmtUInt (requestedId (tagStack this) id)
                          ++ " does not exist")).
Proof.
  intros Hlt. unfold pckReadTag. fold (validCall type peek).
  rewrite pckReadTag_start.
  unfold bind at 1. unfold gets at 1. unfold pckReadTagFuel.
  cbn [pckReadTagLoop].
  unfold bind at 1. unfold bind at 1. rewrite Hload.
  unfold bind at 1. unfold gets at 1.
  destruct (Z.ltb_spec (requestedId (tagStack this) id) (tagNextId this1));
    [|lia].
  destruct peek; reflexivity.
Qed.

Lemma pckReadTag_present_peek :
  peek = true ->
  requestedId (tagStack this) id = tagNextId this1 ->
  pckReadTag id type peek this
  = Ok ((requestedId (tagStack this) id, tagNextValue this1), this1).
Proof.
  intros Hpeek Heq. unfold pckReadTag. fold (validCall type peek).
  rewrite pckReadTag_start.
  unfold bind at 1. unfold gets at 1. unfold pckReadTagFuel.
  cbn [pckReadTagLoop].
  unfold bind at 1. unfold bind at 1. rewrite Hload.
  unfold bind at 1. unfold gets at 1.
  rewrite Heq, Z.ltb_irrefl, Z.eqb_refl, Hpeek. reflexivity.
Qed.

Lemma loadTag_stack : tagStack this1 = top :: rest.
Proof.
  destruct (keeps_loadTag _ _ _ Hload) as (H & _). congruence.
Qed.

End ReadTag.

Lemma validCall_peek : validCall pckTypeUnknown true = true.
Proof. reflexivity. Qed.

Lemma validCall_field f : validCall (fieldType f) false = true.
Proof. destruct f; reflexivity. Qed.

Lemma setTopIdLast_withIdLast v this top rest :
  tagStack this = top :: rest ->
  setTopIdLast v this = Ok (tt, withIdLast v this).
Proof.
  intros H. unfold setTopIdLast, withIdLast. rewrite H. reflexivity.
Qed.

Section Absent.

Variables (this this1 : PackRead) (top : PackTagStack) (rest : list PackTagStack).
Variable id : Z.

Hypothesis Hstack : tagStack this = top :: rest.
Hypothesis Hid : id = 0 \/ idLast top < id.
Hypothesis Hload : loadTag this = Ok (tt, this1).

Lemma pckReadNullInternal_peek :
  requestedId (tagStack this) id <= tagNextId this1 ->
  pckReadNullInternal id this
  = Ok ((requestedId (tagStack this) id,
         requestedId (tagStack this) id <? tagNextId this1), this1).
Proof.
  intros Hle. unfold pckReadNullInternal.
  destruct (Z.eq_dec (requestedId (tagStack this) id) (tagNextId this1)) as [Heq|Hne].
  - rewrite (bind_Ok _ _ _ _ _
               (pckReadTag_present_peek this this1 top rest id _ true
                  validCall_peek Hstack Hid Hload eq_refl Heq)).
    reflexivity.
  - pose proof (pckReadTag_absent this this1 top rest id _ true
                  validCall_peek Hstack Hid Hload ltac:(lia)) as H.
    cbv iota in H. rewrite (bind_Ok _ _ _ _ _ H). reflexivity.
Qed.

Hypothesis Habsent : requestedId (tagStack this) id < tagNextId this1.

Lemma pckReadDefaultNull_absent :
  pckReadDefaultNull true id this
  = Ok ((requestedId (tagStack this) id, true),
        withIdLast (requestedId (tagStack this) id) this1).
Proof.
  unfold pckReadDefaultNull.
  rewrite (bind_Ok _ _ _ _ _ (pckReadNullInternal_peek ltac:(lia))).
  cbn [fst snd].
  destruct (Z.ltb_spec (requestedId (tagStack this) id) (tagNextId this1));
    [|lia].
  rewrite (bind_Ok _ _ _ _ _
             (setTopIdLast_withIdLast _ _ _ _
                (loadTag_stack this this1 top rest Hstack Hload))).
  reflexivity.
Qed.

Lemma fieldRead_absent_default f :
  fieldRead f id true this
  = Ok (fieldDefault f, withIdLast (requestedId (tagStack this) id) this1).
Proof.
  destruct f; unfold fieldRead, pckReadBin, pckReadBool, pckReadI32,
    pckReadI64, pckReadPtr, pckReadStr, pckReadTime, pckReadU32, pckReadU64;
    rewrite (bind_Ok _ _ _ _ _
               (bind_Ok _ _ _ _ _ pckReadDefaultNull_absent));
    reflexivity.
Qed.

Lemma fieldRead_absent_required f :
  fieldRead f id false this
  = Throw (FormatError ("field " ++ fmtUInt (requestedId (tagStack this) id)
                        ++ " does not exist")).
Proof.
  pose proof (pckReadTag_absent this this1 top rest id (fieldType f) false
                (validCall_field f) Hstack Hid Hload Habsent) as H.
  cbv iota in H.
  destruct f; unfold fieldRead, pckReadBin, pckReadBool, pckReadI32,
    pckReadI64, pckReadPtr, pckReadStr, pckReadTime, pckReadU32, pckReadU64;
    apply bind_Throw; unfold pckReadDefaultNull;
    unfold bind at 1; unfold ret at 1; cbn [fst snd];
    apply bind_Throw; exact H.
Qed.

End Absent.

(** ** Reads at an ID that was consumed already *)

Section Already.

Variables (this : PackRead) (top : PackTagStack) (rest : list PackTagStack).
Variable id : Z.

Hypothesis Hstack : tagStack this = top :: rest.
Hypothesis Hid : id <> 0.
Hypothesis Hle : id <= idLast top.

Let alreadyRead : PackError :=
  FormatError ("field " ++ fmtUInt id ++ " was already read").

Lemma pckReadNullInternal_already :
  pckReadNullInternal id this = Throw alreadyRead.
Proof.
  unfold pckReadNullInternal. apply bind_Throw.
  apply (pckReadTag_already this top rest id _ true validCall_peek Hstack Hid Hle).
Qed.

Lemma pckReadNull_already : pckReadNull id this = Throw alreadyRead.
Proof.
  unfold pckReadNull. apply bind_Throw. apply pckReadNullInternal_already.
Qed.

Lemma fieldRead_already f defaultNull :
  fieldRead f id defaultNull this = Throw alreadyRead.
Proof.
  pose proof (pckReadTag_already this top rest id _ false
                (validCall_field f) Hstack Hid Hle) as Htag.
  destruct f; unfold fieldRead, pckReadBin, pckReadBool, pckReadI32,
    pckReadI64, pckReadPtr, pckReadStr, pckReadTime, pckReadU32, pckReadU64;
    apply bind_Throw;
    (destruct defaultNull;
     [ apply bind_Throw; unfold pckReadDefaultNull; apply bind_Throw;
       apply pckReadNullInternal_already
     | unfold pckReadDefaultNull; unfold bind at 1; unfold ret at 1;
       cbn [fst snd]; apply bind_Throw; exact Htag ]).
Qed.

Lemma pckReadArrayBegin_already :
  pckReadArrayBegin id this = Throw alreadyRead.
Proof.
  unfold pckReadArrayBegin. apply bind_Throw.
  apply (pckReadTag_already this top rest id pckTypeArray false eq_refl
           Hstack Hid Hle).
Qed.

Lemma pckReadObjBegin_already :
  pckReadObjBegin id this = Throw alreadyRead.
Proof.
  unfold pckReadObjBegin. apply bind_Throw.
  apply (pckReadTag_already this top rest id pckTypeObj false eq_refl
           Hstack Hid Hle).
Qed.

End Already.

Lemma loadTag_loaded this :
  tagNextId this <> 0 -> loadTag this = Ok (tt, this).
Proof.
  intros H. unfold loadTag, bind, gets, when.
  destruct (Z.eqb_spec (tagNextId this) 0); [contradiction|reflexivity].
Qed.

(** C4. A typed read at an ID whose field is absent (the ID asked for, or
    the ID after the last one when 0 is passed, is less than the ID of the
    next tag) returns the default when [defaultNull] is set: [defaultValue]
    for the types that have the parameter, NULL for blobs and pointers;
    it throws the format error "field N does not exist" when [defaultNull]
    is not set.  The ID is one that may be read: 0, or greater than the
    frame's [idLast]. *)
Theorem fieldRead_absent (this this1 : PackRead) (id : Z) (f : Field) :
  tagStack this <> [] ->
  id = 0 \/ topIdLast (tagStack this) < id ->
  loadTag this = Ok (tt, this1) ->
  requestedId (tagStack this) id < tagNextId this1 ->
  fieldRead f id true this
  = Ok (fieldDefault f, withIdLast (requestedId (tagStack this) id) this1) /\
  fieldRead f id false this
  = Throw (FormatError ("field " ++ fmtUInt (requestedId (tagStack this) id)
                        ++ " does not exist")).
Proof.
  intros Hne Hid Hload Hlt.
  destruct (tagStack this) as [|top rest] eqn:Hstack; [congruence|].
  rewrite <- Hstack in *. split.
  - apply (fieldRead_absent_default this this1 top rest id Hstack); assumption ||
      (rewrite Hstack in Hid; exact Hid).
  - apply (fieldRead_absent_required this this1 top rest id Hstack); assumption ||
      (rewrite Hstack in Hid; exact Hid).
Qed.

(** The pack of the U32 99 at id 5, read at id 3 with a default of 42 *)
Lemma fieldRead_absent_witness :
  let this := pckReadNewBuf [0xAC; 0x01; 0x63; 0x00] in
  let this1 := mkPackRead [0xAC; 0x01; 0x63; 0x00] 3 4 5 10 99
                 [mkPackTagStack pckTypeObj 0 0] in
  (tagStack this <> [] /\
   (3 = 0 \/ topIdLast (tagStack this) < 3) /\
   loadTag this = Ok (tt, this1) /\
   requestedId (tagStack this) 3 < tagNextId this1) /\
  fieldRead (FU32 0 42) 3 true this
  = Ok (VU32 42, withIdLast 3 this1) /\
  fieldRead (FU32 0 42) 3 false this
  = Throw (FormatError "field 3 does not exist").
Proof.
  intros this this1.
  assert (H1 : tagStack this <> []) by discriminate.
  assert (H2 : 3 = 0 \/ topIdLast (tagStack this) < 3) by (right; subst this; simpl; lia).
  assert (H3 : loadTag this = Ok (tt, this1)) by reflexivity.
  assert (H4 : requestedId (tagStack this) 3 < tagNextId this1)
    by (subst this this1; unfold requestedId; simpl; lia).
  split; [auto|].
  exact (fieldRead_absent this this1 3 (FU32 0 42) H1 H2 H3 H4).
Defined.

(** C10. When a typed read with [defaultNull] set finds the field absent
    and returns the default, the frame's [idLast] is set to the ID that was
    asked for all the same; a following read in that frame at an ID from 1
    up to that ID, whatever its kind, throws the format error
    "field N was already read", as it would had the field been consumed. *)
Theorem fieldRead_default_sets_idLast
    (this this1 : PackRead) (id id' : Z) (f : Field) :
  tagStack this <> [] ->
  id = 0 \/ topIdLast (tagStack this) < id ->
  loadTag this = Ok (tt, this1) ->
  requestedId (tagStack this) id < tagNextId this1 ->
  0 < id' <= requestedId (tagStack this) id ->
  exists this2,
    fieldRead f id true this = Ok (fieldDefault f, this2) /\
    topIdLast (tagStack this2) = requestedId (tagStack this) id /\
    let alreadyRead :=
      FormatError ("field " ++ fmtUInt id' ++ " was already read") in
    (forall g defaultNull,
       fieldRead g id' defaultNull this2 = Throw alreadyRead) /\
    pckReadNull id' this2 = Throw alreadyRead /\
    pckReadArrayBegin id' this2 = Throw alreadyRead /\
    pckReadObjBegin id' this2 = Throw alreadyRead.
Proof.
  intros Hne Hid Hload Hlt Hid'.
  destruct (tagStack this) as [|top rest] eqn:Hstack; [congruence|].
  rewrite <- Hstack in *.
  exists (withIdLast (requestedId (tagStack this) id) this1).
  split.
  { apply (fieldRead_absent_default this this1 top rest id Hstack);
      assumption || (rewrite Hstack in Hid; exact Hid). }
  pose proof (loadTag_stack this this1 top rest Hstack Hload) as Hstack1.
  assert (Hstack2 : tagStack (withIdLast (requestedId (tagStack this) id) this1)
                    = setIdLast (requestedId (tagStack this) id) top :: rest).
  { unfold withIdLast. simpl. rewrite Hstack1. reflexivity. }
  split; [rewrite Hstack2; reflexivity|].
  assert (Hn0 : id' <> 0) by lia.
  assert (Hle : id' <= idLast (setIdLast (requestedId (tagStack this) id) top))
    by (simpl; lia).
  cbv zeta. repeat split.
  - intros g defaultNull. eapply fieldRead_already; eassumption.
  - eapply pckReadNull_already; eassumption.
  - eapply pckReadArrayBegin_already; eassumption.
  - eapply pckReadObjBegin_already; eassumption.
Qed.

Lemma fieldRead_default_sets_idLast_witness :
  let this := pckReadNewBuf [0xAC; 0x01; 0x63; 0x00] in
  let this1 := mkPackRead [0xAC; 0x01; 0x63; 0x00] 3 4 5 10 99
                 [mkPackTagStack pckTypeObj 0 0] in
  (tagStack this <> [] /\
   (3 = 0 \/ topIdLast (tagStack this) < 3) /\
   loadTag this = Ok (tt, this1) /\
   requestedId (tagStack this) 3 < tagNextId this1 /\
   0 < 2 <= requestedId (tagStack this) 3) /\
  exists this2,
    fieldRead (FU32 0 42) 3 true this = Ok (VU32 42, this2) /\
    topIdLast (tagStack this2) = 3 /\
    (forall g defaultNull,
       fieldRead g 2 defaultNull this2
       = Throw (FormatError "field 2 was already read")) /\
    pckReadNull 2 this2 = Throw (FormatError "field 2 was already read") /\
    pckReadArrayBegin 2 this2 = Throw (FormatError "field 2 was already read") /\
    pckReadObjBegin 2 this2 = Throw (FormatError "field 2 was already read").
Proof.
  intros this this1.
  assert (H1 : tagStack this <> []) by discriminate.
  assert (H2 : 3 = 0 \/ topIdLast (tagStack this) < 3) by (right; subst this; simpl; lia).
  assert (H3 : loadTag this = Ok (tt, this1)) by reflexivity.
  assert (H4 : requestedId (tagStack this) 3 < tagNextId this1)
    by (subst this this1; unfold requestedId; simpl; lia).
  assert (H5 : 0 < 2 <= requestedId (tagStack this) 3)
    by (subst this; unfold requestedId; simpl; lia).
  split; [auto 6|].
  exact (fieldRead_default_sets_idLast this this1 3 2 (FU32 0 42) H1 H2 H3 H4 H5).
Defined.

(** * The writer: elided fields *)

Lemma resultSim_refl {A : Type} (r : Result (A * PackWrite)) :
  resultSim None r r.
Proof. destruct r as [[a w]|e]; simpl; auto. Qed.

Lemma actSim_equal {A : Type} (m : Wr A) : actSim None None m.
Proof. intros w w' H. simpl in H. subst w'. apply resultSim_refl. Qed.

Lemma actSim_bind {A B : Type} i j k (m : Wr A) (f : A -> Wr B) :
  actSim i j m -> (forall a, actSim j k (f a)) -> actSim i k (bind m f).
Proof.
  intros Hm Hf w w' Hw. specialize (Hm w w' Hw). unfold bind.
  destruct (m w) as [[a w1]|e], (m w') as [[a' w1']|e']; simpl in Hm;
    try contradiction.
  - destruct Hm as [<- Hw1]. apply Hf. exact Hw1.
  - simpl. exact Hm.
Qed.

Lemma actSim_ret {A : Type} i (a : A) : actSim i i (ret a).
Proof. intros w w' H. simpl. auto. Qed.

Lemma actSim_throw {A : Type} i j e : actSim i j (@throw PackWrite A e).
Proof. intros w w' H. reflexivity. Qed.

Lemma actSim_assert i c s : actSim i i (@assert PackWrite c s).
Proof. destruct c; [apply actSim_ret|apply actSim_throw]. Qed.

Lemma actSim_if {A : Type} i j (c : bool) (m1 m2 : Wr A) :
  actSim i j m1 -> actSim i j m2 -> actSim i j (if c then m1 else m2).
Proof. destruct c; auto. Qed.

Lemma actSim_when i (c : bool) (m : Wr unit) :
  actSim i i m -> actSim i i (when c m).
Proof. intros H. unfold when. apply actSim_if; [exact H|apply actSim_ret]. Qed.

Lemma actSim_packTypeDataAt i idx : actSim i i (packTypeDataAt idx).
Proof.
  unfold packTypeDataAt. destruct (nth_error packTypeData (Z.to_nat idx));
    [apply actSim_ret|apply actSim_throw].
Qed.

Lemma actSim_pckWriteBuffer i bytes : actSim i i (pckWriteBuffer bytes).
Proof.
  intros w w' H. destruct i as [d|]; simpl in *.
  - destruct H as [Hb Hs]. rewrite Hb. auto.
  - subst. auto.
Qed.

Lemma actSim_pckWriteUInt64Internal i value :
  actSim i i (pckWriteUInt64Internal value).
Proof.
  unfold pckWriteUInt64Internal.
  destruct (pckWriteUInt64Loop PACK_UINT64_SIZE_MAX value);
    [apply actSim_pckWriteBuffer|apply actSim_throw].
Qed.

Lemma actSim_lift {A : Type} i (r : Result A) : actSim i i (lift r).
Proof. intros w w' H. destruct r; simpl; auto. Qed.

(** *** Below the frame that differs *)

Lemma actSim_topOf_below {A : Type} d (f : PackTagStack -> A) :
  actSim (Some (S d)) (Some (S d)) (topOf wTagStack f).
Proof.
  intros [b [|t r]] [b' [|t' r']] [Hb Hs]; simpl in *; try contradiction.
  destruct Hs as [<- Hr]. auto.
Qed.

Lemma actSim_wUpdTop_below d f :
  actSim (Some (S d)) (Some (S d)) (wUpdTop f).
Proof.
  intros [b [|t r]] [b' [|t' r']] [Hb Hs]; simpl in *; try contradiction.
  destruct Hs as [<- Hr]. auto.
Qed.

Lemma actSim_writePush d t : actSim (Some d) (Some (S d)) (writePush t).
Proof. intros w w' [Hb Hs]. simpl. auto. Qed.

Ltac sim_step i :=
  first [ apply actSim_ret
        | apply actSim_throw
        | apply actSim_assert
        | apply actSim_packTypeDataAt
        | apply actSim_pckWriteBuffer
        | apply actSim_pckWriteUInt64Internal
        | apply actSim_lift
        | apply actSim_topOf_below
        | apply actSim_wUpdTop_below
        | apply actSim_when
        | apply actSim_if
        | apply actSim_bind with (j := i); [|intros ?] ].

Lemma actSim_pckWriteTag_below d t id value :
  actSim (Some (S d)) (Some (S d)) (pckWriteTag t id value).
Proof.
  unfold pckWriteTag.
  apply actSim_bind with (j := Some (S d));
    [apply actSim_topOf_below|intros last].
  apply actSim_bind with (j := Some (S d));
    [apply actSim_topOf_below|intros nulls].
  apply actSim_bind with (j := Some (S d));
    [repeat sim_step (Some (S d))|intros id'].
  apply actSim_bind with (j := Some (S d));
    [apply actSim_wUpdTop_below|intros _].
  apply actSim_bind with (j := Some (S d));
    [apply actSim_packTypeDataAt|intros td].
  apply actSim_bind with (j := Some (S d));
    [apply actSim_lift|intros [[tag tagId] value']].
  repeat sim_step (Some (S d)).
Qed.

Lemma actSim_pckWriteDefaultNull_below d defaultNull defaultEqual :
  actSim (Some (S d)) (Some (S d)) (pckWriteDefaultNull defaultNull defaultEqual).
Proof. unfold pckWriteDefaultNull. repeat sim_step (Some (S d)). Qed.

Lemma actSim_fieldWrite_below d f id defaultNull :
  actSim (Some (S d)) (Some (S d)) (fieldWrite f id defaultNull).
Proof.
  destruct f as [v|v dv|v dv|v dv|v|v dv|v dv|v dv|v dv];
    unfold fieldWrite, pckWriteBin, pckWriteBool, pckWriteI32, pckWriteI64,
      pckWritePtr, pckWriteStr, pckWriteTime, pckWriteU32, pckWriteU64;
    (apply actSim_bind with (j := Some (S d));
     [apply actSim_pckWriteDefaultNull_below|intros elided]);
    apply actSim_if; try apply actSim_ret; try apply actSim_pckWriteTag_below;
    (destruct v as [bytes|]; [|apply actSim_throw]);
    (apply actSim_bind with (j := Some (S d));
     [apply actSim_pckWriteTag_below|intros _]);
    repeat sim_step (Some (S d)).
Qed.

(** *** At the frame that differs *)

Lemma actSim_nullTotal_incr :
  actSim (Some 0%nat) (Some 0%nat)
    (wUpdTop (fun top => setNullTotal (u32 (nullTotal top + 1)) top)).
Proof.
  intros [b [|t r]] [b' [|t' r']] [Hb Hs]; simpl in *; try contradiction.
  auto.
Qed.

Lemma actSim_pckWriteDefaultNull_top defaultNull defaultEqual :
  actSim (Some 0%nat) (Some 0%nat) (pckWriteDefaultNull defaultNull defaultEqual).
Proof.
  unfold pckWriteDefaultNull. apply actSim_if; [|apply actSim_ret].
  apply actSim_bind with (j := Some 0%nat);
    [apply actSim_nullTotal_incr|intros _; apply actSim_ret].
Qed.

(** With an explicit ID [pckWriteTag] does not read [nullTotal], and it
    resets it *)
Lemma actSim_pckWriteTag_explicit t id value :
  id <> 0 -> actSim (Some 0%nat) None (pckWriteTag t id value).
Proof.
  intros Hid [b [|[ty l n] r]] [b' [|[ty' l' n'] r']] [Hb Hs]; simpl in *;
    try contradiction.
  destruct Hs as (-> & -> & ->). subst b'.
  replace (pckWriteTag t id value (mkPackWrite b (mkPackTagStack ty' l' n :: r')))
    with (pckWriteTag t id value (mkPackWrite b (mkPackTagStack ty' l' n' :: r'))).
  - apply resultSim_refl.
  - unfold pckWriteTag, bind, topOf. cbn [wTagStack idLast nullTotal].
    destruct (Z.eqb_spec id 0); [contradiction|].
    unfold assert. destruct (l' <? id); reflexivity.
Qed.

Lemma stackSim_length d : forall s s',
  stackSim d s s' -> length s = length s'.
Proof.
  induction d as [|d IH]; intros [|t r] [|t' r'] H; simpl in H;
    try contradiction.
  - destruct H as (_ & _ & ->). reflexivity.
  - destruct H as [_ H]. simpl. f_equal. apply IH. exact H.
Qed.

Lemma stackSim_top d t s s' :
  stackSim d s s' -> stackTopIs t s = stackTopIs t s'.
Proof.
  destruct d, s as [|x r], s' as [|x' r']; simpl; try contradiction.
  - intros (-> & _). reflexivity.
  - intros (-> & _). reflexivity.
Qed.

Lemma writeSim_pop d w w' :
  writeSim (Some d) w w' ->
  writeSim (simAfterPop d)
    (setWTagStack (tl (wTagStack w)) w) (setWTagStack (tl (wTagStack w')) w').
Proof.
  destruct w as [b [|t r]], w' as [b' [|t' r']]; intros [Hb Hs];
    destruct d; simpl in *; try contradiction.
  - destruct Hs as (_ & _ & ->). subst. reflexivity.
  - destruct Hs as (_ & Hs). auto.
Qed.

(** The common shape of [pckWriteArrayEnd] and [pckWriteObjEnd] *)
Lemma actSim_containerEnd d t s1 s2 :
  actSim (Some d) (simAfterPop d)
    (stack <- gets wTagStack ;;
     assert (negb (Z.of_nat (length stack) =? 1)) s1 ;;
     assert (stackTopIs t stack) s2 ;;
     pckWriteUInt64Internal 0 ;;
     writePop).
Proof.
  intros [b s] [b' s'] Hw. pose proof Hw as [Hb Hs]. simpl in Hb, Hs. subst b'.
  pose proof (stackSim_length _ _ _ Hs) as Hl.
  pose proof (stackSim_top _ t _ _ Hs) as Ht.
  change (pckWriteUInt64Internal 0) with (pckWriteBuffer [0]).
  unfold bind, gets, assert, pckWriteBuffer, writePop, modify, ret, throw.
  cbn [wTagStack wBuffer setWBuffer setWTagStack].
  rewrite <- Hl, <- Ht.
  destruct (negb (Z.of_nat (length s) =? 1)); [|reflexivity].
  destruct (stackTopIs t s); [|reflexivity].
  split; [reflexivity|].
  apply (writeSim_pop d (mkPackWrite (b ++ [0]) s) (mkPackWrite (b ++ [0]) s')).
  split; [reflexivity|exact Hs].
Qed.

Lemma actSim_pckWriteArrayEnd d :
  actSim (Some d) (simAfterPop d) pckWriteArrayEnd.
Proof. apply actSim_containerEnd. Qed.

Lemma actSim_pckWriteObjEnd d :
  actSim (Some d) (simAfterPop d) pckWriteObjEnd.
Proof. apply actSim_containerEnd. Qed.

Lemma pckWriteEnd_sim d w w' :
  writeSim (Some d) w w' ->
  resultOf (pckWriteEnd w) = resultOf (pckWriteEnd w').
Proof.
  destruct w as [b s], w' as [b' s']. intros [Hb Hs]. simpl in Hb, Hs. subst b'.
  pose proof (stackSim_length _ _ _ Hs) as Hl.
  unfold pckWriteEnd.
  change (pckWriteUInt64Internal 0) with (pckWriteBuffer [0]).
  unfold bind, gets, assert, pckWriteBuffer, modify, ret, throw.
  cbn [wTagStack wBuffer setWBuffer setWTagStack].
  rewrite <- Hl.
  destruct (Z.of_nat (length s) =? 1); reflexivity.
Qed.

Lemma bind_pckWriteDefaultNull_false {A : Type} defaultNull defaultEqual
    (k : bool -> Wr A) this :
  defaultNull && defaultEqual = false ->
  bind (pckWriteDefaultNull defaultNull defaultEqual) k this = k false this.
Proof. intros H. unfold pckWriteDefaultNull. rewrite H. reflexivity. Qed.

(** A write that is not elided, at the frame that differs, with an explicit ID *)
Lemma actSim_fieldWrite_explicit f id defaultNull :
  id <> 0 -> defaultNull && fieldIsDefault f = false ->
  actSim (Some 0%nat) None (fieldWrite f id defaultNull).
Proof.
  intros Hid Hne w w' Hw.
  destruct f as [v|v dv|v dv|v dv|v|v dv|v dv|v dv|v dv];
    unfold fieldWrite, pckWriteBin, pckWriteBool, pckWriteI32, pckWriteI64,
      pckWritePtr, pckWriteStr, pckWriteTime, pckWriteU32, pckWriteU64;
    unfold fieldIsDefault in Hne;
    rewrite !(bind_pckWriteDefaultNull_false _ _ _ _ Hne); cbn [negb];
    try (apply (actSim_pckWriteTag_explicit _ _ _ Hid w w' Hw));
    (destruct v as [bytes|]; [|reflexivity]);
    (refine (actSim_bind (Some 0%nat) None None _ _ _ _ w w' Hw);
     [apply actSim_pckWriteTag_explicit; exact Hid|intros _; apply actSim_equal]).
Qed.

(** A write that is elided is [pckWriteNull] *)
Lemma fieldWrite_elided f id defaultNull this :
  defaultNull && fieldIsDefault f = true ->
  fieldWrite f id defaultNull this = pckWriteNull this.
Proof.
  intros He.
  destruct f as [v|v dv|v dv|v dv|v|v dv|v dv|v dv|v dv];
    unfold fieldWrite, pckWriteBin, pckWriteBool, pckWriteI32, pckWriteI64,
      pckWritePtr, pckWriteStr, pckWriteTime, pckWriteU32, pckWriteU64;
    unfold fieldIsDefault in He; unfold pckWriteDefaultNull; rewrite He;
    unfold pckWriteNull, bind, wUpdTop, ret;
    destruct (wTagStack this); reflexivity.
Qed.

Lemma actSim_fieldWrite_elided f id defaultNull :
  defaultNull && fieldIsDefault f = true ->
  actSim (Some 0%nat) (Some 0%nat) (fieldWrite f id defaultNull).
Proof.
  intros He w w' Hw. rewrite !(fieldWrite_elided _ _ _ _ He).
  apply actSim_nullTotal_incr. exact Hw.
Qed.

Lemma actSim_pckWriteNull_any d : actSim (Some d) (Some d) pckWriteNull.
Proof.
  destruct d; [apply actSim_nullTotal_incr|apply actSim_wUpdTop_below].
Qed.

(** One call keeps the two writers related, or makes them equal, as long as
    the next tag of the frame that differs gets an explicit ID *)
Lemma opWrite_sim d op ops :
  nextIdExplicit d (op :: ops) = true ->
  exists j, actSim (Some d) j (opWrite op) /\
            match j with
            | None => True
            | Some d' => nextIdExplicit d' ops = true
            end.
Proof.
  intros H. destruct op as [f id defaultNull| |id| |id|]; simpl in H.
  - destruct (defaultNull && fieldIsDefault f) eqn:He.
    + exists (Some d). split; [|exact H]. destruct d.
      * apply actSim_fieldWrite_elided. exact He.
      * apply actSim_fieldWrite_below.
    + destruct d.
      * exists None. split; [|exact I].
        apply actSim_fieldWrite_explicit; [|exact He].
        destruct (Z.eqb_spec id 0); [discriminate|assumption].
      * exists (Some (S d)). split; [|exact H]. apply actSim_fieldWrite_below.
  - exists (Some d). split; [apply actSim_pckWriteNull_any|exact H].
  - destruct d.
    + exists None. split; [|exact I]. unfold opWrite, pckWriteArrayBegin.
      apply actSim_bind with (j := None); [|intros _; apply actSim_equal].
      apply actSim_pckWriteTag_explicit.
      destruct (Z.eqb_spec id 0); [discriminate|assumption].
    + exists (Some (S (S d))). split; [|exact H].
      unfold opWrite, pckWriteArrayBegin.
      apply actSim_bind with (j := Some (S d));
        [apply actSim_pckWriteTag_below|intros _; apply actSim_writePush].
  - exists (simAfterPop d). split; [apply actSim_pckWriteArrayEnd|].
    destruct d; [exact I|exact H].
  - destruct d.
    + exists None. split; [|exact I]. unfold opWrite, pckWriteObjBegin.
      apply actSim_bind with (j := None); [|intros _; apply actSim_equal].
      apply actSim_pckWriteTag_explicit.
      destruct (Z.eqb_spec id 0); [discriminate|assumption].
    + exists (Some (S (S d))). split; [|exact H].
      unfold opWrite, pckWriteObjBegin.
      apply actSim_bind with (j := Some (S d));
        [apply actSim_pckWriteTag_below|intros _; apply actSim_writePush].
  - exists (simAfterPop d). split; [apply actSim_pckWriteObjEnd|].
    destruct d; [exact I|exact H].
Qed.

Lemma bind_assoc {S A B C : Type} (m : Act S A) (f : A -> Act S B)
    (g : B -> Act S C) s :
  bind (bind m f) g s = bind m (fun a => bind (f a) g) s.
Proof. unfold bind. destruct (m s) as [[a s1]|e]; reflexivity. Qed.

Lemma bind_ext {S A B : Type} (m : Act S A) (f g : A -> Act S B) s :
  (forall a s', f a s' = g a s') -> bind m f s = bind m g s.
Proof. intros H. unfold bind. destruct (m s) as [[a s1]|e]; auto. Qed.

Lemma opsWrite_sim ops : forall d w w',
  writeSim (Some d) w w' ->
  nextIdExplicit d ops = true ->
  resultOf ((opsWrite ops ;; pckWriteEnd) w)
  = resultOf ((opsWrite ops ;; pckWriteEnd) w').
Proof.
  induction ops as [|op ops IH]; intros d w w' Hw Hex.
  - simpl opsWrite. unfold bind at 1 2. unfold ret.
    apply (pckWriteEnd_sim d). exact Hw.
  - simpl opsWrite. rewrite !bind_assoc.
    destruct (opWrite_sim d op ops Hex) as (j & Hsim & Hnext).
    specialize (Hsim w w' Hw). unfold bind at 1 3.
    destruct (opWrite op w) as [[[] w1]|e], (opWrite op w') as [[[] w1']|e'];
      simpl in Hsim; try contradiction.
    + destruct Hsim as [_ Hw1]. destruct j as [d'|].
      * apply (IH d'); assumption.
      * simpl in Hw1. subst w1'. reflexivity.
    + subst e'. reflexivity.
Qed.

(** *** The stack is never empty after a call *)

Lemma wUpdTop_nonempty f w a w' :
  wUpdTop f w = Ok (a, w') -> wTagStack w' <> [].
Proof.
  unfold wUpdTop. destruct (wTagStack w); [discriminate|].
  intros H. inversion H; subst. discriminate.
Qed.

Lemma pckWriteBuffer_stack bytes w a w' :
  pckWriteBuffer bytes w = Ok (a, w') -> wTagStack w' = wTagStack w.
Proof. intros H. inversion H; subst. reflexivity. Qed.

Lemma pckWriteUInt64Internal_stack value w a w' :
  pckWriteUInt64Internal value w = Ok (a, w') -> wTagStack w' = wTagStack w.
Proof.
  unfold pckWriteUInt64Internal.
  destruct (pckWriteUInt64Loop PACK_UINT64_SIZE_MAX value); [|discriminate].
  apply pckWriteBuffer_stack.
Qed.

Lemma pckWriteTag_nonempty t id value w a w' :
  pckWriteTag t id value w = Ok (a, w') -> wTagStack w' <> [].
Proof.
  unfold pckWriteTag. intros H.
  apply bind_inv in H as (last & w1 & _ & H).
  apply bind_inv in H as (nulls & w2 & _ & H).
  apply bind_inv in H as (id' & w3 & _ & H).
  apply bind_inv in H as (? & w4 & _ & H).
  apply bind_inv in H as (td & w5 & _ & H).
  apply bind_inv in H as ([[tag tagId] value'] & w6 & _ & H).
  apply bind_inv in H as (? & w7 & _ & H).
  apply bind_inv in H as (? & w8 & _ & H).
  apply bind_inv in H as (? & w9 & _ & H).
  apply wUpdTop_nonempty in H. exact H.
Qed.

Lemma payload_nonempty (used : Z) bytes w a w' :
  wTagStack w <> [] ->
  when (0 <? used) (pckWriteUInt64Internal used ;; pckWriteBuffer bytes) w
  = Ok (a, w') ->
  wTagStack w' <> [].
Proof.
  intros Hne H. unfold when in H. destruct (0 <? used).
  - apply bind_inv in H as (? & w1 & H1 & H2).
    apply pckWriteUInt64Internal_stack in H1. apply pckWriteBuffer_stack in H2.
    congruence.
  - inversion H; subst. exact Hne.
Qed.

Lemma fieldWrite_nonempty f id defaultNull w a w' :
  fieldWrite f id defaultNull w = Ok (a, w') -> wTagStack w' <> [].
Proof.
  destruct (defaultNull && fieldIsDefault f) eqn:He.
  - rewrite (fieldWrite_elided _ _ _ _ He). apply wUpdTop_nonempty.
  - destruct f as [v|v dv|v dv|v dv|v|v dv|v dv|v dv|v dv];
      unfold fieldWrite, pckWriteBin, pckWriteBool, pckWriteI32, pckWriteI64,
        pckWritePtr, pckWriteStr, pckWriteTime, pckWriteU32, pckWriteU64;
      unfold fieldIsDefault in He;
      rewrite (bind_pckWriteDefaultNull_false _ _ _ _ He); cbn [negb];
      try apply pckWriteTag_nonempty;
      (destruct v as [bytes|]; [|discriminate]);
      intros H; apply bind_inv in H as (? & w1 & H1 & H2);
      apply pckWriteTag_nonempty in H1;
      apply (payload_nonempty _ _ _ _ _ H1 H2).
Qed.

Lemma opWrite_nonempty op w a w' :
  opWrite op w = Ok (a, w') -> wTagStack w' <> [].
Proof.
  destruct op as [f id defaultNull| |id| |id|]; simpl.
  - apply fieldWrite_nonempty.
  - apply wUpdTop_nonempty.
  - intros H. apply bind_inv in H as (? & w1 & _ & H2).
    inversion H2; subst. discriminate.
  - unfold pckWriteArrayEnd. intros H.
    apply bind_inv in H as (stack & w1 & H0 & H).
    inversion H0; subst; clear H0.
    apply bind_inv in H as (? & w2 & H1 & H).
    apply bind_inv in H as (? & w3 & H2 & H).
    apply bind_inv in H as (? & w4 & H3 & H).
    unfold assert in H1, H2.
    destruct (negb (Z.of_nat (length (wTagStack w1)) =? 1)) eqn:Hlen;
      [|discriminate].
    destruct (stackTopIs pckTypeArray (wTagStack w1)) eqn:Htop; [|discriminate].
    inversion H1; subst; clear H1. inversion H2; subst; clear H2.
    apply pckWriteUInt64Internal_stack in H3.
    inversion H; subst. simpl. rewrite H3.
    destruct (wTagStack w3) as [|t [|t2 r]]; simpl in *; discriminate.
  - intros H. apply bind_inv in H as (? & w1 & _ & H2).
    inversion H2; subst. discriminate.
  - unfold pckWriteObjEnd. intros H.
    apply bind_inv in H as (stack & w1 & H0 & H).
    inversion H0; subst; clear H0.
    apply bind_inv in H as (? & w2 & H1 & H).
    apply bind_inv in H as (? & w3 & H2 & H).
    apply bind_inv in H as (? & w4 & H3 & H).
    unfold assert in H1, H2.
    destruct (negb (Z.of_nat (length (wTagStack w1)) =? 1)) eqn:Hlen;
      [|discriminate].
    destruct (stackTopIs pckTypeObj (wTagStack w1)) eqn:Htop; [|discriminate].
    inversion H1; subst; clear H1. inversion H2; subst; clear H2.
    apply pckWriteUInt64Internal_stack in H3.
    inversion H; subst. simpl. rewrite H3.
    destruct (wTagStack w3) as [|t [|t2 r]]; simpl in *; discriminate.
Qed.

Lemma opsWrite_nonempty ops : forall w a w',
  wTagStack w <> [] -> opsWrite ops w = Ok (a, w') -> wTagStack w' <> [].
Proof.
  induction ops as [|op ops IH]; intros w a w' Hne H; simpl in H.
  - inversion H; subst. exact Hne.
  - apply bind_inv in H as (? & w1 & H1 & H2).
    apply (IH w1 a w'); [|exact H2]. apply (opWrite_nonempty _ _ _ _ H1).
Qed.

Lemma opsWrite_app ops1 ops2 this :
  opsWrite (ops1 ++ ops2) this = (opsWrite ops1 ;; opsWrite ops2) this.
Proof.
  revert this. induction ops1 as [|op ops1 IH]; intros this; simpl.
  - reflexivity.
  - rewrite bind_assoc. apply bind_ext. intros _ w1. apply IH.
Qed.

(** C5.  A write of a field whose value equals the declared
    default, made with [defaultNull] set, changes nothing but the frame's
    count of nulls: the bytes of the pack are those of the same sequence
    of calls without that write, provided that the next tag written to the
    same frame, if there is one, is given an explicit ID.  (A tag written
    at id 0 takes the ID after the nulls counted.) *)
Theorem elided_write_same_bytes (pre post : list Op) (f : Field) (k : Z) :
  fieldIsDefault f = true ->
  nextIdExplicit 0 post = true ->
  pckWriteAll (pre ++ OpField f k true :: post) = pckWriteAll (pre ++ post).
Proof.
  intros Hdef Hex. unfold pckWriteAll.
  unfold bind at 1 2. rewrite !opsWrite_app. unfold bind at 1 2.
  pose proof (opsWrite_nonempty pre pckWriteNewInternal) as Hne.
  destruct (opsWrite pre pckWriteNewInternal) as [[[] w1]|e]; [|reflexivity].
  specialize (Hne tt w1 ltac:(discriminate) eq_refl).
  cbn [opsWrite opWrite]. unfold bind at 1.
  rewrite (fieldWrite_elided f k true w1 Hdef).
  destruct w1 as [b [|t r]]; [exfalso; apply Hne; reflexivity|].
  cbn [pckWriteNull wUpdTop wTagStack setWTagStack wBuffer].
  apply (opsWrite_sim post 0%nat
           (mkPackWrite b (setNullTotal (u32 (nullTotal t + 1)) t :: r))
           (mkPackWrite b (t :: r))); [|exact Hex].
  simpl. auto.
Qed.

Lemma elided_write_same_bytes_witness :
  (fieldIsDefault (FStr None None) = true /\
   nextIdExplicit 0 [OpField (FStr (Some [0x78]) None) 2 false] = true) /\
  pckWriteAll ([OpField (FU32 7 0) 0 false]
               ++ OpField (FStr None None) 1 true
               :: [OpField (FStr (Some [0x78]) None) 2 false])
  = pckWriteAll ([OpField (FU32 7 0) 0 false]
                 ++ [OpField (FStr (Some [0x78]) None) 2 false]).
Proof.
  split; [split; reflexivity|].
  apply (elided_write_same_bytes [OpField (FU32 7 0) 0 false]
           [OpField (FStr (Some [0x78]) None) 2 false] (FStr None None) 1);
    reflexivity.
Defined.

(** The condition on the next tag is needed.  For a continuation that
    passes id 0 the bytes differ: after the elided write of the U32 0 at
    id 1, the U32 5 written at id 0 gets ID 2 and the tag 0xA9; without the
    elided write it gets ID 1 and the tag 0xA8. *)
Lemma elided_write_shifts_implicit_id :
  fieldIsDefault (FU32 0 0) = true /\
  pckWriteAll ([] ++ OpField (FU32 0 0) 1 true :: [OpField (FU32 5 0) 0 false])
  = Ok [0xA9; 0x05; 0x00] /\
  pckWriteAll ([] ++ [OpField (FU32 5 0) 0 false])
  = Ok [0xA8; 0x05; 0x00] /\
  pckWriteAll ([] ++ OpField (FU32 0 0) 1 true :: [OpField (FU32 5 0) 0 false])
  <> pckWriteAll ([] ++ [OpField (FU32 5 0) 0 false]).
Proof. repeat split. discriminate. Qed.

(** * Tags: what the writer appends and the reader parses back *)

Lemma shiftr_range x k m :
  0 <= x < m -> 0 <= k -> 0 <= Z.shiftr x k < m.
Proof.
  intros Hx Hk. rewrite Z.shiftr_div_pow2 by exact Hk.
  assert (0 < 2 ^ k) by (apply Z.pow_pos_nonneg; lia).
  split; [apply Z.div_pos; lia|].
  apply Z.le_lt_trans with x; [|lia].
  apply Z.div_le_upper_bound; [lia|]. nia.
Qed.

Lemma varint_written x :
  0 <= x < 18446744073709551616 ->
  pckWriteUInt64Loop PACK_UINT64_SIZE_MAX x = Some (varint x).
Proof.
  intros Hx. unfold varint.
  destruct (pckWriteUInt64Loop_total PACK_UINT64_SIZE_MAX x) as [bytes Hb].
  - change (2 ^ (7 * Z.of_nat PACK_UINT64_SIZE_MAX))
      with 1180591620717411303424. lia.
  - unfold PACK_UINT64_SIZE_MAX. lia.
  - rewrite Hb. reflexivity.
Qed.

Lemma pckWriteUInt64Internal_varint x this :
  0 <= x < 18446744073709551616 ->
  pckWriteUInt64Internal x this
  = Ok (tt, setWBuffer (wBuffer this ++ varint x) this).
Proof.
  intros Hx. apply pckWriteUInt64Internal_bytes. apply varint_written. exact Hx.
Qed.

Lemma when_varintIf x this :
  0 <= x < 18446744073709551616 ->
  when (0 <? x) (pckWriteUInt64Internal x) this
  = Ok (tt, setWBuffer (wBuffer this ++ varintIf x) this).
Proof.
  intros Hx. unfold when, varintIf. destruct (0 <? x).
  - apply pckWriteUInt64Internal_varint. exact Hx.
  - rewrite app_nil_r. destruct this. reflexivity.
Qed.

Lemma pckWriteTagBits_range td tag0 tagId value tag tagId' value' :
  0 <= tagId < 4294967296 -> 0 <= value < 18446744073709551616 ->
  pckWriteTagBits td tag0 tagId value = Ok (tag, tagId', value') ->
  0 <= tagId' < 4294967296 /\ 0 <= value' < 18446744073709551616.
Proof.
  intros Hid Hv. unfold pckWriteTagBits.
  destruct (valueMultiBit td); [destruct (value <? 2)|
    destruct (valueSingleBit td); [|destruct (value =? 0); [|discriminate]]];
    intros H; injection H as _ <- <-;
    (split; [apply shiftr_range; lia|]);
    try apply shiftr_range; lia.
Qed.

Lemma pckWriteTagBits_ok t td tag0 tagId value :
  nth_error packTypeData (Z.to_nat (packTypeOrd t)) = Some td ->
  tagValueOk t value = true ->
  exists bits, pckWriteTagBits td tag0 tagId value = Ok bits.
Proof.
  intros Htd Hv. unfold pckWriteTagBits.
  destruct t; simpl in Htd; injection Htd as <-; simpl in *;
    try (rewrite Hv); try destruct (value <? 2); eexists; reflexivity.
Qed.

Lemma tagValueOk_range t value :
  tagValueOk t value = true -> 0 <= value < 18446744073709551616.
Proof. destruct t; simpl; lia. Qed.

Lemma packTypeData_total t :
  exists td, nth_error packTypeData (Z.to_nat (packTypeOrd t)) = Some td.
Proof. destruct t; eexists; reflexivity. Qed.

(** [pckWriteTag] with an explicit ID appends [tagBytes] and records the ID *)
Lemma pckWriteTag_bytes t id value b top r :
  id <> 0 -> idLast top < id ->
  tagValueOk t value = true ->
  pckWriteTag t id value (mkPackWrite b (top :: r))
  = Ok (tt, mkPackWrite (b ++ tagBytes t (u32 (id - idLast top - 1)) value)
              (mkPackTagStack (type top) id 0 :: r)).
Proof.
  intros Hid Hlt Hv.
  destruct (packTypeData_total t) as [td Htd].
  destruct (pckWriteTagBits_ok t td (Z.shiftl (packTypeOrd t) 4)
              (u32 (id - idLast top - 1)) value Htd Hv) as [[[tag tagId'] value'] Hbits].
  destruct (pckWriteTagBits_range _ _ _ _ _ _ _ (u32_range _)
              (tagValueOk_range _ _ Hv) Hbits) as [Hr1 Hr2].
  unfold tagBytes. rewrite Htd, Hbits.
  unfold pckWriteTag.
  unfold bind at 1. unfold topOf at 1. cbn [wTagStack].
  unfold bind at 1. unfold topOf at 1. cbn [wTagStack].
  destruct (Z.eqb_spec id 0); [contradiction|].
  destruct (Z.ltb_spec (idLast top) id); [|lia].
  unfold assert. unfold bind at 2. unfold ret at 1. unfold bind at 1.
  unfold ret at 1.
  unfold bind at 1. unfold wUpdTop at 1. cbn [wTagStack].
  unfold bind at 1. unfold packTypeDataAt. rewrite Htd. unfold ret at 1.
  unfold bind at 1. rewrite Hbits. unfold lift.
  unfold bind at 1. unfold pckWriteBuffer at 1, modify.
  unfold bind at 1. rewrite when_varintIf by lia.
  unfold bind at 1. rewrite when_varintIf by lia.
  unfold wUpdTop. cbn. rewrite <- !app_assoc. reflexivity.
Qed.

(** ** Bits of the tag byte *)

Lemma forall_below2 (f : Z -> Z -> bool) (n m : nat) :
  forallb (fun a => forallb (f a) (map Z.of_nat (seq 0 m)))
    (map Z.of_nat (seq 0 n)) = true ->
  forall a b, 0 <= a < Z.of_nat n -> 0 <= b < Z.of_nat m -> f a b = true.
Proof.
  intros H a b Ha Hb.
  apply (forall_below (f a) m); [|exact Hb].
  apply (forall_below (fun a => forallb (f a) (map Z.of_nat (seq 0 m))) n H a Ha).
Qed.

Lemma land_mask_range x k : 0 <= k -> 0 <= Z.land x (Z.ones k) < 2 ^ k.
Proof.
  intros Hk. rewrite Z.land_ones by exact Hk. apply Z.mod_pos_bound.
  apply Z.pow_pos_nonneg; lia.
Qed.

Lemma packTypeOrd_range t : 0 <= packTypeOrd t < 16.
Proof. destruct t; simpl; lia. Qed.

(** The ID delta put back together from the bits in the tag and the
    base-128 integer that follows it *)
Lemma tagId_rebuild k tagId :
  0 <= k -> 0 <= tagId < 4294967296 ->
  Z.lor (Z.land tagId (Z.ones k)) (u32 (Z.shiftl (u32 (Z.shiftr tagId k)) k))
  = tagId.
Proof.
  intros Hk Hid.
  pose proof (shiftr_range tagId k _ Hid Hk) as Hs.
  rewrite (u32_small (Z.shiftr tagId k)) by exact Hs.
  assert (Hl : 0 <= Z.shiftl (Z.shiftr tagId k) k <= tagId).
  { rewrite Z.shiftl_mul_pow2, Z.shiftr_div_pow2 by exact Hk.
    assert (0 < 2 ^ k) by (apply Z.pow_pos_nonneg; lia).
    pose proof (Z.mul_div_le tagId (2 ^ k) ltac:(lia)).
    pose proof (Z.div_pos tagId (2 ^ k) ltac:(lia) ltac:(lia)).
    nia. }
  rewrite u32_small by lia.
  rewrite <- Z.ldiff_ones_r by exact Hk.
  rewrite Z.lor_comm. apply Z.lor_ldiff_and.
Qed.

Lemma tagId_low k tagId :
  0 <= k -> 0 <= tagId -> Z.shiftr tagId k <= 0 ->
  Z.land tagId (Z.ones k) = tagId.
Proof.
  intros Hk Hid Hs.
  assert (H0 : Z.shiftr tagId k = 0).
  { pose proof (Z.shiftr_nonneg tagId k). lia. }
  rewrite Z.land_ones by exact Hk. apply Z.mod_small.
  rewrite Z.shiftr_div_pow2 in H0 by exact Hk.
  assert (0 < 2 ^ k) by (apply Z.pow_pos_nonneg; lia).
  apply Z.div_small_iff in H0; lia.
Qed.

(** ** Parsing a tag back *)

Lemma varint_read x this rest :
  0 <= x < 18446744073709551616 ->
  wfRead this -> unread this = varint x ++ rest ->
  pckReadUInt64Internal this
  = Ok (x, advance (Z.of_nat (length (varint x))) this).
Proof.
  intros Hx Hwf Hu.
  apply (pckReadUInt64Internal_written x (varint x) this rest Hx
           (varint_written x Hx) Hwf Hu).
Qed.

Lemma readIdDelta_written tag flag shift hi lo this rest :
  wfRead this -> unread this = varintIf hi ++ rest ->
  0 <= hi < 4294967296 ->
  (Z.land tag flag =? 0) = negb (0 <? hi) ->
  tagNextId this = lo ->
  readIdDelta tag flag shift this
  = Ok (tt, setTagNextId (Z.lor lo (u32 (Z.shiftl (u32 hi) shift)))
              (advance (Z.of_nat (length (varintIf hi))) this)).
Proof.
  intros Hwf Hu Hhi Hflag Hlo. unfold readIdDelta. rewrite Hflag.
  unfold varintIf in *. destruct (Z.ltb_spec 0 hi) as [Hpos|Hzero]; cbn [negb].
  - rewrite (bind_Ok _ _ _ _ _ (varint_read hi this rest ltac:(lia) Hwf Hu)).
    unfold orTagNextId, modify. cbn. rewrite Hlo. reflexivity.
  - assert (hi = 0) by lia. subst hi. cbn.
    rewrite Z.shiftl_0_l. change (u32 0) with 0.
    rewrite Z.lor_0_r, advance_0. subst lo.
    destruct this. reflexivity.
Qed.

Lemma bind_modify {S B : Type} (f : S -> S) (k : unit -> Act S B) s :
  bind (modify f) k s = k tt (f s).
Proof. reflexivity. Qed.

Lemma bind_ret {S A B : Type} (a : A) (k : A -> Act S B) s :
  bind (ret a) k s = k a s.
Proof. reflexivity. Qed.

Lemma bind_gets {S A B : Type} (f : S -> A) (k : A -> Act S B) s :
  bind (gets f) k s = k (f s) s.
Proof. reflexivity. Qed.

Lemma bind_topOf {A B : Type} (f : PackTagStack -> A) (k : A -> Rd B)
    this top stack :
  tagStack this = top :: stack ->
  bind (topOf tagStack f) k this = k (f top) this.
Proof. intros H. unfold bind, topOf. rewrite H. reflexivity. Qed.

Ltac bool_facts H :=
  cbv beta zeta in H;
  repeat first [ rewrite andb_true_iff in H
               | rewrite orb_true_iff in H
               | rewrite negb_true_iff in H
               | rewrite Z.eqb_eq in H ].

(** The tag byte of a multi-bit type with the value in what follows *)
Lemma tagByte_large o a (more : bool) :
  0 <= o < 16 -> 0 <= a < 4 ->
  let b := u8 (if more
               then Z.lor (Z.lor (Z.lor (Z.shiftl o 4) 0x8) a) 0x4
               else Z.lor (Z.lor (Z.shiftl o 4) 0x8) a) in
  (b =? 0) = false /\ Z.shiftr b 4 = o /\ (Z.land b 0x8 =? 0) = false /\
  Z.land b 0x3 = a /\ (Z.land b 0x4 =? 0) = negb more.
Proof.
  intros Ho Ha. destruct more.
  - pose proof (forall_below2
      (fun o a =>
         let b := u8 (Z.lor (Z.lor (Z.lor (Z.shiftl o 4) 0x8) a) 0x4) in
         negb (b =? 0) && (Z.shiftr b 4 =? o) && negb (Z.land b 0x8 =? 0)
         && (Z.land b 0x3 =? a) && negb (Z.land b 0x4 =? 0))
      16 4 eq_refl o a Ho Ha) as H.
    bool_facts H. cbv zeta. simpl negb.
    decompose [and] H.
    repeat split; try assumption; apply Z.eqb_eq; assumption.
  - pose proof (forall_below2
      (fun o a =>
         let b := u8 (Z.lor (Z.lor (Z.shiftl o 4) 0x8) a) in
         negb (b =? 0) && (Z.shiftr b 4 =? o) && negb (Z.land b 0x8 =? 0)
         && (Z.land b 0x3 =? a) && (Z.land b 0x4 =? 0))
      16 4 eq_refl o a Ho Ha) as H.
    bool_facts H. cbv zeta. simpl negb.
    decompose [and] H.
    repeat split; try assumption; apply Z.eqb_eq; assumption.
Qed.

Ltac enum_tag H :=
  bool_facts H; cbv zeta; simpl negb;
  repeat match type of H with
         | _ \/ _ => destruct H as [H|H]; [lia|]
         end;
  decompose [and] H;
  repeat split; try assumption; apply Z.eqb_eq; assumption.

(** The tag byte of a multi-bit type with the value 0 or 1 in the tag *)
Lemma tagByte_small o a v (more : bool) :
  1 <= o < 16 -> 0 <= a < 2 -> 0 <= v < 2 ->
  let b := u8 (if more
               then Z.lor (Z.lor (Z.lor (Z.shiftl o 4)
                                    (Z.shiftl (Z.land v 0x1) 2)) a) 0x2
               else Z.lor (Z.lor (Z.shiftl o 4)
                             (Z.shiftl (Z.land v 0x1) 2)) a) in
  (b =? 0) = false /\ Z.shiftr b 4 = o /\ (Z.land b 0x8 =? 0) = true /\
  Z.land b 0x1 = a /\ (Z.land b 0x2 =? 0) = negb more /\
  Z.land (Z.shiftr b 2) 0x1 = v.
Proof.
  intros Ho Ha Hv. assert (Hv' : v = 0 \/ v = 1) by lia.
  destruct Hv' as [-> | ->]; destruct more.
  - pose proof (forall_below2
      (fun o a =>
         let b := u8 (Z.lor (Z.lor (Z.lor (Z.shiftl o 4)
                                      (Z.shiftl (Z.land 0 0x1) 2)) a) 0x2) in
         (o =? 0)
         || negb (b =? 0) && (Z.shiftr b 4 =? o) && (Z.land b 0x8 =? 0)
            && (Z.land b 0x1 =? a) && negb (Z.land b 0x2 =? 0)
            && (Z.land (Z.shiftr b 2) 0x1 =? 0))
      16 2 eq_refl o a ltac:(lia) Ha) as H.
    enum_tag H.
  - pose proof (forall_below2
      (fun o a =>
         let b := u8 (Z.lor (Z.lor (Z.shiftl o 4)
                               (Z.shiftl (Z.land 0 0x1) 2)) a) in
         (o =? 0)
         || negb (b =? 0) && (Z.shiftr b 4 =? o) && (Z.land b 0x8 =? 0)
            && (Z.land b 0x1 =? a) && (Z.land b 0x2 =? 0)
            && (Z.land (Z.shiftr b 2) 0x1 =? 0))
      16 2 eq_refl o a ltac:(lia) Ha) as H.
    enum_tag H.
  - pose proof (forall_below2
      (fun o a =>
         let b := u8 (Z.lor (Z.lor (Z.lor (Z.shiftl o 4)
                                      (Z.shiftl (Z.land 1 0x1) 2)) a) 0x2) in
         (o =? 0)
         || negb (b =? 0) && (Z.shiftr b 4 =? o) && (Z.land b 0x8 =? 0)
            && (Z.land b 0x1 =? a) && negb (Z.land b 0x2 =? 0)
            && (Z.land (Z.shiftr b 2) 0x1 =? 1))
      16 2 eq_refl o a ltac:(lia) Ha) as H.
    enum_tag H.
  - pose proof (forall_below2
      (fun o a =>
         let b := u8 (Z.lor (Z.lor (Z.shiftl o 4)
                               (Z.shiftl (Z.land 1 0x1) 2)) a) in
         (o =? 0)
         || negb (b =? 0) && (Z.shiftr b 4 =? o) && (Z.land b 0x8 =? 0)
            && (Z.land b 0x1 =? a) && (Z.land b 0x2 =? 0)
            && (Z.land (Z.shiftr b 2) 0x1 =? 1))
      16 2 eq_refl o a ltac:(lia) Ha) as H.
    enum_tag H.
Qed.

(** The tag byte of a single-bit type *)
Lemma tagByte_single o a v (more : bool) :
  1 <= o < 16 -> 0 <= a < 4 -> 0 <= v < 2 ->
  let b := u8 (if more
               then Z.lor (Z.lor (Z.lor (Z.shiftl o 4)
                                    (Z.shiftl (Z.land v 0x1) 3)) a) 0x4
               else Z.lor (Z.lor (Z.shiftl o 4)
                             (Z.shiftl (Z.land v 0x1) 3)) a) in
  (b =? 0) = false /\ Z.shiftr b 4 = o /\
  Z.land b 0x3 = a /\ (Z.land b 0x4 =? 0) = negb more /\
  Z.land (Z.shiftr b 3) 0x1 = v.
Proof.
  intros Ho Ha Hv. assert (Hv' : v = 0 \/ v = 1) by lia.
  destruct Hv' as [-> | ->]; destruct more.
  - pose proof (forall_below2
      (fun o a =>
         let b := u8 (Z.lor (Z.lor (Z.lor (Z.shiftl o 4)
                                      (Z.shiftl (Z.land 0 0x1) 3)) a) 0x4) in
         (o =? 0)
         || negb (b =? 0) && (Z.shiftr b 4 =? o)
            && (Z.land b 0x3 =? a) && negb (Z.land b 0x4 =? 0)
            && (Z.land (Z.shiftr b 3) 0x1 =? 0))
      16 4 eq_refl o a ltac:(lia) Ha) as H.
    enum_tag H.
  - pose proof (forall_below2
      (fun o a =>
         let b := u8 (Z.lor (Z.lor (Z.shiftl o 4)
                               (Z.shiftl (Z.land 0 0x1) 3)) a) in
         (o =? 0)
         || negb (b =? 0) && (Z.shiftr b 4 =? o)
            && (Z.land b 0x3 =? a) && (Z.land b 0x4 =? 0)
            && (Z.land (Z.shiftr b 3) 0x1 =? 0))
      16 4 eq_refl o a ltac:(lia) Ha) as H.
    enum_tag H.
  - pose proof (forall_below2
      (fun o a =>
         let b := u8 (Z.lor (Z.lor (Z.lor (Z.shiftl o 4)
                                      (Z.shiftl (Z.land 1 0x1) 3)) a) 0x4) in
         (o =? 0)
         || negb (b =? 0) && (Z.shiftr b 4 =? o)
            && (Z.land b 0x3 =? a) && negb (Z.land b 0x4 =? 0)
            && (Z.land (Z.shiftr b 3) 0x1 =? 1))
      16 4 eq_refl o a ltac:(lia) Ha) as H.
    enum_tag H.
  - pose proof (forall_below2
      (fun o a =>
         let b := u8 (Z.lor (Z.lor (Z.shiftl o 4)
                               (Z.shiftl (Z.land 1 0x1) 3)) a) in
         (o =? 0)
         || negb (b =? 0) && (Z.shiftr b 4 =? o)
            && (Z.land b 0x3 =? a) && (Z.land b 0x4 =? 0)
            && (Z.land (Z.shiftr b 3) 0x1 =? 1))
      16 4 eq_refl o a ltac:(lia) Ha) as H.
    enum_tag H.
Qed.

(** The tag byte of a container *)
Lemma tagByte_container o a (more : bool) :
  1 <= o < 16 -> 0 <= a < 8 ->
  let b := u8 (if more
               then Z.lor (Z.lor (Z.shiftl o 4) a) 0x8
               else Z.lor (Z.shiftl o 4) a) in
  (b =? 0) = false /\ Z.shiftr b 4 = o /\
  Z.land b 0x7 = a /\ (Z.land b 0x8 =? 0) = negb more.
Proof.
  intros Ho Ha. destruct more.
  - pose proof (forall_below2
      (fun o a =>
         let b := u8 (Z.lor (Z.lor (Z.shiftl o 4) a) 0x8) in
         (o =? 0)
         || negb (b =? 0) && (Z.shiftr b 4 =? o)
            && (Z.land b 0x7 =? a) && negb (Z.land b 0x8 =? 0))
      16 8 eq_refl o a ltac:(lia) Ha) as H.
    enum_tag H.
  - pose proof (forall_below2
      (fun o a =>
         let b := u8 (Z.lor (Z.shiftl o 4) a) in
         (o =? 0)
         || negb (b =? 0) && (Z.shiftr b 4 =? o)
            && (Z.land b 0x7 =? a) && (Z.land b 0x8 =? 0))
      16 8 eq_refl o a ltac:(lia) Ha) as H.
    enum_tag H.
Qed.

Section ReadTagNext.

Variables (t : PackType) (td : PackTypeData) (tagId value : Z).
Variables (this : PackRead) (rest : list Z).
Variables (top : PackTagStack) (stack : list PackTagStack).

Hypothesis Htd : nth_error packTypeData (Z.to_nat (packTypeOrd t)) = Some td.
Hypothesis Hwf : wfRead this.
Hypothesis Hu : unread this = tagBytes t tagId value ++ rest.
Hypothesis Hstack : tagStack this = top :: stack.
Hypothesis Hid : 0 <= tagId < 4294967296.

Let parsed : Result (bool * PackRead) :=
  Ok (true, withTag (Z.of_nat (length (tagBytes t tagId value)))
              (u32 (tagId + u32 (idLast top + 1))) t value this).

(** The state after the last step of [pckReadTagNext], whatever the order
    of the updates made before *)
Lemma parsed_state s n :
  bufferPtr s = bufferPtr this -> bufferMax s = bufferMax this ->
  tagStack s = tagStack this ->
  tagNextType s = packTypeOrd t -> tagNextValue s = value ->
  tagNextId s = tagId ->
  bufferPos s = bufferPos this + n ->
  n = Z.of_nat (length (tagBytes t tagId value)) ->
  ret true (setTagNextId (u32 (tagNextId s + u32 (idLast top + 1))) s) = parsed.
Proof.
  intros H1 H2 H3 H4 H5 H6 H7 H8. subst parsed. unfold ret, withTag.
  destruct s; simpl in *. subst. reflexivity.
Qed.

Lemma pckReadTagNext_multi_large :
  valueMultiBit td = true -> 2 <= value < 18446744073709551616 ->
  pckReadTagNext this = parsed.
Proof.
  intros Hmulti Hv.
  assert (Hlen : Z.of_nat (length (tagBytes t tagId value))
                 = 1 + Z.of_nat (length (varintIf (Z.shiftr tagId 2)))
                   + Z.of_nat (length (varintIf value))).
  { unfold tagBytes. rewrite Htd. unfold pckWriteTagBits. rewrite Hmulti.
    destruct (Z.ltb_spec value 2); [lia|].
    rewrite !length_app. cbn [length]. lia. }
  unfold tagBytes in Hu. rewrite Htd in *. unfold pckWriteTagBits in *.
  rewrite Hmulti in *.
  destruct (Z.ltb_spec value 2); [lia|].
  assert (Hvi : varintIf value = varint value).
  { unfold varintIf. destruct (Z.ltb_spec 0 value); [reflexivity|lia]. }
  rewrite Hvi in *.
  set (hi := Z.shiftr tagId 2) in *.
  pose proof (shiftr_range tagId 2 _ Hid ltac:(lia)) as Hhi. fold hi in Hhi.
  destruct (tagByte_large (packTypeOrd t) (Z.land tagId 0x3) (0 <? hi)
              (packTypeOrd_range t) (land_mask_range tagId 2 ltac:(lia)))
    as (Hnz & Hty & H8 & Hlow & H4).
  set (tag := u8 _) in *.
  rewrite <- app_assoc in Hu. cbn [app] in Hu.
  unfold pckReadTagNext. rewrite (take_byte _ tag _ this Hwf Hu).
  destruct (advance_1_cons _ _ _ Hwf Hu) as [Hwf1 Hu1].
  rewrite Hnz, bind_modify, Hty. unfold packTypeDataAt. rewrite Htd, bind_ret.
  rewrite Hmulti, H8. cbn [negb]. rewrite !bind_assoc, bind_modify.
  rewrite <- app_assoc in Hu1.
  set (s1 := setTagNextId (Z.land tag 0x3)
               (setTagNextType (packTypeOrd t) (advance 1 this))).
  rewrite !bind_assoc.
  rewrite (bind_Ok _ _ _ _ _
             (readIdDelta_written tag 0x4 2 hi (Z.land tag 0x3) s1 _
                Hwf1 Hu1 Hhi H4 eq_refl)).
  destruct (advance_unread_app _ _ s1 Hwf1 Hu1) as [Hwf2 Hu2].
  rewrite !bind_assoc.
  set (s2 := setTagNextId _ (advance _ s1)).
  rewrite (bind_Ok _ _ _ _ _
             (varint_read value s2 rest ltac:(lia) Hwf2 Hu2)).
  rewrite bind_modify.
  set (s3 := setTagNextValue _ _).
  rewrite (bind_topOf _ _ s3 top stack Hstack), bind_modify.
  apply (parsed_state s3 (1 + Z.of_nat (length (varintIf hi))
                          + Z.of_nat (length (varint value))));
    try reflexivity.
  - subst s3 s2 s1. cbn. rewrite Hlow. change 3 with (Z.ones 2).
    apply tagId_rebuild; lia.
  - subst s3 s2 s1. unfold advance.
    cbn [bufferPos setBufferPos setTagNextId setTagNextType setTagNextValue].
    lia.
  - rewrite Hlen. reflexivity.
Qed.

Lemma pckReadTagNext_multi_small :
  valueMultiBit td = true -> 0 <= value < 2 -> t <> pckTypeUnknown ->
  pckReadTagNext this = parsed.
Proof.
  intros Hmulti Hv Ht.
  assert (Ho : 1 <= packTypeOrd t < 16) by (destruct t; simpl; try lia; congruence).
  assert (Hsh : Z.shiftr value 1 = 0).
  { assert (Hv' : value = 0 \/ value = 1) by lia.
    destruct Hv' as [-> | ->]; reflexivity. }
  assert (Hlen : Z.of_nat (length (tagBytes t tagId value))
                 = 1 + Z.of_nat (length (varintIf (Z.shiftr tagId 1)))).
  { unfold tagBytes. rewrite Htd. unfold pckWriteTagBits. rewrite Hmulti.
    destruct (Z.ltb_spec value 2); [|lia]. rewrite Hsh.
    rewrite !length_app. cbn [length varintIf Z.ltb Z.compare]. lia. }
  unfold tagBytes in Hu. rewrite Htd in Hu. unfold pckWriteTagBits in Hu.
  rewrite Hmulti in Hu.
  destruct (Z.ltb_spec value 2); [|lia]. rewrite Hsh in Hu.
  change (varintIf 0) with (@nil Z) in Hu. rewrite app_nil_r in Hu.
  set (hi := Z.shiftr tagId 1) in *.
  pose proof (shiftr_range tagId 1 _ Hid ltac:(lia)) as Hhi. fold hi in Hhi.
  destruct (tagByte_small (packTypeOrd t) (Z.land tagId 0x1) value (0 <? hi)
              Ho (land_mask_range tagId 1 ltac:(lia)) Hv)
    as (Hnz & Hty & H8 & Hlow & H2 & Hval).
  set (tag := u8 _) in *.
  cbn [app] in Hu.
  unfold pckReadTagNext. rewrite (take_byte _ tag _ this Hwf Hu).
  destruct (advance_1_cons _ _ _ Hwf Hu) as [Hwf1 Hu1].
  rewrite Hnz, bind_modify, Hty. unfold packTypeDataAt. rewrite Htd, bind_ret.
  rewrite Hmulti, H8. cbn [negb]. rewrite !bind_assoc, bind_modify.
  set (s1 := setTagNextId (Z.land tag 0x1)
               (setTagNextType (packTypeOrd t) (advance 1 this))).
  rewrite !bind_assoc.
  rewrite (bind_Ok _ _ _ _ _
             (readIdDelta_written tag 0x2 1 hi (Z.land tag 0x1) s1 _
                Hwf1 Hu1 Hhi H2 eq_refl)).
  set (s2 := setTagNextId _ (advance _ s1)).
  rewrite bind_modify.
  set (s3 := setTagNextValue _ _).
  rewrite (bind_topOf _ _ s3 top stack Hstack), bind_modify.
  apply (parsed_state s3 (1 + Z.of_nat (length (varintIf hi))));
    try reflexivity.
  - subst s3 s2 s1. cbn. exact Hval.
  - subst s3 s2 s1. cbn. rewrite Hlow. change 1 with (Z.ones 1) at 1.
    apply tagId_rebuild; lia.
  - subst s3 s2 s1. unfold advance.
    cbn [bufferPos setBufferPos setTagNextId setTagNextType setTagNextValue].
    lia.
  - rewrite Hlen. reflexivity.
Qed.

Lemma pckReadTagNext_single :
  valueMultiBit td = false -> valueSingleBit td = true ->
  0 <= value < 2 -> t <> pckTypeUnknown ->
  pckReadTagNext this = parsed.
Proof.
  intros Hmulti Hsingle Hv Ht.
  assert (Ho : 1 <= packTypeOrd t < 16) by (destruct t; simpl; try lia; congruence).
  assert (Hsh : Z.shiftr value 1 = 0).
  { assert (Hv' : value = 0 \/ value = 1) by lia.
    destruct Hv' as [-> | ->]; reflexivity. }
  assert (Hlen : Z.of_nat (length (tagBytes t tagId value))
                 = 1 + Z.of_nat (length (varintIf (Z.shiftr tagId 2)))).
  { unfold tagBytes. rewrite Htd. unfold pckWriteTagBits.
    rewrite Hmulti, Hsingle, Hsh.
    rewrite !length_app. cbn [length varintIf Z.ltb Z.compare]. lia. }
  unfold tagBytes in Hu. rewrite Htd in Hu. unfold pckWriteTagBits in Hu.
  rewrite Hmulti, Hsingle, Hsh in Hu.
  change (varintIf 0) with (@nil Z) in Hu. rewrite app_nil_r in Hu.
  set (hi := Z.shiftr tagId 2) in *.
  pose proof (shiftr_range tagId 2 _ Hid ltac:(lia)) as Hhi. fold hi in Hhi.
  destruct (tagByte_single (packTypeOrd t) (Z.land tagId 0x3) value (0 <? hi)
              Ho (land_mask_range tagId 2 ltac:(lia)) Hv)
    as (Hnz & Hty & Hlow & H4 & Hval).
  set (tag := u8 _) in *.
  cbn [app] in Hu.
  unfold pckReadTagNext. rewrite (take_byte _ tag _ this Hwf Hu).
  destruct (advance_1_cons _ _ _ Hwf Hu) as [Hwf1 Hu1].
  rewrite Hnz, bind_modify, Hty. unfold packTypeDataAt. rewrite Htd, bind_ret.
  rewrite Hmulti, Hsingle. rewrite !bind_assoc, bind_modify.
  set (s1 := setTagNextId (Z.land tag 0x3)
               (setTagNextType (packTypeOrd t) (advance 1 this))).
  rewrite !bind_assoc.
  rewrite (bind_Ok _ _ _ _ _
             (readIdDelta_written tag 0x4 2 hi (Z.land tag 0x3) s1 _
                Hwf1 Hu1 Hhi H4 eq_refl)).
  set (s2 := setTagNextId _ (advance _ s1)).
  rewrite bind_modify.
  set (s3 := setTagNextValue _ _).
  rewrite (bind_topOf _ _ s3 top stack Hstack), bind_modify.
  apply (parsed_state s3 (1 + Z.of_nat (length (varintIf hi))));
    try reflexivity.
  - subst s3 s2 s1. cbn. exact Hval.
  - subst s3 s2 s1. cbn. rewrite Hlow. change 3 with (Z.ones 2).
    apply tagId_rebuild; lia.
  - subst s3 s2 s1. unfold advance.
    cbn [bufferPos setBufferPos setTagNextId setTagNextType setTagNextValue].
    lia.
  - rewrite Hlen. reflexivity.
Qed.

Lemma pckReadTagNext_container :
  valueMultiBit td = false -> valueSingleBit td = false ->
  value = 0 -> t <> pckTypeUnknown ->
  pckReadTagNext this = parsed.
Proof.
  intros Hmulti Hsingle Hv Ht.
  assert (Ho : 1 <= packTypeOrd t < 16) by (destruct t; simpl; try lia; congruence).
  assert (Hlen : Z.of_nat (length (tagBytes t tagId value))
                 = 1 + Z.of_nat (length (varintIf (Z.shiftr tagId 3)))).
  { unfold tagBytes. rewrite Htd. unfold pckWriteTagBits.
    rewrite Hmulti, Hsingle, Hv. cbn [Z.eqb].
    rewrite !length_app. cbn [length varintIf Z.ltb Z.compare]. lia. }
  unfold tagBytes in Hu. rewrite Htd in Hu. unfold pckWriteTagBits in Hu.
  rewrite Hmulti, Hsingle, Hv in Hu. cbn [Z.eqb] in Hu.
  change (varintIf 0) with (@nil Z) in Hu. rewrite app_nil_r in Hu.
  set (hi := Z.shiftr tagId 3) in *.
  pose proof (shiftr_range tagId 3 _ Hid ltac:(lia)) as Hhi. fold hi in Hhi.
  destruct (tagByte_container (packTypeOrd t) (Z.land tagId 0x7) (0 <? hi)
              Ho (land_mask_range tagId 3 ltac:(lia)))
    as (Hnz & Hty & Hlow & H8).
  set (tag := u8 _) in *.
  cbn [app] in Hu.
  unfold pckReadTagNext. rewrite (take_byte _ tag _ this Hwf Hu).
  destruct (advance_1_cons _ _ _ Hwf Hu) as [Hwf1 Hu1].
  rewrite Hnz, bind_modify, Hty. unfold packTypeDataAt. rewrite Htd, bind_ret.
  rewrite Hmulti, Hsingle. rewrite !bind_assoc, bind_modify.
  set (s1 := setTagNextId (Z.land tag 0x7)
               (setTagNextType (packTypeOrd t) (advance 1 this))).
  rewrite !bind_assoc.
  rewrite (bind_Ok _ _ _ _ _
             (readIdDelta_written tag 0x8 3 hi (Z.land tag 0x7) s1 _
                Hwf1 Hu1 Hhi H8 eq_refl)).
  set (s2 := setTagNextId _ (advance _ s1)).
  rewrite bind_modify.
  set (s3 := setTagNextValue _ _).
  rewrite (bind_topOf _ _ s3 top stack Hstack), bind_modify.
  apply (parsed_state s3 (1 + Z.of_nat (length (varintIf hi))));
    try reflexivity.
  - subst s3 s2 s1. cbn. symmetry. exact Hv.
  - subst s3 s2 s1. cbn. rewrite Hlow. change 7 with (Z.ones 3).
    apply tagId_rebuild; lia.
  - subst s3 s2 s1. unfold advance.
    cbn [bufferPos setBufferPos setTagNextId setTagNextType setTagNextValue].
    lia.
  - rewrite Hlen. reflexivity.
Qed.

End ReadTagNext.

(** [pckReadTagNext] parses the bytes of [pckWriteTag] back into the
    lookahead *)
Lemma pckReadTagNext_written t tagId value this rest top stack :
  wfRead this ->
  unread this = tagBytes t tagId value ++ rest ->
  tagStack this = top :: stack ->
  0 <= tagId < 4294967296 ->
  t <> pckTypeUnknown ->
  tagValueOk t value = true ->
  pckReadTagNext this
  = Ok (true, withTag (Z.of_nat (length (tagBytes t tagId value)))
                (u32 (tagId + u32 (idLast top + 1))) t value this).
Proof.
  intros Hwf Hu Hstack Hid Ht Hv.
  destruct (packTypeData_total t) as [td Htd].
  pose proof (tagValueOk_range _ _ Hv) as Hr.
  destruct t; try congruence; simpl in Hv;
    pose proof Htd as Htd'; simpl in Htd'; injection Htd' as Htd';
    try (apply (pckReadTagNext_container _ td tagId value this rest top stack
                  Htd Hwf Hu Hstack Hid); subst td; try reflexivity;
         try discriminate; lia);
    try (apply (pckReadTagNext_single _ td tagId value this rest top stack
                  Htd Hwf Hu Hstack Hid); subst td; try reflexivity;
         try discriminate; lia);
    (destruct (Z.ltb_spec value 2);
     [ apply (pckReadTagNext_multi_small _ td tagId value this rest top stack
                Htd Hwf Hu Hstack Hid); subst td; try reflexivity;
       try discriminate; lia
     | apply (pckReadTagNext_multi_large _ td tagId value this rest top stack
                Htd Hwf Hu Hstack Hid); subst td; try reflexivity; lia ]).
Qed.


(** * Typed fields: what a write appends and the matching read returns *)

(** ** Zig-zag *)

Lemma shiftr_sign v k m :
  0 <= k -> m = 2 ^ k -> - m <= v < m ->
  Z.shiftr v k = if v <? 0 then -1 else 0.
Proof.
  intros Hk -> Hv. rewrite Z.shiftr_div_pow2 by exact Hk.
  assert (0 < 2 ^ k) by (apply Z.pow_pos_nonneg; lia).
  destruct (Z.ltb_spec v 0).
  - symmetry. apply (Z.div_unique v (2 ^ k) (-1) (v + 2 ^ k)); lia.
  - apply Z.div_small. lia.
Qed.

Lemma zigzag_value v k :
  Z.shiftr v k = (if v <? 0 then -1 else 0) ->
  Z.lxor (Z.shiftl v 1) (Z.shiftr v k) = if v <? 0 then - 2 * v - 1 else 2 * v.
Proof.
  intros ->. rewrite Z.shiftl_mul_pow2 by lia. change (2 ^ 1) with 2.
  destruct (v <? 0).
  - rewrite Z.lxor_m1_r, Z.lnot_eq_pred_opp. lia.
  - rewrite Z.lxor_0_r. lia.
Qed.

Lemma unzigzag_value v :
  Z.lxor (Z.shiftr (if v <? 0 then - 2 * v - 1 else 2 * v) 1)
    (- Z.land (if v <? 0 then - 2 * v - 1 else 2 * v) 1)
  = v.
Proof.
  assert (Hl : forall z, Z.land z 1 = z mod 2).
  { intros z. change 1 with (Z.ones 1). apply Z.land_ones. lia. }
  rewrite Hl.
  rewrite Z.shiftr_div_pow2 by lia. change (2 ^ 1) with 2.
  destruct (Z.ltb_spec v 0).
  - replace (- 2 * v - 1) with (1 + (- v - 1) * 2) by lia.
    rewrite Z.div_add, Z.mod_add by lia. simpl.
    rewrite Z.lxor_m1_r, Z.lnot_eq_pred_opp. lia.
  - replace (2 * v) with (0 + v * 2) by lia.
    rewrite Z.div_add, Z.mod_add by lia. simpl.
    apply Z.lxor_0_r.
Qed.

Lemma cvtInt32_zigzag v :
  -2147483648 <= v < 2147483648 ->
  0 <= cvtInt32ToZigZag v < 4294967296 /\
  cvtInt32FromZigZag (u32 (cvtInt32ToZigZag v)) = v.
Proof.
  intros Hv. unfold cvtInt32ToZigZag, cvtInt32FromZigZag.
  rewrite (zigzag_value v 31) by (apply (shiftr_sign v 31 2147483648); lia).
  assert (Hr : 0 <= (if v <? 0 then - 2 * v - 1 else 2 * v) < 4294967296)
    by (destruct (Z.ltb_spec v 0); lia).
  rewrite !u32_small by exact Hr. split; [exact Hr|].
  rewrite unzigzag_value. unfold s32.
  rewrite Z.mod_small by lia. lia.
Qed.

Lemma cvtInt64_zigzag v :
  -9223372036854775808 <= v < 9223372036854775808 ->
  0 <= cvtInt64ToZigZag v < 18446744073709551616 /\
  cvtInt64FromZigZag (cvtInt64ToZigZag v) = v.
Proof.
  intros Hv. unfold cvtInt64ToZigZag, cvtInt64FromZigZag.
  rewrite (zigzag_value v 63)
    by (apply (shiftr_sign v 63 9223372036854775808); lia).
  assert (Hr : 0 <= (if v <? 0 then - 2 * v - 1 else 2 * v)
               < 18446744073709551616)
    by (destruct (Z.ltb_spec v 0); lia).
  rewrite !u64_small by exact Hr. split; [exact Hr|].
  rewrite unzigzag_value. unfold s64.
  rewrite Z.mod_small by lia. lia.
Qed.

(** ** The payload of a blob or string *)

Lemma bufferBytes_prefix bytes rest this :
  unread this = bytes ++ rest ->
  bufferBytes (Z.of_nat (length bytes)) this = Ok (bytes, this).
Proof.
  intros Hu. unfold bufferBytes, gets. fold (unread this).
  rewrite Hu, Nat2Z.id, firstn_app, firstn_all, Nat.sub_diag. simpl.
  rewrite app_nil_r. reflexivity.
Qed.

Lemma pckReadData_written bytes rest this :
  wfRead this -> unread this = bytes ++ rest ->
  pckReadData 2 (Z.of_nat (length bytes)) [] this
  = Ok (bytes, advance (Z.of_nat (length bytes)) this).
Proof.
  intros Hwf Hu. destruct bytes as [|b bytes].
  - simpl. rewrite advance_0. reflexivity.
  - cbn [pckReadData]. cbn [length]. rewrite Z.sub_0_r.
    destruct (Z.eqb_spec (Z.of_nat 0) (Z.of_nat (S (length bytes)))); [lia|].
    assert (Hlen : Z.of_nat (S (length bytes)) < 18446744073709551616).
    { pose proof (unread_length _ Hwf) as Hl. rewrite Hu, length_app in Hl.
      destruct Hwf as (Hp & Hm & Hlt). cbn [length] in Hl. lia. }
    rewrite u64_small by lia.
    assert (Hle : 0 <= Z.of_nat (S (length bytes))
                  <= Z.of_nat (length (unread this))).
    { rewrite Hu, length_app. cbn [length]. lia. }
    rewrite (bind_Ok _ _ _ _ _
               (pckReadBuffer_all (Z.of_nat (S (length bytes))) this Hwf
                  (proj2 Hle))).
    rewrite (bind_Ok _ _ _ _ _ (bufferBytes_prefix (b :: bytes) rest this Hu)).
    rewrite (bind_Ok _ _ _ _ _
               (bufferPosAdd_advance (Z.of_nat (S (length bytes))) this Hwf Hle)).
    cbn [app length]. rewrite Z.eqb_refl. reflexivity.
Qed.

(** ** Writing a field that is not elided *)

Lemma fieldTagValue_ok f defaultNull :
  fieldOk f defaultNull -> tagValueOk (fieldType f) (fieldTagValue f) = true.
Proof.
  destruct f as [v|v dv|v dv|v dv|v|v dv|v dv|v dv|v dv]; simpl; intros H.
  - destruct v as [bytes|]; [destruct (0 <? Z.of_nat (length bytes))|];
      reflexivity.
  - destruct v; reflexivity.
  - pose proof (cvtInt32_zigzag v H) as [Hr _]. lia.
  - pose proof (cvtInt64_zigzag v H) as [Hr _]. lia.
  - lia.
  - destruct v as [bytes|]; [destruct (0 <? Z.of_nat (length bytes))|];
      reflexivity.
  - pose proof (cvtInt64_zigzag v H) as [Hr _]. lia.
  - lia.
  - lia.
Qed.

Lemma fieldWrite_bytes f id defaultNull b top r :
  defaultNull && fieldIsDefault f = false ->
  fieldOk f defaultNull ->
  id <> 0 -> idLast top < id ->
  fieldWrite f id defaultNull (mkPackWrite b (top :: r))
  = Ok (tt, mkPackWrite
              (b ++ tagBytes (fieldType f) (u32 (id - idLast top - 1))
                      (fieldTagValue f) ++ fieldPayload f)
              (mkPackTagStack (type top) id 0 :: r)).
Proof.
  intros He Hok Hid Hlt.
  pose proof (fieldTagValue_ok f defaultNull Hok) as Hv.
  pose proof (pckWriteTag_bytes (fieldType f) id (fieldTagValue f) b top r
                Hid Hlt Hv) as Htag.
  destruct f as [v|v dv|v dv|v dv|v|v dv|v dv|v dv|v dv];
    unfold fieldWrite, pckWriteBin, pckWriteBool, pckWriteI32, pckWriteI64,
      pckWritePtr, pckWriteStr, pckWriteTime, pckWriteU32, pckWriteU64;
    pose proof He as He'; unfold fieldIsDefault in He';
    rewrite (bind_pckWriteDefaultNull_false _ _ _ _ He'); cbn [negb];
    cbn [fieldType fieldTagValue fieldPayload] in *;
    try (rewrite app_nil_r; exact Htag).
  all: destruct v as [bytes|];
    [|unfold fieldOk in Hok; rewrite He in Hok; discriminate].
  all: rewrite (bind_Ok _ _ _ _ _ Htag); unfold when;
    destruct (Z.ltb_spec 0 (Z.of_nat (length bytes)));
    [ assert (Hr : 0 <= Z.of_nat (length bytes) < 18446744073709551616)
        by (simpl in Hok; lia);
      rewrite (bind_Ok _ _ _ _ _ (pckWriteUInt64Internal_varint _ _ Hr));
      unfold pckWriteBuffer, modify, setWBuffer; cbn;
      rewrite <- !app_assoc; reflexivity
    | rewrite app_nil_r; reflexivity ].
Qed.

(** ** Reading a field that is present *)

Section Present.

Variables (this this1 : PackRead) (top : PackTagStack) (stack : list PackTagStack).
Variables (id : Z) (t : PackType).

Hypothesis Hstack : tagStack this = top :: stack.
Hypothesis Hid : id <> 0.
Hypothesis Hlt : idLast top < id.
Hypothesis Hload : loadTag this = Ok (tt, this1).
Hypothesis Hnext : tagNextId this1 = id.
Hypothesis Htype : tagNextType this1 = packTypeOrd t.
Hypothesis Ht : validCall t false = true.

Lemma requestedId_explicit : requestedId (tagStack this) id = id.
Proof. unfold requestedId. destruct (Z.eqb_spec id 0); congruence. Qed.

Lemma loadTag_again : loadTag this1 = Ok (tt, this1).
Proof. apply loadTag_loaded. rewrite Hnext. exact Hid. Qed.

Lemma pckReadTag_match :
  pckReadTag id t false this = Ok ((id, tagNextValue this1), matched this1 id).
Proof.
  unfold pckReadTag. fold (validCall t false).
  rewrite (pckReadTag_start this top stack id t false Ht Hstack (or_intror Hlt)).
  cbv beta. rewrite requestedId_explicit.
  unfold bind at 1. unfold gets at 1. unfold pckReadTagFuel.
  generalize (S (Z.to_nat (u64 (bufferMax this - bufferPos this)))).
  intros fuel. cbn [pckReadTagLoop].
  rewrite ?bind_assoc. rewrite (bind_Ok _ _ _ _ _ Hload).
  cbv beta. rewrite ?bind_assoc. unfold bind at 1. unfold gets at 1.
  rewrite Hnext, Z.ltb_irrefl, Z.eqb_refl. cbn [negb].
  rewrite ?bind_assoc. unfold bind at 1. unfold gets at 1.
  rewrite Htype, Z.eqb_refl. cbn [negb].
  rewrite ?bind_assoc.
  rewrite (bind_Ok _ _ _ _ _
             (setTopIdLast_withIdLast id this1 top stack
                (loadTag_stack this this1 top stack Hstack Hload))).
  cbv beta. rewrite ?bind_assoc, bind_modify. reflexivity.
Qed.

End Present.

Section PresentCall.

Variables (this this1 : PackRead) (top : PackTagStack) (stack : list PackTagStack).
Variables (id : Z) (t : PackType).

Hypothesis Hstack : tagStack this = top :: stack.
Hypothesis Hid : id <> 0.
Hypothesis Hlt : idLast top < id.
Hypothesis Hload : loadTag this = Ok (tt, this1).
Hypothesis Hnext : tagNextId this1 = id.
Hypothesis Htype : tagNextType this1 = packTypeOrd t.
Hypothesis Ht : validCall t false = true.

(** The first two steps of every typed read, with or without [defaultNull] *)
Lemma pckReadDefaultNull_present defaultNull :
  pckReadDefaultNull defaultNull id this
  = Ok ((id, false), if defaultNull then this1 else this).
Proof.
  destruct defaultNull; unfold pckReadDefaultNull; [|reflexivity].
  pose proof (pckReadNullInternal_peek this this1 top stack id Hstack
                (or_intror Hlt) Hload) as Hpeek.
  rewrite (requestedId_explicit this id Hid) in Hpeek.
  rewrite (bind_Ok _ _ _ _ _ (Hpeek ltac:(lia))).
  cbn [fst snd]. rewrite Hnext, Z.ltb_irrefl. reflexivity.
Qed.

Lemma pckReadTag_present (defaultNull : bool) :
  pckReadTag id t false (if defaultNull then this1 else this)
  = Ok ((id, tagNextValue this1), matched this1 id).
Proof.
  destruct defaultNull.
  - apply (pckReadTag_match this1 this1 top stack id t
             (loadTag_stack this this1 top stack Hstack Hload)
             Hid Hlt (loadTag_again this1 id Hid Hnext) Hnext Htype Ht).
  - apply (pckReadTag_match this this1 top stack id t
             Hstack Hid Hlt Hload Hnext Htype Ht).
Qed.

End PresentCall.

Lemma fieldType_valid f : validCall (fieldType f) false = true.
Proof. destruct f; reflexivity. Qed.

(** A typed read whose field is next in the stream returns the value
    written and moves past the field *)
Lemma fieldRead_present f id defaultNull this this1 top stack rest :
  tagStack this = top :: stack ->
  id <> 0 -> idLast top < id ->
  loadTag this = Ok (tt, this1) ->
  tagNextId this1 = id ->
  tagNextType this1 = packTypeOrd (fieldType f) ->
  tagNextValue this1 = fieldTagValue f ->
  wfRead this1 -> unread this1 = fieldPayload f ++ rest ->
  fieldOk f defaultNull ->
  defaultNull && fieldIsDefault f = false ->
  fieldRead f id defaultNull this
  = Ok (fieldValue f,
        advance (Z.of_nat (length (fieldPayload f))) (matched this1 id)).
Proof.
  intros Hstack Hid Hlt Hload Hnext Htype Hval Hwf Hu Hok He.
  pose proof (pckReadDefaultNull_present this this1 top stack id
                Hstack Hid Hlt Hload Hnext defaultNull) as Hdn.
  pose proof (pckReadTag_present this this1 top stack id (fieldType f)
                Hstack Hid Hlt Hload Hnext Htype (fieldType_valid f)
                defaultNull) as Htag.
  assert (Hwfm : wfRead (matched this1 id)) by exact Hwf.
  assert (Hum : unread (matched this1 id) = fieldPayload f ++ rest) by exact Hu.
  destruct f as [v|v dv|v dv|v dv|v|v dv|v dv|v dv|v dv];
    unfold fieldRead, pckReadBin, pckReadBool, pckReadI32, pckReadI64,
      pckReadPtr, pckReadStr, pckReadTime, pckReadU32, pckReadU64;
    rewrite bind_assoc, (bind_Ok _ _ _ _ _ Hdn); cbn [fst snd];
    rewrite ?bind_assoc, (bind_Ok _ _ _ _ _ Htag); cbn [fst snd];
    rewrite Hval; cbn [fieldTagValue fieldPayload fieldValue fieldType] in *.
  - (* Bin *)
    destruct v as [bytes|];
      [|unfold fieldOk in Hok; rewrite He in Hok; discriminate].
    destruct (Z.ltb_spec 0 (Z.of_nat (length bytes))) as [Hpos|Hzero].
    + cbn [Z.eqb negb]. rewrite ?bind_assoc.
      assert (Hr : 0 <= Z.of_nat (length bytes) < 18446744073709551616)
        by (simpl in Hok; lia).
      rewrite <- app_assoc in Hum.
      rewrite (bind_Ok _ _ _ _ _ (varint_read _ _ _ Hr Hwfm Hum)).
      destruct (advance_unread_app _ _ _ Hwfm Hum) as [Hwf2 Hu2].
      rewrite ?bind_assoc.
      rewrite (bind_Ok _ _ _ _ _ (pckReadData_written bytes rest _ Hwf2 Hu2)).
      rewrite !bind_ret, advance_advance, length_app, Nat2Z.inj_add.
      reflexivity.
    + cbn [Z.eqb negb]. rewrite !bind_ret. cbn [length].
      rewrite advance_0. destruct bytes; [reflexivity|simpl in Hzero; lia].
  - (* Bool *)
    rewrite !bind_ret, advance_0. destruct v; reflexivity.
  - (* I32 *)
    rewrite !bind_ret, advance_0.
    rewrite (proj2 (cvtInt32_zigzag v Hok)). reflexivity.
  - (* I64 *)
    rewrite !bind_ret, advance_0.
    rewrite (proj2 (cvtInt64_zigzag v Hok)). reflexivity.
  - (* Ptr *)
    rewrite !bind_ret, advance_0. reflexivity.
  - (* Str *)
    destruct v as [bytes|];
      [|unfold fieldOk in Hok; rewrite He in Hok; discriminate].
    destruct (Z.ltb_spec 0 (Z.of_nat (length bytes))) as [Hpos|Hzero].
    + cbn [Z.eqb negb]. rewrite ?bind_assoc.
      assert (Hr : 0 <= Z.of_nat (length bytes) < 18446744073709551616)
        by (simpl in Hok; lia).
      rewrite <- app_assoc in Hum.
      rewrite (bind_Ok _ _ _ _ _ (varint_read _ _ _ Hr Hwfm Hum)).
      destruct (advance_unread_app _ _ _ Hwfm Hum) as [Hwf2 Hu2].
      rewrite ?bind_assoc.
      rewrite (bind_Ok _ _ _ _ _ (pckReadData_written bytes rest _ Hwf2 Hu2)).
      rewrite !bind_ret, advance_advance, length_app, Nat2Z.inj_add.
      reflexivity.
    + cbn [Z.eqb negb]. rewrite !bind_ret. cbn [length].
      rewrite advance_0. destruct bytes; [reflexivity|simpl in Hzero; lia].
  - (* Time *)
    rewrite !bind_ret, advance_0.
    rewrite (proj2 (cvtInt64_zigzag v Hok)). reflexivity.
  - (* U32 *)
    rewrite !bind_ret, advance_0. rewrite u32_small by exact Hok. reflexivity.
  - (* U64 *)
    rewrite !bind_ret, advance_0. reflexivity.
Qed.

(** * Round trip: a pack written by a sequence of calls, read back *)

(** ** The writer appends [opsBytes] *)

Lemma stackOk_afterNull stack : stackOk stack -> stackOk (afterNull stack).
Proof.
  intros [Hne Hall]. destruct stack as [|top r]; [congruence|].
  split; [discriminate|]. inversion Hall; subst. constructor; assumption.
Qed.

Lemma stackOk_afterTag id stack :
  0 <= id < ID_MAX -> stackOk stack -> stackOk (afterTag id stack).
Proof.
  intros Hid [Hne Hall]. destruct stack as [|top r]; [congruence|].
  split; [discriminate|]. inversion Hall; subst. constructor; assumption.
Qed.

Lemma stackOk_push t stack : stackOk stack -> stackOk (newFrame t :: stack).
Proof.
  intros [Hne Hall]. split; [discriminate|].
  constructor; [simpl; unfold ID_MAX; lia|exact Hall].
Qed.

Lemma stackOk_tl stack : (2 <= length stack)%nat -> stackOk stack -> stackOk (tl stack).
Proof.
  intros Hlen [Hne Hall]. destruct stack as [|top [|top2 r]]; simpl in Hlen; try lia.
  split; [discriminate|]. inversion Hall; subst. assumption.
Qed.

Lemma stackOk_top stack : stackOk stack -> 0 <= topIdLast stack < ID_MAX.
Proof.
  intros [Hne Hall]. destruct stack as [|top r]; [congruence|].
  inversion Hall; subst. assumption.
Qed.

Lemma pckWriteNull_run b stack :
  stack <> [] ->
  pckWriteNull (mkPackWrite b stack) = Ok (tt, mkPackWrite b (afterNull stack)).
Proof. destruct stack; [congruence|reflexivity]. Qed.

Lemma containerBegin_bytes t id b stack :
  t = pckTypeArray \/ t = pckTypeObj ->
  stack <> [] -> id <> 0 -> topIdLast stack < id ->
  (pckWriteTag t id 0 ;; writePush t) (mkPackWrite b stack)
  = Ok (tt, mkPackWrite (b ++ tagBytes t (u32 (id - topIdLast stack - 1)) 0)
              (newFrame t :: afterTag id stack)).
Proof.
  intros Ht Hne Hid Hlt. destruct stack as [|top r]; [congruence|].
  rewrite (bind_Ok _ _ _ _ _
             (pckWriteTag_bytes t id 0 b top r Hid Hlt
                ltac:(destruct Ht; subst; reflexivity))).
  reflexivity.
Qed.

Lemma containerEnd_bytes t s1 s2 b stack :
  stackTopIs t stack = true -> (2 <= length stack)%nat ->
  (stack' <- gets wTagStack ;;
   assert (negb (Z.of_nat (length stack') =? 1)) s1 ;;
   assert (stackTopIs t stack') s2 ;;
   pckWriteUInt64Internal 0 ;;
   writePop) (mkPackWrite b stack)
  = Ok (tt, mkPackWrite (b ++ [0]) (tl stack)).
Proof.
  intros Htop Hlen.
  change (pckWriteUInt64Internal 0) with (pckWriteBuffer [0]).
  unfold bind, gets, assert, pckWriteBuffer, writePop, modify, ret, throw.
  cbn [wTagStack wBuffer setWBuffer setWTagStack]. rewrite Htop.
  destruct (Z.eqb_spec (Z.of_nat (length stack)) 1); [lia|]. reflexivity.
Qed.

Lemma opsWrite_bytes ops : forall stack last b,
  opsOk stack last ops -> stackOk stack -> topIdLast stack <= last ->
  exists stack',
    opsWrite ops (mkPackWrite b stack)
    = Ok (tt, mkPackWrite (b ++ opsBytes stack ops) stack') /\
    length stack' = 1%nat.
Proof.
  induction ops as [|op ops IH]; intros stack last b Hok Hst Hlast.
  - exists stack. simpl. rewrite app_nil_r. split; [reflexivity|exact Hok].
  - pose proof (stackOk_top _ Hst) as Htop.
    destruct op as [f id defaultNull| |id| |id|]; simpl in Hok.
    + destruct Hok as (Hid & Hf & Hok).
      cbn [opsWrite opWrite opsBytes].
      destruct (defaultNull && fieldIsDefault f) eqn:He.
      * destruct (IH (afterNull stack) id b Hok (stackOk_afterNull _ Hst))
          as (stack' & Hrun & Hlen).
        { destruct stack; simpl in *; lia. }
        exists stack'. split; [|exact Hlen].
        unfold bind. rewrite (fieldWrite_elided _ _ _ _ He).
        rewrite (pckWriteNull_run b stack (proj1 Hst)). exact Hrun.
      * destruct (IH (afterTag id stack) id
                    (b ++ tagBytes (fieldType f) (u32 (id - topIdLast stack - 1))
                            (fieldTagValue f) ++ fieldPayload f)
                    Hok (stackOk_afterTag id _ ltac:(lia) Hst))
          as (stack' & Hrun & Hlen).
        { destruct stack; simpl in *; lia. }
        exists stack'. split; [|exact Hlen].
        destruct stack as [|top r]; [destruct Hst; congruence|].
        simpl in Hlast, Htop.
        unfold bind.
        rewrite (fieldWrite_bytes f id defaultNull b top r He Hf
                   ltac:(lia) ltac:(lia)).
        rewrite <- ?app_assoc in Hrun. rewrite <- ?app_assoc. exact Hrun.
    + contradiction.
    + destruct Hok as (Hid & Hok).
      cbn [opsWrite opWrite opsBytes]. unfold pckWriteArrayBegin.
      destruct (IH (newFrame pckTypeArray :: afterTag id stack) 0
                  (b ++ tagBytes pckTypeArray (u32 (id - topIdLast stack - 1)) 0)
                  Hok (stackOk_push _ _ (stackOk_afterTag id _ ltac:(lia) Hst))
                  ltac:(simpl; lia))
        as (stack' & Hrun & Hlen).
      exists stack'. split; [|exact Hlen].
      unfold bind at 1.
      rewrite (containerBegin_bytes pckTypeArray id b stack (or_introl eq_refl)
                 (proj1 Hst) ltac:(lia) ltac:(lia)).
      rewrite <- ?app_assoc in Hrun. rewrite <- ?app_assoc. exact Hrun.
    + destruct Hok as (Htopis & Hlen2 & Hok).
      cbn [opsWrite opWrite opsBytes]. unfold pckWriteArrayEnd.
      destruct (IH (tl stack) (topIdLast (tl stack)) (b ++ [0])
                  Hok (stackOk_tl _ Hlen2 Hst) ltac:(lia))
        as (stack' & Hrun & Hlen).
      exists stack'. split; [|exact Hlen].
      unfold bind at 1.
      rewrite (containerEnd_bytes pckTypeArray _ _ b stack Htopis Hlen2).
      rewrite <- ?app_assoc in Hrun. exact Hrun.
    + destruct Hok as (Hid & Hok).
      cbn [opsWrite opWrite opsBytes]. unfold pckWriteObjBegin.
      destruct (IH (newFrame pckTypeObj :: afterTag id stack) 0
                  (b ++ tagBytes pckTypeObj (u32 (id - topIdLast stack - 1)) 0)
                  Hok (stackOk_push _ _ (stackOk_afterTag id _ ltac:(lia) Hst))
                  ltac:(simpl; lia))
        as (stack' & Hrun & Hlen).
      exists stack'. split; [|exact Hlen].
      unfold bind at 1.
      rewrite (containerBegin_bytes pckTypeObj id b stack (or_intror eq_refl)
                 (proj1 Hst) ltac:(lia) ltac:(lia)).
      rewrite <- ?app_assoc in Hrun. rewrite <- ?app_assoc. exact Hrun.
    + destruct Hok as (Htopis & Hlen2 & Hok).
      cbn [opsWrite opWrite opsBytes]. unfold pckWriteObjEnd.
      destruct (IH (tl stack) (topIdLast (tl stack)) (b ++ [0])
                  Hok (stackOk_tl _ Hlen2 Hst) ltac:(lia))
        as (stack' & Hrun & Hlen).
      exists stack'. split; [|exact Hlen].
      unfold bind at 1.
      rewrite (containerEnd_bytes pckTypeObj _ _ b stack Htopis Hlen2).
      rewrite <- ?app_assoc in Hrun. exact Hrun.
Qed.

(** ** The reader on those bytes *)

Lemma pckReadTagNext_terminator this rest :
  wfRead this -> unread this = 0 :: rest ->
  pckReadTagNext this = Ok (false, setTagNextId 0xFFFFFFFF (advance 1 this)).
Proof.
  intros Hwf Hu. unfold pckReadTagNext.
  rewrite (take_byte _ 0 rest this Hwf Hu). reflexivity.
Qed.

Lemma loadTag_empty this :
  tagNextId this = 0 ->
  loadTag this = (_ <- pckReadTagNext ;; ret tt) this.
Proof. intros H. unfold loadTag. rewrite bind_gets, H. reflexivity. Qed.

Lemma id_from_delta last id :
  0 <= last < id -> id < 4294967296 ->
  u32 (u32 (id - last - 1) + u32 (last + 1)) = id.
Proof.
  intros H1 H2. rewrite (u32_small (id - last - 1)), (u32_small (last + 1)) by lia.
  rewrite u32_small by lia. lia.
Qed.

Lemma sameFrames_top s stack :
  sameFrames s stack -> topIdLast s = topIdLast stack.
Proof. intros H. destruct H as [|a b s' stack' [_ H]]; [reflexivity|exact H]. Qed.

Lemma sameFrames_length s stack : sameFrames s stack -> length s = length stack.
Proof. apply Forall2_length. Qed.

Lemma sameFrames_topIs t s stack :
  sameFrames s stack -> stackTopIs t s = stackTopIs t stack.
Proof.
  intros H. destruct H as [|a b s' stack' [H _]]; [reflexivity|].
  simpl. rewrite H. reflexivity.
Qed.

Lemma sameFrames_tl s stack : sameFrames s stack -> sameFrames (tl s) (tl stack).
Proof. intros H. destruct H; [constructor|assumption]. Qed.

Lemma sameFrames_afterNull s stack :
  sameFrames s stack -> sameFrames s (afterNull stack).
Proof.
  intros H. destruct H as [|a b s' stack' [H1 H2] H]; [constructor|].
  constructor; [split; assumption|exact H].
Qed.

Lemma sameFrames_afterTag id last s stack :
  sameFrames s stack ->
  sameFrames (updTop (setIdLast id) (updTop (setIdLast last) s))
    (afterTag id stack).
Proof.
  intros H. destruct H as [|a b s' stack' [H1 H2] H]; [constructor|].
  constructor; [split; [exact H1|reflexivity]|exact H].
Qed.

Lemma updTop_setIdLast_same s : updTop (setIdLast (topIdLast s)) s = s.
Proof. destruct s as [|[t l n] r]; reflexivity. Qed.

Lemma withIdLast_same this : withIdLast (topIdLast (tagStack this)) this = this.
Proof.
  unfold withIdLast. rewrite updTop_setIdLast_same. destruct this. reflexivity.
Qed.

Lemma withIdLast_twice a b this :
  withIdLast a (withIdLast b this) = withIdLast a this.
Proof.
  unfold withIdLast, setTagStack. simpl.
  destruct (tagStack this) as [|[t l n] r]; reflexivity.
Qed.

(** What the invariant says about the reader's next step: it loads, or
    has loaded, the tag that follows *)
Lemma readerInv_load start this stack last bytes this1 :
  readerInv start this stack last bytes ->
  loadTag start = Ok (tt, this1) ->
  tagNextId this1 <> 0 ->
  loadTag this = Ok (tt, withIdLast last this1) /\
  tagStack this = updTop (setIdLast last) (tagStack start).
Proof.
  intros [(Hwf & Hnext & Hu & Hsame) Hcase] Hload Hnz.
  destruct (keeps_loadTag _ _ _ Hload) as (Hst & _ & _).
  destruct Hcase as [[-> ->]|(this1' & Hload' & Hnz' & ->)].
  - rewrite <- (sameFrames_top _ _ Hsame).
    rewrite <- Hst at 1. rewrite withIdLast_same, updTop_setIdLast_same.
    split; [exact Hload|reflexivity].
  - rewrite Hload in Hload'. injection Hload' as <-.
    split; [|simpl; rewrite Hst; reflexivity].
    apply loadTag_loaded. exact Hnz.
Qed.

Lemma readerInv_start start stack bytes :
  readerAt start stack bytes ->
  readerInv start start stack (topIdLast stack) bytes.
Proof. intros H. split; [exact H|left; split; reflexivity]. Qed.

(** The reader at the start of a tag written by [pckWriteTag] *)
Lemma loadTag_written t id value start stack bytes rest :
  readerAt start stack bytes ->
  bytes = tagBytes t (u32 (id - topIdLast stack - 1)) value ++ rest ->
  stackOk stack -> topIdLast stack < id < ID_MAX ->
  t <> pckTypeUnknown -> tagValueOk t value = true ->
  let this1 := withTag (Z.of_nat (length (tagBytes t (u32 (id - topIdLast stack - 1)) value)))
                 id t value start in
  loadTag start = Ok (tt, this1) /\ wfRead this1 /\ unread this1 = rest.
Proof.
  intros (Hwf & Hnext & Hu & Hsame) -> Hst Hid Ht Hv this1.
  pose proof (stackOk_top _ Hst) as Htop.
  assert (Hstack : exists top r, tagStack start = top :: r
                                 /\ idLast top = topIdLast stack).
  { pose proof (sameFrames_top _ _ Hsame) as H.
    destruct Hsame as [|a b s' stack' [_ _] _]; [destruct Hst; congruence|].
    exists a, s'. split; [reflexivity|exact H]. }
  destruct Hstack as (top & r & Hstack & Hlast).
  pose proof (pckReadTagNext_written t _ value start rest top r Hwf Hu Hstack
                (u32_range _) Ht Hv) as Hparse.
  rewrite Hlast, id_from_delta in Hparse by (unfold ID_MAX in *; lia).
  split; [|exact (advance_unread_app _ _ start Hwf Hu)].
  rewrite (loadTag_empty _ Hnext), (bind_Ok _ _ _ _ _ Hparse). reflexivity.
Qed.

(** The reader at the terminator of a container *)
Lemma loadTag_terminator start stack bytes rest :
  readerAt start stack bytes -> bytes = 0 :: rest ->
  let this1 := setTagNextId 0xFFFFFFFF (advance 1 start) in
  loadTag start = Ok (tt, this1) /\ wfRead this1 /\ unread this1 = rest.
Proof.
  intros (Hwf & Hnext & Hu & Hsame) -> this1.
  split; [|exact (advance_1_cons _ _ start Hwf Hu)].
  rewrite (loadTag_empty _ Hnext).
  rewrite (bind_Ok _ _ _ _ _ (pckReadTagNext_terminator _ _ Hwf Hu)).
  reflexivity.
Qed.

Lemma readerAt_stack start stack bytes :
  readerAt start stack bytes -> stackOk stack ->
  exists top r, tagStack start = top :: r /\ idLast top = topIdLast stack.
Proof.
  intros (_ & _ & _ & Hsame) Hst.
  pose proof (sameFrames_top _ _ Hsame) as H.
  destruct Hsame as [|a b s' stack' [_ _] _]; [destruct Hst; congruence|].
  exists a, s'. split; [reflexivity|exact H].
Qed.

Lemma readerAt_afterNull start stack bytes :
  readerAt start stack bytes -> readerAt start (afterNull stack) bytes.
Proof.
  intros (H1 & H2 & H3 & H4).
  split; [exact H1|split; [exact H2|split; [exact H3|]]].
  apply sameFrames_afterNull. exact H4.
Qed.

(** The tag that follows a sequence of calls has an ID above the last one
    used: elided writes leave no tag, and the terminator counts as the
    greatest ID *)
Lemma next_tag_above ops : forall stack last start post,
  opsOk stack last ops -> stackOk stack -> topIdLast stack <= last < ID_MAX ->
  readerAt start stack (opsBytes stack ops ++ 0 :: post) ->
  exists this1, loadTag start = Ok (tt, this1) /\ last < tagNextId this1.
Proof.
  induction ops as [|op ops IH]; intros stack last start post Hok Hst Hlast Hat.
  - destruct (loadTag_terminator start stack _ post Hat eq_refl) as (Hl & _).
    eexists. split; [exact Hl|]. simpl. unfold ID_MAX in Hlast. lia.
  - pose proof (stackOk_top _ Hst) as Htop.
    destruct op as [f id defaultNull| |id| |id|]; simpl in Hok;
      cbn [opsBytes] in Hat.
    + destruct Hok as (Hid & Hf & Hok).
      destruct (defaultNull && fieldIsDefault f) eqn:He.
      * destruct (IH (afterNull stack) id start post Hok
                    (stackOk_afterNull _ Hst)
                    ltac:(destruct stack; simpl in *; lia)
                    (readerAt_afterNull _ _ _ Hat)) as (this1 & Hl & Hlt).
        exists this1. split; [exact Hl|lia].
      * rewrite <- !app_assoc in Hat.
        destruct (loadTag_written (fieldType f) id (fieldTagValue f) start stack
                    _ _ Hat eq_refl Hst ltac:(lia)
                    ltac:(destruct f; discriminate)
                    (fieldTagValue_ok f defaultNull Hf)) as (Hl & _).
        eexists. split; [exact Hl|]. simpl. lia.
    + contradiction.
    + destruct Hok as (Hid & Hok). rewrite <- !app_assoc in Hat.
      destruct (loadTag_written pckTypeArray id 0 start stack
                  _ _ Hat eq_refl Hst ltac:(lia) ltac:(discriminate) eq_refl)
        as (Hl & _).
      eexists. split; [exact Hl|]. simpl. lia.
    + destruct Hok as (Htopis & Hlen2 & Hok). simpl app in Hat.
      destruct (loadTag_terminator start stack _ _ Hat eq_refl) as (Hl & _).
      eexists. split; [exact Hl|]. simpl. unfold ID_MAX in Hlast. lia.
    + destruct Hok as (Hid & Hok). rewrite <- !app_assoc in Hat.
      destruct (loadTag_written pckTypeObj id 0 start stack
                  _ _ Hat eq_refl Hst ltac:(lia) ltac:(discriminate) eq_refl)
        as (Hl & _).
      eexists. split; [exact Hl|]. simpl. lia.
    + destruct Hok as (Htopis & Hlen2 & Hok). simpl app in Hat.
      destruct (loadTag_terminator start stack _ _ Hat eq_refl) as (Hl & _).
      eexists. split; [exact Hl|]. simpl. unfold ID_MAX in Hlast. lia.
Qed.

Lemma strEq_eq a b : strEq a b = true -> a = b.
Proof.
  destruct a as [x|], b as [y|]; simpl; try discriminate; [|reflexivity].
  destruct (list_eq_dec Z.eq_dec x y); [congruence|discriminate].
Qed.

Lemma fieldDefault_elided f :
  fieldIsDefault f = true -> fieldDefault f = fieldValue f.
Proof.
  destruct f as [v|v dv|v dv|v dv|v|v dv|v dv|v dv|v dv]; simpl; intros H.
  - destruct v; [discriminate|reflexivity].
  - apply Bool.eqb_prop in H. congruence.
  - apply Z.eqb_eq in H. congruence.
  - apply Z.eqb_eq in H. congruence.
  - apply Z.eqb_eq in H. congruence.
  - apply strEq_eq in H. congruence.
  - apply Z.eqb_eq in H. congruence.
  - apply Z.eqb_eq in H. congruence.
  - apply Z.eqb_eq in H. congruence.
Qed.

(** ** One call read back *)

Section Step.

Variables (stack : list PackTagStack) (last : Z) (start this : PackRead).
Variable rest : list Z.

Hypothesis Hst : stackOk stack.
Hypothesis Hlast : topIdLast stack <= last < ID_MAX.

Lemma step_elided f id :
  readerInv start this stack last rest ->
  last < id < ID_MAX ->
  fieldIsDefault f = true ->
  (exists this1, loadTag start = Ok (tt, this1) /\ id < tagNextId this1) ->
  exists this',
    fieldRead f id true this = Ok (fieldValue f, this') /\
    stepsTo (afterNull stack) id this' rest.
Proof.
  intros Hinv Hid Hdef (this1 & Hl & Hlt).
  pose proof (stackOk_top _ Hst) as Htop.
  assert (Hnz : tagNextId this1 <> 0) by lia.
  destruct (readerInv_load _ _ _ _ _ this1 Hinv Hl Hnz) as (Hload & Hstk).
  destruct (readerAt_stack _ _ _ (proj1 Hinv) Hst) as (top & r & Hss & Htl).
  rewrite Hss in Hstk. cbn [updTop] in Hstk.
  pose proof (fieldRead_absent_default this (withIdLast last this1)
                (setIdLast last top) r id Hstk
                (or_intror (proj1 Hid)) Hload) as Hread.
  rewrite (requestedId_explicit this id ltac:(lia)) in Hread.
  specialize (Hread Hlt f). rewrite withIdLast_twice in Hread.
  rewrite (fieldDefault_elided f Hdef) in Hread.
  exists (withIdLast id this1). split; [exact Hread|].
  split; [apply stackOk_afterNull; exact Hst|].
  split; [destruct stack; simpl in *; lia|].
  exists start. split; [apply readerAt_afterNull; exact (proj1 Hinv)|].
  right. exists this1. auto.
Qed.

Lemma step_field f id defaultNull rest' :
  readerInv start this stack last rest ->
  rest = tagBytes (fieldType f) (u32 (id - topIdLast stack - 1)) (fieldTagValue f)
         ++ fieldPayload f ++ rest' ->
  last < id < ID_MAX -> fieldOk f defaultNull ->
  defaultNull && fieldIsDefault f = false ->
  exists this',
    fieldRead f id defaultNull this = Ok (fieldValue f, this') /\
    stepsTo (afterTag id stack) id this' rest'.
Proof.
  intros Hinv Hrest Hid Hf He.
  pose proof (stackOk_top _ Hst) as Htop.
  destruct (loadTag_written (fieldType f) id (fieldTagValue f) start stack
              rest _ (proj1 Hinv) Hrest Hst ltac:(lia)
              ltac:(destruct f; discriminate)
              (fieldTagValue_ok f defaultNull Hf)) as (Hl & Hwf1 & Hu1).
  set (this1 := withTag _ id (fieldType f) (fieldTagValue f) start) in *.
  assert (Hnz : tagNextId this1 <> 0) by (simpl; lia).
  destruct (readerInv_load _ _ _ _ _ this1 Hinv Hl Hnz) as (Hload & Hstk).
  destruct (readerAt_stack _ _ _ (proj1 Hinv) Hst) as (top & r & Hss & Htl).
  rewrite Hss in Hstk. cbn [updTop] in Hstk.
  pose proof (fieldRead_present f id defaultNull this (withIdLast last this1)
                (setIdLast last top) r rest' Hstk ltac:(lia)
                (proj1 Hid) Hload eq_refl eq_refl eq_refl Hwf1 Hu1 Hf He)
    as Hread.
  eexists. split; [exact Hread|].
  split; [apply stackOk_afterTag; [lia|exact Hst]|].
  split; [destruct stack; [destruct Hst; congruence|simpl; lia]|].
  eexists.
  replace id with (topIdLast (afterTag id stack)) at 3
    by (destruct stack; [destruct Hst; congruence|reflexivity]).
  apply readerInv_start.
  destruct (advance_unread_app (fieldPayload f) rest'
              (matched (withIdLast last this1) id) Hwf1 Hu1) as (Hwf2 & Hu2).
  split; [exact Hwf2|split; [reflexivity|split; [exact Hu2|]]].
  destruct Hinv as [(_ & _ & _ & Hsame) _].
  exact (sameFrames_afterTag id last _ _ Hsame).
Qed.

Lemma step_begin t id rest' :
  t = pckTypeArray \/ t = pckTypeObj ->
  readerInv start this stack last rest ->
  rest = tagBytes t (u32 (id - topIdLast stack - 1)) 0 ++ rest' ->
  last < id < ID_MAX ->
  exists this',
    (_ <- pckReadTag id t false ;; readPush t) this = Ok (tt, this') /\
    stepsTo (newFrame t :: afterTag id stack) 0 this' rest'.
Proof.
  intros Ht Hinv Hrest Hid.
  pose proof (stackOk_top _ Hst) as Htop.
  destruct (loadTag_written t id 0 start stack
              rest _ (proj1 Hinv) Hrest Hst ltac:(lia)
              ltac:(destruct Ht; subst; discriminate)
              ltac:(destruct Ht; subst; reflexivity)) as (Hl & Hwf1 & Hu1).
  set (this1 := withTag _ id t 0 start) in *.
  assert (Hnz : tagNextId this1 <> 0) by (simpl; lia).
  destruct (readerInv_load _ _ _ _ _ this1 Hinv Hl Hnz) as (Hload & Hstk).
  destruct (readerAt_stack _ _ _ (proj1 Hinv) Hst) as (top & r & Hss & Htl).
  rewrite Hss in Hstk. cbn [updTop] in Hstk.
  pose proof (pckReadTag_match this (withIdLast last this1)
                (setIdLast last top) r id t Hstk ltac:(lia)
                (proj1 Hid) Hload eq_refl eq_refl
                ltac:(destruct Ht; subst; reflexivity)) as Hread.
  eexists. split; [rewrite (bind_Ok _ _ _ _ _ Hread); reflexivity|].
  split; [apply stackOk_push; apply stackOk_afterTag; [lia|exact Hst]|].
  split; [simpl; unfold ID_MAX; lia|].
  eexists.
  change 0 with (topIdLast (newFrame t :: afterTag id stack)) at 2.
  apply readerInv_start.
  split; [exact Hwf1|split; [reflexivity|split; [exact Hu1|]]].
  destruct Hinv as [(_ & _ & _ & Hsame) _].
  constructor; [split; reflexivity|].
  exact (sameFrames_afterTag id last _ _ Hsame).
Qed.

Lemma step_end t message rest' :
  readerInv start this stack last rest ->
  rest = 0 :: rest' ->
  stackTopIs t stack = true -> (2 <= length stack)%nat ->
  exists this',
    (stack' <- gets tagStack ;;
     if (Z.of_nat (length stack') =? 1) || negb (stackTopIs t stack') then
       throw (FormatError message)
     else readContainerEnd) this = Ok (tt, this') /\
    stepsTo (tl stack) (topIdLast (tl stack)) this' rest'.
Proof.
  intros Hinv Hrest Htopis Hlen.
  pose proof (stackOk_top _ Hst) as Htop.
  destruct (loadTag_terminator start stack rest rest' (proj1 Hinv) Hrest)
    as (Hl & Hwf1 & Hu1).
  set (this1 := setTagNextId 0xFFFFFFFF (advance 1 start)) in *.
  assert (Hnz : tagNextId this1 <> 0) by (simpl; lia).
  destruct (readerInv_load _ _ _ _ _ this1 Hinv Hl Hnz) as (Hload & Hstk).
  destruct (readerAt_stack _ _ _ (proj1 Hinv) Hst) as (top & r & Hss & Htl).
  destruct Hinv as [(_ & _ & _ & Hsame) _].
  rewrite Hss in Hstk. cbn [updTop] in Hstk.
  pose proof (pckReadTag_absent this (withIdLast last this1)
                (setIdLast last top) r ID_MAX pckTypeUnknown true
                eq_refl Hstk (or_intror (proj2 Hlast)) Hload) as Hpeek.
  rewrite (requestedId_explicit this ID_MAX ltac:(discriminate)) in Hpeek.
  specialize (Hpeek ltac:(simpl; unfold ID_MAX; lia)). cbv iota in Hpeek.
  eexists. split.
  - rewrite bind_gets, Hstk.
    pose proof (sameFrames_length _ _ Hsame) as Hlen'.
    pose proof (sameFrames_topIs t _ _ Hsame) as Htop'.
    rewrite Hss in Hlen', Htop'.
    replace (Z.of_nat (length (setIdLast last top :: r)) =? 1) with false
      by (symmetry; apply Z.eqb_neq; cbn [length] in *; lia).
    replace (stackTopIs t (setIdLast last top :: r)) with true
      by (rewrite <- Htopis, <- Htop'; reflexivity).
    cbn [orb negb]. unfold readContainerEnd.
    change (0xFFFFFFFF - 1) with ID_MAX.
    rewrite (bind_Ok _ _ _ _ _ Hpeek). reflexivity.
  - split; [apply stackOk_tl; assumption|].
    split; [pose proof (stackOk_top _ (stackOk_tl _ Hlen Hst)); lia|].
    eexists. apply readerInv_start.
    split; [exact Hwf1|split; [reflexivity|split; [exact Hu1|]]].
    cbn. rewrite Hss. cbn. rewrite Hss in Hsame.
    exact (sameFrames_tl _ _ Hsame).
Qed.

End Step.

Lemma opRead_step op ops stack last this post :
  opsOk stack last (op :: ops) ->
  stepsTo stack last this (opsBytes stack (op :: ops) ++ 0 :: post) ->
  exists this' stack' last',
    opRead op this = Ok (opValues op, this') /\
    opsOk stack' last' ops /\
    stepsTo stack' last' this' (opsBytes stack' ops ++ 0 :: post).
Proof.
  intros Hok (Hst & Hlast & start & Hinv).
  destruct op as [f id defaultNull| |id| |id|]; simpl in Hok;
    cbn [opsBytes] in Hinv; cbn [opRead opValues].
  - destruct Hok as (Hid & Hf & Hok).
    destruct (defaultNull && fieldIsDefault f) eqn:He.
    + apply andb_true_iff in He as [-> Hdef].
      destruct (step_elided stack last start this _ Hst Hlast f id Hinv Hid Hdef)
        as (this' & Hread & Hsteps).
      { apply (next_tag_above ops (afterNull stack) id start post Hok
                 (stackOk_afterNull _ Hst)
                 ltac:(destruct stack; simpl in *; lia)
                 (readerAt_afterNull _ _ _ (proj1 Hinv))). }
      exists this', (afterNull stack), id.
      rewrite (bind_Ok _ _ _ _ _ Hread). auto.
    + rewrite <- !app_assoc in Hinv.
      destruct (step_field stack last start this _ Hst Hlast f id defaultNull
                  _ Hinv eq_refl Hid Hf He) as (this' & Hread & Hsteps).
      exists this', (afterTag id stack), id.
      rewrite (bind_Ok _ _ _ _ _ Hread). auto.
  - contradiction.
  - destruct Hok as (Hid & Hok). rewrite <- !app_assoc in Hinv.
    destruct (step_begin stack last start this _ Hst Hlast pckTypeArray id
                _ (or_introl eq_refl) Hinv eq_refl Hid)
      as (this' & Hread & Hsteps).
    exists this', (newFrame pckTypeArray :: afterTag id stack), 0.
    unfold pckReadArrayBegin. rewrite (bind_Ok _ _ _ _ _ Hread). auto.
  - destruct Hok as (Htopis & Hlen & Hok). simpl app in Hinv.
    destruct (step_end stack last start this _ Hst Hlast pckTypeArray
                "not in array" _ Hinv eq_refl Htopis Hlen)
      as (this' & Hread & Hsteps).
    exists this', (tl stack), (topIdLast (tl stack)).
    unfold pckReadArrayEnd. rewrite (bind_Ok _ _ _ _ _ Hread). auto.
  - destruct Hok as (Hid & Hok). rewrite <- !app_assoc in Hinv.
    destruct (step_begin stack last start this _ Hst Hlast pckTypeObj id
                _ (or_intror eq_refl) Hinv eq_refl Hid)
      as (this' & Hread & Hsteps).
    exists this', (newFrame pckTypeObj :: afterTag id stack), 0.
    unfold pckReadObjBegin. rewrite (bind_Ok _ _ _ _ _ Hread). auto.
  - destruct Hok as (Htopis & Hlen & Hok). simpl app in Hinv.
    destruct (step_end stack last start this _ Hst Hlast pckTypeObj
                "not in object" _ Hinv eq_refl Htopis Hlen)
      as (this' & Hread & Hsteps).
    exists this', (tl stack), (topIdLast (tl stack)).
    unfold pckReadObjEnd. rewrite (bind_Ok _ _ _ _ _ Hread). auto.
Qed.

Lemma opsValues_cons op ops : opsValues (op :: ops) = opValues op ++ opsValues ops.
Proof. destruct op; reflexivity. Qed.

(** Reading back the first calls of a sequence *)
Lemma opsRead_written ops1 : forall ops2 stack last this post,
  opsOk stack last (ops1 ++ ops2) ->
  stepsTo stack last this (opsBytes stack (ops1 ++ ops2) ++ 0 :: post) ->
  exists this' stack' last',
    opsRead ops1 this = Ok (opsValues ops1, this') /\
    opsOk stack' last' ops2 /\
    stepsTo stack' last' this' (opsBytes stack' ops2 ++ 0 :: post).
Proof.
  induction ops1 as [|op ops1 IH]; intros ops2 stack last this post Hok Hsteps.
  - exists this, stack, last. auto.
  - cbn [app] in Hok, Hsteps.
    destruct (opRead_step op (ops1 ++ ops2) stack last this post Hok Hsteps)
      as (this1 & stack1 & last1 & Hread & Hok1 & Hsteps1).
    destruct (IH ops2 stack1 last1 this1 post Hok1 Hsteps1)
      as (this' & stack' & last' & Hreads & Hok' & Hsteps').
    exists this', stack', last'. split; [|auto].
    cbn [opsRead]. rewrite (bind_Ok _ _ _ _ _ Hread).
    rewrite (bind_Ok _ _ _ _ _ Hreads). rewrite opsValues_cons. reflexivity.
Qed.

(** The pack a sequence of calls writes into a new writer *)
Lemma pckWriteAll_bytes ops :
  opsOk [newFrame pckTypeObj] 0 ops ->
  pckWriteAll ops = Ok (opsBytes [newFrame pckTypeObj] ops ++ [0]).
Proof.
  intros Hok.
  destruct (opsWrite_bytes ops [newFrame pckTypeObj] 0 [] Hok) as (stack' & Hrun & Hlen).
  { split; [discriminate|]. repeat constructor. simpl. unfold ID_MAX. lia. }
  { simpl. lia. }
  unfold pckWriteAll. change pckWriteNewInternal with (mkPackWrite [] [newFrame pckTypeObj]).
  rewrite (bind_Ok _ _ _ _ _ Hrun). unfold pckWriteEnd.
  change (pckWriteUInt64Internal 0) with (pckWriteBuffer [0]).
  unfold bind, gets, assert, pckWriteBuffer, modify, ret.
  cbn [wTagStack wBuffer setWBuffer]. rewrite Hlen. reflexivity.
Qed.

Lemma stepsTo_new bytes :
  Z.of_nat (length bytes) < 18446744073709551616 ->
  stepsTo [newFrame pckTypeObj] 0 (pckReadNewBuf bytes) bytes.
Proof.
  intros Hlen. split; [|split].
  - split; [discriminate|]. repeat constructor. simpl. unfold ID_MAX. lia.
  - simpl. unfold ID_MAX. lia.
  - exists (pckReadNewBuf bytes).
    apply (readerInv_start (pckReadNewBuf bytes) [newFrame pckTypeObj]).
    split; [|split; [reflexivity|split; [reflexivity|]]].
    + unfold wfRead. simpl. lia.
    + repeat constructor.
Qed.

(** * The round-trip theorem *)

(** C1. A sequence of typed writes (blobs, booleans, I32, I64, pointers,
    strings, times, U32, U64), arrays and objects nested, finished by
    [pckWriteEnd], is read back by the reads of the same types at the same
    IDs as the values written, when every ID is explicit, greater than the
    one before it in its container and less than 0xFFFFFFFE, every value is
    one its C type holds, every container opened is closed, and the pack is
    of a size a [size_t] holds.  The values are equal as written: the bytes
    of a string or blob, the number of an integer or time, the boolean. *)
Theorem pack_roundtrip (ops : list Op) :
  opsOk [newFrame pckTypeObj] 0 ops ->
  exists bytes,
    pckWriteAll ops = Ok bytes /\
    (Z.of_nat (length bytes) < 18446744073709551616 ->
     resultOf (opsRead ops (pckReadNewBuf bytes)) = Ok (opsValues ops)).
Proof.
  intros Hok. exists (opsBytes [newFrame pckTypeObj] ops ++ [0]).
  split; [apply pckWriteAll_bytes; exact Hok|]. intros Hlen.
  destruct (opsRead_written ops [] [newFrame pckTypeObj] 0
              (pckReadNewBuf (opsBytes [newFrame pckTypeObj] ops ++ [0])) [])
    as (this' & stack' & last' & Hread & _).
  - rewrite app_nil_r. exact Hok.
  - rewrite app_nil_r. apply stepsTo_new. exact Hlen.
  - rewrite Hread. reflexivity.
Qed.

(** A string and a negative integer in an array between two fields of an
    object, one of them elided *)
Lemma pack_roundtrip_witness :
  let ops :=
    [OpField (FU32 7 0) 1 false;
     OpArrayBegin 3;
     OpField (FStr (Some [104; 105]) None) 1 false;
     OpField (FI32 (-2) 0) 2 true;
     OpArrayEnd;
     OpField (FBool false false) 4 true;
     OpField (FBin (Some [1; 2; 3])) 9 false] in
  opsOk [newFrame pckTypeObj] 0 ops /\
  exists bytes,
    pckWriteAll ops = Ok bytes /\
    resultOf (opsRead ops (pckReadNewBuf bytes))
    = Ok [VU32 7; VStr (Some [104; 105]); VI32 (-2); VBool false;
          VBin (Some [1; 2; 3])].
Proof.
  intros ops.
  assert (Hok : opsOk [newFrame pckTypeObj] 0 ops).
  { subst ops. unfold ID_MAX. simpl. repeat split; lia. }
  split; [exact Hok|].
  destruct (pack_roundtrip ops Hok) as (bytes & Hwrite & Hread).
  exists bytes. split; [exact Hwrite|].
  apply Hread.
  assert (Hb : Ok bytes = pckWriteAll ops) by (symmetry; exact Hwrite).
  vm_compute in Hb. injection Hb as ->. simpl. lia.
Defined.

(** A field at ID 0xFFFFFFFE in an array is written, but the array cannot
    be closed when read back: [pckReadArrayEnd] looks for the terminator at
    that very ID *)
Lemma roundtrip_fails_at_last_id :
  let ops :=
    [OpArrayBegin 1;
     OpField (FU32 5 0) 0xFFFFFFFE false;
     OpArrayEnd;
     OpField (FU32 7 0) 2 false] in
  let bytes := [16; 173; 255; 255; 255; 255; 3; 5; 0; 168; 7; 0] in
  pckWriteAll ops = Ok bytes /\
  resultOf (opsRead ops (pckReadNewBuf bytes))
  = Throw (FormatError "field 4294967294 was already read").
Proof. split; vm_compute; reflexivity. Qed.

(** * Closing a container *)

Lemma tagBytes_nonempty t tagId value :
  tagValueOk t value = true -> tagBytes t tagId value <> [].
Proof.
  intros Hv. unfold tagBytes.
  destruct (packTypeData_total t) as [td Htd]. rewrite Htd.
  destruct (pckWriteTagBits_ok t td (Z.shiftl (packTypeOrd t) 4) tagId value
              Htd Hv) as [[[tag tagId'] value'] ->].
  discriminate.
Qed.

Lemma readerInv_afterNull start this stack last bytes :
  readerInv start this stack last bytes ->
  readerInv start this (afterNull stack) last bytes.
Proof.
  intros [Hat Hcase]. split; [apply readerAt_afterNull; exact Hat|].
  destruct Hcase as [[-> ->]|H]; [left|right; exact H].
  split; [reflexivity|]. destruct stack; reflexivity.
Qed.

(** The reader's state and the fuel left once a tag is skipped: every
    iteration of the loop in [pckReadTag] but the first parses a tag, which
    takes at least a byte *)
Lemma fuel_after_tag start this stack last bytes n id t value fuel :
  readerInv start this stack last bytes ->
  0 < n -> id <> 0 ->
  loadTag start = Ok (tt, withTag n id t value start) ->
  wfRead (withTag n id t value start) ->
  (Z.to_nat (bufferMax this - bufferPos this)
   + (if (tagNextId this =? 0)%Z then 1 else 2) <= S fuel)%nat ->
  (Z.to_nat (bufferMax start - (bufferPos start + n)) + 1 <= fuel)%nat.
Proof.
  intros [(Hwf & Hnext & _) Hcase] Hn Hid Hload Hwf1 Hfuel.
  destruct Hwf as (Hpos & _). destruct Hwf1 as (Hpos1 & _). simpl in Hpos1.
  destruct Hcase as [[-> _]|(this1 & Hload' & Hnz & ->)].
  - rewrite Hnext in Hfuel. simpl in Hfuel. lia.
  - rewrite Hload in Hload'. injection Hload' as <-.
    simpl in Hfuel. destruct (Z.eqb_spec id 0); [contradiction|]. lia.
Qed.

(** The loop of [pckReadTag], asked in peek mode for the ID that no field
    has, passes every field left in the container and stops at the
    terminator *)
Lemma pckReadTagLoop_skips rem : forall stack last lo start this fuel post,
  stackOk stack -> topIdLast stack <= last -> last <= lo < ID_MAX ->
  remOk lo rem ->
  readerInv start this stack last (opsBytes stack rem ++ 0 :: post) ->
  (Z.to_nat (bufferMax this - bufferPos this)
   + (if (tagNextId this =? 0)%Z then 1 else 2) <= fuel)%nat ->
  exists this',
    pckReadTagLoop fuel ID_MAX pckTypeUnknown true this = Ok (tt, this') /\
    wfRead this' /\ unread this' = post /\
    tagNextId this' = 0xFFFFFFFF /\
    tl (tagStack this') = tl (tagStack start).
Proof.
  induction rem as [|op rem IH];
    intros stack last lo start this fuel post Hst Htl Hlo Hrem Hinv Hfuel.
  - cbn [opsBytes app] in Hinv.
    destruct (loadTag_terminator start stack _ post (proj1 Hinv) eq_refl)
      as (Hl & Hwf1 & Hu1).
    set (this1 := setTagNextId 0xFFFFFFFF (advance 1 start)) in *.
    assert (Hnz : tagNextId this1 <> 0) by (simpl; lia).
    destruct (readerInv_load _ _ _ _ _ this1 Hinv Hl Hnz) as (Hload & Hstk).
    destruct fuel as [|fuel]; [destruct (tagNextId this =? 0); lia|].
    exists (withIdLast last this1). cbn [pckReadTagLoop].
    rewrite (bind_Ok _ _ _ _ _ Hload).
    split; [reflexivity|].
    split; [exact Hwf1|split; [exact Hu1|split; [reflexivity|]]].
    simpl. destruct (tagStack start); reflexivity.
  - destruct op as [f id defaultNull| | | | |]; try contradiction.
    destruct Hrem as (Hid & Hf & Hpay & Hrem). cbn [opsBytes] in Hinv.
    pose proof (stackOk_top _ Hst) as Htop.
    destruct (defaultNull && fieldIsDefault f) eqn:He.
    + apply (IH (afterNull stack) last id start this fuel post); auto.
      * apply stackOk_afterNull. exact Hst.
      * destruct stack; simpl in *; lia.
      * lia.
      * apply readerInv_afterNull. exact Hinv.
    + rewrite Hpay in Hinv. cbn [app] in Hinv. rewrite <- app_assoc in Hinv.
      pose proof (tagBytes_nonempty (fieldType f) (u32 (id - topIdLast stack - 1))
                    (fieldTagValue f) (fieldTagValue_ok f defaultNull Hf)) as Hne.
      destruct (loadTag_written (fieldType f) id (fieldTagValue f) start stack
                  _ _ (proj1 Hinv) eq_refl Hst ltac:(lia)
                  ltac:(destruct f; discriminate)
                  (fieldTagValue_ok f defaultNull Hf)) as (Hl & Hwf1 & Hu1).
      set (n := Z.of_nat (length (tagBytes (fieldType f)
                                    (u32 (id - topIdLast stack - 1))
                                    (fieldTagValue f)))) in *.
      assert (Hn : 0 < n).
      { subst n. destruct (tagBytes _ _ _); [congruence|simpl; lia]. }
      set (this1 := withTag n id (fieldType f) (fieldTagValue f) start) in *.
      assert (Hnz : tagNextId this1 <> 0) by (simpl; lia).
      destruct (readerInv_load _ _ _ _ _ this1 Hinv Hl Hnz) as (Hload & Hstk).
      destruct (readerAt_stack _ _ _ (proj1 Hinv) Hst) as (top & r & Hss & Hidl).
      rewrite Hss in Hstk. cbn [updTop] in Hstk.
      destruct fuel as [|fuel]; [destruct (tagNextId this =? 0); lia|].
      pose proof (fuel_after_tag start this stack last _ n id (fieldType f)
                    (fieldTagValue f) fuel Hinv Hn ltac:(lia) Hl Hwf1 Hfuel)
        as Hfuel'.
      assert (Hstk1 : tagStack (withIdLast last this1) = setIdLast last top :: r).
      { simpl. rewrite Hss. reflexivity. }
      destruct (IH (afterTag id stack) id id
                  (matched (withIdLast last this1) id)
                  (matched (withIdLast last this1) id) fuel post)
        as (this' & Hloop & Hwf' & Hu' & Hnext' & Htl').
      * apply stackOk_afterTag; [lia|exact Hst].
      * destruct stack; [destruct Hst; congruence|simpl; lia].
      * lia.
      * exact Hrem.
      * replace id with (topIdLast (afterTag id stack)) at 4
          by (destruct stack; [destruct Hst; congruence|reflexivity]).
        apply readerInv_start.
        split; [exact Hwf1|split; [reflexivity|split; [exact Hu1|]]].
        destruct Hinv as [(_ & _ & _ & Hsame) _].
        exact (sameFrames_afterTag id last _ _ Hsame).
      * exact Hfuel'.
      * exists this'. split; [|split; [exact Hwf'|split; [exact Hu'|split; [exact Hnext'|]]]].
        -- cbn [pckReadTagLoop].
           rewrite (bind_Ok _ _ _ _ _ Hload). rewrite bind_gets.
           change (tagNextId (withIdLast last this1)) with id.
           destruct (Z.ltb_spec ID_MAX id); [lia|].
           destruct (Z.eqb_spec ID_MAX id); [lia|].
           change (packTypeDataAt (packTypeOrd pckTypeUnknown))
             with (@ret PackRead _ (mkPackTypeData pckTypeUnknown false false false
                                      "unknown")).
           rewrite bind_ret, bind_gets. cbn [size andb when].
           rewrite bind_ret.
           rewrite (bind_Ok _ _ _ _ _
                      (setTopIdLast_withIdLast id _ _ _ Hstk1)).
           rewrite bind_modify. exact Hloop.
        -- rewrite Htl'. simpl. rewrite Hss. reflexivity.
Qed.

(** The tag that follows the fields left in a container *)
Lemma rem_next_tag rem : forall stack lo start post,
  stackOk stack -> topIdLast stack <= lo < ID_MAX -> remOk lo rem ->
  readerAt start stack (opsBytes stack rem ++ 0 :: post) ->
  exists this1,
    loadTag start = Ok (tt, this1) /\ wfRead this1 /\ tagNextId this1 <> 0.
Proof.
  induction rem as [|op rem IH]; intros stack lo start post Hst Hlo Hrem Hat.
  - cbn [opsBytes app] in Hat.
    destruct (loadTag_terminator start stack _ post Hat eq_refl)
      as (Hl & Hwf1 & _).
    eexists. split; [exact Hl|split; [exact Hwf1|discriminate]].
  - destruct op as [f id defaultNull| | | | |]; try contradiction.
    destruct Hrem as (Hid & Hf & Hpay & Hrem). cbn [opsBytes] in Hat.
    pose proof (stackOk_top _ Hst) as Htop.
    destruct (defaultNull && fieldIsDefault f) eqn:He.
    + apply (IH (afterNull stack) id start post); auto.
      * apply stackOk_afterNull. exact Hst.
      * destruct stack; simpl in *; lia.
      * apply readerAt_afterNull. exact Hat.
    + rewrite <- !app_assoc in Hat.
      destruct (loadTag_written (fieldType f) id (fieldTagValue f) start stack
                  _ _ Hat eq_refl Hst ltac:(lia)
                  ltac:(destruct f; discriminate)
                  (fieldTagValue_ok f defaultNull Hf)) as (Hl & Hwf1 & _).
      eexists. split; [exact Hl|split; [exact Hwf1|simpl; lia]].
Qed.

(** What the invariant says of the reader itself *)
Lemma readerInv_this start this stack last bytes this1 t :
  readerInv start this stack last bytes -> stackOk stack ->
  loadTag start = Ok (tt, this1) -> wfRead this1 ->
  wfRead this /\
  length (tagStack this) = length stack /\
  stackTopIs t (tagStack this) = stackTopIs t stack /\
  tl (tagStack this) = tl (tagStack start).
Proof.
  intros [(Hwf & Hnext & Hu & Hsame) Hcase] Hst Hload Hwf1.
  destruct Hcase as [[-> ->]|(this1' & Hload' & Hnz' & ->)].
  - split; [exact Hwf|]. split; [exact (sameFrames_length _ _ Hsame)|].
    split; [exact (sameFrames_topIs t _ _ Hsame)|reflexivity].
  - rewrite Hload in Hload'. injection Hload' as <-.
    destruct (keeps_loadTag _ _ _ Hload) as (Hstk & _ & _).
    split; [exact Hwf1|]. simpl. rewrite Hstk.
    rewrite <- (sameFrames_length _ _ Hsame), <- (sameFrames_topIs t _ _ Hsame).
    destruct (tagStack start); repeat split.
Qed.

(** The common part of [pckReadArrayEnd] and [pckReadObjEnd], in a
    container whose fields left are typed fields without data *)
Lemma readContainerEnd_skips stack last this rem post :
  stepsTo stack last this (opsBytes stack rem ++ 0 :: post) ->
  remOk last rem -> (2 <= length stack)%nat ->
  exists this',
    readContainerEnd this = Ok (tt, this') /\
    tagNextId this' = 0 /\ tagStack this' = tl (tagStack this) /\
    length (tagStack this) = length stack /\
    stepsTo (tl stack) (topIdLast (tl stack)) this' post.
Proof.
  intros (Hst & Hlast & start & Hinv) Hrem Hlen.
  pose proof (stackOk_top _ Hst) as Htop.
  destruct (rem_next_tag rem stack last start post Hst Hlast Hrem (proj1 Hinv))
    as (this1 & Hl & Hwf1 & Hnz).
  destruct (readerInv_this _ _ _ _ _ this1 pckTypeArray Hinv Hst Hl Hwf1)
    as (Hwf & Hlen' & _ & Htl).
  destruct (readerInv_load _ _ _ _ _ this1 Hinv Hl Hnz) as (_ & Hstk).
  destruct (readerAt_stack _ _ _ (proj1 Hinv) Hst) as (top & r & Hss & Hidl).
  rewrite Hss in Hstk. cbn [updTop] in Hstk.
  destruct (pckReadTagLoop_skips rem stack last last start this
              (pckReadTagFuel this) post Hst (proj1 Hlast)
              ltac:(lia) Hrem Hinv) as (this' & Hloop & Hwf' & Hu' & Hnext' & Htl').
  { unfold pckReadTagFuel. rewrite (wfRead_remaining _ Hwf).
    rewrite <- (unread_length _ Hwf), !Nat2Z.id.
    destruct (tagNextId this =? 0); lia. }
  exists (setTagNextId 0 (setTagStack (tl (tagStack this')) this')).
  split; [|split; [reflexivity|split; [|split; [exact Hlen'|]]]].
  - assert (Hpeek : pckReadTag ID_MAX pckTypeUnknown true this
                    = Ok ((ID_MAX, tagNextValue this'), this')).
    { unfold pckReadTag. fold (validCall pckTypeUnknown true).
      rewrite (pckReadTag_start this (setIdLast last top) r ID_MAX
                 pckTypeUnknown true eq_refl Hstk (or_intror (proj2 Hlast))).
      cbv beta. rewrite (requestedId_explicit this ID_MAX ltac:(discriminate)).
      rewrite bind_gets, (bind_Ok _ _ _ _ _ Hloop). reflexivity. }
    unfold readContainerEnd. change (0xFFFFFFFF - 1) with ID_MAX.
    rewrite (bind_Ok _ _ _ _ _ Hpeek). reflexivity.
  - simpl. rewrite Htl', Htl. reflexivity.
  - split; [apply stackOk_tl; assumption|].
    split; [pose proof (stackOk_top _ (stackOk_tl _ Hlen Hst)); lia|].
    eexists. apply readerInv_start.
    split; [exact Hwf'|split; [reflexivity|split; [exact Hu'|]]].
    simpl. rewrite Htl'. destruct Hinv as [(_ & _ & _ & Hsame) _].
    exact (sameFrames_tl _ _ Hsame).
Qed.

Lemma containerEnd_outside t message this :
  length (tagStack this) = 1%nat \/ stackTopIs t (tagStack this) = false ->
  (stack <- gets tagStack ;;
   if (Z.of_nat (length stack) =? 1) || negb (stackTopIs t stack) then
     throw (FormatError message)
   else readContainerEnd) this = Throw (FormatError message).
Proof.
  intros [H|H]; rewrite bind_gets, H; [reflexivity|].
  rewrite orb_true_r. reflexivity.
Qed.

Lemma containerEnd_inside t this :
  (2 <= length (tagStack this))%nat -> stackTopIs t (tagStack this) = true ->
  (Z.of_nat (length (tagStack this)) =? 1) || negb (stackTopIs t (tagStack this))
  = false.
Proof.
  intros Hlen ->. rewrite orb_false_r. apply Z.eqb_neq. lia.
Qed.

(** X13. [pckReadArrayEnd] throws the format error "not in array", and
    [pckReadObjEnd] "not in object", when the current frame is the
    outermost one or is not of the container's type.  Otherwise, when the
    fields left unread in the container are typed fields without data after
    their tag (no string or blob that is not empty, no nested container) at
    IDs below 0xFFFFFFFE, the call passes them all and the terminator, pops
    the frame and clears the lookahead; the reads that follow in the parent
    frame return the values written there. *)
Theorem pckReadArrayEnd_pckReadObjEnd (this : PackRead) :
  tagStack this <> [] ->
  (length (tagStack this) = 1%nat
   \/ stackTopIs pckTypeArray (tagStack this) = false ->
   pckReadArrayEnd this = Throw (FormatError "not in array")) /\
  (length (tagStack this) = 1%nat
   \/ stackTopIs pckTypeObj (tagStack this) = false ->
   pckReadObjEnd this = Throw (FormatError "not in object")) /\
  forall stack last rem post,
    stepsTo stack last this (opsBytes stack rem ++ 0 :: post) ->
    remOk last rem -> (2 <= length stack)%nat ->
    exists this',
      (stackTopIs pckTypeArray (tagStack this) = true ->
       pckReadArrayEnd this = Ok (tt, this')) /\
      (stackTopIs pckTypeObj (tagStack this) = true ->
       pckReadObjEnd this = Ok (tt, this')) /\
      tagNextId this' = 0 /\ tagStack this' = tl (tagStack this) /\
      forall ops1 ops2 post',
        post = opsBytes (tl stack) (ops1 ++ ops2) ++ 0 :: post' ->
        opsOk (tl stack) (topIdLast (tl stack)) (ops1 ++ ops2) ->
        resultOf (opsRead ops1 this') = Ok (opsValues ops1).
Proof.
  intros Hne.
  split; [apply containerEnd_outside|split; [apply containerEnd_outside|]].
  intros stack last rem post Hsteps Hrem Hlen.
  destruct (readContainerEnd_skips stack last this rem post Hsteps Hrem Hlen)
    as (this' & Hend & Hnext & Hstack & Hlen' & Hsteps').
  rewrite <- Hlen' in Hlen.
  exists this'.
  split; [|split; [|split; [exact Hnext|split; [exact Hstack|]]]].
  - intros Htop. unfold pckReadArrayEnd.
    rewrite bind_gets, (containerEnd_inside _ _ Hlen Htop). exact Hend.
  - intros Htop. unfold pckReadObjEnd.
    rewrite bind_gets, (containerEnd_inside _ _ Hlen Htop). exact Hend.
  - intros ops1 ops2 post' -> Hok.
    destruct (opsRead_written ops1 ops2 _ _ this' post' Hok Hsteps')
      as (this'' & stack'' & last'' & -> & _).
    reflexivity.
Qed.

(** An array left after [pckReadArrayBegin] with its two fields, a U32 and
    a boolean, unread; a U32 follows the array *)
Lemma pckReadArrayEnd_pckReadObjEnd_witness :
  let bytes := [16; 168; 5; 56; 0; 168; 7; 0] in
  let stack := [newFrame pckTypeArray; mkPackTagStack pckTypeObj 1 0] in
  let this := mkPackRead bytes 1 8 0 1 0 stack in
  let rem := [OpField (FU32 5 0) 1 false; OpField (FBool true false) 2 false] in
  pckReadArrayBegin 1 (pckReadNewBuf bytes) = Ok (tt, this) /\
  (tagStack this <> [] /\
   stepsTo stack 0 this (opsBytes stack rem ++ 0 :: [168; 7; 0]) /\
   remOk 0 rem /\ (2 <= length stack)%nat) /\
  pckReadArrayEnd (pckReadNewBuf bytes) = Throw (FormatError "not in array") /\
  pckReadObjEnd this = Throw (FormatError "not in object") /\
  exists this',
    pckReadArrayEnd this = Ok (tt, this') /\
    tagNextId this' = 0 /\ tagStack this' = tl (tagStack this) /\
    resultOf (opsRead [OpField (FU32 7 0) 2 false] this') = Ok [VU32 7].
Proof.
  intros bytes stack this rem.
  assert (Hne : tagStack this <> []) by discriminate.
  assert (Hsteps : stepsTo stack 0 this (opsBytes stack rem ++ 0 :: [168; 7; 0])).
  { split; [split; [discriminate|repeat constructor; simpl; unfold ID_MAX; lia]|].
    split; [simpl; unfold ID_MAX; lia|].
    exists this. split; [|left; split; reflexivity].
    split; [unfold wfRead; simpl; lia|].
    split; [reflexivity|split; [reflexivity|]].
    repeat constructor. }
  assert (Hrem : remOk 0 rem).
  { subst rem. unfold ID_MAX. simpl. repeat split; lia. }
  assert (Hlen : (2 <= length stack)%nat) by (simpl; lia).
  split; [reflexivity|]. split; [auto|].
  split.
  { apply (pckReadArrayEnd_pckReadObjEnd (pckReadNewBuf bytes));
      [discriminate|left; reflexivity]. }
  destruct (pckReadArrayEnd_pckReadObjEnd this Hne) as (_ & Hobj & Hskip).
  split; [apply Hobj; right; reflexivity|].
  destruct (Hskip stack 0 rem [168; 7; 0] Hsteps Hrem Hlen)
    as (this' & Harray & _ & Hnext & Hstack & Hreads).
  exists this'.
  split; [apply Harray; reflexivity|].
  split; [exact Hnext|split; [exact Hstack|]].
  apply (Hreads [OpField (FU32 7 0) 2 false] [] []); [reflexivity|].
  unfold ID_MAX. simpl. repeat split; lia.
Defined.

(** C7.  [pckReadArrayEnd] and [pckReadObjEnd] do not consume every field
    left unread in the frame.  The writer emits an array at id 1 that holds
    the blob 00 at id 1, and the boolean true at id 2 after the array.
    Leaving the array without having read the blob, [pckReadArrayEnd]
    passes the tag of the blob only: it looks for the end of the array with
    the type unknown, which has no size, so the length 01 is parsed as a
    tag and the payload byte 00 is taken for the terminator.  The call
    returns with the terminator of the array still unread; the read of the
    boolean meets it and reports field 2 missing.  With the blob read
    before the array is left, the boolean is returned.  The same happens
    with [pckReadObjEnd] in an object that holds the string 00. *)
Theorem pckReadArrayEnd_stops_in_payload :
  let ops :=
    [OpArrayBegin 1; OpField (FBin (Some [0x00])) 1 false; OpArrayEnd;
     OpField (FBool true false) 2 false] in
  let bytes := [0x10; 0x28; 0x01; 0x00; 0x00; 0x38; 0x00] in
  let ops' :=
    [OpObjBegin 1; OpField (FStr (Some [0x00]) None) 1 false; OpObjEnd;
     OpField (FU32 7 0) 2 false] in
  let bytes' := [0x60; 0x88; 0x01; 0x00; 0x00; 0xA8; 0x07; 0x00] in
  pckWriteAll ops = Ok bytes /\
  (pckReadArrayBegin 1 ;; pckReadArrayEnd) (pckReadNewBuf bytes)
  = Ok (tt, mkPackRead bytes 4 7 0 0 0 [mkPackTagStack pckTypeObj 1 0]) /\
  resultOf ((pckReadArrayBegin 1 ;; pckReadArrayEnd ;;
             pckReadBool 2 false false) (pckReadNewBuf bytes))
  = Throw (FormatError "field 2 does not exist") /\
  resultOf ((pckReadArrayBegin 1 ;; pckReadBin 1 false ;; pckReadArrayEnd ;;
             pckReadBool 2 false false) (pckReadNewBuf bytes))
  = Ok true /\
  pckWriteAll ops' = Ok bytes' /\
  (pckReadObjBegin 1 ;; pckReadObjEnd) (pckReadNewBuf bytes')
  = Ok (tt, mkPackRead bytes' 4 8 0 0 0 [mkPackTagStack pckTypeObj 1 0]) /\
  resultOf ((pckReadObjBegin 1 ;; pckReadObjEnd ;;
             pckReadU32 2 false 0) (pckReadNewBuf bytes'))
  = Throw (FormatError "field 2 does not exist") /\
  resultOf ((pckReadObjBegin 1 ;; pckReadStr 1 false None ;; pckReadObjEnd ;;
             pckReadU32 2 false 0) (pckReadNewBuf bytes'))
  = Ok 7.
Proof. repeat split; vm_compute; reflexivity. Qed.

(** * Peeking with [pckReadNull] *)

Lemma pckReadNull_next this this1 id :
  tagStack this <> [] ->
  id = 0 \/ topIdLast (tagStack this) < id ->
  loadTag this = Ok (tt, this1) ->
  requestedId (tagStack this) id <= tagNextId this1 ->
  pckReadNull id this
  = Ok (requestedId (tagStack this) id <? tagNextId this1, this1) /\
  tagStack this1 = tagStack this /\
  (tagNextId this <> 0 -> this1 = this).
Proof.
  intros Hne Hid Hload Hle.
  destruct (tagStack this) as [|top rest] eqn:Hstack; [congruence|].
  rewrite <- Hstack in *. split; [|split].
  - unfold pckReadNull.
    rewrite (bind_Ok _ _ _ _ _
               (pckReadNullInternal_peek this this1 top rest id Hstack
                  ltac:(rewrite Hstack in Hid; exact Hid) Hload Hle)).
    reflexivity.
  - rewrite Hstack. exact (loadTag_stack this this1 top rest Hstack Hload).
  - intros Hnz. rewrite (loadTag_loaded this Hnz) in Hload. congruence.
Qed.

(** Asked for a field that the writer elided, after the calls before it
    are read *)
Lemma pckReadNull_after stack last this f k post rest :
  stepsTo stack last this (opsBytes stack (OpField f k true :: post) ++ 0 :: rest) ->
  opsOk stack last (OpField f k true :: post) ->
  fieldIsDefault f = true ->
  resultOf (pckReadNull k this) = Ok true.
Proof.
  intros (Hst & Hlast & start & Hinv) (Hid & Hf & Hok) Hdef.
  cbn [opsBytes] in Hinv. rewrite Hdef in Hinv, Hok. cbn [andb] in Hinv, Hok.
  pose proof (stackOk_top _ Hst) as Htop.
  destruct (next_tag_above post (afterNull stack) k start rest Hok
              (stackOk_afterNull _ Hst)
              ltac:(destruct stack; simpl in *; lia)
              (readerAt_afterNull _ _ _ (proj1 Hinv))) as (this1 & Hl & Hlt).
  assert (Hnz : tagNextId this1 <> 0) by lia.
  destruct (readerInv_load _ _ _ _ _ this1 Hinv Hl Hnz) as (Hload & Hstk).
  destruct (readerAt_stack _ _ _ (proj1 Hinv) Hst) as (top & r & Hss & Hidl).
  rewrite Hss in Hstk. cbn [updTop] in Hstk.
  pose proof (pckReadNullInternal_peek this (withIdLast last this1)
                (setIdLast last top) r k Hstk (or_intror (proj1 Hid)) Hload)
    as Hpeek.
  rewrite (requestedId_explicit this k ltac:(lia)) in Hpeek.
  change (tagNextId (withIdLast last this1)) with (tagNextId this1) in Hpeek.
  unfold pckReadNull. rewrite (bind_Ok _ _ _ _ _ (Hpeek ltac:(lia))).
  cbn [snd]. unfold ret, resultOf.
  destruct (Z.ltb_spec k (tagNextId this1)); [reflexivity|lia].
Qed.

(** C6. [pckReadNull(k)], with k = 0 for the ID after the frame's last,
    asked for an ID above the frame's [idLast] when the next tag has an ID
    that is not below it, returns true if and only if k is less than the ID
    of the next tag.  No field is consumed: the tag stack, and so the
    frame's [idLast], is unchanged, and the reader after the call is the
    reader with the next tag parsed into the lookahead, which is the reader
    before the call when the lookahead was loaded.  It returns true for a
    field that the writer elided with [defaultNull], once the calls made
    before it are read back. *)
Theorem pckReadNull_peeks :
  (forall this this1 id,
     tagStack this <> [] ->
     id = 0 \/ topIdLast (tagStack this) < id ->
     loadTag this = Ok (tt, this1) ->
     requestedId (tagStack this) id <= tagNextId this1 ->
     pckReadNull id this
     = Ok (requestedId (tagStack this) id <? tagNextId this1, this1) /\
     tagStack this1 = tagStack this /\
     (tagNextId this <> 0 -> this1 = this)) /\
  (forall pre f k post bytes,
     opsOk [newFrame pckTypeObj] 0 (pre ++ OpField f k true :: post) ->
     fieldIsDefault f = true ->
     pckWriteAll (pre ++ OpField f k true :: post) = Ok bytes ->
     Z.of_nat (length bytes) < 18446744073709551616 ->
     exists this',
       opsRead pre (pckReadNewBuf bytes) = Ok (opsValues pre, this') /\
       resultOf (pckReadNull k this') = Ok true).
Proof.
  split; [exact pckReadNull_next|].
  intros pre f k post bytes Hok Hdef Hwrite Hlen.
  rewrite (pckWriteAll_bytes _ Hok) in Hwrite. injection Hwrite as <-.
  destruct (opsRead_written pre (OpField f k true :: post)
              [newFrame pckTypeObj] 0
              (pckReadNewBuf (opsBytes [newFrame pckTypeObj]
                                (pre ++ OpField f k true :: post) ++ [0])) []
              Hok (stepsTo_new _ Hlen))
    as (this' & stack' & last' & Hread & Hok' & Hsteps').
  exists this'. split; [exact Hread|].
  exact (pckReadNull_after stack' last' this' f k post [] Hsteps' Hok' Hdef).
Qed.

(** The pack of the U32 99 at id 5, asked for the IDs 3 (absent) and 5
    (present) before and after the tag is parsed; the pack of a U32, an
    elided string at id 2 and a boolean, asked for the string *)
Lemma pckReadNull_peeks_witness :
  let this := pckReadNewBuf [0xAC; 0x01; 0x63; 0x00] in
  let this1 := mkPackRead [0xAC; 0x01; 0x63; 0x00] 3 4 5 10 99
                 [mkPackTagStack pckTypeObj 0 0] in
  let pre := [OpField (FU32 7 0) 1 false] in
  let post := [OpField (FBool true false) 3 false] in
  let bytes := [168; 7; 57; 0] in
  (tagStack this <> [] /\ loadTag this = Ok (tt, this1) /\
   loadTag this1 = Ok (tt, this1) /\
   opsOk [newFrame pckTypeObj] 0 (pre ++ OpField (FStr None None) 2 true :: post) /\
   pckWriteAll (pre ++ OpField (FStr None None) 2 true :: post) = Ok bytes) /\
  pckReadNull 3 this = Ok (true, this1) /\
  pckReadNull 5 this = Ok (false, this1) /\
  pckReadNull 3 this1 = Ok (true, this1) /\
  exists this',
    opsRead pre (pckReadNewBuf bytes) = Ok ([VU32 7], this') /\
    resultOf (pckReadNull 2 this') = Ok true.
Proof.
  intros this this1 pre post bytes.
  assert (H1 : tagStack this <> []) by discriminate.
  assert (H1' : tagStack this1 <> []) by discriminate.
  assert (H2 : loadTag this = Ok (tt, this1)) by reflexivity.
  assert (H2' : loadTag this1 = Ok (tt, this1)) by reflexivity.
  assert (H3 : opsOk [newFrame pckTypeObj] 0
                 (pre ++ OpField (FStr None None) 2 true :: post)).
  { subst pre post. unfold ID_MAX. simpl. repeat split; lia. }
  assert (H4 : pckWriteAll (pre ++ OpField (FStr None None) 2 true :: post)
               = Ok bytes) by reflexivity.
  split; [auto 6|].
  destruct pckReadNull_peeks as [Hpeek Helided].
  split.
  { apply (Hpeek this this1 3 H1); [right; simpl; lia|exact H2|].
    unfold requestedId. simpl. lia. }
  split.
  { apply (Hpeek this this1 5 H1); [right; simpl; lia|exact H2|].
    unfold requestedId. simpl. lia. }
  split.
  { apply (Hpeek this1 this1 3 H1'); [right; simpl; lia|exact H2'|].
    unfold requestedId. simpl. lia. }
  apply (Helided pre (FStr None None) 2 post bytes H3 eq_refl H4).
  simpl. lia.
Defined.

(** Asked for an ID above that of the next tag, [pckReadNull] passes the
    tag: on the pack of the U32 7 at id 1 and the U32 99 at id 5, the call
    for id 3 leaves the frame's [idLast] at 1 and the position after the
    tag of field 5; field 1, which a read would have returned before the
    call, counts as read after it.  Asked for id 1 on a new reader, it
    moves the position past the tag it parses. *)
Lemma pckReadNull_consumes :
  let this := pckReadNewBuf [168; 7; 171; 99; 0] in
  resultOf (pckReadU32 1 false 0 this) = Ok 7 /\
  (exists this',
     pckReadNull 3 this = Ok (true, this') /\
     bufferPos this' = 4 /\ tagNextId this' = 5 /\
     topIdLast (tagStack this') = 1 /\
     pckReadU32 1 false 0 this'
     = Throw (FormatError "field 1 was already read")) /\
  (exists this',
     pckReadNull 1 this = Ok (false, this') /\
     bufferPos this = 0 /\ bufferPos this' = 2 /\
     tagNextId this = 0 /\ tagNextId this' = 1).
Proof.
  intros this. split; [reflexivity|].
  split; eexists; (split; [vm_compute; reflexivity|]); repeat split.
Qed.

(** * The loop bounds of the model are never reached *)

Lemma progresses_ret {A : Type} (a : A) : progresses (ret a).
Proof.
  intros s H. unfold progressAt, ret.
  split; [exact H|split; [lia|reflexivity]].
Qed.

Lemma progresses_throw {A : Type} e :
  e <> OutOfFuel -> progresses (@throw PackRead A e).
Proof. intros He s H. exact He. Qed.

Lemma progresses_gets {A : Type} (f : PackRead -> A) : progresses (gets f).
Proof.
  intros s H. unfold progressAt, gets.
  split; [exact H|split; [lia|reflexivity]].
Qed.

Lemma progresses_bind {A B : Type} (m : Rd A) (k : A -> Rd B) :
  progresses m -> (forall a, progresses (k a)) -> progresses (bind m k).
Proof.
  intros Hm Hk s H. specialize (Hm s H). unfold progressAt, bind in *.
  destruct (m s) as [[a s1]|e]; [|exact Hm].
  destruct Hm as (H1 & H2 & H3). specialize (Hk a s1 H1).
  unfold progressAt in Hk.
  destruct (k a s1) as [[b s2]|e]; [|exact Hk].
  destruct Hk as (H4 & H5 & H6).
  split; [exact H4|split; [lia|congruence]].
Qed.

Lemma consumes_progresses {A : Type} (m : Rd A) : consumes m -> progresses m.
Proof.
  intros Hm s H. specialize (Hm s H). unfold progressAt.
  destruct (m s) as [[a s1]|e]; [|exact Hm].
  destruct Hm as (H1 & H2 & H3). split; [exact H1|split; [lia|exact H3]].
Qed.

Lemma consumes_bind {A B : Type} (m : Rd A) (k : A -> Rd B) :
  consumes m -> (forall a, progresses (k a)) -> consumes (bind m k).
Proof.
  intros Hm Hk s H. unfold bind. specialize (Hm s H).
  destruct (m s) as [[a s1]|e]; [|exact Hm].
  destruct Hm as (H1 & H2 & H3). specialize (Hk a s1 H1).
  unfold progressAt in Hk.
  destruct (k a s1) as [[b s2]|e]; [|exact Hk].
  destruct Hk as (H4 & H5 & H6).
  split; [exact H4|split; [lia|congruence]].
Qed.

Lemma progresses_modify (f : PackRead -> PackRead) :
  (forall s, bufferPtr (f s) = bufferPtr s /\ bufferPos (f s) = bufferPos s
             /\ bufferMax (f s) = bufferMax s) ->
  progresses (modify f).
Proof.
  intros Hf s (H1 & H2 & H3). destruct (Hf s) as (E1 & E2 & E3).
  unfold progressAt, modify.
  split; [unfold wfRead; rewrite E1, E2, E3; auto|split; [lia|exact E3]].
Qed.

Lemma progresses_if {A : Type} (c : bool) (m1 m2 : Rd A) :
  progresses m1 -> progresses m2 -> progresses (if c then m1 else m2).
Proof. destruct c; auto. Qed.

Lemma progresses_when (c : bool) (m : Rd unit) :
  progresses m -> progresses (when c m).
Proof.
  intros H. unfold when. apply progresses_if; [exact H|apply progresses_ret].
Qed.

Lemma progresses_packTypeDataAt idx : progresses (packTypeDataAt idx).
Proof.
  unfold packTypeDataAt. destruct (nth_error packTypeData (Z.to_nat idx));
    [apply progresses_ret|apply progresses_throw; discriminate].
Qed.

Lemma progresses_topOf {A : Type} (f : PackTagStack -> A) :
  progresses (topOf tagStack f).
Proof.
  intros s H. unfold progressAt, topOf. destruct (tagStack s); [discriminate|].
  split; [exact H|split; [lia|reflexivity]].
Qed.

Lemma progresses_setTopIdLast v : progresses (setTopIdLast v).
Proof.
  intros s H. unfold progressAt, setTopIdLast.
  destruct (tagStack s); [discriminate|].
  split; [exact H|split; [simpl; lia|reflexivity]].
Qed.

(** What [pckReadBuffer] returns: the size asked for, or what is left when
    that is less *)
Lemma pckReadBuffer_result sz s :
  wfRead s ->
  match pckReadBuffer sz s with
  | Ok (n, s') =>
      s' = s /\ n <= bufferMax s - bufferPos s /\
      (n = sz \/ 1 <= n /\ n = bufferMax s - bufferPos s /\ n < sz)
  | Throw e => e <> OutOfFuel
  end.
Proof.
  intros H. unfold pckReadBuffer.
  rewrite (wfRead_remaining _ H), (unread_length _ H).
  destruct (Z.ltb_spec (bufferMax s - bufferPos s) sz).
  - destruct (Z.ltb_spec (bufferMax s - bufferPos s) 1); [discriminate|].
    split; [reflexivity|split; [lia|right; lia]].
  - split; [reflexivity|split; [lia|left; reflexivity]].
Qed.

Lemma progresses_pckReadBuffer sz : progresses (pckReadBuffer sz).
Proof.
  intros s H. pose proof (pckReadBuffer_result sz s H) as Hb.
  unfold progressAt.
  destruct (pckReadBuffer sz s) as [[n s1]|e]; [|exact Hb].
  destruct Hb as (-> & _). split; [exact H|split; [lia|reflexivity]].
Qed.

Lemma bufferPosAdd_within n s :
  wfRead s -> 0 <= n <= bufferMax s - bufferPos s ->
  bufferPosAdd n s = Ok (tt, advance n s) /\ wfRead (advance n s).
Proof.
  intros H Hn. rewrite <- (unread_length _ H) in Hn.
  split; [apply bufferPosAdd_advance|apply advance_wf]; assumption.
Qed.

Lemma lor_u64_range a b :
  0 <= a < 18446744073709551616 ->
  0 <= Z.lor a (u64 b) < 18446744073709551616.
Proof.
  intros Ha. rewrite <- (u64_small a Ha), <- u64_lor. apply u64_range.
Qed.

(** The loop of [pckReadUInt64Internal]: when it ends on a byte below
    0x80, that byte is still to be passed *)
Lemma pckReadUInt64Loop_progress count : forall bufferIdx result byte s,
  wfRead s -> 0 <= result < 18446744073709551616 ->
  match pckReadUInt64Loop count bufferIdx result byte s with
  | Ok (rb, s') =>
      wfRead s' /\ bufferPos s <= bufferPos s' /\ bufferMax s' = bufferMax s /\
      0 <= fst rb < 18446744073709551616 /\
      (count <> 0%nat -> snd rb < 0x80 -> bufferPos s' < bufferMax s')
  | Throw e => e <> OutOfFuel
  end.
Proof.
  induction count as [|count IH]; intros bufferIdx result byte s H Hr.
  - simpl. unfold ret.
    split; [exact H|split; [lia|split; [reflexivity|split; [exact Hr|]]]].
    intros Hc. congruence.
  - cbn [pckReadUInt64Loop]. unfold bind at 1.
    pose proof (pckReadBuffer_result 1 s H) as Hb.
    destruct (pckReadBuffer 1 s) as [[n s1]|e]; [|exact Hb].
    destruct Hb as (-> & Hn & Hcase).
    assert (Hrem : 1 <= bufferMax s - bufferPos s) by lia.
    unfold bufferByte. rewrite bind_gets.
    set (b := nth (Z.to_nat (bufferPos s)) (bufferPtr s) 0).
    pose proof (lor_u64_range result (Z.shiftl (Z.land b 0x7f) (7 * bufferIdx)) Hr)
      as Hr'.
    destruct (Z.ltb_spec b 0x80) as [Hlt|Hge].
    + unfold ret.
      split; [exact H|split; [lia|split; [reflexivity|split; [exact Hr'|]]]].
      intros _ _. lia.
    + destruct (bufferPosAdd_within 1 s H ltac:(lia)) as [Hadd Hwf1].
      rewrite (bind_Ok _ _ _ _ _ Hadd).
      specialize (IH (bufferIdx + 1) _ b (advance 1 s) Hwf1 Hr').
      destruct count as [|count].
      * simpl. unfold ret.
        split; [exact Hwf1|split; [simpl; lia|split; [reflexivity|split; [exact Hr'|]]]].
        simpl. intros _ Hsnd. lia.
      * destruct (pckReadUInt64Loop (S count) _ _ _ _) as [[rb s']|e]; [|exact IH].
        destruct IH as (Hwf' & Hpos & Hmax & Hrange & Hlast).
        simpl in Hpos, Hmax.
        split; [exact Hwf'|split; [lia|split; [exact Hmax|split; [exact Hrange|]]]].
        intros _. apply Hlast. discriminate.
Qed.

(** A varint read takes at least one byte and returns a 64-bit value *)
Lemma pckReadUInt64Internal_progress s :
  wfRead s ->
  match pckReadUInt64Internal s with
  | Ok (r, s') =>
      wfRead s' /\ bufferPos s < bufferPos s' /\ bufferMax s' = bufferMax s /\
      0 <= r < 18446744073709551616
  | Throw e => e <> OutOfFuel
  end.
Proof.
  intros H. unfold pckReadUInt64Internal. unfold bind at 1.
  pose proof (pckReadUInt64Loop_progress PACK_UINT64_SIZE_MAX 0 0 0 s H
                ltac:(lia)) as Hl.
  destruct (pckReadUInt64Loop _ _ _ _ _) as [[[r b] s1]|e]; [|exact Hl].
  destruct Hl as (Hwf1 & Hpos & Hmax & Hr & Hlast). cbn [fst snd] in *.
  destruct (Z.leb_spec 0x80 b) as [Hge|Hlt]; [discriminate|].
  specialize (Hlast ltac:(discriminate) Hlt).
  destruct (bufferPosAdd_within 1 s1 Hwf1 ltac:(lia)) as [Hadd Hwf2].
  rewrite (bind_Ok _ _ _ _ _ Hadd). unfold ret.
  split; [exact Hwf2|split; [simpl; lia|split; [exact Hmax|exact Hr]]].
Qed.

Lemma consumes_pckReadUInt64Internal : consumes pckReadUInt64Internal.
Proof.
  intros s H. pose proof (pckReadUInt64Internal_progress s H) as Hp.
  destruct (pckReadUInt64Internal s) as [[r s']|e]; [|exact Hp].
  destruct Hp as (H1 & H2 & H3 & _). auto.
Qed.

Create HintDb fuel.
#[local] Hint Resolve progresses_ret progresses_gets progresses_pckReadBuffer
  progresses_packTypeDataAt progresses_topOf progresses_setTopIdLast : fuel.
#[local] Hint Extern 1 (progresses (throw _)) =>
  apply progresses_throw; discriminate : fuel.
#[local] Hint Extern 1 (progresses pckReadUInt64Internal) =>
  apply consumes_progresses; apply consumes_pckReadUInt64Internal : fuel.

Ltac fuel_step :=
  first [ solve [auto with fuel]
        | apply progresses_bind; [|intros ?]
        | apply progresses_if
        | apply progresses_when
        | apply progresses_modify; intros ?; repeat split ].

Lemma progresses_readIdDelta tag flag shift :
  progresses (readIdDelta tag flag shift).
Proof. unfold readIdDelta, orTagNextId. repeat fuel_step. Qed.

#[local] Hint Resolve progresses_readIdDelta : fuel.

(** Parsing a tag takes at least the tag byte *)
Lemma consumes_pckReadTagNext : consumes pckReadTagNext.
Proof.
  intros s H. unfold pckReadTagNext. unfold bind at 1.
  pose proof (pckReadBuffer_result 1 s H) as Hb.
  destruct (pckReadBuffer 1 s) as [[n s1]|e]; [|exact Hb].
  destruct Hb as (-> & Hn & Hcase).
  unfold bufferByte. rewrite bind_gets.
  destruct (bufferPosAdd_within 1 s H ltac:(lia)) as [Hadd Hwf1].
  rewrite (bind_Ok _ _ _ _ _ Hadd).
  set (tag := nth (Z.to_nat (bufferPos s)) (bufferPtr s) 0).
  match goal with
  | |- match ?m (advance 1 s) with _ => _ end =>
      assert (Hk : progresses m) by repeat fuel_step;
      specialize (Hk (advance 1 s) Hwf1); unfold progressAt in Hk;
      destruct (m (advance 1 s)) as [[a s']|e]; [|exact Hk]
  end.
  destruct Hk as (H1 & H2 & H3). simpl in H2, H3.
  split; [exact H1|split; [lia|exact H3]].
Qed.

#[local] Hint Extern 1 (progresses pckReadTagNext) =>
  apply consumes_progresses; apply consumes_pckReadTagNext : fuel.

Lemma progresses_loadTag : progresses loadTag.
Proof. unfold loadTag. repeat fuel_step. Qed.

#[local] Hint Resolve progresses_loadTag : fuel.

(** Sequencing at one state, with what the first action returned *)
Lemma progressAt_bind {A B : Type} (m : Rd A) (k : A -> Rd B) s :
  progressAt m s ->
  (forall a s1, m s = Ok (a, s1) -> wfRead s1 -> progressAt (k a) s1) ->
  progressAt (bind m k) s.
Proof.
  intros Hm Hk. unfold progressAt, bind in *.
  destruct (m s) as [[a s1]|e]; [|exact Hm].
  destruct Hm as (H1 & H2 & H3). specialize (Hk a s1 eq_refl H1).
  destruct (k a s1) as [[b s2]|e]; [|exact Hk].
  destruct Hk as (H4 & H5 & H6).
  split; [exact H4|split; [lia|congruence]].
Qed.

(** After a short read nothing is left, and the next read fails *)
Lemma pckReadBuffer_at_end {A : Type} sz (k : Z -> Rd A) s :
  wfRead s -> bufferPos s = bufferMax s -> 0 < sz ->
  progressAt (bind (pckReadBuffer sz) k) s.
Proof.
  intros H Hend Hsz. unfold progressAt, bind.
  pose proof (pckReadBuffer_result sz s H) as Hb.
  destruct (pckReadBuffer sz s) as [[n s1]|e]; [|exact Hb].
  destruct Hb as (_ & Hn & Hcase). lia.
Qed.

Lemma progressAt_bufferPosAdd n s :
  wfRead s -> 0 <= n <= bufferMax s - bufferPos s ->
  progressAt (bufferPosAdd n) s.
Proof.
  intros H Hn. destruct (bufferPosAdd_within n s H Hn) as [Hadd Hwf1].
  unfold progressAt. rewrite Hadd.
  split; [exact Hwf1|split; [simpl; lia|reflexivity]].
Qed.

(** The loop that skips the data of a field makes at most two iterations *)
Lemma progresses_pckReadSkip sizeExpected :
  0 <= sizeExpected -> progresses (pckReadSkip 2 sizeExpected).
Proof.
  intros Hs s H. cbn [pckReadSkip].
  destruct (Z.eqb_spec sizeExpected 0) as [Hz|Hnz0];
    [apply progresses_ret; exact H|].
  apply progressAt_bind; [apply progresses_pckReadBuffer; exact H|].
  intros n s1 Hread _.
  pose proof (pckReadBuffer_result sizeExpected s H) as Hb.
  rewrite Hread in Hb. destruct Hb as (-> & Hn & Hcase).
  apply progressAt_bind; [apply progressAt_bufferPosAdd; [exact H|lia]|].
  intros [] s2 Hadd Hwf2.
  destruct (bufferPosAdd_within n s H ltac:(lia)) as [Hadd' _].
  rewrite Hadd' in Hadd. injection Hadd as <-.
  destruct (Z.eqb_spec (u64 (sizeExpected - n)) 0) as [|Hnz];
    [apply progresses_ret; exact Hwf2|].
  destruct Hcase as [->|(Hn1 & Hrem & Hlt)];
    [rewrite Z.sub_diag in Hnz; contradiction|].
  apply pckReadBuffer_at_end; [exact Hwf2|simpl; lia|].
  pose proof (u64_range (sizeExpected - n)). lia.
Qed.

Lemma bufferBytes_length n s :
  wfRead s -> 0 <= n <= bufferMax s - bufferPos s ->
  exists bytes, bufferBytes n s = Ok (bytes, s) /\ Z.of_nat (length bytes) = n.
Proof.
  intros H Hn. eexists. split; [reflexivity|].
  rewrite length_firstn. fold (unread s).
  pose proof (unread_length s H). lia.
Qed.

(** The loops that collect the data of a blob or string make at most two
    iterations *)
Lemma progresses_pckReadData sizeExpected :
  0 <= sizeExpected < 18446744073709551616 ->
  progresses (pckReadData 2 sizeExpected []).
Proof.
  intros Hs s H. cbn [pckReadData length Z.of_nat].
  destruct (Z.eqb_spec 0 sizeExpected) as [Hz|Hnz0];
    [apply progresses_ret; exact H|].
  rewrite Z.sub_0_r, (u64_small _ Hs).
  apply progressAt_bind; [apply progresses_pckReadBuffer; exact H|].
  intros n s1 Hread _.
  pose proof (pckReadBuffer_result sizeExpected s H) as Hb.
  rewrite Hread in Hb. destruct Hb as (-> & Hn & Hcase).
  assert (Hn0 : 0 <= n) by lia.
  destruct (bufferBytes_length n s H ltac:(lia)) as (bytes & Hbytes & Hlen).
  apply progressAt_bind;
    [unfold progressAt; rewrite Hbytes; split; [exact H|split; [lia|reflexivity]]|].
  intros bytes' s1 Hbytes' _. rewrite Hbytes in Hbytes'.
  injection Hbytes' as <- <-.
  apply progressAt_bind; [apply progressAt_bufferPosAdd; [exact H|lia]|].
  intros [] s2 Hadd Hwf2.
  destruct (bufferPosAdd_within n s H ltac:(lia)) as [Hadd' _].
  rewrite Hadd' in Hadd. injection Hadd as <-.
  cbn [app]. rewrite Hlen.
  destruct (Z.eqb_spec n sizeExpected) as [|Hne];
    [apply progresses_ret; exact Hwf2|].
  destruct Hcase as [->|(Hn1 & Hrem & Hlt)]; [contradiction|].
  apply pckReadBuffer_at_end; [exact Hwf2|simpl; lia|].
  rewrite u64_small by lia. lia.
Qed.

(** What follows a varint read may rely on a 64-bit value *)
Lemma progresses_bind_varint {B : Type} (k : Z -> Rd B) :
  (forall v, 0 <= v < 18446744073709551616 -> progresses (k v)) ->
  progresses (bind pckReadUInt64Internal k).
Proof.
  intros Hk s H. pose proof (pckReadUInt64Internal_progress s H) as Hv.
  apply progressAt_bind.
  - unfold progressAt. destruct (pckReadUInt64Internal s) as [[v s1]|e];
      [|exact Hv].
    destruct Hv as (H1 & H2 & H3 & _). split; [exact H1|split; [lia|exact H3]].
  - intros v s1 Hread Hwf1. rewrite Hread in Hv.
    apply Hk; [apply Hv|exact Hwf1].
Qed.

Lemma progressAt_gets {A B : Type} (f : PackRead -> A) (k : A -> Rd B) s :
  progressAt (k (f s)) s -> progressAt (bind (gets f) k) s.
Proof. intros H. exact H. Qed.

Lemma packTypeDataAt_state idx (s : PackRead) td s' :
  packTypeDataAt idx s = Ok (td, s') -> s' = s.
Proof.
  unfold packTypeDataAt. destruct (nth_error packTypeData (Z.to_nat idx));
    [|discriminate].
  intros H. injection H as _ <-. reflexivity.
Qed.

(** Loading the lookahead takes at least a byte when it is empty *)
Lemma loadTag_progress s :
  wfRead s ->
  match loadTag s with
  | Ok (_, s1) =>
      wfRead s1 /\ bufferMax s1 = bufferMax s /\
      (if tagNextId s =? 0 then bufferPos s < bufferPos s1 else s1 = s)
  | Throw e => e <> OutOfFuel
  end.
Proof.
  intros H. unfold loadTag. rewrite bind_gets.
  destruct (tagNextId s =? 0); cbn [when].
  - pose proof (consumes_pckReadTagNext s H) as Hn. unfold bind.
    destruct (pckReadTagNext s) as [[b s1]|e]; [|exact Hn].
    destruct Hn as (H1 & H2 & H3). unfold ret. auto.
  - unfold ret. auto.
Qed.

Ltac fuel_at H :=
  match goal with
  | |- progressAt ?m ?s =>
      let Hp := fresh "Hp" in
      assert (Hp : progresses m) by (repeat fuel_step); exact (Hp s H)
  end.

(** The loop of [pckReadTag]: the fuel that [pckReadTagFuel] gives is not
    exhausted, every iteration but the first taking at least a byte *)
Lemma pckReadTagLoop_progress fuel : forall id type peek s,
  wfRead s ->
  (Z.to_nat (bufferMax s - bufferPos s)
   + (if (tagNextId s =? 0)%Z then 1 else 2) <= fuel)%nat ->
  progressAt (pckReadTagLoop fuel id type peek) s.
Proof.
  induction fuel as [|fuel IH]; intros id type peek s H Hfuel.
  - destruct (tagNextId s =? 0); lia.
  - cbn [pckReadTagLoop].
    apply progressAt_bind; [apply progresses_loadTag; exact H|].
    intros [] s1 Hload Hwf1.
    pose proof (loadTag_progress s H) as Hl. rewrite Hload in Hl.
    destruct Hl as (_ & Hmax1 & Hpos1).
    apply progressAt_gets.
    destruct (id <? tagNextId s1); [fuel_at Hwf1|].
    destruct (id =? tagNextId s1); [fuel_at Hwf1|].
    apply progressAt_bind; [apply progresses_packTypeDataAt; exact Hwf1|].
    intros td s2 Htd _. apply packTypeDataAt_state in Htd. subst s2.
    apply progressAt_gets.
    assert (Hskip : progresses
                      (when (size td && negb (tagNextValue s1 =? 0))
                         (sizeExpected <- pckReadUInt64Internal ;;
                          pckReadSkip 2 sizeExpected))).
    { apply progresses_when, progresses_bind_varint.
      intros v Hv. apply progresses_pckReadSkip. lia. }
    apply progressAt_bind; [exact (Hskip s1 Hwf1)|].
    intros [] s3 Hwhen Hwf3.
    pose proof (Hskip s1 Hwf1) as Hp. unfold progressAt in Hp.
    rewrite Hwhen in Hp. destruct Hp as (_ & Hpos3 & Hmax3).
    apply progressAt_bind; [apply progresses_setTopIdLast; exact Hwf3|].
    intros [] s4 Hset Hwf4.
    assert (Hbuf4 : bufferPos s4 = bufferPos s3 /\ bufferMax s4 = bufferMax s3).
    { unfold setTopIdLast in Hset. destruct (tagStack s3); [discriminate|].
      injection Hset as <-. split; reflexivity. }
    apply progressAt_bind;
      [apply progresses_modify; [intros ?; repeat split|exact Hwf4]|].
    intros [] s5 Hmod Hwf5. injection Hmod as <-.
    apply IH; [exact Hwf5|]. simpl.
    destruct Hwf5 as (Hr5 & _). simpl in Hr5.
    destruct (tagNextId s =? 0); [|subst s1]; lia.
Qed.

Lemma progresses_pckReadTag id type peek : progresses (pckReadTag id type peek).
Proof.
  unfold pckReadTag, assert.
  apply progresses_bind; [repeat fuel_step|intros _].
  apply progresses_bind; [repeat fuel_step|intros last].
  apply progresses_bind; [repeat fuel_step|intros id'].
  intros s H. apply progressAt_gets.
  apply progressAt_bind.
  - apply pckReadTagLoop_progress; [exact H|].
    unfold pckReadTagFuel. rewrite (wfRead_remaining _ H).
    rewrite <- (unread_length _ H), !Nat2Z.id.
    destruct (tagNextId s =? 0); lia.
  - intros [] s1 _ Hwf1. fuel_at Hwf1.
Qed.

#[local] Hint Resolve progresses_pckReadTag : fuel.

Lemma progresses_pckReadDefaultNull defaultNull id :
  progresses (pckReadDefaultNull defaultNull id).
Proof.
  unfold pckReadDefaultNull, pckReadNullInternal. repeat fuel_step.
Qed.

#[local] Hint Resolve progresses_pckReadDefaultNull : fuel.

Lemma progresses_readData {B : Type} (k : list Z -> Rd B) :
  (forall result, progresses (k result)) ->
  progresses (sizeExpected <- pckReadUInt64Internal ;;
              result <- pckReadData 2 sizeExpected [] ;;
              k result).
Proof.
  intros Hk. apply progresses_bind_varint. intros v Hv.
  apply progresses_bind; [apply progresses_pckReadData; exact Hv|exact Hk].
Qed.

Lemma progresses_fieldRead f id defaultNull :
  progresses (fieldRead f id defaultNull).
Proof.
  destruct f; unfold fieldRead, pckReadBin, pckReadBool, pckReadI32,
    pckReadI64, pckReadPtr, pckReadStr, pckReadTime, pckReadU32, pckReadU64;
    repeat first [ apply progresses_readData; intros ? | fuel_step ].
Qed.

Lemma progresses_readContainer :
  (forall id, progresses (pckReadArrayBegin id)) /\
  (forall id, progresses (pckReadObjBegin id)) /\
  progresses pckReadArrayEnd /\ progresses pckReadObjEnd /\
  (forall id, progresses (pckReadNull id)).
Proof.
  unfold pckReadArrayBegin, pckReadObjBegin, pckReadArrayEnd, pckReadObjEnd,
    readContainerEnd, readPush, pckReadNull, pckReadNullInternal.
  repeat split; try intros id; repeat fuel_step.
Qed.

Lemma progresses_opsRead ops : progresses (opsRead ops).
Proof.
  destruct progresses_readContainer as (Hab & Hob & Hae & Hoe & _).
  induction ops as [|op ops IH]; cbn [opsRead]; [apply progresses_ret|].
  apply progresses_bind; [|intros vs; repeat fuel_step].
  destruct op; cbn [opRead]; repeat fuel_step; auto using progresses_fieldRead.
Qed.

Lemma wfRead_new bytes :
  Z.of_nat (length bytes) < 18446744073709551616 -> wfRead (pckReadNewBuf bytes).
Proof. intros H. unfold wfRead. simpl. lia. Qed.

(** Whatever the bytes of the buffer and whatever the calls made, in any
    order and at any IDs, the bounds put on the loops of the reads are not
    reached. *)
Theorem reader_loops_bounded (bytes : list Z) (ops : list Op) :
  Z.of_nat (length bytes) < 18446744073709551616 ->
  opsRead ops (pckReadNewBuf bytes) <> Throw OutOfFuel.
Proof.
  intros Hlen Hthrow.
  pose proof (progresses_opsRead ops _ (wfRead_new bytes Hlen)) as H.
  unfold progressAt in H. rewrite Hthrow in H. apply H. reflexivity.
Qed.

(** * Errors of the reader and of the writer *)

Lemma packTypeOrd_inj t t' : packTypeOrd t = packTypeOrd t' -> t = t'.
Proof. destruct t, t'; simpl; intros H; try reflexivity; discriminate. Qed.

Lemma packTypeDataAt_ord {S : Type} t :
  @packTypeDataAt S (packTypeOrd t) = ret (typeData t).
Proof. destruct t; reflexivity. Qed.

(** [pckTypeToStr] gives the names the errors show *)
Lemma pckTypeToStr_name t : pckTypeToStr t = Ok (typeName t).
Proof. destruct t; reflexivity. Qed.

(** ** A field of another type at the ID asked for *)

Lemma pckReadTag_mismatch this this1 top rest id t t' :
  validCall t false = true ->
  tagStack this = top :: rest ->
  id = 0 \/ idLast top < id ->
  loadTag this = Ok (tt, this1) ->
  tagNextId this1 = requestedId (tagStack this) id ->
  tagNextType this1 = packTypeOrd t' -> t' <> t ->
  pckReadTag id t false this = Throw (typeMismatch (tagNextId this1) t' t).
Proof.
  intros Hcall Hstack Hid Hload Hnext Htype Hne.
  unfold pckReadTag. fold (validCall t false).
  rewrite (pckReadTag_start this top rest id t false Hcall Hstack Hid).
  cbv beta. unfold bind at 1. unfold gets at 1. unfold pckReadTagFuel.
  generalize (S (Z.to_nat (u64 (bufferMax this - bufferPos this)))).
  intros fuel. cbn [pckReadTagLoop].
  rewrite ?bind_assoc. rewrite (bind_Ok _ _ _ _ _ Hload).
  cbv beta. rewrite ?bind_assoc. unfold bind at 1. unfold gets at 1.
  rewrite <- Hnext, Z.ltb_irrefl, Z.eqb_refl. cbn [negb].
  rewrite ?bind_assoc. unfold bind at 1. unfold gets at 1.
  rewrite Htype.
  destruct (Z.eqb_spec (packTypeOrd t') (packTypeOrd t)) as [Heq|_];
    [apply packTypeOrd_inj in Heq; contradiction|].
  cbn [negb]. rewrite ?bind_assoc, !packTypeDataAt_ord, !bind_ret.
  reflexivity.
Qed.

Lemma requestedId_above stack id :
  0 <= topIdLast stack < requestedId stack id ->
  (id = 0 \/ topIdLast stack < id) /\ requestedId stack id <> 0 /\
  requestedId stack (requestedId stack id) = requestedId stack id.
Proof.
  unfold requestedId. intros H.
  destruct (Z.eqb_spec id 0) as [Hz|Hne].
  - split; [left; exact Hz|]. split; [lia|].
    destruct (Z.eqb_spec (u32 (topIdLast stack + 1)) 0); [lia|reflexivity].
  - split; [right; lia|]. split; [lia|].
    destruct (Z.eqb_spec id 0); [contradiction|reflexivity].
Qed.

(** The first step of a typed read when the field asked for is next: no
    default is taken, and the tag is still to be matched *)
Lemma pckReadDefaultNull_then_mismatch this this1 top rest id t' defaultNull :
  tagStack this = top :: rest ->
  0 <= idLast top < requestedId (tagStack this) id ->
  loadTag this = Ok (tt, this1) ->
  tagNextId this1 = requestedId (tagStack this) id ->
  tagNextType this1 = packTypeOrd t' ->
  exists id' this',
    pckReadDefaultNull defaultNull id this = Ok ((id', false), this') /\
    forall t, t' <> t -> validCall t false = true ->
      pckReadTag id' t false this' = Throw (typeMismatch (tagNextId this1) t' t).
Proof.
  intros Hstack Hlt Hload Hnext Htype.
  assert (Htop : topIdLast (tagStack this) = idLast top)
    by (rewrite Hstack; reflexivity).
  destruct (requestedId_above (tagStack this) id ltac:(lia))
    as (Hid & Hnz & Hidem).
  rewrite Htop in Hid.
  destruct defaultNull.
  - exists (requestedId (tagStack this) id), this1. split.
    + unfold pckReadDefaultNull.
      rewrite (bind_Ok _ _ _ _ _
                 (pckReadNullInternal_peek this this1 top rest id Hstack Hid
                    Hload ltac:(lia))).
      cbn [fst snd]. rewrite Hnext, Z.ltb_irrefl. reflexivity.
    + intros t Hne Hcall.
      pose proof (loadTag_stack this this1 top rest Hstack Hload) as Hstack1.
      apply (pckReadTag_mismatch this1 this1 top rest _ t t' Hcall Hstack1).
      * right. lia.
      * apply loadTag_loaded. lia.
      * rewrite Hstack1, <- Hstack, Hidem. exact Hnext.
      * exact Htype.
      * exact Hne.
  - exists id, this. split; [reflexivity|].
    intros t Hne Hcall.
    apply (pckReadTag_mismatch this this1 top rest id t t' Hcall Hstack Hid
             Hload Hnext Htype Hne).
Qed.

(** X1. When the field at the ID asked for is of another type than the one
    the call reads, every typed read, with or without [defaultNull], and
    [pckReadArrayBegin] and [pckReadObjBegin] throw the format error
    "field N is type 'found' but expected 'asked'", the names being those of
    the type table.  The ID is 0 (the one after the frame's last) or above
    the frame's last ID. *)
Theorem read_type_mismatch (this this1 : PackRead) (id : Z) (found : PackType) :
  tagStack this <> [] ->
  0 <= topIdLast (tagStack this) < requestedId (tagStack this) id ->
  loadTag this = Ok (tt, this1) ->
  tagNextId this1 = requestedId (tagStack this) id ->
  tagNextType this1 = packTypeOrd found ->
  (forall f defaultNull,
     fieldType f <> found ->
     fieldRead f id defaultNull this
     = Throw (typeMismatch (tagNextId this1) found (fieldType f))) /\
  (found <> pckTypeArray ->
   pckReadArrayBegin id this
   = Throw (typeMismatch (tagNextId this1) found pckTypeArray)) /\
  (found <> pckTypeObj ->
   pckReadObjBegin id this
   = Throw (typeMismatch (tagNextId this1) found pckTypeObj)).
Proof.
  intros Hne Hlt Hload Hnext Htype.
  destruct (tagStack this) as [|top rest] eqn:Hstack; [congruence|].
  rewrite <- Hstack in *.
  assert (Hlt' : 0 <= idLast top < requestedId (tagStack this) id)
    by (rewrite Hstack in Hlt at 1 2; exact Hlt).
  split; [|split].
  - intros f defaultNull Hf.
    destruct (pckReadDefaultNull_then_mismatch this this1 top rest id found
                defaultNull Hstack Hlt' Hload Hnext Htype)
      as (id' & this' & Hdn & Htag).
    specialize (Htag (fieldType f) ltac:(congruence) (fieldType_valid f)).
    destruct f; unfold fieldRead, pckReadBin, pckReadBool, pckReadI32,
      pckReadI64, pckReadPtr, pckReadStr, pckReadTime, pckReadU32, pckReadU64;
      rewrite bind_assoc, (bind_Ok _ _ _ _ _ Hdn); cbn [fst snd];
      rewrite ?bind_assoc; apply bind_Throw; exact Htag.
  - intros Hf.
    destruct (pckReadDefaultNull_then_mismatch this this1 top rest id found
                false Hstack Hlt' Hload Hnext Htype)
      as (id' & this' & Hdn & Htag).
    injection Hdn as <- <-.
    unfold pckReadArrayBegin. apply bind_Throw. apply Htag; [exact Hf|reflexivity].
  - intros Hf.
    destruct (pckReadDefaultNull_then_mismatch this this1 top rest id found
                false Hstack Hlt' Hload Hnext Htype)
      as (id' & this' & Hdn & Htag).
    injection Hdn as <- <-.
    unfold pckReadObjBegin. apply bind_Throw. apply Htag; [exact Hf|reflexivity].
Qed.

(** The pack of the U32 7 at id 1, read as a string, as a boolean with a
    default, and as an array *)
Lemma read_type_mismatch_witness :
  let this := pckReadNewBuf [0xA8; 0x07; 0x00] in
  let this1 := mkPackRead [0xA8; 0x07; 0x00] 2 3 1 10 7
                 [mkPackTagStack pckTypeObj 0 0] in
  (tagStack this <> [] /\
   0 <= topIdLast (tagStack this) < requestedId (tagStack this) 0 /\
   loadTag this = Ok (tt, this1) /\
   tagNextId this1 = requestedId (tagStack this) 0 /\
   tagNextType this1 = packTypeOrd pckTypeU32) /\
  fieldRead (FStr None None) 0 false this
  = Throw (FormatError "field 1 is type 'u32' but expected 'str'") /\
  fieldRead (FBool false false) 0 true this
  = Throw (FormatError "field 1 is type 'u32' but expected 'bool'") /\
  pckReadArrayBegin 0 this
  = Throw (FormatError "field 1 is type 'u32' but expected 'array'").
Proof.
  intros this this1.
  assert (H1 : tagStack this <> []) by discriminate.
  assert (H2 : 0 <= topIdLast (tagStack this) < requestedId (tagStack this) 0)
    by (change (0 <= 0 < 1); lia).
  assert (H3 : loadTag this = Ok (tt, this1)) by reflexivity.
  assert (H4 : tagNextId this1 = requestedId (tagStack this) 0) by reflexivity.
  assert (H5 : tagNextType this1 = packTypeOrd pckTypeU32) by reflexivity.
  split; [auto 6|].
  destruct (read_type_mismatch this this1 0 pckTypeU32 H1 H2 H3 H4 H5)
    as (Hfield & Harray & _).
  split; [|split].
  - exact (Hfield (FStr None None) false ltac:(discriminate)).
  - exact (Hfield (FBool false false) true ltac:(discriminate)).
  - apply Harray. discriminate.
Defined.

(** ** Misuse of the writer *)

Lemma pckWriteTag_used_id t id value b top rest :
  id <> 0 -> id <= idLast top ->
  pckWriteTag t id value (mkPackWrite b (top :: rest))
  = Throw (AssertError "id > this->tagStackTop->idLast").
Proof.
  intros Hid Hle. unfold pckWriteTag.
  unfold bind at 1. unfold topOf at 1. cbn [wTagStack].
  unfold bind at 1. unfold topOf at 1. cbn [wTagStack].
  apply bind_Throw.
  destruct (Z.eqb_spec id 0); [contradiction|].
  unfold assert. destruct (Z.ltb_spec (idLast top) id); [lia|reflexivity].
Qed.

(** X2. The writer's assertions on the order of its calls.  A typed write
    that is not elided and [pckWriteArrayBegin], [pckWriteObjBegin], made at
    an explicit ID that is not above the frame's last ID, fail the assertion
    [id > idLast]; a NULL blob or string that is not elided fails
    [value != NULL]; [pckWriteArrayEnd] and [pckWriteObjEnd] fail when only
    the outermost frame is left or when the frame is of the other kind;
    [pckWriteEnd] fails while a container is open.  In each case the call
    ends with the assertion's exception and returns nothing. *)
Theorem writer_assertions (b : list Z) (top : PackTagStack)
    (rest : list PackTagStack) :
  let this := mkPackWrite b (top :: rest) in
  (forall f id defaultNull,
     id <> 0 -> id <= idLast top ->
     defaultNull && fieldIsDefault f = false -> fieldIsNull f = false ->
     fieldWrite f id defaultNull this
     = Throw (AssertError "id > this->tagStackTop->idLast")) /\
  (forall id,
     id <> 0 -> id <= idLast top ->
     pckWriteArrayBegin id this
     = Throw (AssertError "id > this->tagStackTop->idLast") /\
     pckWriteObjBegin id this
     = Throw (AssertError "id > this->tagStackTop->idLast")) /\
  (forall f id defaultNull,
     defaultNull && fieldIsDefault f = false -> fieldIsNull f = true ->
     fieldWrite f id defaultNull this = Throw (AssertError "value != NULL")) /\
  (rest = [] ->
   pckWriteArrayEnd this = Throw (AssertError "lstSize(this->tagStack) != 1") /\
   pckWriteObjEnd this = Throw (AssertError "lstSize(this->tagStack) != 1")) /\
  (rest <> [] -> type top <> pckTypeArray ->
   pckWriteArrayEnd this
   = Throw (AssertError
              "((PackTagStack *)lstGetLast(this->tagStack))->type == pckTypeArray")) /\
  (rest <> [] -> type top <> pckTypeObj ->
   pckWriteObjEnd this
   = Throw (AssertError
              "((PackTagStack *)lstGetLast(this->tagStack))->type == pckTypeObj")) /\
  (rest <> [] ->
   pckWriteEnd this = Throw (AssertError "lstSize(this->tagStack) == 1")).
Proof.
  intros this. subst this.
  split; [|split; [|split; [|split; [|split; [|split]]]]].
  - intros f id defaultNull Hid Hle He Hnull.
    destruct f as [[v|]|v dv|v dv|v dv|v|[v|] dv|v dv|v dv|v dv];
      try discriminate Hnull;
      unfold fieldWrite, pckWriteBin, pckWriteBool, pckWriteI32, pckWriteI64,
        pckWritePtr, pckWriteStr, pckWriteTime, pckWriteU32, pckWriteU64;
      rewrite (bind_pckWriteDefaultNull_false _ _ _ _ He); cbn [negb];
      first [ apply pckWriteTag_used_id; assumption
            | apply bind_Throw; apply pckWriteTag_used_id; assumption ].
  - intros id Hid Hle.
    split; apply bind_Throw; apply pckWriteTag_used_id; assumption.
  - intros f id defaultNull He Hnull.
    destruct f as [[v|]|v dv|v dv|v dv|v|[v|] dv|v dv|v dv|v dv];
      try discriminate Hnull;
      unfold fieldWrite, pckWriteBin, pckWriteStr;
      rewrite (bind_pckWriteDefaultNull_false _ _ _ _ He); reflexivity.
  - intros ->. split; reflexivity.
  - intros Hrest Htype. unfold pckWriteArrayEnd.
    rewrite bind_gets. cbn [wTagStack].
    destruct rest as [|f r]; [congruence|].
    replace (Z.of_nat (length (top :: f :: r)) =? 1) with false
      by (symmetry; apply Z.eqb_neq; cbn [length]; lia).
    cbn [negb assert]. rewrite bind_ret.
    unfold stackTopIs, PackType_eqb.
    destruct (Z.eqb_spec (packTypeOrd (type top)) (packTypeOrd pckTypeArray))
      as [Heq|_]; [apply packTypeOrd_inj in Heq; contradiction|reflexivity].
  - intros Hrest Htype. unfold pckWriteObjEnd.
    rewrite bind_gets. cbn [wTagStack].
    destruct rest as [|f r]; [congruence|].
    replace (Z.of_nat (length (top :: f :: r)) =? 1) with false
      by (symmetry; apply Z.eqb_neq; cbn [length]; lia).
    cbn [negb assert]. rewrite bind_ret.
    unfold stackTopIs, PackType_eqb.
    destruct (Z.eqb_spec (packTypeOrd (type top)) (packTypeOrd pckTypeObj))
      as [Heq|_]; [apply packTypeOrd_inj in Heq; contradiction|reflexivity].
  - intros Hrest. unfold pckWriteEnd. rewrite bind_gets. cbn [wTagStack].
    destruct rest as [|f r]; [congruence|].
    replace (Z.of_nat (length (top :: f :: r)) =? 1) with false
      by (symmetry; apply Z.eqb_neq; cbn [length]; lia).
    reflexivity.
Qed.

(** A writer that has written the U32 7 at id 3 in the outermost object *)
Lemma writer_assertions_witness :
  let this := mkPackWrite [0xAA; 0x07] [mkPackTagStack pckTypeObj 3 0] in
  pckWriteU32 7 3 false 0 pckWriteNewInternal = Ok (tt, this) /\
  fieldWrite (FU32 9 0) 2 false this
  = Throw (AssertError "id > this->tagStackTop->idLast") /\
  pckWriteArrayBegin 3 this
  = Throw (AssertError "id > this->tagStackTop->idLast") /\
  fieldWrite (FStr None (Some [0x61])) 4 true this
  = Throw (AssertError "value != NULL") /\
  pckWriteObjEnd this = Throw (AssertError "lstSize(this->tagStack) != 1") /\
  (exists this',
     pckWriteArrayBegin 4 this = Ok (tt, this') /\
     pckWriteObjEnd this'
     = Throw (AssertError
                "((PackTagStack *)lstGetLast(this->tagStack))->type == pckTypeObj") /\
     pckWriteEnd this' = Throw (AssertError "lstSize(this->tagStack) == 1")).
Proof.
  intros this.
  destruct (writer_assertions [0xAA; 0x07] (mkPackTagStack pckTypeObj 3 0) [])
    as (Hid & Hbegin & Hnull & Hend & _).
  split; [reflexivity|].
  split; [apply Hid; [discriminate|simpl; lia|reflexivity|reflexivity]|].
  split; [apply (Hbegin 3); [discriminate|simpl; lia]|].
  split; [apply Hnull; reflexivity|].
  split; [apply Hend; reflexivity|].
  eexists. split; [reflexivity|].
  destruct (writer_assertions [0xAA; 0x07; 0x10]
              (newFrame pckTypeArray) [mkPackTagStack pckTypeObj 4 0])
    as (_ & _ & _ & _ & _ & Hobj & Hfinal).
  split; [apply Hobj; discriminate|apply Hfinal; discriminate].
Defined.

(** * The reader on arbitrary input *)

Lemma progressAt_bounds {A : Type} (m : Rd A) this :
  wfRead this -> progressAt m this ->
  match m this with
  | Ok (_, this') =>
      bufferPos this <= bufferPos this' <= bufferMax this /\
      bufferMax this' = bufferMax this
  | Throw e => e <> OutOfFuel
  end.
Proof.
  intros Hwf H. unfold progressAt in H.
  destruct (m this) as [[a this']|e]; [|exact H].
  destruct H as ((Hpos & _) & Hle & Hmax). split; [lia|exact Hmax].
Qed.

(** X3. Whatever bytes the buffer holds, well-formed or not, and whatever
    typed reads and container calls are made, at any IDs and in any order,
    none of the reader's loops runs on for ever: the bounds that the bytes
    left in the buffer put on their passes are never reached.  When the
    calls return, the position has not moved back and is not past the end
    of the buffer.  The same holds of [pckReadNull] and of [pckReadNext],
    which moves the position forward when it returns.  How calls that do
    not return fail is not part of the statement: by an exception, or, as
    for a tag whose type is outside [packTypeData], by behaviour that is
    undefined. *)
Theorem reader_position_bounded (this : PackRead) :
  wfRead this ->
  (forall ops,
     match opsRead ops this with
     | Ok (_, this') =>
         bufferPos this <= bufferPos this' <= bufferMax this /\
         bufferMax this' = bufferMax this
     | Throw e => e <> OutOfFuel
     end) /\
  (forall id,
     match pckReadNull id this with
     | Ok (_, this') =>
         bufferPos this <= bufferPos this' <= bufferMax this /\
         bufferMax this' = bufferMax this
     | Throw e => e <> OutOfFuel
     end) /\
  match pckReadNext this with
  | Ok (_, this') =>
      bufferPos this < bufferPos this' <= bufferMax this /\
      bufferMax this' = bufferMax this
  | Throw e => e <> OutOfFuel
  end.
Proof.
  intros Hwf. split; [|split].
  - intros ops. apply progressAt_bounds; [exact Hwf|].
    apply progresses_opsRead. exact Hwf.
  - intros id. apply progressAt_bounds; [exact Hwf|].
    apply progresses_readContainer. exact Hwf.
  - pose proof (consumes_pckReadTagNext this Hwf) as H.
    unfold pckReadNext. destruct (pckReadTagNext this) as [[a this']|e]; [|exact H].
    destruct H as ((Hpos & _) & Hlt & Hmax). split; [lia|exact Hmax].
Qed.

(** Bytes that no writer emits: a string tag whose size, 127, is larger
    than what is left *)
Lemma reader_position_bounded_witness :
  let this := pckReadNewBuf [0x88; 0x7F; 0x61] in
  wfRead this /\
  opsRead [OpField (FStr None None) 1 false] this
  = Throw (FormatError "unexpected EOF") /\
  match opsRead [OpField (FStr None None) 1 false] this with
  | Ok (_, this') =>
      bufferPos this <= bufferPos this' <= bufferMax this /\
      bufferMax this' = bufferMax this
  | Throw e => e <> OutOfFuel
  end.
Proof.
  intros this. assert (Hwf : wfRead this) by (unfold wfRead; simpl; lia).
  split; [exact Hwf|]. split; [reflexivity|].
  exact (proj1 (reader_position_bounded this Hwf)
           [OpField (FStr None None) 1 false]).
Defined.

(** * Looking at the next tag: [pckReadNext], [pckReadId], [pckReadType] *)

(** X4. A tag written by [pckWriteTag], for any type but the unknown one,
    any ID above the frame's last and any value the type carries, is parsed
    back by [pckReadNext] in a frame with the same last ID: the call
    returns true (the tag is not taken for the terminator), [pckReadId] and
    [pckReadType] then give the ID and the type written, the lookahead
    holds the value, and the position is right after the tag.  On the
    terminator [pckReadNext] returns false and leaves 0xFFFFFFFF as the
    next ID; at the end of the input it throws "unexpected EOF". *)
Theorem pckReadNext_written (t : PackType) (id value : Z)
    (top rtop : PackTagStack) :
  t <> pckTypeUnknown -> tagValueOk t value = true ->
  0 <= idLast top < id -> id < 4294967296 ->
  idLast rtop = idLast top ->
  exists bytes,
    (forall b stack,
       pckWriteTag t id value (mkPackWrite b (top :: stack))
       = Ok (tt, mkPackWrite (b ++ bytes)
                   (mkPackTagStack (type top) id 0 :: stack))) /\
    (forall this rest rstack,
       wfRead this -> unread this = bytes ++ rest ->
       tagStack this = rtop :: rstack ->
       exists this',
         (more <- pckReadNext ;; i <- pckReadId ;; ty <- pckReadType ;;
          ret (more, i, ty)) this
         = Ok ((true, id, packTypeOrd t), this') /\
         tagNextValue this' = value /\ unread this' = rest /\
         tagStack this' = tagStack this) /\
    (forall this rest,
       wfRead this -> unread this = 0 :: rest ->
       exists this',
         (more <- pckReadNext ;; i <- pckReadId ;; ret (more, i)) this
         = Ok ((false, 0xFFFFFFFF), this') /\ unread this' = rest) /\
    (forall this,
       wfRead this -> unread this = [] ->
       pckReadNext this = Throw (FormatError "unexpected EOF")).
Proof.
  intros Ht Hv Hid Hmax Hlast.
  exists (tagBytes t (u32 (id - idLast top - 1)) value).
  split; [|split; [|split]].
  - intros b stack. apply pckWriteTag_bytes; [lia|lia|exact Hv].
  - intros this rest rstack Hwf Hu Hstack.
    pose proof (pckReadTagNext_written t _ value this rest rtop rstack Hwf Hu
                  Hstack (u32_range _) Ht Hv) as Hparse.
    rewrite Hlast, id_from_delta in Hparse by lia.
    eexists. split; [|split; [|split]].
    + unfold pckReadNext. rewrite (bind_Ok _ _ _ _ _ Hparse). reflexivity.
    + reflexivity.
    + exact (proj2 (advance_unread_app _ _ this Hwf Hu)).
    + reflexivity.
  - intros this rest Hwf Hu. eexists. split.
    + unfold pckReadNext.
      rewrite (bind_Ok _ _ _ _ _ (pckReadTagNext_terminator _ _ Hwf Hu)).
      reflexivity.
    + exact (proj2 (advance_1_cons _ _ this Hwf Hu)).
  - intros this Hwf Hu. unfold pckReadNext, pckReadTagNext.
    apply bind_Throw. apply pckReadBuffer_eof; [exact Hwf|exact Hu|lia].
Qed.

(** An I64 tag at ID 300 with a value of 41 bits, in a frame whose last ID
    is 7 *)
Lemma pckReadNext_written_witness :
  let top := mkPackTagStack pckTypeArray 7 2 in
  (pckTypeI64 <> pckTypeUnknown /\
   tagValueOk pckTypeI64 1099511627776 = true /\
   0 <= idLast top < 300 /\ 300 < 4294967296 /\ idLast top = idLast top) /\
  exists bytes,
    pckWriteTag pckTypeI64 300 1099511627776 (mkPackWrite [] [top])
    = Ok (tt, mkPackWrite bytes [mkPackTagStack pckTypeArray 300 0]) /\
    exists this',
      (more <- pckReadNext ;; i <- pckReadId ;; ty <- pckReadType ;;
       ret (more, i, ty))
        (mkPackRead (bytes ++ [0]) 0 (Z.of_nat (length (bytes ++ [0]))) 0 0 0 [top])
      = Ok ((true, 300, 5), this') /\
      tagNextValue this' = 1099511627776 /\ unread this' = [0].
Proof.
  intros top.
  assert (H1 : pckTypeI64 <> pckTypeUnknown) by discriminate.
  assert (H2 : tagValueOk pckTypeI64 1099511627776 = true) by reflexivity.
  assert (H3 : 0 <= idLast top < 300) by (simpl; lia).
  assert (H4 : 300 < 4294967296) by lia.
  split; [auto 6|].
  destruct (pckReadNext_written pckTypeI64 300 1099511627776 top top
              H1 H2 H3 H4 eq_refl) as (bytes & Hwrite & Hread & _).
  exists bytes. split; [exact (Hwrite [] [])|].
  assert (Hb : Ok (tt, mkPackWrite bytes [mkPackTagStack pckTypeArray 300 0])
               = pckWriteTag pckTypeI64 300 1099511627776 (mkPackWrite [] [top]))
    by (symmetry; exact (Hwrite [] [])).
  vm_compute in Hb. injection Hb as ->.
  destruct (Hread (mkPackRead ([92; 73; 128; 128; 128; 128; 128; 32] ++ [0]) 0 9
                     0 0 0 [top]) [0] [])
    as (this' & Hrun & Hval & Hu & _);
    [unfold wfRead; simpl; lia|reflexivity|reflexivity|].
  exists this'. split; [exact Hrun|split; [exact Hval|exact Hu]].
Defined.

(** * Decoding any base-128 integer *)

Lemma shiftl_digit x B k :
  0 <= x < 128 -> 0 <= k ->
  Z.lor (Z.shiftl x k) (Z.shiftl B (k + 7)) = Z.shiftl (x + 128 * B) k.
Proof.
  intros Hx Hk. rewrite <- (split7 (x + 128 * B) k Hk).
  rewrite land_0x7f, Z.shiftr_div_pow2 by lia.
  change (2 ^ 7) with 128.
  replace ((x + 128 * B) mod 128) with x.
  - replace ((x + 128 * B) / 128) with B; [reflexivity|].
    rewrite (Z.mul_comm 128 B), Z.div_add by lia.
    rewrite Z.div_small by lia. reflexivity.
  - rewrite (Z.mul_comm 128 B), Z.mod_add by lia.
    rewrite Z.mod_small by lia. reflexivity.
Qed.

(** The loop on bytes that continue, then a byte that ends the integer *)
Lemma pckReadUInt64Loop_decodes pre : forall count bufferIdx result byte0 this last rest,
  wfRead this -> unread this = pre ++ last :: rest ->
  Forall (fun b => 0x80 <= b) pre -> last < 0x80 ->
  (length pre < count)%nat -> 0 <= bufferIdx ->
  pckReadUInt64Loop count bufferIdx result byte0 this
  = Ok ((Z.lor result
           (u64 (Z.shiftl (base128 (pre ++ [last])) (7 * bufferIdx))), last),
        advance (Z.of_nat (length pre)) this).
Proof.
  induction pre as [|b pre IH];
    intros count bufferIdx result byte0 this last rest Hwf Hu Hall Hlast Hlen Hidx;
    (destruct count as [|count]; [simpl in Hlen; lia|]).
  - simpl app in Hu. cbn [pckReadUInt64Loop].
    rewrite (bind_Ok _ _ _ _ _
               (pckReadBuffer_all 1 this Hwf ltac:(rewrite Hu; simpl; lia))).
    rewrite (bind_Ok _ _ _ _ _ (bufferByte_head _ _ _ Hu)).
    destruct (Z.ltb_spec last 0x80); [|lia].
    simpl length. rewrite advance_0. unfold ret.
    replace (base128 ([] ++ [last])) with (Z.land last 0x7f)
      by (rewrite land_0x7f; cbn [app base128]; lia).
    reflexivity.
  - simpl app in Hu. inversion Hall as [|? ? Hb Hall']; subst.
    destruct (advance_1_cons _ _ _ Hwf Hu) as [Hwf1 Hu1].
    cbn [pckReadUInt64Loop].
    rewrite (bind_Ok _ _ _ _ _
               (pckReadBuffer_all 1 this Hwf ltac:(rewrite Hu; simpl; lia))).
    rewrite (bind_Ok _ _ _ _ _ (bufferByte_head _ _ _ Hu)).
    destruct (Z.ltb_spec b 0x80); [lia|].
    rewrite (bind_Ok _ _ _ _ _
               (bufferPosAdd_advance 1 this Hwf ltac:(rewrite Hu; simpl; lia))).
    assert (Hlen' : (length pre < count)%nat) by (simpl in Hlen; lia).
    assert (Hidx' : 0 <= bufferIdx + 1) by lia.
    rewrite (IH count (bufferIdx + 1) _ b (advance 1 this) last rest
               Hwf1 Hu1 Hall' Hlast Hlen' Hidx').
    rewrite advance_advance. do 3 f_equal.
    + rewrite <- Z.lor_assoc, <- u64_lor. do 2 f_equal.
      cbn [app base128]. rewrite land_0x7f.
      replace (7 * (bufferIdx + 1)) with (7 * bufferIdx + 7) by lia.
      apply shiftl_digit; [apply Z.mod_pos_bound; lia|lia].
    + simpl length. lia.
Qed.

(** X5. [pckReadUInt64Internal] accepts every sequence of at most ten
    bytes of which all but the last have the high bit set, whether or not a
    writer would emit it, and returns the number whose base-128 digits,
    lowest first, are the low seven bits of the bytes, reduced modulo 2^64;
    the position moves past the bytes.  An integer with redundant
    continuation bytes is read as its value, and the bits of a tenth byte
    that do not fit 64 bits are dropped without an error. *)
Theorem pckReadUInt64Internal_decodes (this : PackRead)
    (pre : list Z) (last : Z) (rest : list Z) :
  wfRead this -> unread this = pre ++ last :: rest ->
  Forall (fun b => 0x80 <= b) pre -> last < 0x80 ->
  (length pre < 10)%nat ->
  pckReadUInt64Internal this
  = Ok (u64 (base128 (pre ++ [last])),
        advance (Z.of_nat (length pre) + 1) this).
Proof.
  intros Hwf Hu Hall Hlast Hlen.
  unfold pckReadUInt64Internal.
  rewrite (bind_Ok _ _ _ _ _
             (pckReadUInt64Loop_decodes pre PACK_UINT64_SIZE_MAX 0 0 0 this
                last rest Hwf Hu Hall Hlast Hlen ltac:(lia))).
  cbn [fst snd]. destruct (Z.leb_spec 0x80 last); [lia|].
  rewrite <- (firstn_skipn 0 (pre ++ last :: rest)) in Hu.
  destruct (advance_unread_app pre (last :: rest) this Hwf Hu) as [Hwf1 Hu1].
  rewrite (bind_Ok _ _ _ _ _
             (bufferPosAdd_advance 1 _ Hwf1 ltac:(rewrite Hu1; simpl; lia))).
  rewrite advance_advance. unfold ret.
  change (7 * 0) with 0. rewrite Z.shiftl_0_r, Z.lor_0_l. reflexivity.
Qed.

(** The value 1 with two redundant continuation bytes, and ten bytes whose
    last carries bits above the 64th *)
Lemma pckReadUInt64Internal_decodes_witness :
  (let this := pckReadNewBuf [0x81; 0x80; 0x00; 0x05] in
   (wfRead this /\ unread this = [0x81; 0x80] ++ 0x00 :: [0x05] /\
    Forall (fun b => 0x80 <= b) [0x81; 0x80] /\ 0x00 < 0x80 /\
    (length [0x81; 0x80] < 10)%nat) /\
   pckReadUInt64Internal this = Ok (1, advance 3 this)) /\
  (let this := pckReadNewBuf (repeat 0xFF 9 ++ [0x7F]) in
   pckReadUInt64Internal this = Ok (18446744073709551615, advance 10 this)).
Proof.
  split.
  - intros this.
    assert (Hwf : wfRead this) by (unfold wfRead; simpl; lia).
    assert (Hu : unread this = [0x81; 0x80] ++ 0x00 :: [0x05]) by reflexivity.
    assert (Hall : Forall (fun b => 0x80 <= b) [0x81; 0x80])
      by (repeat constructor; lia).
    assert (Hlast : 0x00 < 0x80) by lia.
    assert (Hlen : (length [0x81; 0x80] < 10)%nat) by (simpl; lia).
    split; [auto 6|].
    exact (pckReadUInt64Internal_decodes this [0x81; 0x80] 0x00 [0x05]
             Hwf Hu Hall Hlast Hlen).
  - intros this.
    apply (pckReadUInt64Internal_decodes this (repeat 0xFF 9) 0x7F []).
    + unfold wfRead. simpl. lia.
    + reflexivity.
    + simpl. repeat constructor; lia.
    + lia.
    + simpl. lia.
Defined.

(** * Reading some of the fields of a pack *)

Lemma bind_ext_at {S A B : Type} (m : Act S A) (f g : A -> Act S B) s :
  (forall a s', m s = Ok (a, s') -> f a s' = g a s') ->
  bind m f s = bind m g s.
Proof. intros H. unfold bind. destruct (m s) as [[a s1]|e]; auto. Qed.

Lemma bind_gets_ext {S A B : Type} (f : S -> A) (k1 k2 : A -> Act S B) s :
  k1 (f s) s = k2 (f s) s -> bind (gets f) k1 s = bind (gets f) k2 s.
Proof. intros H. exact H. Qed.

Lemma bind_congr {S A B : Type} (m : Act S A) (k : A -> Act S B) s s' :
  m s = m s' -> bind m k s = bind m k s'.
Proof. intros H. unfold bind. rewrite H. reflexivity. Qed.

(** ** The fuel of the loop does not matter once there is enough *)

Lemma skipData_progress (td : PackTypeData) (value : Z) :
  progresses (when (size td && negb (value =? 0))
                (sizeExpected <- pckReadUInt64Internal ;;
                 pckReadSkip 2 sizeExpected)).
Proof.
  apply progresses_when, progresses_bind_varint.
  intros v Hv. apply progresses_pckReadSkip. lia.
Qed.

Lemma pckReadTagLoop_fuel fuel1 : forall fuel2 id type peek s,
  wfRead s -> (fuelFor s <= fuel1)%nat -> (fuelFor s <= fuel2)%nat ->
  pckReadTagLoop fuel1 id type peek s = pckReadTagLoop fuel2 id type peek s.
Proof.
  unfold fuelFor.
  induction fuel1 as [|fuel1 IH]; intros fuel2 id type peek s H H1 H2.
  - destruct (tagNextId s =? 0); lia.
  - destruct fuel2 as [|fuel2]; [destruct (tagNextId s =? 0); lia|].
    cbn [pckReadTagLoop].
    apply bind_ext_at. intros [] s1 Hload.
    pose proof (loadTag_progress s H) as Hl. rewrite Hload in Hl.
    destruct Hl as (Hwf1 & Hmax1 & Hpos1).
    apply bind_gets_ext.
    destruct (id <? tagNextId s1); [reflexivity|].
    destruct (id =? tagNextId s1); [reflexivity|].
    apply bind_ext_at. intros td s2 Htd.
    apply packTypeDataAt_state in Htd. subst s2.
    apply bind_gets_ext.
    apply bind_ext_at. intros [] s3 Hwhen.
    pose proof (skipData_progress td (tagNextValue s1) s1 Hwf1) as Hp.
    unfold progressAt in Hp. rewrite Hwhen in Hp.
    destruct Hp as (Hwf3 & Hpos3 & Hmax3).
    apply bind_ext_at. intros [] s4 Hset.
    assert (Hs4 : wfRead s4 /\ bufferPos s4 = bufferPos s3
                  /\ bufferMax s4 = bufferMax s3).
    { unfold setTopIdLast in Hset. destruct (tagStack s3); [discriminate|].
      injection Hset as <-. split; [exact Hwf3|split; reflexivity]. }
    destruct Hs4 as (Hwf4 & Hpos4 & Hmax4).
    apply bind_ext_at. intros [] s5 Hmod. injection Hmod as <-.
    destruct Hwf4 as (Hr4 & Hlen4 & Hlt4).
    apply IH.
    + split; [exact Hr4|split; [exact Hlen4|exact Hlt4]].
    + simpl. destruct (tagNextId s =? 0); [|subst s1]; lia.
    + simpl. destruct (tagNextId s =? 0); [|subst s1]; lia.
Qed.

(** ** Passing the fields left unread *)

Lemma opsOk_weaken stack last lo ops :
  opsOk stack lo ops -> last <= lo -> opsOk stack last ops.
Proof.
  destruct ops as [|[f id defaultNull| |id| |id|] ops]; simpl; intros H Hle;
    try exact H; destruct H as (Hid & H); (split; [lia|exact H]).
Qed.

Lemma updTop_updTop f g s : updTop f (updTop g s) = updTop (fun t => f (g t)) s.
Proof. destruct s; reflexivity. Qed.

Lemma updTop_setIdLast_twice a b s :
  updTop (setIdLast a) (updTop (setIdLast b) s) = updTop (setIdLast a) s.
Proof. destruct s as [|[t l n] r]; reflexivity. Qed.

(** The reader's own last ID is the one the invariant names *)
Lemma readerInv_idLast start this stack last bytes :
  readerInv start this stack last bytes ->
  tagStack this = updTop (setIdLast last) (tagStack this).
Proof.
  intros [(Hwf & Hnext & Hu & Hsame) Hcase].
  destruct Hcase as [[-> ->]|(this1 & Hload & Hnz & ->)].
  - rewrite <- (sameFrames_top _ _ Hsame), updTop_setIdLast_same. reflexivity.
  - simpl. rewrite updTop_setIdLast_twice. reflexivity.
Qed.

(** A reader that the invariant describes is well formed *)
Lemma readerInv_wf start this stack last bytes :
  readerInv start this stack last bytes -> wfRead this.
Proof.
  intros [(Hwf & _) Hcase].
  destruct Hcase as [[-> _]|(this1 & Hload & _ & ->)]; [exact Hwf|].
  pose proof (progresses_loadTag start Hwf) as H. unfold progressAt in H.
  rewrite Hload in H. exact (proj1 H).
Qed.

(** The loop of [pckReadTag], looking for an ID above those of the fields
    left unread with a type that has no size, passes their tags one by one
    and goes on from the reader placed after them *)
Lemma pckReadTagLoop_passes rem :
  forall ops stack last lo start this rest,
  stackOk stack -> topIdLast stack <= last -> last <= lo -> lo < ID_MAX ->
  opsOk stack lo (rem ++ ops) ->
  Forall opPassable rem ->
  readerInv start this stack last (opsBytes stack (rem ++ ops) ++ rest) ->
  exists start' this' stack' last' passed,
    readerInv start' this' stack' last' (opsBytes stack' ops ++ rest) /\
    stackOk stack' /\ topIdLast stack' <= last' /\ last' < ID_MAX /\
    opsOk stack' last' ops /\ last <= last' /\
    tagStack this' = updTop (setIdLast last') (tagStack this) /\
    forall fuel id type peek,
      Forall (opBelow id) rem -> size (typeData type) = false ->
      (fuelFor this <= fuel)%nat ->
      pckReadTagLoop fuel id type peek this
      = pckReadTagLoop (fuel - passed) id type peek this' /\
      (fuelFor this' <= fuel - passed)%nat /\
      (last' = last \/ last' < id).
Proof.
  induction rem as [|op rem IH];
    intros ops stack last lo start this rest Hst Htl Hlo Hmax Hok Hpass Hinv.
  - exists start, this, stack, last, 0%nat. cbn [app] in *.
    split; [exact Hinv|]. split; [exact Hst|].
    split; [exact Htl|]. split; [lia|].
    split; [exact (opsOk_weaken _ _ _ _ Hok Hlo)|]. split; [lia|].
    split; [exact (readerInv_idLast _ _ _ _ _ Hinv)|].
    intros fuel id0 type peek _ _ Hfuel. rewrite Nat.sub_0_r.
    split; [reflexivity|split; [exact Hfuel|left; reflexivity]].
  - inversion Hpass as [|? ? Hp Hpass']; subst.
    destruct op as [f id defaultNull| | | | |]; try contradiction.
    cbn [app opsOk] in Hok. destruct Hok as (Hid & Hf & Hok).
    cbn [app opsBytes] in Hinv.
    pose proof (stackOk_top _ Hst) as Htop.
    destruct (defaultNull && fieldIsDefault f) eqn:He.
    + destruct (IH ops (afterNull stack) last id start this
                  rest (stackOk_afterNull _ Hst)
                  ltac:(destruct stack; simpl in *; lia)
                  ltac:(lia) ltac:(lia) Hok Hpass'
                  (readerInv_afterNull _ _ _ _ _ Hinv))
        as (start' & this' & stack' & last' & passed & H1 & H2 & H3 & H4 & H5
            & H6 & H7 & Hloop).
      exists start', this', stack', last', passed.
      split; [exact H1|split; [exact H2|split; [exact H3|split; [exact H4|
        split; [exact H5|split; [exact H6|split; [exact H7|]]]]]]].
      intros fuel id0 type peek Hbelow Hsize Hfuel.
      inversion Hbelow as [|? ? Hb Hbelow']; subst.
      exact (Hloop fuel id0 type peek Hbelow' Hsize Hfuel).
    + destruct Hp as [Hp|Hpay]; [congruence|].
      rewrite Hpay in Hinv. cbn [app] in Hinv. rewrite <- app_assoc in Hinv.
      pose proof (tagBytes_nonempty (fieldType f) (u32 (id - topIdLast stack - 1))
                    (fieldTagValue f) (fieldTagValue_ok f defaultNull Hf)) as Hne.
      destruct (loadTag_written (fieldType f) id (fieldTagValue f) start stack
                  _ _ (proj1 Hinv) eq_refl Hst ltac:(lia)
                  ltac:(destruct f; discriminate)
                  (fieldTagValue_ok f defaultNull Hf)) as (Hl & Hwf1 & Hu1).
      set (n := Z.of_nat (length (tagBytes (fieldType f)
                                    (u32 (id - topIdLast stack - 1))
                                    (fieldTagValue f)))) in *.
      assert (Hn : 0 < n).
      { subst n. destruct (tagBytes _ _ _); [congruence|simpl; lia]. }
      set (this1 := withTag n id (fieldType f) (fieldTagValue f) start) in *.
      assert (Hnz : tagNextId this1 <> 0) by (simpl; lia).
      destruct (readerInv_load _ _ _ _ _ this1 Hinv Hl Hnz) as (Hload & Hstk).
      destruct (readerAt_stack _ _ _ (proj1 Hinv) Hst) as (top & r & Hss & Hidl).
      rewrite Hss in Hstk. cbn [updTop] in Hstk.
      assert (Hstk1 : tagStack (withIdLast last this1) = setIdLast last top :: r).
      { simpl. rewrite Hss. reflexivity. }
      set (s' := matched (withIdLast last this1) id) in *.
      assert (Hinv' : readerInv s' s' (afterTag id stack) id
                        (opsBytes (afterTag id stack) (rem ++ ops) ++ rest)).
      { replace id with (topIdLast (afterTag id stack)) at 2
          by (destruct stack; [destruct Hst; congruence|reflexivity]).
        apply readerInv_start.
        split; [exact Hwf1|split; [reflexivity|split; [exact Hu1|]]].
        destruct Hinv as [(_ & _ & _ & Hsame) _].
        exact (sameFrames_afterTag id last _ _ Hsame). }
      destruct (IH ops (afterTag id stack) id id s' s' rest
                  (stackOk_afterTag id _ ltac:(lia) Hst)
                  ltac:(destruct stack; [destruct Hst; congruence|simpl; lia])
                  ltac:(lia) ltac:(lia) Hok Hpass' Hinv')
        as (start' & this' & stack' & last' & passed & Hinv'' & Hst'
            & Htl' & Hmax' & Hok' & Hle & Hstack' & Hloop).
      exists start', this', stack', last', (S passed).
      split; [exact Hinv''|split; [exact Hst'|split; [exact Htl'|
        split; [exact Hmax'|split; [exact Hok'|split; [lia|split]]]]]].
      * rewrite Hstack'. subst s'. simpl. rewrite Hss, Hstk. reflexivity.
      * intros fuel id0 type peek Hbelow Hsize Hfuel.
        inversion Hbelow as [|? ? Hb Hbelow']; subst. simpl in Hb.
        destruct fuel as [|fuel];
          [unfold fuelFor in Hfuel; destruct (tagNextId this =? 0); lia|].
        pose proof (fuel_after_tag start this stack last _ n id (fieldType f)
                      (fieldTagValue f) fuel Hinv Hn ltac:(lia) Hl Hwf1 Hfuel)
          as Hfuel'.
        destruct (Hloop fuel id0 type peek Hbelow' Hsize Hfuel')
          as (Hrun & Hfuel'' & Hcase).
        cbn [Nat.sub].
        split; [|split; [exact Hfuel''|right; lia]].
        rewrite <- Hrun. cbn [pckReadTagLoop].
        rewrite (bind_Ok _ _ _ _ _ Hload). rewrite bind_gets.
        change (tagNextId (withIdLast last this1)) with id.
        destruct (Z.ltb_spec id0 id); [lia|].
        destruct (Z.eqb_spec id0 id); [lia|].
        rewrite packTypeDataAt_ord, bind_ret, bind_gets, Hsize.
        cbn [andb when]. rewrite bind_ret.
        rewrite (bind_Ok _ _ _ _ _ (setTopIdLast_withIdLast id _ _ _ Hstk1)).
        rewrite bind_modify. reflexivity.
Qed.

Lemma bind_congr2 {S A B : Type} (m1 m2 : Act S A) (k : A -> Act S B) s1 s2 :
  m1 s1 = m2 s2 -> bind m1 k s1 = bind m2 k s2.
Proof. intros H. unfold bind. rewrite H. reflexivity. Qed.

Lemma pckReadTagFuel_enough s : wfRead s -> (fuelFor s <= pckReadTagFuel s)%nat.
Proof.
  intros H. unfold fuelFor, pckReadTagFuel. rewrite (wfRead_remaining _ H).
  rewrite <- (unread_length _ H), !Nat2Z.id.
  destruct (tagNextId s =? 0); lia.
Qed.

(** [pckReadTag] from the reader before the fields left unread and from
    the reader after them *)
Lemma pckReadTag_passes this this' last last' passed id type peek :
  wfRead this -> wfRead this' -> tagStack this <> [] ->
  tagStack this = updTop (setIdLast last) (tagStack this) ->
  tagStack this' = updTop (setIdLast last') (tagStack this) ->
  id <> 0 -> last < id -> last' < id ->
  (forall fuel, (fuelFor this <= fuel)%nat ->
     pckReadTagLoop fuel id type peek this
     = pckReadTagLoop (fuel - passed) id type peek this' /\
     (fuelFor this' <= fuel - passed)%nat) ->
  pckReadTag id type peek this = pckReadTag id type peek this'.
Proof.
  intros Hwf Hwf' Hne Hstack Hstack' Hid Hlt Hlt' Hloop.
  destruct (tagStack this) as [|top r] eqn:Hs; [congruence|].
  cbn [updTop] in Hstack, Hstack'. injection Hstack as Hlast.
  unfold pckReadTag. unfold assert.
  destruct (peek && PackType_eqb type pckTypeUnknown
            || negb peek && negb (PackType_eqb type pckTypeUnknown));
    [|reflexivity].
  rewrite !bind_ret.
  rewrite (bind_topOf idLast _ this top r Hs).
  rewrite (bind_topOf idLast _ this' (setIdLast last' top) r Hstack').
  assert (Hl : idLast top = last) by (rewrite Hlast; reflexivity).
  rewrite Hl. cbn [idLast setIdLast].
  destruct (Z.eqb_spec id 0); [contradiction|].
  destruct (Z.leb_spec id last); [lia|].
  destruct (Z.leb_spec id last'); [lia|].
  rewrite !bind_ret, !bind_gets.
  apply bind_congr2.
  destruct (Hloop (pckReadTagFuel this) (pckReadTagFuel_enough _ Hwf))
    as (Hrun & Hfuel).
  rewrite Hrun.
  apply pckReadTagLoop_fuel;
    [exact Hwf'|exact Hfuel|exact (pckReadTagFuel_enough _ Hwf')].
Qed.

Lemma typeData_unknown : size (typeData pckTypeUnknown) = false.
Proof. reflexivity. Qed.

(** A read that may be made with fields left unread before it gives the
    same result from the reader after them *)
Lemma opRead_passes op this this' last' :
  tagStack this' = updTop (setIdLast last') (tagStack this) ->
  (forall type peek, size (typeData type) = false ->
     pckReadTag (opTarget op) type peek this
     = pckReadTag (opTarget op) type peek this') ->
  opSkips op = true ->
  opRead op this = opRead op this'.
Proof.
  intros Hstack Hkey Hskips.
  destruct op as [f id defaultNull| |id| |id|]; cbn [opRead opTarget] in *.
  - assert (Hdn : defaultNull = true ->
                  pckReadDefaultNull defaultNull id this
                  = pckReadDefaultNull defaultNull id this').
    { intros ->. unfold pckReadDefaultNull, pckReadNullInternal.
      apply bind_congr2, bind_congr2. apply Hkey. reflexivity. }
    apply bind_congr2.
    destruct defaultNull.
    + specialize (Hdn eq_refl).
      destruct f; unfold fieldRead, pckReadBin, pckReadBool, pckReadI32,
        pckReadI64, pckReadPtr, pckReadStr, pckReadTime, pckReadU32, pckReadU64;
        apply bind_congr2, bind_congr2; exact Hdn.
    + cbn [opSkips orb] in Hskips. apply negb_true_iff in Hskips.
      destruct f; try discriminate Hskips;
        unfold fieldRead, pckReadBin, pckReadBool, pckReadI32,
          pckReadI64, pckReadPtr, pckReadStr, pckReadTime, pckReadU32, pckReadU64;
        apply bind_congr2; unfold pckReadDefaultNull; rewrite !bind_ret;
        cbn [fst snd]; apply bind_congr2; apply Hkey; reflexivity.
  - discriminate.
  - apply bind_congr2. unfold pckReadArrayBegin. apply bind_congr2.
    apply Hkey. reflexivity.
  - apply bind_congr2. unfold pckReadArrayEnd. rewrite !bind_gets, Hstack.
    replace (length (updTop (setIdLast last') (tagStack this)))
      with (length (tagStack this)) by (destruct (tagStack this); reflexivity).
    replace (stackTopIs pckTypeArray (updTop (setIdLast last') (tagStack this)))
      with (stackTopIs pckTypeArray (tagStack this))
      by (destruct (tagStack this); reflexivity).
    destruct ((Z.of_nat (length (tagStack this)) =? 1)
              || negb (stackTopIs pckTypeArray (tagStack this)));
      [reflexivity|].
    unfold readContainerEnd. apply bind_congr2. apply Hkey. reflexivity.
  - apply bind_congr2. unfold pckReadObjBegin. apply bind_congr2.
    apply Hkey. reflexivity.
  - apply bind_congr2. unfold pckReadObjEnd. rewrite !bind_gets, Hstack.
    replace (length (updTop (setIdLast last') (tagStack this)))
      with (length (tagStack this)) by (destruct (tagStack this); reflexivity).
    replace (stackTopIs pckTypeObj (updTop (setIdLast last') (tagStack this)))
      with (stackTopIs pckTypeObj (tagStack this))
      by (destruct (tagStack this); reflexivity).
    destruct ((Z.of_nat (length (tagStack this)) =? 1)
              || negb (stackTopIs pckTypeObj (tagStack this)));
      [reflexivity|].
    unfold readContainerEnd. apply bind_congr2. apply Hkey. reflexivity.
Qed.

Lemma readerInv_nonempty start this stack last bytes :
  readerInv start this stack last bytes -> stackOk stack -> tagStack this <> [].
Proof.
  intros Hinv Hst.
  destruct (readerAt_stack _ _ _ (proj1 Hinv) Hst) as (top & r & Hss & _).
  destruct Hinv as [_ [[-> _]|(this1 & Hload & _ & ->)]]; [congruence|].
  destruct (keeps_loadTag _ _ _ Hload) as (Hstk & _). simpl.
  rewrite Hstk, Hss. discriminate.
Qed.

(** The IDs of the fields left unread before a call are below the ID the
    call looks for *)
Lemma rem_below rem : forall op ops stack last,
  last < ID_MAX ->
  opsOk stack last (rem ++ op :: ops) -> Forall opPassable rem ->
  Forall (opBelow (opTarget op)) rem /\ last < opTarget op.
Proof.
  induction rem as [|r rem IH]; intros op ops stack last Hlast Hok Hpass.
  - split; [constructor|]. cbn [app] in Hok.
    destruct op; simpl in *; try exact Hlast; try contradiction; lia.
  - inversion Hpass as [|? ? Hp Hpass']; subst.
    destruct r as [f id defaultNull| | | | |]; try contradiction.
    cbn [app opsOk] in Hok. destruct Hok as (Hid & Hf & Hok).
    destruct (IH op ops _ id ltac:(lia) Hok Hpass') as (Hall & Hlt).
    split; [constructor; [simpl; lia|exact Hall]|lia].
Qed.

(** One read of a plan: the value written is returned whatever passable
    fields are left unread before it *)
Lemma segment_read rem op ops stack last this post :
  opsOk stack last (rem ++ op :: ops) ->
  stepsTo stack last this (opsBytes stack (rem ++ op :: ops) ++ 0 :: post) ->
  Forall opPassable rem -> rem = [] \/ opSkips op = true ->
  exists this' stack' last',
    opRead op this = Ok (opValues op, this') /\
    opsOk stack' last' ops /\
    stepsTo stack' last' this' (opsBytes stack' ops ++ 0 :: post).
Proof.
  intros Hok Hsteps Hpass [->|Hskips];
    [exact (opRead_step op ops stack last this post Hok Hsteps)|].
  destruct Hsteps as (Hst & Hlast & start & Hinv).
  destruct (rem_below rem op ops stack last (proj2 Hlast) Hok Hpass)
    as (Hbelow & Hlt).
  destruct (pckReadTagLoop_passes rem (op :: ops) stack last last start this
              (0 :: post) Hst (proj1 Hlast) ltac:(lia) (proj2 Hlast) Hok Hpass
              Hinv)
    as (start' & this' & stack' & last' & passed & Hinv' & Hst' & Htl'
        & Hmax' & Hok' & Hle & Hstack' & Hloop).
  pose proof (stackOk_top _ Hst) as Htop.
  assert (Hlt' : last' < opTarget op).
  { destruct (Hloop (fuelFor this) (opTarget op) pckTypeUnknown true Hbelow
                eq_refl (Nat.le_refl _)) as (_ & _ & [->|H]); lia. }
  assert (Hread : opRead op this = opRead op this').
  { apply (opRead_passes op this this' last' Hstack'); [|exact Hskips].
    intros type peek Hsize.
    apply (pckReadTag_passes this this' last last' passed);
      [exact (readerInv_wf _ _ _ _ _ Hinv)
      |exact (readerInv_wf _ _ _ _ _ Hinv')
      |exact (readerInv_nonempty _ _ _ _ _ Hinv Hst)
      |exact (readerInv_idLast _ _ _ _ _ Hinv)
      |exact Hstack'|lia|exact Hlt|exact Hlt'|].
    intros fuel Hfuel.
    destruct (Hloop fuel (opTarget op) type peek Hbelow Hsize Hfuel)
      as (Hrun & Hfuel' & _).
    split; assumption. }
  rewrite Hread.
  apply (opRead_step op ops stack' last' this' post Hok').
  split; [exact Hst'|split; [lia|exists start'; exact Hinv']].
Qed.

Lemma planWritten_cons rem op plan tail :
  planWritten ((rem, op) :: plan) tail = rem ++ op :: planWritten plan tail.
Proof.
  unfold planWritten. cbn [flat_map fst snd]. rewrite <- !app_assoc.
  reflexivity.
Qed.

Lemma plan_read plan : forall tail stack last this post,
  opsOk stack last (planWritten plan tail) ->
  stepsTo stack last this (opsBytes stack (planWritten plan tail) ++ 0 :: post) ->
  planOk plan ->
  exists this',
    opsRead (planRead plan) this = Ok (opsValues (planRead plan), this').
Proof.
  induction plan as [|[rem op] plan IH];
    intros tail stack last this post Hok Hsteps Hplan.
  - exists this. reflexivity.
  - inversion Hplan as [|? ? (Hpass & Hskips) Hplan']; subst.
    cbn [fst snd] in Hpass, Hskips. rewrite planWritten_cons in Hok, Hsteps.
    destruct (segment_read rem op _ stack last this post Hok Hsteps Hpass
                Hskips)
      as (this1 & stack1 & last1 & Hread & Hok1 & Hsteps1).
    destruct (IH tail stack1 last1 this1 post Hok1 Hsteps1 Hplan')
      as (this' & Hreads).
    exists this'. cbn [planRead map snd opsRead].
    rewrite (bind_Ok _ _ _ _ _ Hread).
    fold (planRead plan). rewrite (bind_Ok _ _ _ _ _ Hreads).
    rewrite opsValues_cons. reflexivity.
Qed.

(** X6. Reading some of the fields.  From a pack written by a sequence of
    calls at explicit ascending IDs, a reader that makes only some of the
    matching reads, in order, gets the values written for them, provided
    that every call left unread before a read is a typed write that was
    elided or wrote no data after its tag (no string or blob with bytes, no
    container), and that the read after a gap is a typed read with
    [defaultNull], a typed read of a type without size, or a container
    call.  What follows the last read need not be read. *)
Theorem pack_read_some (plan : list (list Op * Op)) (tail : list Op) :
  opsOk [newFrame pckTypeObj] 0 (planWritten plan tail) ->
  planOk plan ->
  exists bytes,
    pckWriteAll (planWritten plan tail) = Ok bytes /\
    (Z.of_nat (length bytes) < 18446744073709551616 ->
     resultOf (opsRead (planRead plan) (pckReadNewBuf bytes))
     = Ok (opsValues (planRead plan))).
Proof.
  intros Hok Hplan.
  exists (opsBytes [newFrame pckTypeObj] (planWritten plan tail) ++ [0]).
  split; [apply pckWriteAll_bytes; exact Hok|]. intros Hlen.
  destruct (plan_read plan tail [newFrame pckTypeObj] 0
              (pckReadNewBuf
                 (opsBytes [newFrame pckTypeObj] (planWritten plan tail) ++ [0]))
              [] Hok (stepsTo_new _ Hlen) Hplan) as (this' & Hread).
  rewrite Hread. reflexivity.
Qed.

(** An object with two integers, a string, an array of three fields and a
    last integer; the reader asks for the string, enters the array, reads
    its second field and leaves it *)
Lemma pack_read_some_witness :
  let plan :=
    [([OpField (FU32 5 0) 1 false; OpField (FBool true false) 2 false],
      OpField (FStr (Some [97]) None) 3 true);
     ([], OpArrayBegin 5);
     ([OpField (FU32 5 0) 1 false], OpField (FI32 (-3) 0) 4 false);
     ([OpField (FBool true false) 6 false], OpArrayEnd)] in
  let tail := [OpField (FI64 9 0) 7 false] in
  (opsOk [newFrame pckTypeObj] 0 (planWritten plan tail) /\ planOk plan) /\
  exists bytes,
    pckWriteAll (planWritten plan tail) = Ok bytes /\
    resultOf (opsRead (planRead plan) (pckReadNewBuf bytes))
    = Ok [VStr (Some [97]); VI32 (-3)].
Proof.
  intros plan tail.
  assert (Hok : opsOk [newFrame pckTypeObj] 0 (planWritten plan tail)).
  { subst plan tail. unfold ID_MAX. simpl. repeat split; lia. }
  assert (Hplan : planOk plan).
  { subst plan. unfold planOk.
    repeat (apply Forall_cons;
            [split;
             [repeat (apply Forall_cons; [simpl; auto|]); apply Forall_nil
             |simpl; auto]|]).
    apply Forall_nil. }
  split; [auto|].
  destruct (pack_read_some plan tail Hok Hplan) as (bytes & Hwrite & Hread).
  exists bytes. split; [exact Hwrite|].
  apply Hread.
  assert (Hb : Ok bytes = pckWriteAll (planWritten plan tail))
    by (symmetry; exact Hwrite).
  vm_compute in Hb. injection Hb as ->. simpl. lia.
Defined.

(** * Implicit IDs *)

(** ** A call at ID 0 is the call at the ID that follows *)

Lemma pckWriteTag_implicit t value w top r :
  wTagStack w = top :: r ->
  implicitId (top :: r) <> 0 -> idLast top < implicitId (top :: r) ->
  pckWriteTag t 0 value w = pckWriteTag t (implicitId (top :: r)) value w.
Proof.
  intros Hst Hnz Hlt. cbn [implicitId] in *.
  unfold pckWriteTag.
  unfold bind at 1, topOf at 1. rewrite Hst.
  unfold bind at 1, topOf at 1. rewrite Hst.
  symmetry.
  unfold bind at 1, topOf at 1. rewrite Hst.
  unfold bind at 1, topOf at 1. rewrite Hst.
  destruct (Z.eqb_spec (u32 (idLast top + nullTotal top + 1)) 0) as [Hz|_];
    [contradiction|].
  change (0 =? 0) with true. cbv iota.
  apply bind_congr2.
  unfold bind, assert, ret.
  destruct (Z.ltb_spec (idLast top) (u32 (idLast top + nullTotal top + 1)));
    [reflexivity|lia].
Qed.

Lemma fieldWrite_implicit f defaultNull w top r :
  wTagStack w = top :: r ->
  implicitId (top :: r) <> 0 -> idLast top < implicitId (top :: r) ->
  fieldWrite f 0 defaultNull w = fieldWrite f (implicitId (top :: r)) defaultNull w.
Proof.
  intros Hst Hnz Hlt.
  destruct (defaultNull && fieldIsDefault f) eqn:He.
  - rewrite !(fieldWrite_elided _ _ _ _ He). reflexivity.
  - destruct f as [v|v dv|v dv|v dv|v|v dv|v dv|v dv|v dv];
      unfold fieldWrite, pckWriteBin, pckWriteBool, pckWriteI32, pckWriteI64,
        pckWritePtr, pckWriteStr, pckWriteTime, pckWriteU32, pckWriteU64;
      unfold fieldIsDefault in He;
      rewrite !(bind_pckWriteDefaultNull_false _ _ _ _ He); cbn [negb];
      try apply (pckWriteTag_implicit _ _ w top r Hst Hnz Hlt);
      (destruct v as [bytes|]; [|reflexivity]);
      apply bind_congr2; apply (pckWriteTag_implicit _ _ w top r Hst Hnz Hlt).
Qed.

Lemma opWrite_implicit op w top r :
  wTagStack w = top :: r ->
  implicitId (top :: r) <> 0 -> idLast top < implicitId (top :: r) ->
  opWrite op w = opWrite (opExplicit (top :: r) op) w.
Proof.
  intros Hst Hnz Hlt.
  destruct op as [f id defaultNull| |id| |id|]; cbn [opExplicit opWrite];
    try reflexivity;
    (destruct (Z.eqb_spec id 0) as [->|_]; [|reflexivity]).
  - apply (fieldWrite_implicit f defaultNull w top r Hst Hnz Hlt).
  - unfold pckWriteArrayBegin. apply bind_congr2.
    apply (pckWriteTag_implicit _ _ w top r Hst Hnz Hlt).
  - unfold pckWriteObjBegin. apply bind_congr2.
    apply (pckWriteTag_implicit _ _ w top r Hst Hnz Hlt).
Qed.

Lemma pckReadTag_implicit t peek this top r :
  tagStack this = top :: r ->
  0 <= idLast top -> idLast top + 1 < 4294967296 ->
  pckReadTag 0 t peek this = pckReadTag (idLast top + 1) t peek this.
Proof.
  intros Hst H0 Hmax. unfold pckReadTag.
  apply bind_ext_at. intros u s' Ha.
  assert (Hs : s' = this)
    by (unfold assert in Ha; destruct (_ || _); inversion Ha; reflexivity).
  clear Ha. subst s'.
  rewrite !(bind_topOf _ _ _ _ _ Hst).
  change (0 =? 0) with true. cbv iota.
  destruct (Z.eqb_spec (idLast top + 1) 0); [lia|].
  destruct (Z.leb_spec (idLast top + 1) (idLast top)); [lia|].
  rewrite u32_small by lia. reflexivity.
Qed.

Lemma fieldRead_implicit f defaultNull this top r :
  tagStack this = top :: r ->
  0 <= idLast top -> idLast top + 1 < 4294967296 ->
  fieldRead f 0 defaultNull this = fieldRead f (idLast top + 1) defaultNull this.
Proof.
  intros Hst H0 Hmax.
  pose proof (fun t p => pckReadTag_implicit t p this top r Hst H0 Hmax) as Htag.
  destruct f as [v|v dv|v dv|v dv|v|v dv|v dv|v dv|v dv];
    unfold fieldRead, pckReadBin, pckReadBool, pckReadI32, pckReadI64,
      pckReadPtr, pckReadStr, pckReadTime, pckReadU32, pckReadU64;
    apply bind_congr2;
    (destruct defaultNull; unfold pckReadDefaultNull;
     [ apply bind_congr2; apply bind_congr2;
       unfold pckReadNullInternal; apply bind_congr2; apply Htag
     | rewrite !bind_ret; cbn [fst snd]; apply bind_congr2; apply Htag ]).
Qed.


(** ** The stack and the last ID after a call *)

Lemma opsOk_step op ops stack last :
  opsOk stack last (op :: ops) -> stackOk stack ->
  topIdLast stack <= last < ID_MAX ->
  opsOk (opStack stack op) (opLast stack last op) ops /\
  stackOk (opStack stack op) /\
  topIdLast (opStack stack op) <= opLast stack last op < ID_MAX.
Proof.
  intros Hok Hst Hlast. pose proof (stackOk_top _ Hst) as Htop.
  destruct op as [f id defaultNull| |id| |id|]; cbn [opsOk] in Hok;
    cbn [opStack opLast].
  - destruct Hok as (Hid & Hf & Hok).
    destruct (defaultNull && fieldIsDefault f).
    + split; [exact Hok|]. split; [apply stackOk_afterNull; exact Hst|].
      destruct stack; simpl in *; lia.
    + split; [exact Hok|].
      split; [apply stackOk_afterTag; [lia|exact Hst]|].
      destruct stack; simpl in *; lia.
  - contradiction.
  - destruct Hok as (Hid & Hok). split; [exact Hok|].
    split; [apply stackOk_push, stackOk_afterTag; [lia|exact Hst]|].
    unfold ID_MAX. simpl. lia.
  - destruct Hok as (Htopis & Hlen & Hok). split; [exact Hok|].
    pose proof (stackOk_tl _ Hlen Hst) as Hst'.
    split; [exact Hst'|]. pose proof (stackOk_top _ Hst'). lia.
  - destruct Hok as (Hid & Hok). split; [exact Hok|].
    split; [apply stackOk_push, stackOk_afterTag; [lia|exact Hst]|].
    unfold ID_MAX. simpl. lia.
  - destruct Hok as (Htopis & Hlen & Hok). split; [exact Hok|].
    pose proof (stackOk_tl _ Hlen Hst) as Hst'.
    split; [exact Hst'|]. pose proof (stackOk_top _ Hst'). lia.
Qed.

Lemma nullsOk_step op ops stack last :
  opsOk stack last (op :: ops) -> stackOk stack ->
  topIdLast stack <= last < ID_MAX -> nullsOk stack last ->
  nullsOk (opStack stack op) (opLast stack last op).
Proof.
  intros Hok Hst Hlast Hn. pose proof (stackOk_top _ Hst) as Htop.
  destruct stack as [|top r]; [destruct Hst; congruence|].
  cbn [topIdLast] in *. destruct Hn as (Hn0 & Hn & Hr).
  assert (Hpush : forall t id,
            nullsOk (newFrame t :: afterTag id (top :: r)) 0).
  { intros t id. simpl. repeat split; try lia. constructor; [reflexivity|exact Hr]. }
  assert (Hpop : nullsOk r (topIdLast r)).
  { destruct r as [|top2 r2]; [exact I|]. inversion Hr as [|? ? H2 Hr2]; subst.
    simpl. rewrite H2. repeat split; try lia. exact Hr2. }
  destruct op as [f id defaultNull| |id| |id|]; cbn [opsOk] in Hok;
    cbn [opStack opLast]; try contradiction;
    try apply Hpush; try exact Hpop.
  destruct Hok as (Hid & _).
  destruct (defaultNull && fieldIsDefault f).
  - cbn [afterNull updTop nullsOk]. destruct top as [ty il nt].
    cbn [nullTotal idLast setNullTotal] in *.
    unfold ID_MAX in *. rewrite u32_small by lia.
    repeat split; try lia. exact Hr.
  - cbn [afterTag updTop nullsOk nullTotal idLast].
    repeat split; try lia. exact Hr.
Qed.

(** The state of the writer after a call *)
Lemma opWrite_stack op ops stack last b :
  opsOk stack last (op :: ops) -> stackOk stack -> topIdLast stack <= last ->
  exists b',
    opWrite op (mkPackWrite b stack) = Ok (tt, mkPackWrite b' (opStack stack op)).
Proof.
  intros Hok Hst Hlast. pose proof (stackOk_top _ Hst) as Htop.
  destruct op as [f id defaultNull| |id| |id|]; cbn [opsOk] in Hok;
    cbn [opStack opWrite].
  - destruct Hok as (Hid & Hf & _).
    destruct (defaultNull && fieldIsDefault f) eqn:He.
    + exists b. rewrite (fieldWrite_elided _ _ _ _ He).
      apply pckWriteNull_run. exact (proj1 Hst).
    + destruct stack as [|top r]; [destruct Hst; congruence|].
      simpl in Hlast, Htop. eexists.
      apply (fieldWrite_bytes f id defaultNull b top r He Hf); lia.
  - contradiction.
  - destruct Hok as (Hid & _). eexists.
    apply (containerBegin_bytes pckTypeArray id b stack (or_introl eq_refl)
             (proj1 Hst)); lia.
  - destruct Hok as (Htopis & Hlen & _). eexists.
    apply (containerEnd_bytes pckTypeArray _ _ b stack Htopis Hlen).
  - destruct Hok as (Hid & _). eexists.
    apply (containerBegin_bytes pckTypeObj id b stack (or_intror eq_refl)
             (proj1 Hst)); lia.
  - destruct Hok as (Htopis & Hlen & _). eexists.
    apply (containerEnd_bytes pckTypeObj _ _ b stack Htopis Hlen).
Qed.

(** The state of the reader after the matching read *)
Lemma opRead_step_at op ops stack last this post :
  opsOk stack last (op :: ops) ->
  stepsTo stack last this (opsBytes stack (op :: ops) ++ 0 :: post) ->
  exists this',
    opRead op this = Ok (opValues op, this') /\
    stepsTo (opStack stack op) (opLast stack last op) this'
      (opsBytes (opStack stack op) ops ++ 0 :: post).
Proof.
  intros Hok (Hst & Hlast & start & Hinv).
  destruct op as [f id defaultNull| |id| |id|]; simpl in Hok;
    cbn [opsBytes] in Hinv; cbn [opRead opValues opStack opLast].
  - destruct Hok as (Hid & Hf & Hok).
    destruct (defaultNull && fieldIsDefault f) eqn:He.
    + apply andb_true_iff in He as [-> Hdef].
      destruct (step_elided stack last start this _ Hst Hlast f id Hinv Hid Hdef)
        as (this' & Hread & Hsteps).
      { apply (next_tag_above ops (afterNull stack) id start post Hok
                 (stackOk_afterNull _ Hst)
                 ltac:(destruct stack; simpl in *; lia)
                 (readerAt_afterNull _ _ _ (proj1 Hinv))). }
      exists this'. rewrite (bind_Ok _ _ _ _ _ Hread). auto.
    + rewrite <- !app_assoc in Hinv.
      destruct (step_field stack last start this _ Hst Hlast f id defaultNull
                  _ Hinv eq_refl Hid Hf He) as (this' & Hread & Hsteps).
      exists this'. rewrite (bind_Ok _ _ _ _ _ Hread). auto.
  - contradiction.
  - destruct Hok as (Hid & Hok). rewrite <- !app_assoc in Hinv.
    destruct (step_begin stack last start this _ Hst Hlast pckTypeArray id
                _ (or_introl eq_refl) Hinv eq_refl Hid)
      as (this' & Hread & Hsteps).
    exists this'.
    unfold pckReadArrayBegin. rewrite (bind_Ok _ _ _ _ _ Hread). auto.
  - destruct Hok as (Htopis & Hlen & Hok). simpl app in Hinv.
    destruct (step_end stack last start this _ Hst Hlast pckTypeArray
                "not in array" _ Hinv eq_refl Htopis Hlen)
      as (this' & Hread & Hsteps).
    exists this'.
    unfold pckReadArrayEnd. rewrite (bind_Ok _ _ _ _ _ Hread). auto.
  - destruct Hok as (Hid & Hok). rewrite <- !app_assoc in Hinv.
    destruct (step_begin stack last start this _ Hst Hlast pckTypeObj id
                _ (or_intror eq_refl) Hinv eq_refl Hid)
      as (this' & Hread & Hsteps).
    exists this'.
    unfold pckReadObjBegin. rewrite (bind_Ok _ _ _ _ _ Hread). auto.
  - destruct Hok as (Htopis & Hlen & Hok). simpl app in Hinv.
    destruct (step_end stack last start this _ Hst Hlast pckTypeObj
                "not in object" _ Hinv eq_refl Htopis Hlen)
      as (this' & Hread & Hsteps).
    exists this'.
    unfold pckReadObjEnd. rewrite (bind_Ok _ _ _ _ _ Hread). auto.
Qed.

(** ** The two ways of numbering agree *)

(** The writer's implicit ID is the one after the last ID used, which is
    the reader's *)
Lemma implicitId_last stack last :
  stackOk stack -> nullsOk stack last -> last < ID_MAX ->
  last < implicitId stack -> implicitId stack = last + 1.
Proof.
  intros Hst Hn Hmax Hlt. pose proof (stackOk_top _ Hst) as Htop.
  destruct stack as [|top r]; [destruct Hst; congruence|].
  cbn [implicitId nullsOk topIdLast] in *. destruct Hn as (Hn0 & Hn & _).
  unfold ID_MAX in *. rewrite u32_small in * by lia. lia.
Qed.

Lemma opWrite_explicit op ops stack last b :
  opsOk stack last (opExplicit stack op :: ops) -> stackOk stack ->
  topIdLast stack <= last ->
  opWrite op (mkPackWrite b stack)
  = opWrite (opExplicit stack op) (mkPackWrite b stack).
Proof.
  intros Hok Hst Hlast. pose proof (stackOk_top _ Hst) as Htop.
  destruct stack as [|top r]; [destruct Hst; congruence|].
  cbn [topIdLast] in *.
  destruct op as [f id defaultNull| |id| |id|]; try reflexivity;
    (destruct (Z.eqb_spec id 0) as [Hz|Hnz];
     [subst id
     |unfold opExplicit; destruct (Z.eqb_spec id 0); [contradiction|reflexivity]]);
    apply opWrite_implicit; try reflexivity;
    unfold opExplicit in Hok; change (0 =? 0) with true in Hok; cbv iota in Hok;
    cbn [opsOk] in Hok; destruct Hok as (Hid & _); lia.
Qed.

Lemma opRead_explicit op ops stack last this bytes :
  opsOk stack last (opExplicit stack op :: ops) ->
  nullsOk stack last -> stepsTo stack last this bytes ->
  opRead op this = opRead (opExplicit stack op) this.
Proof.
  intros Hok Hn (Hst & Hlast & start & Hinv).
  pose proof (readerInv_nonempty _ _ _ _ _ Hinv Hst) as Hne.
  pose proof (readerInv_idLast _ _ _ _ _ Hinv) as Hid.
  destruct (tagStack this) as [|top r] eqn:Hts; [congruence|].
  cbn [updTop] in Hid. injection Hid as Htop.
  assert (Hil : idLast top = last) by (rewrite Htop; reflexivity).
  pose proof (stackOk_top _ Hst) as Htop0.
  assert (Hnext : last < implicitId stack -> implicitId stack = idLast top + 1).
  { intros Hlt. rewrite Hil. apply implicitId_last; auto; lia. }
  assert (Hb : 0 <= idLast top /\ idLast top + 1 < 4294967296)
    by (unfold ID_MAX in *; lia).
  destruct op as [f id defaultNull| |id| |id|]; try reflexivity;
    (destruct (Z.eqb_spec id 0) as [Hz|Hnz];
     [subst id
     |unfold opExplicit; destruct (Z.eqb_spec id 0); [contradiction|reflexivity]]);
    unfold opExplicit in *; change (0 =? 0) with true in *; cbv iota in *;
    cbn [opsOk] in Hok; destruct Hok as (Hlt & _);
    rewrite (Hnext (proj1 Hlt)); cbn [opRead].
  - apply bind_congr2.
    apply (fieldRead_implicit f defaultNull this top r Hts); lia.
  - unfold pckReadArrayBegin. apply bind_congr2. apply bind_congr2.
    apply (pckReadTag_implicit _ _ this top r Hts); lia.
  - unfold pckReadObjBegin. apply bind_congr2. apply bind_congr2.
    apply (pckReadTag_implicit _ _ this top r Hts); lia.
Qed.

Lemma opsWrite_explicit ops : forall stack last b,
  opsOk stack last (explicit stack ops) -> stackOk stack ->
  topIdLast stack <= last < ID_MAX ->
  opsWrite ops (mkPackWrite b stack)
  = opsWrite (explicit stack ops) (mkPackWrite b stack).
Proof.
  induction ops as [|op ops IH]; intros stack last b Hok Hst Hlast;
    [reflexivity|].
  cbn [explicit opsWrite] in *.
  etransitivity.
  { apply bind_congr2.
    apply (opWrite_explicit op _ stack last b Hok Hst (proj1 Hlast)). }
  apply bind_ext_at. intros u w1 Hw1.
  destruct (opWrite_stack _ _ stack last b Hok Hst (proj1 Hlast)) as (b' & Hrun).
  rewrite Hrun in Hw1. destruct u. injection Hw1 as <-.
  destruct (opsOk_step _ _ _ _ Hok Hst Hlast) as (Hok' & Hst' & Hlast').
  apply (IH _ _ b' Hok' Hst' Hlast').
Qed.

Lemma opsRead_explicit ops : forall stack last this post,
  opsOk stack last (explicit stack ops) -> nullsOk stack last ->
  stepsTo stack last this (opsBytes stack (explicit stack ops) ++ 0 :: post) ->
  opsRead ops this = opsRead (explicit stack ops) this.
Proof.
  induction ops as [|op ops IH]; intros stack last this post Hok Hn Hsteps;
    [reflexivity|].
  cbn [explicit opsRead] in *.
  etransitivity.
  { apply bind_congr2. apply (opRead_explicit op _ stack last this _ Hok Hn Hsteps). }
  apply bind_ext_at. intros vs this1 Hr1.
  destruct (opRead_step_at _ _ stack last this post Hok Hsteps)
    as (this' & Hread & Hsteps').
  rewrite Hread in Hr1. injection Hr1 as Hvs Hthis. subst vs this1.
  destruct Hsteps as (Hst & Hlast & _).
  destruct (opsOk_step _ _ _ _ Hok Hst Hlast) as (Hok' & _).
  pose proof (nullsOk_step _ _ _ _ Hok Hst Hlast Hn) as Hn'.
  apply bind_congr2. apply (IH _ _ this' post Hok' Hn' Hsteps').
Qed.

Lemma opsValues_explicit ops : forall stack,
  opsValues (explicit stack ops) = opsValues ops.
Proof.
  induction ops as [|op ops IH]; intros stack; [reflexivity|].
  cbn [explicit]. rewrite !opsValues_cons, IH. destruct op; reflexivity.
Qed.

(** X7. The round trip with implicit IDs.  A call may leave its ID out
    (ID 0): the writer then numbers the tag [idLast + nullTotal + 1], the
    elided writes before it counted, and the reader asks for [idLast + 1].
    For every sequence of calls whose IDs, the given ones and the ones the
    writer fills in, are ascending in each frame and below [ID_MAX], the
    writer produces the bytes of the same calls with all IDs written out,
    and the same calls read in order, again with ID 0 where it was left
    out, return the values written; an elided field among them is read
    back as its default. *)
Theorem implicit_ids_roundtrip (ops : list Op) :
  opsOk [newFrame pckTypeObj] 0 (explicit [newFrame pckTypeObj] ops) ->
  exists bytes,
    pckWriteAll ops = Ok bytes /\
    pckWriteAll (explicit [newFrame pckTypeObj] ops) = Ok bytes /\
    (Z.of_nat (length bytes) < 18446744073709551616 ->
     resultOf (opsRead ops (pckReadNewBuf bytes)) = Ok (opsValues ops)).
Proof.
  intros Hok. set (stack := [newFrame pckTypeObj]) in *.
  assert (Hst : stackOk stack)
    by (split; [discriminate|repeat constructor; unfold ID_MAX; simpl; lia]).
  assert (Hlast : topIdLast stack <= 0 < ID_MAX) by (unfold ID_MAX; simpl; lia).
  assert (Hn : nullsOk stack 0) by (simpl; repeat split; try lia; constructor).
  exists (opsBytes stack (explicit stack ops) ++ [0]).
  pose proof (pckWriteAll_bytes _ Hok) as Hw.
  split; [|split; [exact Hw|]].
  - etransitivity; [|exact Hw]. unfold pckWriteAll. f_equal. apply bind_congr2.
    apply (opsWrite_explicit ops stack 0 [] Hok Hst Hlast).
  - intros Hlen.
    pose proof (stepsTo_new _ Hlen) as Hsteps.
    rewrite (opsRead_explicit ops stack 0 _ [] Hok Hn Hsteps).
    destruct (opsRead_written (explicit stack ops) [] stack 0
                (pckReadNewBuf (opsBytes stack (explicit stack ops) ++ [0])) [])
      as (this' & stack' & last' & Hread & _).
    + rewrite app_nil_r. exact Hok.
    + rewrite app_nil_r. exact Hsteps.
    + rewrite Hread. simpl. rewrite opsValues_explicit. reflexivity.
Qed.

(** Fields, two of them elided, and an array, all without IDs but one *)
Lemma implicit_ids_roundtrip_witness :
  let ops :=
    [OpField (FU32 7 0) 0 false;
     OpField (FBool false false) 0 true;
     OpField (FStr (Some [104; 105]) None) 0 false;
     OpArrayBegin 0;
     OpField (FI32 (-2) 0) 0 false;
     OpField (FU64 5 5) 0 true;
     OpArrayEnd;
     OpField (FI64 9 0) 7 false;
     OpField (FBin (Some [1; 2])) 0 false] in
  explicit [newFrame pckTypeObj] ops
  = [OpField (FU32 7 0) 1 false;
     OpField (FBool false false) 2 true;
     OpField (FStr (Some [104; 105]) None) 3 false;
     OpArrayBegin 4;
     OpField (FI32 (-2) 0) 1 false;
     OpField (FU64 5 5) 2 true;
     OpArrayEnd;
     OpField (FI64 9 0) 7 false;
     OpField (FBin (Some [1; 2])) 8 false] /\
  opsOk [newFrame pckTypeObj] 0 (explicit [newFrame pckTypeObj] ops) /\
  exists bytes,
    pckWriteAll ops = Ok bytes /\
    resultOf (opsRead ops (pckReadNewBuf bytes))
    = Ok [VU32 7; VBool false; VStr (Some [104; 105]); VI32 (-2); VU64 5;
          VI64 9; VBin (Some [1; 2])].
Proof.
  intros ops. split; [reflexivity|].
  assert (Hok : opsOk [newFrame pckTypeObj] 0 (explicit [newFrame pckTypeObj] ops)).
  { subst ops. unfold ID_MAX. simpl. repeat split; lia. }
  split; [exact Hok|].
  destruct (implicit_ids_roundtrip ops Hok) as (bytes & Hwrite & _ & Hread).
  exists bytes. split; [exact Hwrite|].
  apply Hread.
  assert (Hb : Ok bytes = pckWriteAll ops) by (symmetry; exact Hwrite).
  vm_compute in Hb. injection Hb as ->. simpl. lia.
Defined.

(** * The end of a pack *)

Lemma readerInv_length start this stack last bytes :
  readerInv start this stack last bytes -> length (tagStack this) = length stack.
Proof.
  intros [(Hwf & Hnext & Hu & Hsame) Hcase].
  destruct Hcase as [[-> _]|(this1 & Hload & _ & ->)].
  - exact (sameFrames_length _ _ Hsame).
  - destruct (keeps_loadTag _ _ _ Hload) as (Hstk & _). simpl.
    rewrite Hstk, <- (sameFrames_length _ _ Hsame).
    destruct (tagStack start); reflexivity.
Qed.

(** Calls that only write fields leave the writer in the frame it was in *)
Lemma fields_outermost rem : forall stack last,
  opsOk stack last rem -> Forall opPassable rem ->
  length stack = 1%nat /\ Forall (opBelow ID_MAX) rem.
Proof.
  induction rem as [|op rem IH]; intros stack last Hok Hpass.
  - split; [exact Hok|constructor].
  - inversion Hpass as [|? ? Hp Hpass']; subst.
    destruct op as [f id defaultNull| | | | |]; try contradiction.
    cbn [opsOk] in Hok. destruct Hok as (Hid & _ & Hok).
    destruct (IH _ _ Hok Hpass') as (Hlen & Hbelow).
    split; [|constructor; [simpl; lia|exact Hbelow]].
    rewrite <- Hlen.
    destruct (defaultNull && fieldIsDefault f); destruct stack; reflexivity.
Qed.

(** Looking for the end of the frame at the terminator *)
Lemma pckReadTag_terminator stack last this post :
  stepsTo stack last this (0 :: post) ->
  exists this',
    pckReadTag ID_MAX pckTypeUnknown true this
    = Ok ((ID_MAX, tagNextValue this'), this') /\
    unread this' = post /\
    length (tl (tagStack this')) = pred (length stack).
Proof.
  intros (Hst & Hlast & start & Hinv).
  destruct (loadTag_terminator start stack _ post (proj1 Hinv) eq_refl)
    as (Hl & Hwf1 & Hu1).
  set (this1 := setTagNextId 0xFFFFFFFF (advance 1 start)) in *.
  assert (Hnz : tagNextId this1 <> 0) by (simpl; lia).
  destruct (readerInv_load _ _ _ _ _ this1 Hinv Hl Hnz) as (Hload & Hstk).
  destruct (readerAt_stack _ _ _ (proj1 Hinv) Hst) as (top & r & Hss & Hidl).
  rewrite Hss in Hstk. cbn [updTop] in Hstk.
  destruct (pckReadTagLoop_skips [] stack last last start this
              (pckReadTagFuel this) post Hst (proj1 Hlast)
              ltac:(lia) I Hinv) as (this' & Hloop & Hwf' & Hu' & Hnext' & Htl').
  { apply (pckReadTagFuel_enough this (readerInv_wf _ _ _ _ _ Hinv)). }
  exists this'. split; [|split; [exact Hu'|]].
  - unfold pckReadTag. fold (validCall pckTypeUnknown true).
    rewrite (pckReadTag_start this (setIdLast last top) r ID_MAX
               pckTypeUnknown true eq_refl Hstk (or_intror (proj2 Hlast))).
    cbv beta. rewrite (requestedId_explicit this ID_MAX ltac:(discriminate)).
    rewrite bind_gets, (bind_Ok _ _ _ _ _ Hloop). reflexivity.
  - rewrite Htl'. destruct Hinv as [(_ & _ & _ & Hsame) _].
    rewrite <- (sameFrames_length _ _ Hsame).
    destruct (tagStack start); reflexivity.
Qed.

(** Looking for the end of the frame with fields left unread *)
Lemma pckReadTag_to_end rem stack last this post :
  opsOk stack last rem -> Forall opPassable rem ->
  stepsTo stack last this (opsBytes stack rem ++ 0 :: post) ->
  exists r this',
    pckReadTag ID_MAX pckTypeUnknown true this = Ok (r, this') /\
    unread this' = post /\ tl (tagStack this') = [].
Proof.
  intros Hok Hpass (Hst & Hlast & start & Hinv).
  destruct (fields_outermost rem stack last Hok Hpass) as (_ & Hbelow).
  rewrite <- (app_nil_r rem) in Hok, Hinv.
  destruct (pckReadTagLoop_passes rem [] stack last last start this
              (0 :: post) Hst (proj1 Hlast) ltac:(lia) (proj2 Hlast) Hok Hpass
              Hinv)
    as (start' & this' & stack' & last' & passed & Hinv' & Hst' & Htl'
        & Hmax' & Hok' & Hle & Hstack' & Hloop).
  assert (Hsame : pckReadTag ID_MAX pckTypeUnknown true this
                  = pckReadTag ID_MAX pckTypeUnknown true this').
  { apply (pckReadTag_passes this this' last last' passed);
      [exact (readerInv_wf _ _ _ _ _ Hinv)
      |exact (readerInv_wf _ _ _ _ _ Hinv')
      |exact (readerInv_nonempty _ _ _ _ _ Hinv Hst)
      |exact (readerInv_idLast _ _ _ _ _ Hinv)
      |exact Hstack'|discriminate|lia|lia|].
    intros fuel Hfuel.
    destruct (Hloop fuel ID_MAX pckTypeUnknown true Hbelow eq_refl Hfuel)
      as (Hrun & Hfuel' & _).
    split; assumption. }
  destruct (pckReadTag_terminator stack' last' this' post)
    as (this2 & Hpeek & Hu & Hlen).
  { split; [exact Hst'|split; [lia|exists start'; exact Hinv']]. }
  exists (ID_MAX, tagNextValue this2), this2.
  rewrite Hsame. split; [exact Hpeek|split; [exact Hu|]].
  cbn [opsOk] in Hok'. rewrite Hok' in Hlen.
  destruct (tl (tagStack this2)); [reflexivity|discriminate].
Qed.

(** [pckReadEnd] in the outermost frame *)
Lemma pckReadEnd_outermost rem stack last this post :
  opsOk stack last rem -> Forall opPassable rem ->
  stepsTo stack last this (opsBytes stack rem ++ 0 :: post) ->
  exists this',
    pckReadEnd this = Ok (tt, this') /\
    unread this' = post /\ tagStack this' = [].
Proof.
  intros Hok Hpass Hsteps.
  destruct (pckReadTag_to_end rem stack last this post Hok Hpass Hsteps)
    as (r & this1 & Hpeek & Hu & Htl).
  destruct (fields_outermost rem stack last Hok Hpass) as (Hlen & _).
  destruct Hsteps as (_ & _ & start & Hinv).
  pose proof (readerInv_length _ _ _ _ _ Hinv) as Hlen'. rewrite Hlen in Hlen'.
  exists (setTagStack [] this1).
  split; [|split; [exact Hu|reflexivity]].
  unfold pckReadEnd. rewrite bind_gets, Hlen'.
  cbn [pckReadEndLoop].
  change (0xFFFFFFFF - 1) with ID_MAX.
  unfold bind at 1. unfold bind at 1. rewrite Hpeek. reflexivity.
Qed.

(** X8. [pckReadEnd] after the reads of a pack.  When the calls written
    are read in order up to some point in the outermost frame, the fields
    written after that point being elided or without a payload (no
    non-empty Str or Bin), [pckReadEnd] passes them, takes the terminator
    of the pack and empties the tag stack; the reader stands right after
    the pack, with the bytes that follow it in the buffer unread. *)
Theorem pckReadEnd_written (ops rem : list Op) (post : list Z) :
  opsOk [newFrame pckTypeObj] 0 (ops ++ rem) ->
  Forall opPassable rem ->
  exists bytes,
    pckWriteAll (ops ++ rem) = Ok bytes /\
    (Z.of_nat (length (bytes ++ post)) < 18446744073709551616 ->
     exists this',
       (vs <- opsRead ops ;; pckReadEnd ;; ret vs) (pckReadNewBuf (bytes ++ post))
       = Ok (opsValues ops, this') /\
       unread this' = post /\ tagStack this' = []).
Proof.
  intros Hok Hpass.
  exists (opsBytes [newFrame pckTypeObj] (ops ++ rem) ++ [0]).
  split; [apply pckWriteAll_bytes; exact Hok|]. intros Hlen.
  pose proof (stepsTo_new _ Hlen) as Hsteps.
  rewrite <- app_assoc in Hsteps. cbn [app] in Hsteps.
  rewrite <- app_assoc. cbn [app].
  destruct (opsRead_written ops rem [newFrame pckTypeObj] 0 _ post Hok Hsteps)
    as (this1 & stack1 & last1 & Hread & Hok1 & Hsteps1).
  destruct (pckReadEnd_outermost rem stack1 last1 this1 post Hok1 Hpass Hsteps1)
    as (this' & Hend & Hu & Hstack).
  exists this'. rewrite (bind_Ok _ _ _ _ _ Hread), (bind_Ok _ _ _ _ _ Hend).
  auto.
Qed.

(** A pack of four fields, the last two left unread, followed by two bytes
    that are not part of it *)
Lemma pckReadEnd_written_witness :
  let ops := [OpField (FU32 7 0) 1 false;
              OpField (FStr (Some [104; 105]) None) 2 false] in
  let rem := [OpField (FBool true false) 4 false;
              OpField (FStr (Some [97]) (Some [97])) 5 true] in
  (opsOk [newFrame pckTypeObj] 0 (ops ++ rem) /\ Forall opPassable rem) /\
  pckWriteAll (ops ++ rem) = Ok [168; 7; 136; 2; 104; 105; 57; 0] /\
  exists this',
    (vs <- opsRead ops ;; pckReadEnd ;; ret vs)
      (pckReadNewBuf ([168; 7; 136; 2; 104; 105; 57; 0] ++ [255; 254]))
    = Ok ([VU32 7; VStr (Some [104; 105])], this') /\
    unread this' = [255; 254] /\ tagStack this' = [].
Proof.
  intros ops rem.
  assert (Hok : opsOk [newFrame pckTypeObj] 0 (ops ++ rem)).
  { subst ops rem. unfold ID_MAX. simpl. repeat split; lia. }
  assert (Hpass : Forall opPassable rem).
  { subst rem. repeat (apply Forall_cons; [simpl; auto|]). apply Forall_nil. }
  split; [split; assumption|].
  destruct (pckReadEnd_written ops rem [255; 254] Hok Hpass)
    as (bytes & Hwrite & Hread).
  assert (Hb : Ok bytes = pckWriteAll (ops ++ rem)) by (symmetry; exact Hwrite).
  vm_compute in Hb. injection Hb as ->.
  split; [exact Hwrite|].
  apply Hread. simpl. lia.
Defined.

(** * Reads go forward *)

(** The reader after the reads of the first calls written *)
Lemma opsRead_written_at ops1 : forall ops2 stack last this post,
  opsOk stack last (ops1 ++ ops2) ->
  stepsTo stack last this (opsBytes stack (ops1 ++ ops2) ++ 0 :: post) ->
  exists this',
    opsRead ops1 this = Ok (opsValues ops1, this') /\
    opsOk (opsStack stack ops1) (opsLast stack last ops1) ops2 /\
    stepsTo (opsStack stack ops1) (opsLast stack last ops1) this'
      (opsBytes (opsStack stack ops1) ops2 ++ 0 :: post).
Proof.
  induction ops1 as [|op ops1 IH]; intros ops2 stack last this post Hok Hsteps.
  - exists this. auto.
  - cbn [app] in Hok, Hsteps.
    destruct (opRead_step_at op (ops1 ++ ops2) stack last this post Hok Hsteps)
      as (this1 & Hread & Hsteps1).
    destruct Hsteps as (Hst & Hlast & _).
    destruct (opsOk_step _ _ _ _ Hok Hst Hlast) as (Hok1 & _).
    destruct (IH ops2 _ _ this1 post Hok1 Hsteps1) as (this' & Hreads & Hok' & Hsteps').
    exists this'. cbn [opsRead opsStack opsLast].
    rewrite (bind_Ok _ _ _ _ _ Hread), (bind_Ok _ _ _ _ _ Hreads).
    rewrite opsValues_cons. auto.
Qed.

(** X9. Reads only go forward.  After the first calls of a written pack
    have been read, the last ID used in the current frame is that of the
    last field read there (the container's own ID after its end was read,
    0 in a container just entered), whether the field was present or
    elided, and every typed read, [pckReadNull] and container begin at an
    explicit ID not above it throws "field <id> was already read": no field
    is returned twice and none behind the reader can be reached. *)
Theorem reads_go_forward (ops1 ops2 : list Op) (id : Z) :
  opsOk [newFrame pckTypeObj] 0 (ops1 ++ ops2) ->
  id <> 0 -> id <= opsLast [newFrame pckTypeObj] 0 ops1 ->
  exists bytes,
    pckWriteAll (ops1 ++ ops2) = Ok bytes /\
    (Z.of_nat (length bytes) < 18446744073709551616 ->
     exists this',
       opsRead ops1 (pckReadNewBuf bytes) = Ok (opsValues ops1, this') /\
       let alreadyRead :=
         FormatError ("field " ++ fmtUInt id ++ " was already read") in
       (forall f defaultNull,
          fieldRead f id defaultNull this' = Throw alreadyRead) /\
       pckReadNull id this' = Throw alreadyRead /\
       pckReadArrayBegin id this' = Throw alreadyRead /\
       pckReadObjBegin id this' = Throw alreadyRead).
Proof.
  intros Hok Hnz Hle.
  exists (opsBytes [newFrame pckTypeObj] (ops1 ++ ops2) ++ [0]).
  split; [apply pckWriteAll_bytes; exact Hok|]. intros Hlen.
  destruct (opsRead_written_at ops1 ops2 [newFrame pckTypeObj] 0
              (pckReadNewBuf (opsBytes [newFrame pckTypeObj] (ops1 ++ ops2) ++ [0]))
              [] Hok (stepsTo_new _ Hlen))
    as (this' & Hread & _ & Hst & Hlast & start & Hinv).
  exists this'. split; [exact Hread|].
  pose proof (readerInv_nonempty _ _ _ _ _ Hinv Hst) as Hne.
  pose proof (readerInv_idLast _ _ _ _ _ Hinv) as Hid.
  destruct (tagStack this') as [|top r] eqn:Hts; [congruence|].
  cbn [updTop] in Hid. injection Hid as Htop.
  assert (Hil : id <= idLast top) by (rewrite Htop; simpl; lia).
  cbv zeta. split; [|split; [|split]].
  - intros f defaultNull.
    apply (fieldRead_already this' top r id Hts Hnz Hil).
  - apply (pckReadNull_already this' top r id Hts Hnz Hil).
  - apply (pckReadArrayBegin_already this' top r id Hts Hnz Hil).
  - apply (pckReadObjBegin_already this' top r id Hts Hnz Hil).
Qed.

(** A field, an elided field and an array entered at ID 5 with one field
    read in it: inside the array the last ID is 1 and a second read at ID 1
    throws; once the end of the array is read the last ID is 5, that of
    the array *)
Lemma reads_go_forward_witness :
  let ops1 := [OpField (FU32 7 0) 1 false;
               OpField (FBool false false) 3 true;
               OpArrayBegin 5;
               OpField (FI32 (-2) 0) 1 false] in
  let ops2 := [OpArrayEnd; OpField (FU64 9 0) 8 false] in
  (opsOk [newFrame pckTypeObj] 0 (ops1 ++ ops2) /\
   opsLast [newFrame pckTypeObj] 0 ops1 = 1 /\
   opsLast [newFrame pckTypeObj] 0 (ops1 ++ [OpArrayEnd]) = 5) /\
  exists this',
    opsRead ops1 (pckReadNewBuf [168; 7; 19; 72; 3; 0; 186; 9; 0])
    = Ok ([VU32 7; VBool false; VI32 (-2)], this') /\
    fieldRead (FI32 0 0) 1 false this' = Throw (FormatError "field 1 was already read").
Proof.
  intros ops1 ops2.
  assert (Hok : opsOk [newFrame pckTypeObj] 0 (ops1 ++ ops2)).
  { subst ops1 ops2. unfold ID_MAX. simpl. repeat split; lia. }
  split; [split; [exact Hok|split; reflexivity]|].
  destruct (reads_go_forward ops1 ops2 1 Hok ltac:(discriminate)
              ltac:(vm_compute; discriminate))
    as (bytes & Hwrite & Hread).
  assert (Hb : Ok bytes = pckWriteAll (ops1 ++ ops2)) by (symmetry; exact Hwrite).
  vm_compute in Hb. injection Hb as ->.
  destruct (Hread ltac:(simpl; lia)) as (this' & Hreads & Hfield & _).
  exists this'. split; [exact Hreads|].
  exact (Hfield (FI32 0 0) false).
Defined.

(** * The writer only appends *)

Lemma appends_ret {A : Type} (a : A) : appends (ret a).
Proof.
  intros b stack. exists []. split; [symmetry; apply app_nil_r|].
  intros b0. unfold ret. rewrite app_nil_r. reflexivity.
Qed.

Lemma appends_throw {A : Type} e : appends (throw e : Wr A).
Proof. intros b stack b0. reflexivity. Qed.

Lemma appends_bind {A B : Type} (m : Wr A) (k : A -> Wr B) :
  appends m -> (forall a, appends (k a)) -> appends (bind m k).
Proof.
  intros Hm Hk b stack. specialize (Hm b stack). unfold bind.
  destruct (m (mkPackWrite b stack)) as [[a [b1 stack1]]|e] eqn:Hrun.
  - destruct Hm as (out1 & Hb1 & Hm). cbn [wBuffer wTagStack] in *. subst b1.
    specialize (Hk a (b ++ out1) stack1).
    destruct (k a (mkPackWrite (b ++ out1) stack1)) as [[a2 [b2 stack2]]|e].
    + destruct Hk as (out2 & Hb2 & Hk). cbn [wBuffer wTagStack] in *. subst b2.
      exists (out1 ++ out2). split; [symmetry; apply app_assoc|].
      intros b0. rewrite Hm, Hk, app_assoc. reflexivity.
    + intros b0. rewrite Hm. apply Hk.
  - intros b0. rewrite Hm. reflexivity.
Qed.

Lemma appends_stack {A : Type} (f : list PackTagStack -> A) :
  appends (gets (fun this => f (wTagStack this))).
Proof.
  intros b stack. exists []. split; [symmetry; apply app_nil_r|].
  intros b0. unfold gets. cbn [wTagStack]. rewrite app_nil_r. reflexivity.
Qed.

Lemma appends_topOf {A : Type} (f : PackTagStack -> A) :
  appends (topOf wTagStack f).
Proof.
  intros b stack. unfold topOf. cbn [wTagStack].
  destruct stack as [|top r]; [intros b0; reflexivity|].
  exists []. split; [symmetry; apply app_nil_r|].
  intros b0. cbn [wTagStack]. rewrite app_nil_r. reflexivity.
Qed.

Lemma appends_wUpdTop f : appends (wUpdTop f).
Proof.
  intros b stack. unfold wUpdTop. cbn [wTagStack].
  destruct stack as [|top r]; [intros b0; reflexivity|].
  exists []. split; [symmetry; apply app_nil_r|].
  intros b0. cbn. rewrite app_nil_r. reflexivity.
Qed.

Lemma appends_setStack (f : list PackTagStack -> list PackTagStack) :
  appends (modify (fun this => setWTagStack (f (wTagStack this)) this)).
Proof.
  intros b stack. exists []. split; [symmetry; apply app_nil_r|].
  intros b0. unfold modify. cbn. rewrite app_nil_r. reflexivity.
Qed.

Lemma appends_pckWriteBuffer bytes : appends (pckWriteBuffer bytes).
Proof.
  intros b stack. exists bytes. split; [reflexivity|].
  intros b0. reflexivity.
Qed.

Lemma appends_assert c s : appends (assert c s).
Proof. unfold assert. destruct c; [apply appends_ret|apply appends_throw]. Qed.

Lemma appends_lift {A : Type} (r : Result A) : appends (lift r).
Proof.
  destruct r as [a|e]; [apply (appends_ret a)|apply (appends_throw e)].
Qed.

Lemma appends_packTypeDataAt idx : appends (packTypeDataAt idx).
Proof.
  unfold packTypeDataAt.
  destruct (nth_error packTypeData (Z.to_nat idx));
    [apply appends_ret|apply appends_throw].
Qed.

Lemma appends_when c m : appends m -> appends (when c m).
Proof. intros Hm. unfold when. destruct c; [exact Hm|apply appends_ret]. Qed.

Lemma appends_pckWriteUInt64Internal value :
  appends (pckWriteUInt64Internal value).
Proof.
  unfold pckWriteUInt64Internal.
  destruct (pckWriteUInt64Loop PACK_UINT64_SIZE_MAX value);
    [apply appends_pckWriteBuffer|apply appends_throw].
Qed.

Ltac appends_step :=
  first
    [ apply appends_pckWriteUInt64Internal
    | apply appends_pckWriteBuffer
    | apply appends_ret
    | apply appends_throw
    | apply appends_assert
    | apply appends_lift
    | apply appends_packTypeDataAt
    | apply appends_topOf
    | apply appends_wUpdTop
    | apply (appends_stack (fun stack => stack))
    | apply appends_when
    | apply appends_bind; [|intros ?]
    | match goal with
      | |- appends (if ?c then _ else _) => destruct c
      | |- appends (match ?x with _ => _ end) => destruct x
      end ].

Lemma appends_pckWriteTag type id value : appends (pckWriteTag type id value).
Proof. unfold pckWriteTag. repeat appends_step. Qed.

Lemma appends_pckWriteDefaultNull defaultNull defaultEqual :
  appends (pckWriteDefaultNull defaultNull defaultEqual).
Proof. unfold pckWriteDefaultNull. repeat appends_step. Qed.

Lemma appends_fieldWrite f id defaultNull : appends (fieldWrite f id defaultNull).
Proof.
  destruct f;
    unfold fieldWrite, pckWriteBin, pckWriteBool, pckWriteI32, pckWriteI64,
      pckWritePtr, pckWriteStr, pckWriteTime, pckWriteU32, pckWriteU64;
    (apply appends_bind; [apply appends_pckWriteDefaultNull|intros elided]);
    destruct elided; cbn [negb];
    repeat first [ apply appends_pckWriteTag | appends_step ].
Qed.

Lemma appends_writePush t : appends (writePush t).
Proof. apply (appends_setStack (fun stack => mkPackTagStack t 0 0 :: stack)). Qed.

Lemma appends_writePop : appends writePop.
Proof. apply (appends_setStack (@tl PackTagStack)). Qed.

Lemma appends_opWrite op : appends (opWrite op).
Proof.
  destruct op; cbn [opWrite];
    [ apply appends_fieldWrite
    | apply appends_wUpdTop
    | unfold pckWriteArrayBegin | unfold pckWriteArrayEnd
    | unfold pckWriteObjBegin | unfold pckWriteObjEnd ];
    repeat first [ apply appends_pckWriteTag | apply appends_writePush
                 | apply appends_writePop | appends_step ].
Qed.

Lemma appends_opsWrite ops : appends (opsWrite ops).
Proof.
  induction ops as [|op ops IH]; cbn [opsWrite]; [apply appends_ret|].
  apply appends_bind; [apply appends_opWrite|intros _; exact IH].
Qed.

(** [pckWriteEnd] up to the point where the buffer is handed back *)
Lemma appends_pckWriteEnd_head :
  appends (stack <- gets wTagStack ;;
           assert (Z.of_nat (length stack) =? 1) "lstSize(this->tagStack) == 1" ;;
           pckWriteUInt64Internal 0).
Proof. repeat appends_step. Qed.

(** X10. The writer only appends and never looks at what the buffer
    holds.  A pack written with [pckWriteNewBuf] into a buffer that holds
    [b] already leaves [b] followed by the bytes the same calls write into
    an empty buffer; when the calls fail on the empty buffer they fail on
    this one with the same error.  This holds for all calls, valid or
    not. *)
Theorem writer_appends (ops : list Op) (b : list Z) :
  resultOf ((opsWrite ops ;; pckWriteEnd) (pckWriteNewBuf b))
  = match pckWriteAll ops with
    | Ok bytes => Ok (b ++ bytes)
    | Throw e => Throw e
    end.
Proof.
  pose proof (appends_bind _ _ (appends_opsWrite ops)
                (fun _ => appends_pckWriteEnd_head)) as H.
  assert (Heq : forall s,
            (opsWrite ops ;; pckWriteEnd) s
            = bind (bind (opsWrite ops)
                      (fun _ =>
                         stack <- gets wTagStack ;;
                         assert (Z.of_nat (length stack) =? 1)
                           "lstSize(this->tagStack) == 1" ;;
                         pckWriteUInt64Internal 0))
                (fun _ => gets wBuffer) s).
  { intros s. unfold pckWriteEnd. rewrite bind_assoc.
    apply bind_ext. intros _ s1. rewrite !bind_assoc.
    apply bind_ext. intros stack s2. rewrite bind_assoc. reflexivity. }
  unfold pckWriteAll. rewrite !Heq. clear Heq.
  unfold pckWriteNewBuf, pckWriteNewInternal.
  specialize (H [] [mkPackTagStack pckTypeObj 0 0]).
  set (head := bind (opsWrite ops) _) in *.
  unfold bind.
  destruct (head (mkPackWrite [] [mkPackTagStack pckTypeObj 0 0]))
    as [[u [b1 stack1]]|e].
  - destruct H as (out & Hb1 & H). cbn [wBuffer wTagStack app] in *. subst b1.
    rewrite (H b). reflexivity.
  - rewrite (H b). reflexivity.
Qed.

(** * Writing to a sink *)

(** The bytes on their way to the sink: those it received and those in the
    internal buffer *)
Lemma pckWriteBufferIo_step buffer this :
  bufUsed (ioBuffer this) <= ioBufferSize this ->
  let this' := pckWriteBufferIo buffer this in
  concat (ioWritten this') ++ ioBuffer this'
  = concat (ioWritten this) ++ ioBuffer this ++ buffer /\
  bufUsed (ioBuffer this') <= ioBufferSize this' /\
  ioBufferSize this' = ioBufferSize this /\
  exists calls,
    ioWritten this' = ioWritten this ++ calls /\
    Forall (fun call => call <> [] /\
                        (bufUsed call <= ioBufferSize this \/ call = buffer))
      calls.
Proof.
  intros Hfit. destruct this as [written buf size].
  unfold pckWriteBufferIo, bufRemains, bufUsed in *. cbn [ioBuffer ioBufferSize] in *.
  destruct (Z.leb_spec (Z.of_nat (length buffer)) (size - Z.of_nat (length buf)))
    as [Hle|Hgt].
  - cbn. rewrite length_app. repeat split; try lia.
    exists []. rewrite app_nil_r. split; [reflexivity|constructor].
  - destruct (Z.ltb_spec 0 (Z.of_nat (length buf))) as [Hused|Hempty].
    + cbn [bufUsedZero ioWrite ioBuffer ioBufferSize ioWritten length].
      change (Z.of_nat 0) with 0. rewrite Z.sub_0_r.
      assert (Hbuf : buf <> []) by (destruct buf; [simpl in Hused; lia|discriminate]).
      destruct (Z.leb_spec (Z.of_nat (length buffer)) size) as [Hle|Hbig]; cbn.
      * rewrite concat_app. cbn. rewrite !app_nil_r, <- app_assoc.
        repeat split; try lia.
        exists [buf]. split; [reflexivity|].
        constructor; [|constructor]. split; [exact Hbuf|left; lia].
      * rewrite !concat_app. cbn. rewrite !app_nil_r, <- !app_assoc.
        repeat split; try lia.
        exists [buf; buffer]. split; [reflexivity|].
        constructor; [split; [exact Hbuf|left; lia]|].
        constructor; [|constructor].
        split; [destruct buffer; [simpl in Hbig; lia|discriminate]|right; reflexivity].
    + assert (Hnil : buf = []) by (destruct buf; [reflexivity|simpl in Hempty; lia]).
      subst buf. cbn [ioBuffer ioBufferSize ioWritten length].
      destruct (Z.leb_spec (Z.of_nat (length buffer)) (size - Z.of_nat 0));
        [simpl in *; lia|].
      cbn. rewrite concat_app. cbn. rewrite !app_nil_r.
      repeat split; try lia.
      exists [buffer]. split; [reflexivity|].
      constructor; [|constructor].
      split; [destruct buffer; [simpl in *; lia|discriminate]|right; reflexivity].
Qed.

Lemma pckWriteBuffersIo_stream buffers : forall this,
  bufUsed (ioBuffer this) <= ioBufferSize this ->
  let this' := pckWriteBuffersIo buffers this in
  concat (ioWritten this') ++ ioBuffer this'
  = concat (ioWritten this) ++ ioBuffer this ++ concat buffers /\
  bufUsed (ioBuffer this') <= ioBufferSize this' /\
  ioBufferSize this' = ioBufferSize this /\
  exists calls,
    ioWritten this' = ioWritten this ++ calls /\
    Forall (fun call => call <> [] /\
                        (bufUsed call <= ioBufferSize this \/ In call buffers))
      calls.
Proof.
  induction buffers as [|buffer buffers IH]; intros this Hfit; cbn zeta.
  - cbn. rewrite !app_nil_r. repeat split; try lia.
    exists []. rewrite app_nil_r. split; [reflexivity|constructor].
  - cbn [pckWriteBuffersIo fold_left concat].
    destruct (pckWriteBufferIo_step buffer this Hfit)
      as (Hstream & Hfit1 & Hsize1 & calls1 & Hcalls1 & Hall1).
    destruct (IH (pckWriteBufferIo buffer this) Hfit1)
      as (Hstream' & Hfit' & Hsize' & calls' & Hcalls' & Hall').
    fold (pckWriteBuffersIo buffers (pckWriteBufferIo buffer this)).
    split; [rewrite Hstream', app_assoc, Hstream, <- !app_assoc; reflexivity|].
    split; [exact Hfit'|]. split; [congruence|].
    exists (calls1 ++ calls'). split; [rewrite Hcalls', Hcalls1, app_assoc; reflexivity|].
    apply Forall_app. split.
    + eapply Forall_impl; [|exact Hall1]. cbv beta.
      intros call (Hne & [Hle| ->]); (split; [exact Hne|]);
        [left; exact Hle|right; left; reflexivity].
    + eapply Forall_impl; [|exact Hall']. cbv beta.
      intros call (Hne & [Hle|Hin]); (split; [exact Hne|]);
        [left; lia|right; right; exact Hin].
Qed.

(** X11. The writer with a sink delivers the stream in order.  After any
    sequence of [pckWriteBuffer] calls and the end of [pckWriteEnd], the
    calls the sink received, concatenated, are what it had received before,
    the bytes that were in the internal buffer, the buffers written in
    their order and the terminator: the bytes a writer on a buffer holds.
    The internal buffer never holds more than its size, the sink is never
    called with no bytes, and a call carries at most the size of the
    internal buffer unless it passes on a larger buffer as it was
    written. *)
Theorem sink_receives_stream (buffers : list (list Z)) (this : PackWriteIo) :
  bufUsed (ioBuffer this) <= ioBufferSize this ->
  let this' := pckWriteEndIo (pckWriteBuffersIo buffers this) in
  bufUsed (ioBuffer (pckWriteBuffersIo buffers this)) <= ioBufferSize this /\
  concat (ioWritten this')
  = concat (ioWritten this) ++ ioBuffer this ++ concat buffers ++ [0] /\
  exists calls,
    ioWritten this' = ioWritten this ++ calls /\
    Forall (fun call =>
              call <> [] /\
              (bufUsed call <= ioBufferSize this \/ In call (buffers ++ [[0]])))
      calls.
Proof.
  intros Hfit.
  destruct (pckWriteBuffersIo_stream buffers this Hfit) as (_ & Hfit1 & Hsize1 & _).
  destruct (pckWriteBuffersIo_stream (buffers ++ [[0]]) this Hfit)
    as (Hstream & Hfit2 & Hsize2 & calls & Hcalls & Hall).
  cbv zeta in *.
  unfold pckWriteEndIo. cbv zeta.
  unfold pckWriteBuffersIo in Hstream, Hfit2, Hsize2, Hcalls.
  rewrite fold_left_app in Hstream, Hfit2, Hsize2, Hcalls.
  cbn [fold_left] in Hstream, Hfit2, Hsize2, Hcalls.
  fold (pckWriteBuffersIo buffers this) in Hstream, Hfit2, Hsize2, Hcalls.
  set (this2 := pckWriteBufferIo [0] (pckWriteBuffersIo buffers this)) in *.
  rewrite concat_app in Hstream. cbn [concat] in Hstream.
  rewrite app_nil_r in Hstream.
  split; [lia|].
  destruct (Z.ltb_spec 0 (bufUsed (ioBuffer this2))) as [Hused|Hempty].
  - cbn [ioWrite ioWritten]. rewrite concat_app. cbn [concat].
    rewrite app_nil_r. split; [exact Hstream|].
    exists (calls ++ [ioBuffer this2]).
    split; [rewrite Hcalls, app_assoc; reflexivity|].
    apply Forall_app. split; [exact Hall|].
    constructor; [|constructor]. split; [|left; lia].
    destruct (ioBuffer this2); [unfold bufUsed in Hused; simpl in Hused; lia
                               |discriminate].
  - assert (Hnil : ioBuffer this2 = []).
    { destruct (ioBuffer this2); [reflexivity|].
      unfold bufUsed in Hempty. simpl in Hempty. lia. }
    rewrite Hnil, app_nil_r in Hstream.
    split; [exact Hstream|]. exists calls. split; [exact Hcalls|exact Hall].
Qed.

(** A buffer of four bytes: two small writes are batched, a write of five
    bytes is passed on after them, and the terminator is flushed at the
    end *)
Lemma sink_receives_stream_witness :
  let this := mkPackWriteIo [] [] 4 in
  let buffers := [[1; 2]; [3]; [4; 5; 6; 7; 8]; [9]] in
  bufUsed (ioBuffer this) <= ioBufferSize this /\
  ioWritten (pckWriteEndIo (pckWriteBuffersIo buffers this))
  = [[1; 2; 3]; [4; 5; 6; 7; 8]; [9; 0]] /\
  concat (ioWritten (pckWriteEndIo (pckWriteBuffersIo buffers this)))
  = [1; 2; 3; 4; 5; 6; 7; 8; 9; 0].
Proof.
  intros this buffers.
  assert (Hfit : bufUsed (ioBuffer this) <= ioBufferSize this)
    by (unfold bufUsed; simpl; lia).
  split; [exact Hfit|]. split; [reflexivity|].
  exact (proj1 (proj2 (sink_receives_stream buffers this Hfit))).
Defined.

(** * Reading from a source *)

Lemma firstn_add_skipn {A : Type} (c m : nat) (l : list A) :
  firstn (c + m) l = firstn c l ++ firstn m (skipn c l).
Proof.
  revert l. induction c as [|c IH]; intros l; [reflexivity|].
  destruct l as [|x l]; [simpl; rewrite firstn_nil; reflexivity|].
  simpl. rewrite IH. reflexivity.
Qed.

(** One pass: with nothing left in the buffer, the buffer is filled with
    the next bytes of the source, at most as many as are asked for and as
    the buffer holds, and all of them are returned *)
Lemma pckReadBufferIo_fill sz this :
  ioBufferMax this = ioBufferPos this -> 1 <= ioSizeAlloc this ->
  1 <= sz < 18446744073709551616 ->
  let limit := Z.to_nat (Z.min sz (ioSizeAlloc this)) in
  let bytes := firstn limit (ioRead this) in
  pckReadBufferIo sz this
  = match bytes with
    | [] => Throw (FormatError "unexpected EOF")
    | _ :: _ =>
        Ok (Z.of_nat (length bytes),
            mkPackReadIo (skipn limit (ioRead this)) bytes 0
              (Z.of_nat (length bytes)) (ioSizeAlloc this))
    end.
Proof.
  intros Hmax Halloc Hsz. cbv zeta. unfold pckReadBufferIo.
  rewrite Hmax, Z.sub_diag. change (u64 0) with 0.
  destruct (Z.ltb_spec 0 sz); [|lia]. change (negb (0 =? 0)) with false.
  cbv iota. cbn [ioBufferMax ioBufferPos].
  replace (if sz <? ioSizeAlloc this then sz else ioSizeAlloc this)
    with (Z.min sz (ioSizeAlloc this))
    by (destruct (Z.ltb_spec sz (ioSizeAlloc this)); lia).
  set (limit := Z.to_nat (Z.min sz (ioSizeAlloc this))).
  pose proof (firstn_le_length limit (ioRead this)) as Hlen.
  set (bytes := firstn limit (ioRead this)) in *.
  rewrite Z.sub_0_r, u64_small by lia.
  destruct bytes as [|x bytes]; [reflexivity|].
  destruct (Z.ltb_spec (Z.of_nat (length (x :: bytes))) 1);
    [simpl length in *; lia|].
  destruct (Z.ltb_spec (Z.of_nat (length (x :: bytes))) sz); [reflexivity|].
  f_equal. f_equal. lia.
Qed.

(** The loop on a source that holds the bytes expected *)
Lemma pckReadDataIo_reads fuel : forall n result this,
  ioBufferMax this = ioBufferPos this -> 1 <= ioSizeAlloc this ->
  0 <= n -> Z.of_nat (length result) + n < 18446744073709551616 ->
  (Z.to_nat n <= fuel)%nat -> (Z.to_nat n <= length (ioRead this))%nat ->
  exists this',
    pckReadDataIo fuel (Z.of_nat (length result) + n) result this
    = Ok (result ++ firstn (Z.to_nat n) (ioRead this), this') /\
    ioRead this' = skipn (Z.to_nat n) (ioRead this) /\
    (n = 0 -> this' = this) /\
    ioBufferMax this' = ioBufferPos this' /\
    ioSizeAlloc this' = ioSizeAlloc this.
Proof.
  induction fuel as [|fuel IH]; intros n result this Hmax Halloc Hn Hbound Hfuel Hsrc.
  - assert (n = 0) as -> by lia. exists this.
    cbn [pckReadDataIo]. rewrite Z.add_0_r, Z.ltb_irrefl.
    cbn. rewrite app_nil_r. auto.
  - cbn [pckReadDataIo].
    destruct (Z.ltb_spec (Z.of_nat (length result)) (Z.of_nat (length result) + n))
      as [Hlt|Hge].
    + replace (Z.of_nat (length result) + n - Z.of_nat (length result)) with n by lia.
      rewrite u64_small by lia.
      unfold bind at 1.
      rewrite (pckReadBufferIo_fill n this Hmax Halloc ltac:(lia)). cbv zeta.
      set (limit := Z.to_nat (Z.min n (ioSizeAlloc this))).
      assert (Hlimit : (1 <= limit <= Z.to_nat n)%nat) by (subst limit; lia).
      pose proof (firstn_length_le (ioRead this) (n := limit) ltac:(lia)) as Hlen.
      destruct (firstn limit (ioRead this)) as [|x bytes] eqn:Hbytes;
        [simpl in Hlen; lia|].
      rewrite <- Hbytes in *. clear x bytes Hbytes.
      set (chunk := firstn limit (ioRead this)) in *.
      unfold bind at 1, gets at 1. cbn [ioBufferPos ioBufferPtr].
      unfold bind at 1, modify at 1. cbn [ioBufferPos ioBufferPtr ioRead ioBufferMax ioSizeAlloc].
      change (Z.to_nat 0) with 0%nat. cbn [skipn].
      rewrite Nat2Z.id, Z.add_0_l.
      rewrite (firstn_all2 (n := length chunk) chunk) by lia.
      rewrite u64_small by lia.
      set (this1 := mkPackReadIo _ _ _ _ _).
      destruct (IH (n - Z.of_nat limit) (result ++ chunk) this1) as
        (this' & Hrun & Hread & _ & Hmax' & Halloc'); subst this1;
        cbn [ioBufferMax ioBufferPos ioSizeAlloc ioRead];
        try rewrite length_app; try rewrite length_skipn; try lia.
      exists this'.
      replace (Z.of_nat (length result) + n)
        with (Z.of_nat (length (result ++ chunk)) + (n - Z.of_nat limit))
        by (rewrite length_app; lia).
      rewrite Hrun. cbn [ioRead] in Hread.
      split; [|split; [|split; [lia|split; [exact Hmax'|exact Halloc']]]].
      * cbn [ioRead]. rewrite <- app_assoc. do 3 f_equal.
        replace (Z.to_nat n) with (limit + Z.to_nat (n - Z.of_nat limit))%nat by lia.
        subst chunk. symmetry. apply firstn_add_skipn.
      * rewrite Hread, skipn_skipn. f_equal. lia.
    + assert (n = 0) as -> by lia. exists this.
      cbn. rewrite app_nil_r. auto.
Qed.

(** The loop on a source that ends before the bytes expected *)
Lemma pckReadDataIo_eof fuel : forall n result this,
  ioBufferMax this = ioBufferPos this -> 1 <= ioSizeAlloc this ->
  Z.of_nat (length result) + n < 18446744073709551616 ->
  (length (ioRead this) < fuel)%nat -> (length (ioRead this) < Z.to_nat n)%nat ->
  pckReadDataIo fuel (Z.of_nat (length result) + n) result this
  = Throw (FormatError "unexpected EOF").
Proof.
  induction fuel as [|fuel IH]; intros n result this Hmax Halloc Hbound Hfuel Hsrc;
    [lia|].
  cbn [pckReadDataIo].
  destruct (Z.ltb_spec (Z.of_nat (length result)) (Z.of_nat (length result) + n));
    [|lia].
  replace (Z.of_nat (length result) + n - Z.of_nat (length result)) with n by lia.
  rewrite u64_small by lia.
  unfold bind at 1.
  rewrite (pckReadBufferIo_fill n this Hmax Halloc ltac:(lia)). cbv zeta.
  set (limit := Z.to_nat (Z.min n (ioSizeAlloc this))).
  assert (Hlimit : (1 <= limit <= Z.to_nat n)%nat) by (subst limit; lia).
  pose proof (length_firstn limit (ioRead this)) as Hlen.
  destruct (firstn limit (ioRead this)) as [|x bytes] eqn:Hbytes; [reflexivity|].
  assert (Hpos : (1 <= length (firstn limit (ioRead this)))%nat)
    by (rewrite Hbytes; simpl; lia).
  rewrite <- Hbytes in *. clear x bytes Hbytes.
  set (chunk := firstn limit (ioRead this)) in *.
  unfold bind at 1, gets at 1. cbn [ioBufferPos ioBufferPtr].
  unfold bind at 1, modify at 1.
  cbn [ioBufferPos ioBufferPtr ioRead ioBufferMax ioSizeAlloc].
  change (Z.to_nat 0) with 0%nat. cbn [skipn].
  rewrite Nat2Z.id, Z.add_0_l.
  rewrite (firstn_all2 (n := length chunk) chunk) by lia.
  rewrite u64_small by lia.
  set (this1 := mkPackReadIo _ _ _ _ _).
  replace (Z.of_nat (length result) + n)
    with (Z.of_nat (length (result ++ chunk)) + (n - Z.of_nat (length chunk)))
    by (rewrite length_app; lia).
  apply (IH (n - Z.of_nat (length chunk)) (result ++ chunk) this1); subst this1;
    cbn [ioBufferMax ioBufferPos ioSizeAlloc ioRead];
    try rewrite length_app; try rewrite length_skipn; try lia.
Qed.

(** X12. A payload is read from a source through a buffer of any size.
    Between two reads nothing is left in the internal buffer; from there
    the loop of [pckReadBin], which asks [pckReadBuffer] for what is
    missing and takes what it returns, collects the next bytes of the
    source in their order, as many as expected, in passes of at most the
    size of the buffer, leaves the source after them and the buffer used
    up, and never fails the assertion [remaining == 0].  When the source
    ends before the bytes expected, the loop throws "unexpected EOF". *)
Theorem source_payload (this : PackReadIo) (n : Z) :
  ioBufferMax this = ioBufferPos this -> 1 <= ioSizeAlloc this ->
  0 <= n < 18446744073709551616 ->
  ((Z.to_nat n <= length (ioRead this))%nat ->
   exists this',
     pckReadDataIo (Z.to_nat n) n [] this
     = Ok (firstn (Z.to_nat n) (ioRead this), this') /\
     ioRead this' = skipn (Z.to_nat n) (ioRead this) /\
     ioBufferMax this' = ioBufferPos this' /\
     ioSizeAlloc this' = ioSizeAlloc this) /\
  ((length (ioRead this) < Z.to_nat n)%nat ->
   pckReadDataIo (Z.to_nat n) n [] this = Throw (FormatError "unexpected EOF")).
Proof.
  intros Hmax Halloc Hn. split; intros Hsrc.
  - destruct (pckReadDataIo_reads (Z.to_nat n) n [] this Hmax Halloc
                ltac:(lia) ltac:(simpl; lia) (Nat.le_refl _) Hsrc)
      as (this' & Hrun & Hread & _ & Hmax' & Halloc').
    exists this'. cbn [length app] in Hrun. rewrite Z.add_0_l in Hrun. auto.
  - apply (pckReadDataIo_eof (Z.to_nat n) n [] this Hmax Halloc
             ltac:(simpl; lia) Hsrc Hsrc).
Qed.

(** Seven bytes through a buffer of three, and a source that ends after five *)
Lemma source_payload_witness :
  let this := mkPackReadIo [1; 2; 3; 4; 5; 6; 7; 8; 9] [] 0 0 3 in
  (ioBufferMax this = ioBufferPos this /\ 1 <= ioSizeAlloc this /\
   0 <= 7 < 18446744073709551616 /\ (Z.to_nat 7 <= length (ioRead this))%nat) /\
  (exists this',
     pckReadDataIo 7 7 [] this = Ok ([1; 2; 3; 4; 5; 6; 7], this') /\
     ioRead this' = [8; 9]) /\
  pckReadDataIo 7 7 [] (mkPackReadIo [1; 2; 3; 4; 5] [] 0 0 3)
  = Throw (FormatError "unexpected EOF").
Proof.
  intros this.
  assert (Hmax : ioBufferMax this = ioBufferPos this) by reflexivity.
  assert (Halloc : 1 <= ioSizeAlloc this) by (simpl; lia).
  assert (Hn : 0 <= 7 < 18446744073709551616) by lia.
  assert (Hsrc : (Z.to_nat 7 <= length (ioRead this))%nat) by (simpl; lia).
  split; [auto|]. split.
  - destruct (proj1 (source_payload this 7 Hmax Halloc Hn) Hsrc)
      as (this' & Hrun & Hread & _).
    exists this'. split; [exact Hrun|exact Hread].
  - apply (proj2 (source_payload (mkPackReadIo [1; 2; 3; 4; 5] [] 0 0 3) 7
                    eq_refl ltac:(simpl; lia) Hn)).
    simpl. lia.
Defined.

(** * Tags of a type outside the table *)

Lemma packTypeDataAt_outside {S : Type} idx :
  12 <= idx -> @packTypeDataAt S idx
               = throw (Undefined "packTypeData index out of bounds").
Proof.
  intros H. unfold packTypeDataAt.
  destruct (nth_error packTypeData (Z.to_nat idx)) eqn:Hn; [|reflexivity].
  assert (Hlt : (Z.to_nat idx < length packTypeData)%nat)
    by (apply nth_error_Some; congruence).
  change (length packTypeData) with 12%nat in Hlt. lia.
Qed.

(** X14. A tag byte from C0 to FF has a type, its high four bits, from 12
    to 15, and [packTypeData] has twelve entries.  On such a byte
    [pckReadTagNext] takes the byte and reads [packTypeData] outside its
    bounds, which is undefined, where a format error is raised for other
    input that no writer emits; so do [pckReadNext] and, when the lookahead
    is empty and the frame's last ID is below the ID asked for, every typed
    read, [pckReadNull] and both container begins. *)
Theorem tag_type_outside_table (this : PackRead) (tag : Z) (rest : list Z) :
  wfRead this -> unread this = tag :: rest -> 0xC0 <= tag <= 0xFF ->
  let outside := Undefined "packTypeData index out of bounds" in
  pckReadTagNext this = Throw outside /\
  pckReadNext this = Throw outside /\
  (tagNextId this = 0 ->
   forall id, id = 0 \/ topIdLast (tagStack this) < id ->
     tagStack this <> [] ->
     (forall f defaultNull, fieldRead f id defaultNull this = Throw outside) /\
     pckReadNull id this = Throw outside /\
     pckReadArrayBegin id this = Throw outside /\
     pckReadObjBegin id this = Throw outside).
Proof.
  intros Hwf Hu Htag. cbv zeta.
  assert (Hnext : pckReadTagNext this
                  = Throw (Undefined "packTypeData index out of bounds")).
  { unfold pckReadTagNext.
    rewrite (bind_Ok _ _ _ _ _
               (pckReadBuffer_all 1 this Hwf ltac:(rewrite Hu; simpl; lia))).
    rewrite (bind_Ok _ _ _ _ _ (bufferByte_head _ _ _ Hu)).
    rewrite (bind_Ok _ _ _ _ _
               (bufferPosAdd_advance 1 this Hwf ltac:(rewrite Hu; simpl; lia))).
    destruct (Z.eqb_spec tag 0); [lia|].
    rewrite bind_modify.
    rewrite packTypeDataAt_outside; [reflexivity|].
    rewrite Z.shiftr_div_pow2 by lia. change (2 ^ 4) with 16.
    apply Z.div_le_lower_bound; lia. }
  split; [exact Hnext|]. split; [exact Hnext|].
  intros Hempty id Hid Hne.
  assert (Hload : loadTag this
                  = Throw (Undefined "packTypeData index out of bounds")).
  { unfold loadTag. rewrite bind_gets, Hempty.
    change (0 =? 0) with true. cbv iota.
    apply bind_Throw. exact Hnext. }
  destruct (tagStack this) as [|top r] eqn:Hts; [congruence|]. clear Hne.
  cbn [topIdLast] in Hid.
  assert (Htag' : forall type peek, validCall type peek = true ->
            pckReadTag id type peek this
            = Throw (Undefined "packTypeData index out of bounds")).
  { intros type peek Hcall. unfold pckReadTag. fold (validCall type peek).
    rewrite (pckReadTag_start this top r id type peek Hcall Hts Hid).
    cbv beta. rewrite bind_gets.
    apply bind_Throw.
    destruct (pckReadTagFuel this) as [|fuel] eqn:Hfuel.
    - unfold pckReadTagFuel in Hfuel. lia.
    - cbn [pckReadTagLoop]. apply bind_Throw. exact Hload. }
  assert (Hnull : forall id', id' = id ->
            pckReadNullInternal id' this
            = Throw (Undefined "packTypeData index out of bounds")).
  { intros id' ->. unfold pckReadNullInternal. apply bind_Throw.
    apply Htag'. reflexivity. }
  split; [|split; [|split]].
  - intros f defaultNull.
    destruct f; cbn [fieldRead];
      unfold pckReadBin, pckReadBool, pckReadI32, pckReadI64, pckReadPtr,
        pckReadStr, pckReadTime, pckReadU32, pckReadU64;
      apply bind_Throw;
      (destruct defaultNull; unfold pckReadDefaultNull;
       [ apply bind_Throw; apply bind_Throw; apply Hnull; reflexivity
       | rewrite bind_ret; cbn [fst snd]; apply bind_Throw; apply Htag';
         reflexivity ]).
  - unfold pckReadNull. apply bind_Throw. apply Hnull. reflexivity.
  - unfold pckReadArrayBegin. apply bind_Throw. apply Htag'. reflexivity.
  - unfold pckReadObjBegin. apply bind_Throw. apply Htag'. reflexivity.
Qed.

(** The byte C0 at the start of a buffer *)
Lemma tag_type_outside_table_witness :
  let this := pckReadNewBuf [0xC0; 0x00] in
  (wfRead this /\ unread this = 0xC0 :: [0x00] /\ 0xC0 <= 0xC0 <= 0xFF) /\
  pckReadNext this = Throw (Undefined "packTypeData index out of bounds") /\
  fieldRead (FU32 0 0) 1 false this
  = Throw (Undefined "packTypeData index out of bounds").
Proof.
  intros this.
  assert (Hwf : wfRead this) by (unfold wfRead; simpl; lia).
  assert (Hu : unread this = 0xC0 :: [0x00]) by reflexivity.
  assert (Htag : 0xC0 <= 0xC0 <= 0xFF) by lia.
  split; [auto|].
  destruct (tag_type_outside_table this 0xC0 [0x00] Hwf Hu Htag)
    as (_ & Hnext & Hreads).
  split; [exact Hnext|].
  destruct (Hreads eq_refl 1 ltac:(right; simpl; lia) ltac:(discriminate))
    as (Hfield & _).
  exact (Hfield (FU32 0 0) false).
Defined.

